(** * LibrePitch: effect chain, offline renderer, encoders and BPM estimator

    A shallow embedding of the audio core of LibrePitch (TypeScript):
    - [Graph]   the live effect chain ([createAudioGraph] and its setters),
    - [AudioExport] the offline renderer, the 16-bit sample conversion and the
                ID3v1 text truncation,
    - [Bpm]     the tempo estimator ([detectBPM]),
    - [Playback] the cutoffs and the transport of the live chain (play, pause,
                seek, stop, the end of the source),
    - [Mp3Export], [WavFile], [RenderProgress], [Downloads] the MP3 encoder
                loop and its tags, the WAV file, the progress reports of a
                render and the WAV download,
    - [AlacDecode] the de-interleaving of decoded ALAC audio,
    - [LiveChain] the live chain once more, on all JavaScript numbers and
                with the cutoff parameters of its filters,
    - [Controls] the time display of the controls,
    - [Visualizer] the frequency bins the visualizers read.

    Numbers.  A JavaScript [number] is modelled as an exact rational ([Q]):
    finite values only, and the rounding of binary64 arithmetic is not part
    of that model.  Integers produced by [Math.floor], [Math.ceil] and
    [Math.round] are values of [Z].  Platform functions that have no rational
    counterpart ([Math.sqrt], [Math.pow]) and the Web Audio engine are taken
    as parameters of the sections that use them.  Where the exact model
    says less than the code does, the code is embedded again: the setters
    of the live chain on numbers that can be NaN or infinite ([LiveChain],
    of which [Graph] is the finite part), and the frame counts of
    [renderOffline], where rounding changes an integer result, on rounded
    arithmetic ([Rounded], with the rounding as a parameter) and on
    binary64 floats ([Binary64], for concrete runs). *)

From Stdlib Require Import ZArith QArith Qround Qreduction Qpower Lqa Lia List Bool String Ascii.
From Stdlib Require Import DecimalString.
From Stdlib Require PrimFloat FloatOps SpecFloat.
Import ListNotations.

Open Scope Q_scope.

(* ===================================================================== *)
(** * Part I: definitions                                                 *)
(* ===================================================================== *)

(** ** JavaScript [Math] on rationals *)
Module JsMath.

Definition Qltb (a b : Q) : bool := negb (Qle_bool b a).

(** [Math.max(a, b)] *)
Definition max (a b : Q) : Q := if Qle_bool a b then b else a.

(** [Math.min(a, b)] *)
Definition min (a b : Q) : Q := if Qle_bool a b then a else b.

(** [Math.floor(x)] *)
Definition floor (x : Q) : Z := Qfloor x.

(** [Math.ceil(x)] *)
Definition ceil (x : Q) : Z := Qceiling x.

(** [Math.round(x)]: the integer nearest to [x], ties towards +infinity. *)
Definition round (x : Q) : Z := Qfloor (x + (1 # 2)).

(** Distributes [inject_Z] over integer sums and products. *)
Ltac push_inject :=
  repeat (rewrite inject_Z_mult || rewrite inject_Z_plus || rewrite inject_Z_opp);
  change (inject_Z 60) with 60; change (inject_Z 1) with 1.

End JsMath.

(** ** Thrown values and completions

    A call either returns a value or throws.  A thrown value is an [Error]
    object (with its [name] and [message]) or any other value, of which the
    code only ever observes [String(err)]. *)
Inductive Thrown : Type :=
| ErrorObj (name message : string)
| NonError (asString : string).

Inductive completion (A : Type) : Type :=
| Return (a : A)
| Throw (e : Thrown).
Arguments Return {A} a.
Arguments Throw {A} e.

Definition bind {A B : Type} (c : completion A) (k : A -> completion B) : completion B :=
  match c with
  | Return a => k a
  | Throw e => Throw e
  end.

(** [try { c } catch (err) { h err }] *)
Definition try_catch {A : Type} (c : completion A) (h : Thrown -> completion A) : completion A :=
  match c with
  | Return a => Return a
  | Throw e => h e
  end.

Notation "x <- c ;; k" := (bind c (fun x => k))
  (at level 61, c at next level, right associativity).

(** ** The live effect chain (audio/graph) *)
Module Graph.

Inductive ReverbType : Type := delay | original.

Record AudioGraphState : Type := mkState {
  speed : Q;
  detune : Q;
  bass : Q;
  treble : Q;
  lowpass : Q;
  highpass : Q;
  reverb : Q;
  reverbType : ReverbType;
  volume : Q
}.

(** The [AudioBufferSourceNode] of the chain, when one is playing. *)
Record SourceNode : Type := mkSource {
  playbackRate : Q;
  sourceDetune : Q
}.

(** The nodes of the chain whose parameters the setters write.  The cutoff
    frequencies of the two pass filters (an exponential of the stored
    amount) are left out here, and with them the call of
    [setFilterFreqs()] in [setLowpass] and [setHighpass]: no setter reads
    them back.  [LiveChain] has them. *)
Record AudioGraph : Type := mkGraph {
  state : AudioGraphState;
  source : option SourceNode;
  bassFilterGain : Q;
  trebleFilterGain : Q;
  dryGain : Q;
  wetGain : Q;
  gainNode : Q;
  wetInput : ReverbType
}.

(** [setReverbGains(amount)]: the new (dry, wet) gains under reverb type [t]. *)
Definition setReverbGains (t : ReverbType) (amount : Q) : Q * Q :=
  match t with
  | delay => (1, (amount / 100) * (45 # 100))
  | original => let w := (amount / 100) * (5 # 10) in (1 - w, w)
  end.

Definition initialState : AudioGraphState :=
  mkState 1 0 0 0 0 0 0 delay 1.

(** [createAudioGraph(buffer)]: the chain right after construction. *)
Definition createAudioGraph : AudioGraph :=
  mkGraph initialState None 0 0 1 0 1 delay.

Definition with_state (g : AudioGraph) (s : AudioGraphState) : AudioGraph :=
  mkGraph s (source g) (bassFilterGain g) (trebleFilterGain g)
          (dryGain g) (wetGain g) (gainNode g) (wetInput g).

Definition with_gains (g : AudioGraph) (dw : Q * Q) : AudioGraph :=
  mkGraph (state g) (source g) (bassFilterGain g) (trebleFilterGain g)
          (fst dw) (snd dw) (gainNode g) (wetInput g).

Definition setSpeed (value : Q) (g : AudioGraph) : AudioGraph :=
  let s := state g in
  let s' := mkState value (detune s) (bass s) (treble s) (lowpass s)
                    (highpass s) (reverb s) (reverbType s) (volume s) in
  mkGraph s'
          (match source g with
           | Some src => Some (mkSource value (sourceDetune src))
           | None => None
           end)
          (bassFilterGain g) (trebleFilterGain g) (dryGain g) (wetGain g)
          (gainNode g) (wetInput g).

Definition setDetune (cents : Q) (g : AudioGraph) : AudioGraph :=
  let s := state g in
  let s' := mkState (speed s) cents (bass s) (treble s) (lowpass s)
                    (highpass s) (reverb s) (reverbType s) (volume s) in
  mkGraph s'
          (match source g with
           | Some src => Some (mkSource (playbackRate src) cents)
           | None => None
           end)
          (bassFilterGain g) (trebleFilterGain g) (dryGain g) (wetGain g)
          (gainNode g) (wetInput g).

Definition setBass (db : Q) (g : AudioGraph) : AudioGraph :=
  let s := state g in
  let s' := mkState (speed s) (detune s) db (treble s) (lowpass s)
                    (highpass s) (reverb s) (reverbType s) (volume s) in
  mkGraph s' (source g) db (trebleFilterGain g) (dryGain g) (wetGain g)
          (gainNode g) (wetInput g).

Definition setTreble (db : Q) (g : AudioGraph) : AudioGraph :=
  let s := state g in
  let s' := mkState (speed s) (detune s) (bass s) db (lowpass s)
                    (highpass s) (reverb s) (reverbType s) (volume s) in
  mkGraph s' (source g) (bassFilterGain g) db (dryGain g) (wetGain g)
          (gainNode g) (wetInput g).

Definition setLowpass (amount : Q) (g : AudioGraph) : AudioGraph :=
  let s := state g in
  with_state g
    (mkState (speed s) (detune s) (bass s) (treble s)
             (JsMath.max 0 (JsMath.min 100 amount))
             (highpass s) (reverb s) (reverbType s) (volume s)).

Definition setHighpass (amount : Q) (g : AudioGraph) : AudioGraph :=
  let s := state g in
  with_state g
    (mkState (speed s) (detune s) (bass s) (treble s) (lowpass s)
             (JsMath.max 0 (JsMath.min 100 amount))
             (reverb s) (reverbType s) (volume s)).

Definition setReverb (amount : Q) (g : AudioGraph) : AudioGraph :=
  let s := state g in
  let r := JsMath.max 0 (JsMath.min 100 amount) in
  let g' := with_state g
    (mkState (speed s) (detune s) (bass s) (treble s) (lowpass s)
             (highpass s) r (reverbType s) (volume s)) in
  with_gains g' (setReverbGains (reverbType (state g')) (reverb (state g'))).

Definition setReverbType (type : ReverbType) (g : AudioGraph) : AudioGraph :=
  let s := state g in
  let s' := mkState (speed s) (detune s) (bass s) (treble s) (lowpass s)
                    (highpass s) (reverb s) type (volume s) in
  (* connectActiveReverbToWet() *)
  let g' := mkGraph s' (source g) (bassFilterGain g) (trebleFilterGain g)
                    (dryGain g) (wetGain g) (gainNode g) type in
  with_gains g' (setReverbGains (reverbType s') (reverb s')).

Definition setVolume (value : Q) (g : AudioGraph) : AudioGraph :=
  let s := state g in
  let s' := mkState (speed s) (detune s) (bass s) (treble s) (lowpass s)
                    (highpass s) (reverb s) (reverbType s) value in
  mkGraph s' (source g) (bassFilterGain g) (trebleFilterGain g)
          (dryGain g) (wetGain g) value (wetInput g).

(** [play()] creates a source node from the stored speed and detune;
    [stop()] and [pause()] drop it. *)
Definition play (g : AudioGraph) : AudioGraph :=
  mkGraph (state g)
          (Some (mkSource (speed (state g)) (detune (state g))))
          (bassFilterGain g) (trebleFilterGain g) (dryGain g) (wetGain g)
          (gainNode g) (wetInput g).

Definition stop (g : AudioGraph) : AudioGraph :=
  mkGraph (state g) None (bassFilterGain g) (trebleFilterGain g)
          (dryGain g) (wetGain g) (gainNode g) (wetInput g).

(** [getState()] returns a copy of the stored record. *)
Definition getState (g : AudioGraph) : AudioGraphState := state g.

(** One call on the chain's interface. *)
Inductive Call : Type :=
| SetSpeed (value : Q)
| SetDetune (cents : Q)
| SetBass (db : Q)
| SetTreble (db : Q)
| SetLowpass (amount : Q)
| SetHighpass (amount : Q)
| SetReverb (amount : Q)
| SetReverbType (type : ReverbType)
| SetVolume (value : Q)
| Play
| Stop.

Definition step (g : AudioGraph) (c : Call) : AudioGraph :=
  match c with
  | SetSpeed v => setSpeed v g
  | SetDetune v => setDetune v g
  | SetBass v => setBass v g
  | SetTreble v => setTreble v g
  | SetLowpass v => setLowpass v g
  | SetHighpass v => setHighpass v g
  | SetReverb v => setReverb v g
  | SetReverbType t => setReverbType t g
  | SetVolume v => setVolume v g
  | Play => play g
  | Stop => stop g
  end.

(** The chain after a sequence of calls, from construction. *)
Definition run (calls : list Call) : AudioGraph :=
  fold_left step calls createAudioGraph.

(** *** Vocabulary of the statements *)

(** The percentage-like fields of a stored state lie in [[0, 100]]. *)
Definition percent_fields_ok (s : AudioGraphState) : Prop :=
  (0 <= lowpass s /\ lowpass s <= 100) /\
  (0 <= highpass s /\ highpass s <= 100) /\
  (0 <= reverb s /\ reverb s <= 100).

(** The mixer gains are the ones [setReverbGains] derives from the stored
    reverb type and amount. *)
Definition gains_follow_state (g : AudioGraph) : Prop :=
  dryGain g == fst (setReverbGains (reverbType (state g)) (reverb (state g))) /\
  wetGain g == snd (setReverbGains (reverbType (state g)) (reverb (state g))).

(** The policy in the spec's words: the comb ([delay]) reverb leaves the
    dry path at unity and scales the send by 0.45; the convolution
    ([original]) reverb blends, wet = amount/100 * 0.5 and dry = 1 - wet. *)
Definition follows_policy (t : ReverbType) (amount dry wet : Q) : Prop :=
  match t with
  | delay => dry == 1 /\ wet == (amount / 100) * (45 # 100)
  | original => wet == (amount / 100) * (5 # 10) /\ dry == 1 - wet /\ dry + wet == 1
  end.

End Graph.

(** ** Audio buffers (the Web Audio [AudioBuffer]) *)
Record AudioBuffer : Type := mkBuffer {
  sampleRate : Q;
  bufferLength : nat;                 (* buffer.length, in frames *)
  channelData : list (list Q)         (* getChannelData(0), (1), ... *)
}.

Definition numberOfChannels (b : AudioBuffer) : nat := List.length (channelData b).

(** [buffer.duration], in seconds *)
Definition duration (b : AudioBuffer) : Q :=
  inject_Z (Z.of_nat (bufferLength b)) / sampleRate b.

(** What the Web Audio API guarantees of every buffer it hands out. *)
Definition wf_buffer (b : AudioBuffer) : Prop :=
  0 < sampleRate b /\ (1 <= bufferLength b)%nat /\ (1 <= numberOfChannels b)%nat /\
  Forall (fun ch => List.length ch = bufferLength b) (channelData b).

(** [buf.getChannelData(ch)] *)
Definition getChannelData (buf : AudioBuffer) (ch : nat) : completion (list Q) :=
  match nth_error (channelData buf) ch with
  | Some data => Return data
  | None => Throw (ErrorObj "IndexSizeError" "channel index exceeds number of channels")
  end.

(** What V8 throws when an array buffer cannot be allocated. *)
Definition allocationFailure : Thrown :=
  ErrorObj "RangeError" "Array buffer allocation failed".

(** ** Offline render and export (audio/export) *)
Module AudioExport.
Import Graph.

Definition RENDER_CHUNK_SECONDS : Q := 60.

(** [s.includes(sub)] *)
Fixpoint includes (s sub : string) : bool :=
  if String.prefix sub s then true
  else match s with
       | EmptyString => false
       | String _ rest => includes rest sub
       end.

(** The parameters [buildEffectGraph] writes into the nodes of a chunk's
    graph. *)
Record EffectGraph : Type := mkEffectGraph {
  g_playbackRate : Q;
  g_detune : Q;
  g_bassGain : Q;
  g_trebleGain : Q;
  g_lowpassFrequency : Q;
  g_highpassFrequency : Q;
  g_dryGain : Q;
  g_wetGain : Q;
  g_reverb : ReverbType;
  g_gain : Q
}.

Definition OUT_OF_MEMORY_HINT : string :=
  "Render failed: file may be too long or system ran out of memory. Try a shorter clip or fewer effects.".

(** The [catch] block of [renderOffline]. *)
Definition renderOffline_catch {A : Type} (err : Thrown) : completion A :=
  let msg := match err with
             | ErrorObj _ message => message
             | NonError str => str
             end in
  if includes msg "RangeError" || includes msg "memory" || includes msg "allocate"
  then Throw (ErrorObj "Error" OUT_OF_MEMORY_HINT)
  else Throw err.

(** [new AudioContext().createBuffer(channels, length, sampleRate)]: a
    zero-filled buffer; the API refuses an empty one. *)
Definition createBuffer (channels totalLength : nat) (rate : Q) : completion AudioBuffer :=
  if (channels =? 0)%nat || (totalLength =? 0)%nat
  then Throw (ErrorObj "NotSupportedError" "createBuffer failed")
  else Return (mkBuffer rate totalLength (repeat (repeat 0 totalLength) channels)).

(** [out.set(data, offset)] on a typed array *)
Definition typed_set (out data : list Q) (offset : nat) : completion (list Q) :=
  if (offset + List.length data <=? List.length out)%nat
  then Return (firstn offset out ++ data ++ skipn (offset + List.length data) out)
  else Throw (ErrorObj "RangeError" "offset is out of bounds").

(** The inner loop of [concatenateAudioBuffers] for channel [ch]: copies
    each chunk at the running [offset]. *)
Fixpoint copyChunks (buffers : list AudioBuffer) (ch : nat) (out : list Q) (offset : nat)
  : completion (list Q) :=
  match buffers with
  | [] => Return out
  | buf :: rest =>
      data <- getChannelData buf ch ;;
      out' <- typed_set out data offset ;;
      copyChunks rest ch out' (offset + bufferLength buf)
  end.

(** The outer loop: channels [ch], [ch + 1], ... of the result. *)
Fixpoint fillChannels (buffers : list AudioBuffer) (ch : nat) (outs : list (list Q))
  : completion (list (list Q)) :=
  match outs with
  | [] => Return []
  | out :: more =>
      filled <- copyChunks buffers ch out 0 ;;
      others <- fillChannels buffers (S ch) more ;;
      Return (filled :: others)
  end.

Definition concatenateAudioBuffers (buffers : list AudioBuffer) (channels : nat) (rate : Q)
  : completion AudioBuffer :=
  let totalLength := fold_left (fun acc b => (acc + bufferLength b)%nat) buffers 0%nat in
  result <- createBuffer channels totalLength rate ;;
  filled <- fillChannels buffers 0 (channelData result) ;;
  Return (mkBuffer (sampleRate result) (bufferLength result) filled).

(** The loop [for (t = 0; t < duration; t += 60) chunkStarts.push(t)]. *)
Fixpoint chunkStarts_loop (fuel : nat) (t dur : Q) : list Q :=
  match fuel with
  | O => []
  | S fuel' =>
      if JsMath.Qltb t dur
      then t :: chunkStarts_loop fuel' (t + RENDER_CHUNK_SECONDS) dur
      else []
  end.

(** Iterations the loop can take: one per started chunk. *)
Definition chunkStarts_fuel (dur : Q) : nat :=
  S (Z.to_nat (Qceiling (dur / RENDER_CHUNK_SECONDS))).

Definition chunkStarts (dur : Q) : list Q :=
  match chunkStarts_loop (chunkStarts_fuel dur) 0 dur with
  | [] => [0]
  | starts => starts
  end.

Definition chunkDuration (dur outputStart : Q) : Q :=
  let outputEnd := JsMath.min (outputStart + RENDER_CHUNK_SECONDS) dur in
  outputEnd - outputStart.

(** [Math.ceil(chunkDuration * sampleRate)] *)
Definition chunkFrames (dur rate outputStart : Q) : Z :=
  JsMath.ceil (chunkDuration dur outputStart * rate).

Section Renderer.

(** [Math.pow] *)
Variable Math_pow : Q -> Q -> Q.

(** The audio engine on one chunk: [new OfflineAudioContext(channels,
    chunkFrames, sampleRate)], the graph built on it, [source.start(0,
    sourceOffset, sourceDuration)] and [offline.startRendering()]. *)
Variable renderChunk :
  AudioBuffer -> EffectGraph -> nat -> Z -> Q -> Q -> Q -> completion AudioBuffer.

Definition buildEffectGraph (st : AudioGraphState) : EffectGraph :=
  let lp := lowpass st / 100 in
  let hp := highpass st / 100 in
  let dry_wet :=
    match reverbType st with
    | delay => (1, (reverb st / 100) * (45 # 100))
    | original => let w := (reverb st / 100) * (5 # 10) in (1 - w, w)
    end in
  mkEffectGraph (speed st) (detune st) (bass st) (treble st)
    (if Qle_bool lp 0 then 20000 else 20000 * Math_pow 2 (-(664 # 100) * lp))
    (if Qle_bool hp 0 then 20 else 20 * Math_pow 2 ((764 # 100) * hp))
    (fst dry_wet) (snd dry_wet) (reverbType st) (volume st).

Definition effectiveRate (st : AudioGraphState) : Q :=
  speed st * Math_pow 2 (detune st / 1200).

(** The output duration [renderOffline] works with. *)
Definition outputDuration (buffer : AudioBuffer) (st : AudioGraphState) : Q :=
  if JsMath.Qltb 0 (effectiveRate st)
  then duration buffer / effectiveRate st
  else duration buffer.

(** The chunk loop of [renderOffline]; the first failing chunk ends it.
    (The progress callback and the yield to the scheduler after each chunk
    do not touch the result and are left out.) *)
Fixpoint renderChunks (buffer : AudioBuffer) (st : AudioGraphState) (dur : Q)
    (starts : list Q) : completion (list AudioBuffer) :=
  match starts with
  | [] => Return []
  | outputStart :: rest =>
      let sourceOffset := outputStart * effectiveRate st in
      let sourceDuration := chunkDuration dur outputStart * effectiveRate st in
      chunk <- renderChunk buffer (buildEffectGraph st) (numberOfChannels buffer)
                 (chunkFrames dur (sampleRate buffer) outputStart) (sampleRate buffer)
                 sourceOffset sourceDuration ;;
      more <- renderChunks buffer st dur rest ;;
      Return (chunk :: more)
  end.

Definition renderOffline (buffer : AudioBuffer) (st : AudioGraphState)
  : completion AudioBuffer :=
  try_catch
    (let dur := outputDuration buffer st in
     renderedChunks <- renderChunks buffer st dur (chunkStarts dur) ;;
     concatenateAudioBuffers renderedChunks (numberOfChannels buffer) (sampleRate buffer))
    renderOffline_catch.

End Renderer.

(** The engine's contract for one chunk: a context of at least one frame
    renders to a buffer of exactly the requested shape. *)
Definition engine_renders
  (renderChunk : AudioBuffer -> EffectGraph -> nat -> Z -> Q -> Q -> Q -> completion AudioBuffer)
  : Prop :=
  forall src g channels frames rate off dur,
    (1 <= frames)%Z ->
    exists chunk,
      renderChunk src g channels frames rate off dur = Return chunk /\
      sampleRate chunk = rate /\
      bufferLength chunk = Z.to_nat frames /\
      numberOfChannels chunk = channels /\
      Forall (fun ch => List.length ch = Z.to_nat frames) (channelData chunk).

(** An engine that renders silence, and refuses an empty context. *)
Definition silentEngine
  (src : AudioBuffer) (g : EffectGraph) (channels : nat) (frames : Z) (rate off dur : Q)
  : completion AudioBuffer :=
  if (frames <? 1)%Z
  then Throw (ErrorObj "NotSupportedError" "OfflineAudioContext: bad length")
  else Return (mkBuffer rate (Z.to_nat frames) (repeat (repeat 0 (Z.to_nat frames)) channels)).

(** An engine whose allocation of the rendering context fails with [err]. *)
Definition failingEngine (err : Thrown)
  (src : AudioBuffer) (g : EffectGraph) (channels : nat) (frames : Z) (rate off dur : Q)
  : completion AudioBuffer :=
  Throw err.

(** [Math.pow] on integer exponents, and 1 elsewhere: an instance of the
    parameter for concrete runs with [detune = 0]. *)
Definition pow_int (b e : Q) : Q :=
  if Qeq_bool (inject_Z (Qfloor e)) e then Qpower b (Qfloor e) else 1.

(** *** 16-bit sample conversion *)

(** Conversion of a number to a signed 16-bit integer, as a typed-array
    store and [DataView.setInt16] apply it: modulo 2^16. *)
Definition ToInt16 (v : Z) : Z :=
  let m := (v mod 65536)%Z in
  if (32768 <=? m)%Z then (m - 65536)%Z else m.

(** The value [encodeWAV] hands to [view.setInt16] for one sample. *)
Definition encodeWAV_int16 (sample : Q) : Z :=
  let sample := JsMath.max (-1) (JsMath.min 1 sample) in
  if JsMath.Qltb sample 0
  then Z.max (-32768) (JsMath.floor (sample * 32768))
  else Z.min 32767 (JsMath.floor (sample * 32767)).

(** [view.setInt16(offset, value, true)]: the two bytes written, low byte
    first. *)
Definition setInt16_le (value : Z) : list Z :=
  let u := (ToInt16 value mod 65536)%Z in
  [(u mod 256)%Z; (u / 256)%Z].

(** The signed 16-bit integer two little-endian bytes stand for. *)
Definition getInt16_le (lo hi : Z) : Z := ToInt16 (lo + 256 * hi).

(** The sample loop of [encodeWAV], which fills the data section after
    the 44-byte header: frames [j = 0 .. totalSamples - 1], channels
    interleaved within a frame.  (The blocks of [WAV_BLOCK_SAMPLES] frames
    only insert progress reports and yields.) *)
Definition encodeWAV_data (buffer : AudioBuffer) : list Z :=
  flat_map
    (fun j => flat_map (fun ch => setInt16_le (encodeWAV_int16 (nth j ch 0)))
                       (channelData buffer))
    (seq 0 (bufferLength buffer)).

(** Reads a byte sequence back as little-endian signed 16-bit integers. *)
Fixpoint readInt16s (bytes : list Z) : list Z :=
  match bytes with
  | lo :: hi :: rest => getInt16_le lo hi :: readInt16s rest
  | _ => []
  end.

(** [floatToInt16(float32)]: the MP3 encoder's conversion, stored into an
    [Int16Array]. *)
Definition floatToInt16 (float32 : list Q) : list Z :=
  map (fun x =>
         let s := JsMath.max (-1) (JsMath.min 1 x) in
         ToInt16 (if JsMath.Qltb s 0
                  then Z.max (-32768) (JsMath.floor (s * 32768))
                  else Z.min 32767 (JsMath.floor (s * 32767))))
      float32.

(** *** ID3v1 text truncation

    A JavaScript string is its sequence of UTF-16 code units. *)
Definition JsString : Type := list Z.

Definition isHighSurrogate (c : Z) : bool := ((55296 <=? c) && (c <=? 56319))%Z.
Definition isLowSurrogate (c : Z) : bool := ((56320 <=? c) && (c <=? 57343))%Z.

(** The scalar values a string converts to before encoding: a surrogate
    pair is one supplementary code point, a lone surrogate becomes U+FFFD. *)
Fixpoint toScalarValues (s : JsString) : list Z :=
  match s with
  | [] => []
  | c :: rest =>
      if isHighSurrogate c then
        match rest with
        | d :: rest' =>
            if isLowSurrogate d
            then (65536 + (c - 55296) * 1024 + (d - 56320))%Z :: toScalarValues rest'
            else 65533%Z :: toScalarValues rest
        | [] => [65533%Z]
        end
      else if isLowSurrogate c then 65533%Z :: toScalarValues rest
      else c :: toScalarValues rest
  end.

(** [s.isWellFormed()]: no lone surrogate. *)
Fixpoint isWellFormed (s : JsString) : bool :=
  match s with
  | [] => true
  | c :: rest =>
      if isHighSurrogate c then
        match rest with
        | d :: rest' => isLowSurrogate d && isWellFormed rest'
        | [] => false
        end
      else negb (isLowSurrogate c) && isWellFormed rest
  end.

(** UTF-8 bytes of one scalar value. *)
Definition utf8_bytes (cp : Z) : list Z :=
  if (cp <? 128)%Z then [cp]
  else if (cp <? 2048)%Z then [192 + cp / 64; 128 + cp mod 64]%Z
  else if (cp <? 65536)%Z then [224 + cp / 4096; 128 + (cp / 64) mod 64; 128 + cp mod 64]%Z
  else [240 + cp / 262144; 128 + (cp / 4096) mod 64; 128 + (cp / 64) mod 64; 128 + cp mod 64]%Z.

(** [new TextEncoder().encode(s)] *)
Definition TextEncoder_encode (s : JsString) : list Z :=
  flat_map utf8_bytes (toScalarValues s).

Definition ID3V1_MAX_BYTES : Z := 30.
Definition ID3V1_YEAR_MAX_BYTES : Z := 4.

(** The loop [while (s.length > 0 && enc.encode(s).length > maxBytes)
    s = s.slice(0, -1)] run for at most [fuel] iterations. *)
Fixpoint truncate_loop (fuel : nat) (s : JsString) (maxBytes : Z) : JsString :=
  match fuel with
  | O => s
  | S fuel' =>
      if (0 <? List.length s)%nat
         && (maxBytes <? Z.of_nat (List.length (TextEncoder_encode s)))%Z
      then truncate_loop fuel' (removelast s) maxBytes
      else s
  end.

(** [truncateForId3v1(s, maxBytes)]: every iteration drops a code unit, so
    [s.length] iterations are enough. *)
Definition truncateForId3v1 (s : JsString) (maxBytes : Z) : JsString :=
  truncate_loop (List.length s) s maxBytes.

(** A title of 27 letters "a" followed by U+1F600 (the pair D83D DE00). *)
Definition titleWithEmoji : JsString := repeat 97%Z 27 ++ [55357; 56832]%Z.

(** A title of 28 letters followed by "é" (U+00E9) and a letter. *)
Definition titleWithAccent : JsString := repeat 97%Z 28 ++ [233; 98]%Z.

(** A 100-second stereo source at 44100 Hz: two chunks, of 60 and 40
    seconds. *)
Definition longSource : AudioBuffer :=
  mkBuffer 44100 (Z.to_nat 4410000)
           [repeat 0 (Z.to_nat 4410000); repeat 0 (Z.to_nat 4410000)].

(** A 10-second stereo source at 44100 Hz, and the state with speed 1.25
    and no detune. *)
Definition tenSecondSource : AudioBuffer :=
  mkBuffer 44100 (Z.to_nat 441000)
           [repeat 0 (Z.to_nat 441000); repeat 0 (Z.to_nat 441000)].

Definition speed125State : AudioGraphState :=
  mkState (125 # 100) 0 0 0 0 0 0 delay 1.

(** *** Vocabulary of the statements *)

(** [channelOf ch b]: the samples of channel [ch] of [b]. *)
Definition channelOf (ch : nat) (b : AudioBuffer) : list Q := nth ch (channelData b) [].

(** Total of a list of frame counts. *)
Definition totalFrames (frames : list Z) : Z := fold_right Z.add 0%Z frames.

(** A rendered chunk of the requested shape. *)
Definition chunk_shape (channels : nat) (rate : Q) (frames : Z) (chunk : AudioBuffer) : Prop :=
  sampleRate chunk = rate /\
  bufferLength chunk = Z.to_nat frames /\
  numberOfChannels chunk = channels /\
  Forall (fun ch => List.length ch = Z.to_nat frames) (channelData chunk).

(** Channel [ch] of [b] exists and has [b.length] samples. *)
Definition has_channel (ch : nat) (b : AudioBuffer) : Prop :=
  exists data, nth_error (channelData b) ch = Some data /\
               List.length data = bufferLength b.

(** The conversion in the spec's words: clamp to [[-1, 1]], then scale a
    negative value by 32768 and a non-negative one by 32767, with floor,
    and bound the result by the signed 16-bit range. *)
Definition clampUnit (x : Q) : Q :=
  if JsMath.Qltb x (-1) then -1 else if JsMath.Qltb 1 x then 1 else x.

Definition pcm16 (x : Q) : Z :=
  let c := clampUnit x in
  if JsMath.Qltb c 0
  then Z.max (-32768) (Qfloor (c * 32768))
  else Z.min 32767 (Qfloor (c * 32767)).

(** Bytes [s] takes once encoded. *)
Definition encodedLength (s : JsString) : Z :=
  Z.of_nat (List.length (TextEncoder_encode s)).

(** A code unit of the Basic Multilingual Plane that is no surrogate: a
    character of its own. *)
Definition isBmpCharacter (c : Z) : Prop :=
  isHighSurrogate c = false /\ isLowSurrogate c = false.

Definition isAscii (c : Z) : Prop := (0 <= c < 128)%Z.

End AudioExport.

(** ** The chunk frame counts of [renderOffline] on binary64 floats *)
Module Binary64.

Definition float : Set := PrimFloat.float.

(** The float of an integer below 2^53: exact. *)
Definition of_Z (z : Z) : float := PrimFloat.of_uint63 (Uint63Axioms.of_Z z).

(** The rational a finite float stands for. *)
Definition value (x : float) : Q :=
  match FloatOps.Prim2SF x with
  | SpecFloat.S754_finite s m e =>
      let n := if s then Zneg m else Zpos m in
      if (0 <=? e)%Z then inject_Z (n * 2 ^ e) else n # Z.to_pos (2 ^ (- e))
  | _ => 0
  end.

(** [Math.ceil(x)], as an integer *)
Definition ceil64 (x : float) : Z := Qceiling (value x).

(** [Math.min(a, b)] on numbers that are not NaN *)
Definition min64 (a b : float) : float := if PrimFloat.ltb b a then b else a.

Definition RENDER_CHUNK_SECONDS64 : float := of_Z 60.

(** [effectiveRate > 0 ? buffer.duration / effectiveRate : buffer.duration],
    with [pow2] the value of [Math.pow(2, state.detune / 1200)]. *)
Definition outputDuration64 (bufferDuration speed pow2 : float) : float :=
  let effectiveRate := PrimFloat.mul speed pow2 in
  if PrimFloat.ltb (of_Z 0) effectiveRate
  then PrimFloat.div bufferDuration effectiveRate
  else bufferDuration.

Fixpoint chunkStarts_loop64 (fuel : nat) (t dur : float) : list float :=
  match fuel with
  | O => []
  | S fuel' =>
      if PrimFloat.ltb t dur
      then t :: chunkStarts_loop64 fuel' (PrimFloat.add t RENDER_CHUNK_SECONDS64) dur
      else []
  end.

Definition chunkStarts64 (dur : float) : list float :=
  match chunkStarts_loop64
          (S (Z.to_nat (ceil64 (PrimFloat.div dur RENDER_CHUNK_SECONDS64)))) (of_Z 0) dur with
  | [] => [of_Z 0]
  | starts => starts
  end.

(** [Math.ceil(chunkDuration * sampleRate)] *)
Definition chunkFrames64 (dur rate outputStart : float) : Z :=
  let outputEnd := min64 (PrimFloat.add outputStart RENDER_CHUNK_SECONDS64) dur in
  let chunkDuration := PrimFloat.sub outputEnd outputStart in
  ceil64 (PrimFloat.mul chunkDuration rate).

End Binary64.

(** ** The offline renderer on rounded arithmetic

    [renderOffline] once more, with every arithmetic operation rounded as
    the code's binary64 arithmetic rounds it: an operation yields [rnd] of
    its exact result, where [rnd] takes a rational to the number nearest
    to it.  [rnd] is a parameter of the embedding; what the statements
    assume of it is [rounds_to_nearest], which binary64 rounding has. *)
Module Rounded.
Import Graph AudioExport.

Section Arithmetic.

(** The number a rational is rounded to. *)
Variable rnd : Q -> Q.

Definition add (a b : Q) : Q := rnd (a + b).
Definition sub (a b : Q) : Q := rnd (a - b).
Definition mul (a b : Q) : Q := rnd (a * b).
Definition div (a b : Q) : Q := rnd (a / b).

(** [buffer.duration]: length / sampleRate, as a number. *)
Definition bufferDuration (buffer : AudioBuffer) : Q :=
  div (inject_Z (Z.of_nat (bufferLength buffer))) (sampleRate buffer).

(** [for (t = 0; t < duration; t += 60) chunkStarts.push(t)] *)
Fixpoint chunkStarts_loop (fuel : nat) (t dur : Q) : list Q :=
  match fuel with
  | O => []
  | S fuel' =>
      if JsMath.Qltb t dur
      then t :: chunkStarts_loop fuel' (add t RENDER_CHUNK_SECONDS) dur
      else []
  end.

Definition chunkStarts (dur : Q) : list Q :=
  match chunkStarts_loop (chunkStarts_fuel dur) 0 dur with
  | [] => [0]
  | starts => starts
  end.

Definition chunkDuration (dur outputStart : Q) : Q :=
  let outputEnd := JsMath.min (add outputStart RENDER_CHUNK_SECONDS) dur in
  sub outputEnd outputStart.

(** [Math.ceil(chunkDuration * sampleRate)] *)
Definition chunkFrames (dur rate outputStart : Q) : Z :=
  JsMath.ceil (mul (chunkDuration dur outputStart) rate).

(** [Math.pow], a number. *)
Variable Math_pow : Q -> Q -> Q.

Variable renderChunk :
  AudioBuffer -> EffectGraph -> nat -> Z -> Q -> Q -> Q -> completion AudioBuffer.

(** The node parameters of a chunk's graph; a decimal literal of the code
    is the number its decimal is rounded to. *)
Definition buildEffectGraph (st : AudioGraphState) : EffectGraph :=
  let lp := div (lowpass st) 100 in
  let hp := div (highpass st) 100 in
  let dry_wet :=
    match reverbType st with
    | delay => (1, mul (div (reverb st) 100) (rnd (45 # 100)))
    | original => let w := mul (div (reverb st) 100) (rnd (5 # 10)) in (sub 1 w, w)
    end in
  mkEffectGraph (speed st) (detune st) (bass st) (treble st)
    (if Qle_bool lp 0 then 20000
     else mul 20000 (Math_pow 2 (mul (- rnd (664 # 100)) lp)))
    (if Qle_bool hp 0 then 20
     else mul 20 (Math_pow 2 (mul (rnd (764 # 100)) hp)))
    (fst dry_wet) (snd dry_wet) (reverbType st) (volume st).

(** [state.speed * Math.pow(2, state.detune / 1200)] *)
Definition effectiveRate (st : AudioGraphState) : Q :=
  mul (speed st) (Math_pow 2 (div (detune st) 1200)).

(** [effectiveRate > 0 ? buffer.duration / effectiveRate : buffer.duration] *)
Definition outputDuration (buffer : AudioBuffer) (st : AudioGraphState) : Q :=
  if JsMath.Qltb 0 (effectiveRate st)
  then div (bufferDuration buffer) (effectiveRate st)
  else bufferDuration buffer.

Fixpoint renderChunks (buffer : AudioBuffer) (st : AudioGraphState) (dur : Q)
    (starts : list Q) : completion (list AudioBuffer) :=
  match starts with
  | [] => Return []
  | outputStart :: rest =>
      let sourceOffset := mul outputStart (effectiveRate st) in
      let sourceDuration := mul (chunkDuration dur outputStart) (effectiveRate st) in
      chunk <- renderChunk buffer (buildEffectGraph st) (numberOfChannels buffer)
                 (chunkFrames dur (sampleRate buffer) outputStart) (sampleRate buffer)
                 sourceOffset sourceDuration ;;
      more <- renderChunks buffer st dur rest ;;
      Return (chunk :: more)
  end.

Definition renderOffline (buffer : AudioBuffer) (st : AudioGraphState)
  : completion AudioBuffer :=
  try_catch
    (let dur := outputDuration buffer st in
     renderedChunks <- renderChunks buffer st dur (chunkStarts dur) ;;
     concatenateAudioBuffers renderedChunks (numberOfChannels buffer) (sampleRate buffer))
    renderOffline_catch.

(** *** Vocabulary of the statements *)

(** What is assumed of the rounding, all of it true of binary64 rounding
    to nearest: it respects equality and order, leaves the integers up to
    2^53 and its own values as they are, and the difference of two of its
    values that are within a factor 2 of each other is again one of its
    values (Sterbenz). *)
Record rounds_to_nearest : Prop := {
  rnd_compat : forall x y, x == y -> rnd x == rnd y;
  rnd_monotone : forall x y, x <= y -> rnd x <= rnd y;
  rnd_integer : forall n : Z, (Z.abs n <= 2 ^ 53)%Z -> rnd (inject_Z n) == inject_Z n;
  rnd_idempotent : forall x, rnd (rnd x) == rnd x;
  rnd_sterbenz : forall x y,
      rnd x == x -> rnd y == y -> y / 2 <= x -> x <= 2 * y -> rnd (x - y) == x - y
}.

(** The unit roundoff of binary64, 2^-53. *)
Definition unitRoundoff : Q := 1 # (2 ^ 53).

(** Rounding [x] moves it by at most the [unitRoundoff] of its size, as
    binary64 rounding does for every [x] between 2^-1022 and 2^1024. *)
Definition rounded_within_unit (x : Q) : Prop :=
  (1 - unitRoundoff) * x <= rnd x /\ rnd x <= (1 + unitRoundoff) * x.

End Arithmetic.

(** A rounding for concrete runs: to the nearest multiple of 2^-52, halves
    upwards. *)
Definition toGrid (x : Q) : Q :=
  inject_Z (Qfloor (x * inject_Z (2 ^ 52) + (1 # 2))) / inject_Z (2 ^ 52).

(** A 60.1-second stereo source at 44100 Hz. *)
Definition sixtySecondsAndATenth : AudioBuffer :=
  mkBuffer 44100 (Z.to_nat 2650410)
           [repeat 0 (Z.to_nat 2650410); repeat 0 (Z.to_nat 2650410)].

End Rounded.

(** ** Tempo estimation (audio/bpm) *)
Module Bpm.

Definition FRAME_LEN : nat := 2048.
Definition HOP_LEN : nat := 1024.
Definition MIN_BPM : Z := 60.
Definition MAX_BPM : Z := 200.
Definition PEAK_THRESHOLD_PERCENTILE : Q := 85 # 100.
(** [Math.floor(60 * 44.1 * 1000)] *)
Definition MAX_SAMPLES : Z := JsMath.floor (60 * (441 # 10) * 1000).

(** Sum of the squares of the [FRAME_LEN] samples from [start]. *)
Definition frameSumSquares (mono : list Q) (start : nat) : Q :=
  fold_left (fun sum s => sum + s * s) (firstn FRAME_LEN (skipn start mono)) 0.

(** [Math.floor((mono.length - FRAME_LEN) / HOP_LEN) + 1] *)
Definition numFramesOf (monoLength : nat) : nat :=
  ((monoLength - FRAME_LEN) / HOP_LEN + 1)%nat.

(** The mean squares whose roots are the frame energies. *)
Definition frameMeanSquares (mono : list Q) (numFrames : nat) : list Q :=
  map (fun f => frameSumSquares mono (f * HOP_LEN) / inject_Z (Z.of_nat FRAME_LEN))
      (seq 0 numFrames).

(** The loop [onset[f] = diff > 0 ? diff : 0] from frame 1 on. *)
Fixpoint onset_from (previous : Q) (energy : list Q) : list Q :=
  match energy with
  | [] => []
  | e :: rest =>
      let diff := e - previous in
      (if JsMath.Qltb 0 diff then diff else 0) :: onset_from e rest
  end.

(** Onset strength: [onset[0] = 0], then the positive energy flux. *)
Definition onsetStrength (energy : list Q) : list Q :=
  match energy with
  | [] => []
  | e0 :: rest => 0 :: onset_from e0 rest
  end.

Fixpoint insertSorted (x : Q) (l : list Q) : list Q :=
  match l with
  | [] => [x]
  | y :: l' => if Qle_bool x y then x :: l else y :: insertSorted x l'
  end.

(** [Float32Array.from(onset).sort()]: ascending numeric order. *)
Definition sortAscending (l : list Q) : list Q := fold_right insertSorted [] l.

(** [sorted[Math.floor((numFrames - 1) * PEAK_THRESHOLD_PERCENTILE)]] *)
Definition peakThreshold (onset : list Q) : Q :=
  let numFrames := List.length onset in
  let threshIdx :=
    JsMath.floor (inject_Z (Z.of_nat numFrames - 1) * PEAK_THRESHOLD_PERCENTILE) in
  nth (Z.to_nat threshIdx) (sortAscending onset) 0.

(** The test of the peak-picking loop at frame [f]. *)
Definition isPeak (onset : list Q) (threshold : Q) (f : nat) : bool :=
  let v := nth f onset 0 in
  if JsMath.Qltb v threshold then false
  else Qle_bool (nth (f - 1) onset 0) v && Qle_bool (nth (f - 2) onset 0) v
       && Qle_bool (nth (f + 1) onset 0) v && Qle_bool (nth (f + 2) onset 0) v.

(** [for (f = 2; f < numFrames - 2; f++)] collecting the peaks. *)
Definition pickPeaks (onset : list Q) : list nat :=
  filter (isPeak onset (peakThreshold onset)) (seq 2 (List.length onset - 4)).

(** The peak frames of a track with the given frame energies. *)
Definition peakFramesOf (energy : list Q) : list nat := pickPeaks (onsetStrength energy).

Definition peakTimesOf (rate : Q) (peakFrames : list nat) : list Q :=
  let frameToTime := inject_Z (Z.of_nat HOP_LEN) / rate in
  map (fun f => inject_Z (Z.of_nat f) * frameToTime) peakFrames.

(** The loop over consecutive peak times, keeping deltas in [[0.2, 2]]. *)
Fixpoint intervals_from (previous : Q) (peakTimes : list Q) : list Q :=
  match peakTimes with
  | [] => []
  | t :: rest =>
      let dt := t - previous in
      if Qle_bool (2 # 10) dt && Qle_bool dt 2
      then dt :: intervals_from t rest
      else intervals_from t rest
  end.

Definition intervalsOf (peakTimes : list Q) : list Q :=
  match peakTimes with
  | [] => []
  | t0 :: rest => intervals_from t0 rest
  end.

Definition binMs : Q := 20.
Definition minPeriodMs : Q := 60000 / inject_Z MAX_BPM.
Definition maxPeriodMs : Q := 60000 / inject_Z MIN_BPM.
Definition numBins : Z := JsMath.ceil ((maxPeriodMs - minPeriodMs) / binMs).

(** [hist[bin]++] *)
Fixpoint increment (bin : nat) (hist : list nat) : list nat :=
  match hist, bin with
  | [], _ => []
  | h :: t, O => S h :: t
  | h :: t, S b => h :: increment b t
  end.

(** One iteration of the histogram loop, for the interval [dt]. *)
Definition addInterval (hist : list nat) (dt : Q) : list nat :=
  let ms := dt * 1000 in
  if JsMath.Qltb ms minPeriodMs || JsMath.Qltb maxPeriodMs ms then hist
  else
    let bin := JsMath.floor ((ms - minPeriodMs) / binMs) in
    if ((0 <=? bin) && (bin <? numBins))%Z then increment (Z.to_nat bin) hist else hist.

Definition histogramOf (intervals : list Q) : list nat :=
  fold_left addInterval intervals (repeat 0%nat (Z.to_nat numBins)).

(** The loop that finds the first bin with the largest count. *)
Definition bestBinOf (hist : list nat) : nat :=
  fst (fold_left
         (fun (best : nat * nat) b =>
            if (snd best <? nth b hist 0)%nat then (b, nth b hist 0%nat) else best)
         (seq 0 (Z.to_nat numBins)) (0%nat, 0%nat)).

(** From the modal bin to the returned tempo. *)
Definition bpmOfBin (bestBin : nat) : Z :=
  let periodMs := minPeriodMs + (inject_Z (Z.of_nat bestBin) + (5 # 10)) * binMs in
  let bpm := JsMath.round (60000 / periodMs) in
  let bpm :=
    if ((80 <=? bpm) && (bpm <=? 200))%Z then bpm
    else if ((40 <=? bpm) && (bpm <? 80))%Z then (bpm * 2)%Z
    else if ((200 <? bpm) && (bpm <=? 400))%Z then JsMath.round (inject_Z bpm / 2)
    else bpm in
  Z.max MIN_BPM (Z.min MAX_BPM bpm).

Section Estimator.

(** [Math.sqrt] *)
Variable Math_sqrt : Q -> Q.

(** Whether the runtime grants a typed array of the given length. *)
Variable alloc_ok : Z -> bool.

(** [new Float32Array(n)], as far as it can fail. *)
Definition newFloat32Array (n : Z) : completion unit :=
  if alloc_ok n then Return tt else Throw allocationFailure.

Definition getMonoSamples (buffer : AudioBuffer) (maxSamples : Z) : completion (list Q) :=
  let numCh := numberOfChannels buffer in
  let length := Z.min (Z.of_nat (bufferLength buffer)) maxSamples in
  if (length <=? 0)%Z then (_ <- newFloat32Array 0 ;; Return [])
  else if (numCh =? 1)%nat then
    ch <- getChannelData buffer 0 ;;
    if (Z.of_nat (List.length ch) <=? length)%Z then Return ch
    else (_ <- newFloat32Array length ;; Return (firstn (Z.to_nat length) ch))
  else
    _ <- newFloat32Array length ;;
    ch0 <- getChannelData buffer 0 ;;
    Return (map (fun i =>
                   fold_left (fun sum c => sum + nth i c 0)
                             (tl (channelData buffer)) (nth i ch0 0)
                   / inject_Z (Z.of_nat numCh))
                (seq 0 (Z.to_nat length))).

(** [energy[f] = Math.sqrt(sum / FRAME_LEN)] *)
Definition frameEnergies (mono : list Q) (numFrames : nat) : list Q :=
  map Math_sqrt (frameMeanSquares mono numFrames).

Definition detectBPMInner (buffer : AudioBuffer) : completion (option Z) :=
  mono <- getMonoSamples buffer MAX_SAMPLES ;;
  if (List.length mono <? FRAME_LEN * 2)%nat then Return None
  else
    let numFrames := numFramesOf (List.length mono) in
    _ <- newFloat32Array (Z.of_nat numFrames) ;;
    let energy := frameEnergies mono numFrames in
    _ <- newFloat32Array (Z.of_nat numFrames) ;;
    let onset := onsetStrength energy in
    _ <- newFloat32Array (Z.of_nat numFrames) ;;
    let peakFrames := pickPeaks onset in
    if (List.length peakFrames <? 4)%nat then Return None
    else
      let peakTimes := peakTimesOf (sampleRate buffer) peakFrames in
      let intervals := intervalsOf peakTimes in
      if (List.length intervals <? 2)%nat then Return None
      else Return (Some (bpmOfBin (bestBinOf (histogramOf intervals)))).

(** [detectBPM]: [null] is [None]. *)
Definition detectBPM (buffer : AudioBuffer) : completion (option Z) :=
  try_catch (detectBPMInner buffer) (fun _ => Return None).

End Estimator.

(** A square root for concrete runs: exact on the square of a rational,
    and the roots of numerator and denominator rounded down elsewhere. *)
Definition exact_sqrt (q : Q) : Q :=
  let r := Qred q in
  Z.sqrt (Qnum r) # Z.to_pos (Z.sqrt (Zpos (Qden r))).

(** A runtime that always has memory. *)
Definition always_alloc (n : Z) : bool := true.

(** A runtime that never has. *)
Definition never_alloc (n : Z) : bool := false.

(** One block of [HOP_LEN] samples: [n] at full scale, then silence. *)
Definition clickBlock (n : nat) : list Q := repeat 1 n ++ repeat 0 (HOP_LEN - n).

(** Ten blocks: five quiet, five loud. *)
Definition clickPattern : list nat := [1; 1; 1; 1; 1; 49; 49; 49; 49; 49]%nat.

(** A mono track at 44100 Hz of 41 blocks, the pattern four times over:
    its energy rises once every ten frames, every 0.232 s. *)
Definition clickSamples : list Q :=
  flat_map clickBlock
    (clickPattern ++ clickPattern ++ clickPattern ++ clickPattern ++ [1%nat]).

Definition fastClicks : AudioBuffer :=
  mkBuffer 44100 (Z.to_nat 41984) [clickSamples].

(** The mean squares of its forty frames, and their square roots. *)
Definition clickMeanSquares : list Q :=
  let period := [2 # 2048; 2 # 2048; 2 # 2048; 2 # 2048; 50 # 2048;
                 98 # 2048; 98 # 2048; 98 # 2048; 98 # 2048; 50 # 2048] in
  period ++ period ++ period ++ period.

Definition clickEnergies : list Q :=
  let period := [1 # 32; 1 # 32; 1 # 32; 1 # 32; 5 # 32;
                 7 # 32; 7 # 32; 7 # 32; 7 # 32; 5 # 32] in
  period ++ period ++ period ++ period.




(** *** Vocabulary of the statements *)

(** What [detectBPMInner] returns once it has the peak frames. *)
Definition analysePeaks (rate : Q) (peakFrames : list nat) : option Z :=
  if (List.length peakFrames <? 4)%nat then None
  else
    let intervals := intervalsOf (peakTimesOf rate peakFrames) in
    if (List.length intervals <? 2)%nat then None
    else Some (bpmOfBin (bestBinOf (histogramOf intervals))).

(** The peak frames the estimator finds in a mono window. *)
Definition peaksOfMono (Math_sqrt : Q -> Q) (mono : list Q) : list nat :=
  peakFramesOf (frameEnergies Math_sqrt mono (numFramesOf (List.length mono))).

(** Centre of histogram bin [b], in milliseconds: bins of 20 ms from the
    300 ms period of 200 BPM. *)
Definition binCenterMs (b : nat) : Q :=
  300 + (inject_Z (Z.of_nat b) + (1 # 2)) * 20.





(** [b] is a modal bin of [hist]: no bin counts more. *)
Definition isModalBin (hist : list nat) (b : nat) : Prop :=
  (b < Z.to_nat numBins)%nat /\
  forall b', (b' < Z.to_nat numBins)%nat -> (nth b' hist 0 <= nth b hist 0)%nat.

End Bpm.

(** ** More of the live chain: cutoffs and transport *)
Module Playback.
Import Graph.

(** [setFilterFreqs()]: the cutoff frequencies (low-pass, high-pass) the
    chain gives its two pass filters for the stored amounts. *)
Definition setFilterFreqs (Math_pow : Q -> Q -> Q) (st : AudioGraphState) : Q * Q :=
  let lp := lowpass st / 100 in
  let hp := highpass st / 100 in
  (if Qle_bool lp 0 then 20000 else 20000 * Math_pow 2 (-(664 # 100) * lp),
   if Qle_bool hp 0 then 20 else 20 * Math_pow 2 ((764 # 100) * hp)).


(** The chain of [createAudioGraph] together with the variables of its
    closure that keep time: [playing], [startTime], [pauseOffset], and the
    duration of its buffer. *)
Record Player : Type := mkPlayer {
  chain : AudioGraph;
  playing : bool;
  startTime : Q;
  pauseOffset : Q;
  bufferDuration : Q
}.

Definition newPlayer (dur : Q) : Player := mkPlayer createAudioGraph false 0 0 dur.

(** [getCurrentTime()] when the context clock reads [now]. *)
Definition getCurrentTime (now : Q) (p : Player) : Q :=
  if negb (playing p) then pauseOffset p
  else
    let elapsed := (now - startTime p) * speed (state (chain p)) in
    JsMath.min elapsed (bufferDuration p).

(** [createSource(offset)] *)
Definition createSource (now offset : Q) (p : Player) : Player :=
  mkPlayer (Graph.play (chain p)) (playing p)
           (now - offset / speed (state (chain p)))
           (pauseOffset p) (bufferDuration p).

(** [play(offset?)] *)
Definition play (now : Q) (offset : option Q) (p : Player) : Player :=
  let off := match offset with Some o => o | None => pauseOffset p end in
  let p' := createSource now off p in
  mkPlayer (chain p') true (startTime p') (pauseOffset p') (bufferDuration p').

(** [pause()] *)
Definition pause (now : Q) (p : Player) : Player :=
  match playing p, source (chain p) with
  | true, Some _ =>
      mkPlayer (Graph.stop (chain p)) false (startTime p)
               (getCurrentTime now p) (bufferDuration p)
  | _, _ => p
  end.

(** [stop()] *)
Definition stop (p : Player) : Player :=
  mkPlayer (Graph.stop (chain p)) false (startTime p) 0 (bufferDuration p).

(** [setSpeed(value)]: the state is written first, then the position is
    read back and [startTime] recomputed from it. *)
Definition setSpeed (now value : Q) (p : Player) : Player :=
  let p1 := mkPlayer (Graph.setSpeed value (chain p)) (playing p) (startTime p)
                     (pauseOffset p) (bufferDuration p) in
  match source (chain p) with
  | Some _ =>
      let currentPos := getCurrentTime now p1 in
      mkPlayer (chain p1) (playing p1) (now - currentPos / value)
               (pauseOffset p1) (bufferDuration p1)
  | None => p1
  end.

(** [seek(time)] *)
Definition seek (now time : Q) (p : Player) : Player :=
  let p1 := mkPlayer (chain p) (playing p) (startTime p)
                     (JsMath.max 0 (JsMath.min time (bufferDuration p)))
                     (bufferDuration p) in
  if playing p1 then createSource now (pauseOffset p1) p1 else p1.

(** The [onended] handler of the source node. *)
Definition onended (p : Player) : Player :=
  if playing p
  then mkPlayer (chain p) false (startTime p) 0 (bufferDuration p)
  else p.

(** What can happen to a player: a call of the chain's interface, or the
    end of the source. *)
Inductive Op : Type :=
| OCall (c : Call)
| OPlayAt (offset : Q)       (* play(offset) *)
| OPause
| OSeek (time : Q)
| OEnded.

(** One operation, when the context clock reads [now]. *)
Definition handle (p : Player) (e : Q * Op) : Player :=
  let now := fst e in
  match snd e with
  | OCall (SetSpeed value) => setSpeed now value p
  | OCall Play => play now None p
  | OCall Stop => stop p
  | OCall c => mkPlayer (step (chain p) c) (playing p) (startTime p)
                        (pauseOffset p) (bufferDuration p)
  | OPlayAt offset => play now (Some offset) p
  | OPause => pause now p
  | OSeek time => seek now time p
  | OEnded => onended p
  end.

Definition runEvents (dur : Q) (events : list (Q * Op)) : Player :=
  fold_left handle events (newPlayer dur).

(** A power function that is monotone in the exponent, for concrete runs:
    the base to the floor of the exponent. *)
Definition pow_floor (b e : Q) : Q := Qpower b (Qfloor e).

(** Every [setSpeed] of the trace has a positive argument. *)
Definition speeds_positive (events : list (Q * Op)) : Prop :=
  Forall (fun e => match snd e with
                   | OCall (SetSpeed value) => 0 < value
                   | _ => True
                   end) events.

(** What holds of a player along such a trace. *)
Definition player_ok (p : Player) : Prop :=
  0 < speed (state (chain p)) /\
  (playing p = true -> source (chain p) <> None) /\
  pauseOffset p <= bufferDuration p /\
  0 <= bufferDuration p.

End Playback.

(** ** MP3 export: encoding and tags (audio/export) *)
Module Mp3Export.
Import AudioExport.

Definition MP3_CHUNK : nat := 1152.

Definition LAMEJS_MISSING : string :=
  "MP3 export requires lamejs. Reload the page and try again.".

Definition MP3_FAILED : string :=
  "MP3 encoding failed. The file may be too long. Try exporting as WAV instead.".

(** [a.subarray(begin, end)] for [0 <= begin <= end]; both ends are
    clamped to the length. *)
Definition subarray {A : Type} (a : list A) (b e : nat) : list A :=
  firstn (e - b) (skipn b a).

(** Conversion of an integer to an unsigned byte, as a store into a
    [Uint8Array] applies it. *)
Definition ToUint8 (v : Z) : Z := (v mod 256)%Z.

(** [out.set(c, offset)] on a [Uint8Array], from an [Int8Array]. *)
Definition uint8_set (out data : list Z) (offset : nat) : completion (list Z) :=
  if (offset + List.length data <=? List.length out)%nat
  then Return (firstn offset out ++ map ToUint8 data
                 ++ skipn (offset + List.length data) out)
  else Throw (ErrorObj "RangeError" "offset is out of bounds").

(** The loop [for (const c of chunks) { out.set(c, offset); offset += c.length }] *)
Fixpoint copyParts (chunks : list (list Z)) (out : list Z) (offset : nat)
  : completion (list Z) :=
  match chunks with
  | [] => Return out
  | c :: rest =>
      out' <- uint8_set out c offset ;;
      copyParts rest out' (offset + List.length c)
  end.

Section Encoder.

(** Whether the platform grants a typed array of [n] elements. *)
Variable alloc_ok : nat -> bool.

(** The encoder object of lamejs, as the state it carries from call to
    call; [window.lamejs?.Mp3Encoder] is [None] when the script is not
    loaded, and else the constructor [new Mp3Encoder(channels, sampleRate,
    kbps)]. *)
Variable Enc : Type.
Variable Mp3Encoder : option (nat -> Q -> Z -> completion Enc).
Variable encodeBuffer : Enc -> list Z -> list Z -> completion (Enc * list Z).
Variable flush : Enc -> completion (list Z).

(** [new Int16Array(n)] and [new Uint8Array(n)] *)
Definition newTypedArray (n : nat) : completion (list Z) :=
  if alloc_ok n then Return (repeat 0%Z n) else Throw allocationFailure.

(** [floatToInt16(float32)], with the allocation of its result. *)
Definition floatToInt16_alloc (float32 : list Q) : completion (list Z) :=
  _ <- newTypedArray (List.length float32) ;;
  Return (floatToInt16 float32).

(** The loop [for (i = 0; i < left.length; i += MP3_CHUNK)] of [encodeMp3],
    from index [i], with the encoder and the chunks collected so far.  (The
    progress report and the yield every 500 frames do not touch the result
    and are left out.) *)
Fixpoint encodeLoop (fuel i : nat) (left right : list Z) (encoder : Enc)
    (chunks : list (list Z)) : completion (Enc * list (list Z)) :=
  match fuel with
  | O => Return (encoder, chunks)
  | S fuel' =>
      if (i <? List.length left)%nat then
        let leftChunk := subarray left i (i + MP3_CHUNK) in
        let rightChunk := subarray right i (i + MP3_CHUNK) in
        r <- encodeBuffer encoder leftChunk rightChunk ;;
        let chunks' := if (0 <? List.length (snd r))%nat
                       then chunks ++ [snd r] else chunks in
        encodeLoop fuel' (i + MP3_CHUNK) left right (fst r) chunks'
      else Return (encoder, chunks)
  end.

(** [encodeMp3(buffer)]: every iteration of the loop adds 1152 to [i], so
    [left.length] iterations are enough. *)
Definition encodeMp3 (buffer : AudioBuffer) : completion (list Z) :=
  let channels := numberOfChannels buffer in
  let rate := sampleRate buffer in
  ch0 <- getChannelData buffer 0 ;;
  left <- floatToInt16_alloc ch0 ;;
  right <- (if (1 <? channels)%nat
            then ch1 <- getChannelData buffer 1 ;; floatToInt16_alloc ch1
            else Return left) ;;
  match Mp3Encoder with
  | None => Throw (ErrorObj "Error" LAMEJS_MISSING)
  | Some construct =>
      try_catch
        (encoder <- construct channels rate 192%Z ;;
         r <- encodeLoop (List.length left) 0 left right encoder [] ;;
         fl <- flush (fst r) ;;
         let chunks := if (0 <? List.length fl)%nat then snd r ++ [fl] else snd r in
         let total := fold_left (fun acc c => (acc + List.length c)%nat) chunks 0%nat in
         out <- newTypedArray total ;;
         copyParts chunks out 0)
        (fun _ => Throw (ErrorObj "Error" MP3_FAILED))
  end.

(** The encoder fed with a list of frames, left and right samples of each,
    in order: the encoder after the last frame and what it returned for
    each. *)
Fixpoint feed (encoder : Enc) (frames : list (list Z * list Z))
  : completion (Enc * list (list Z)) :=
  match frames with
  | [] => Return (encoder, [])
  | f :: rest =>
      r <- encodeBuffer encoder (fst f) (snd f) ;;
      more <- feed (fst r) rest ;;
      Return (fst more, snd r :: snd more)
  end.

End Encoder.

(** The frames of two channels: frame [k] holds samples [1152 k] to
    [1152 k + 1151] of each. *)
Definition mp3Frames (left right : list Z) : list (list Z * list Z) :=
  map (fun k => (subarray left (k * MP3_CHUNK) (k * MP3_CHUNK + MP3_CHUNK),
                 subarray right (k * MP3_CHUNK) (k * MP3_CHUNK + MP3_CHUNK)))
      (seq 0 ((List.length left + (MP3_CHUNK - 1)) / MP3_CHUNK)).

(** An encoder for concrete runs: it returns the low bytes of the left
    samples it is given and holds nothing back. *)
Definition echoEncoder (encoder : unit) (l r : list Z) : completion (unit * list Z) :=
  Return (tt, l).

Definition echoFlush (encoder : unit) : completion (list Z) := Return [].

Definition echoConstruct (channels : nat) (rate : Q) (kbps : Z) : completion unit :=
  Return tt.

(** A mono buffer of 2500 samples at 44100 Hz. *)
Definition monoSource : AudioBuffer :=
  mkBuffer 44100 (Z.to_nat 2500) [repeat (1 # 2) (Z.to_nat 2500)].

(** *** Tags *)

(** [WhiteSpace] and [LineTerminator] code units, which [trim()] strips. *)
Definition isWhiteSpace (c : Z) : bool :=
  ((9 <=? c) && (c <=? 13) || (c =? 32) || (c =? 160) || (c =? 5760)
   || (8192 <=? c) && (c <=? 8202) || (c =? 8232) || (c =? 8233)
   || (c =? 8239) || (c =? 8287) || (c =? 12288) || (c =? 65279))%Z.

Fixpoint trimStart (s : JsString) : JsString :=
  match s with
  | [] => []
  | c :: rest => if isWhiteSpace c then trimStart rest else s
  end.

Definition trimEnd (s : JsString) : JsString := rev (trimStart (rev s)).

(** [s.trim()] *)
Definition trim (s : JsString) : JsString := trimEnd (trimStart s).

(** [Metadata]; a field may be missing at run time, which the optional
    chaining of [writeMp3Tags] allows for. *)
Record Metadata : Type := mkMetadata {
  title : option JsString;
  artist : option JsString;
  album : option JsString;
  year : option JsString
}.

Record AlbumArtForExport : Type := mkAlbumArt {
  mime : string;
  art_data : list Z
}.

Record Picture : Type := mkPicture {
  format : string;
  pictureType : Z;
  description : JsString;
  data : list Z
}.

Record V1Tags : Type := mkV1 {
  v1_title : JsString;
  v1_artist : JsString;
  v1_album : JsString;
  v1_year : JsString;
  v1_comment : JsString;
  v1_track : JsString;
  v1_genre : JsString
}.

Record V2Tags : Type := mkV2 {
  TIT2 : JsString;
  TPE1 : JsString;
  TALB : JsString;
  TDRC : JsString;
  APIC : option (list Picture)
}.

Record Tags : Type := mkTags { v1 : V1Tags; v2 : V2Tags }.

(** [field?.trim()], and whether it is truthy *)
Definition trimmed (field : option JsString) : option JsString :=
  match field with
  | Some s => Some (trim s)
  | None => None
  end.

Definition truthy (v : option JsString) : bool :=
  match v with
  | Some (_ :: _) => true
  | _ => false
  end.

(** [v ?? ''] *)
Definition orEmpty (v : option JsString) : JsString :=
  match v with
  | Some s => s
  | None => []
  end.

(** [c.toLowerCase()] on a character of a MIME type, which is ASCII. *)
Definition toLowerCase_ascii (c : ascii) : ascii :=
  let n := nat_of_ascii c in
  if ((65 <=? n) && (n <=? 90))%nat then ascii_of_nat (n + 32) else c.

Fixpoint toLowerCase (s : string) : string :=
  match s with
  | EmptyString => EmptyString
  | String c rest => String (toLowerCase_ascii c) (toLowerCase rest)
  end.

Section Writer.

(** [MP3Tag.writeBuffer(buffer, tags, options)] with the options of the
    call: ID3v1 and ID3v2.4 both included. *)
Variable MP3Tag_writeBuffer : list Z -> Tags -> completion (list Z).

Definition hasText (metadata : option Metadata) : bool :=
  match metadata with
  | None => false
  | Some m =>
      truthy (trimmed (title m)) || truthy (trimmed (artist m))
      || truthy (trimmed (album m)) || truthy (trimmed (year m))
  end.

(** The tags [writeMp3Tags] builds. *)
Definition buildTags (metadata : option Metadata) (albumArt : option AlbumArtForExport)
  : Tags :=
  let field (get : Metadata -> option JsString) :=
    orEmpty (match metadata with Some m => trimmed (get m) | None => None end) in
  let title := field title in
  let artist := field artist in
  let album := field album in
  let year := field year in
  let apic :=
    match albumArt with
    | Some art =>
        if (0 <? List.length (art_data art))%nat
        then let mime := if includes (toLowerCase (mime art)) "png"
                         then "image/png"%string else "image/jpeg"%string in
             Some [mkPicture mime 3 [] (art_data art)]
        else None
    | None => None
    end in
  mkTags (mkV1 (truncateForId3v1 title ID3V1_MAX_BYTES)
               (truncateForId3v1 artist ID3V1_MAX_BYTES)
               (truncateForId3v1 album ID3V1_MAX_BYTES)
               (truncateForId3v1 year ID3V1_YEAR_MAX_BYTES)
               [] [] [])
         (mkV2 title artist album year apic).

Definition writeMp3Tags (mp3Buffer : list Z) (metadata : option Metadata)
    (albumArt : option AlbumArtForExport) : completion (list Z) :=
  let tags := buildTags metadata albumArt in
  if negb (hasText metadata) && negb (match albumArt with Some _ => true | None => false end)
  then Return mp3Buffer
  else MP3Tag_writeBuffer mp3Buffer tags.

End Writer.

(** A writer for concrete runs: it leaves the audio as it is. *)
Definition keepBuffer (buffer : list Z) (tags : Tags) : completion (list Z) :=
  Return buffer.

(** *** Vocabulary of the statements *)

(** A metadata field with nothing to show: missing, or white space only. *)
Definition blank (field : option JsString) : Prop :=
  match field with
  | Some s => Forall (fun c => isWhiteSpace c = true) s
  | None => True
  end.

(** [t] is [s] without white space at either end. *)
Definition stripped (s t : JsString) : Prop :=
  exists before after,
    s = before ++ t ++ after /\
    Forall (fun c => isWhiteSpace c = true) before /\
    Forall (fun c => isWhiteSpace c = true) after /\
    (forall c, hd_error t = Some c -> isWhiteSpace c = false) /\
    (forall c, hd_error (rev t) = Some c -> isWhiteSpace c = false).

End Mp3Export.

(** ** The WAV file (audio/export) *)
Module WavFile.
Import AudioExport.

(** Truncation of a number towards zero, the first step of the integer
    conversions of [DataView]. *)
Definition truncate (x : Q) : Z :=
  if JsMath.Qltb x 0 then Qceiling x else Qfloor x.

Definition ToUint32 (x : Q) : Z := (truncate x mod 4294967296)%Z.
Definition ToUint16 (x : Q) : Z := (truncate x mod 65536)%Z.

(** The bytes of an unsigned integer, low byte first. *)
Definition uint32_le (u : Z) : list Z :=
  [(u mod 256)%Z; ((u / 256) mod 256)%Z; ((u / 65536) mod 256)%Z;
   ((u / 16777216) mod 256)%Z].

Definition uint16_le (u : Z) : list Z := [(u mod 256)%Z; ((u / 256) mod 256)%Z].

(** A store of [bytes] at [offset] through a [DataView] over the whole
    buffer. *)
Definition view_set (view : list Z) (offset : nat) (bytes : list Z) : completion (list Z) :=
  if (offset + List.length bytes <=? List.length view)%nat
  then Return (firstn offset view ++ bytes ++ skipn (offset + List.length bytes) view)
  else Throw (ErrorObj "RangeError" "Offset is outside the bounds of the DataView").

(** [view.setUint32(offset, value, true)] *)
Definition setUint32 (view : list Z) (offset : nat) (value : Q) : completion (list Z) :=
  view_set view offset (uint32_le (ToUint32 value)).

(** [view.setUint16(offset, value, true)] *)
Definition setUint16 (view : list Z) (offset : nat) (value : Q) : completion (list Z) :=
  view_set view offset (uint16_le (ToUint16 value)).

(** [view.setUint8(offset, value)] *)
Definition setUint8 (view : list Z) (offset : nat) (value : Z) : completion (list Z) :=
  view_set view offset [(value mod 256)%Z].

(** [view.setInt16(offset, value, true)] *)
Definition setInt16 (view : list Z) (offset : nat) (value : Z) : completion (list Z) :=
  view_set view offset (setInt16_le value).

(** [str.charCodeAt(i)] for the ASCII strings of the header. *)
Definition charCode (c : ascii) : Z := Z.of_nat (nat_of_ascii c).

(** [writeString(view, offset, str)] *)
Fixpoint writeString (view : list Z) (offset : nat) (str : string) : completion (list Z) :=
  match str with
  | EmptyString => Return view
  | String c rest =>
      view' <- setUint8 view offset (charCode c) ;;
      writeString view' (S offset) rest
  end.

(** The innermost loop of [encodeWAV]: the samples of frame [j], one per
    channel, at the running [offset]. *)
Fixpoint writeFrame (channelData : list (list Q)) (j : nat) (view : list Z) (offset : nat)
  : completion (list Z * nat) :=
  match channelData with
  | [] => Return (view, offset)
  | ch :: rest =>
      view' <- setInt16 view offset (encodeWAV_int16 (nth j ch 0)) ;;
      writeFrame rest j view' (offset + 2)
  end.

(** The frames [j] of [js] in turn.  (The blocks of [WAV_BLOCK_SAMPLES]
    frames only insert progress reports and yields between frames.) *)
Fixpoint writeFrames (channelData : list (list Q)) (js : list nat) (view : list Z)
    (offset : nat) : completion (list Z * nat) :=
  match js with
  | [] => Return (view, offset)
  | j :: more =>
      r <- writeFrame channelData j view offset ;;
      writeFrames channelData more (fst r) (snd r)
  end.

(** The loop that collects [buffer.getChannelData(ch)] for every channel. *)
Fixpoint collectChannels (buffer : AudioBuffer) (chs : list nat) : completion (list (list Q)) :=
  match chs with
  | [] => Return []
  | ch :: more =>
      data <- getChannelData buffer ch ;;
      others <- collectChannels buffer more ;;
      Return (data :: others)
  end.

Section Encoder.

(** Whether the platform grants an [ArrayBuffer] of [n] bytes. *)
Variable alloc_ok : nat -> bool.

(** [new ArrayBuffer(n)] *)
Definition newArrayBuffer (n : nat) : completion (list Z) :=
  if alloc_ok n then Return (repeat 0%Z n) else Throw allocationFailure.

(** [encodeWAV(buffer)]: the bytes of the blob. *)
Definition encodeWAV (buffer : AudioBuffer) : completion (list Z) :=
  let channels := numberOfChannels buffer in
  let rate := sampleRate buffer in
  let bitsPerSample := 16%nat in
  let bytesPerSample := (bitsPerSample / 8)%nat in
  let blockAlign := (channels * bytesPerSample)%nat in
  let totalSamples := bufferLength buffer in
  let dataSize := (totalSamples * blockAlign)%nat in
  let headerSize := 44%nat in
  let fileSize := (headerSize + dataSize)%nat in
  let num (n : nat) : Q := inject_Z (Z.of_nat n) in
  view <- newArrayBuffer fileSize ;;
  view <- writeString view 0 "RIFF" ;;
  view <- setUint32 view 4 (num (fileSize - 8)%nat) ;;
  view <- writeString view 8 "WAVE" ;;
  view <- writeString view 12 "fmt " ;;
  view <- setUint32 view 16 16 ;;
  view <- setUint16 view 20 1 ;;
  view <- setUint16 view 22 (num channels) ;;
  view <- setUint32 view 24 rate ;;
  view <- setUint32 view 28 (rate * num blockAlign) ;;
  view <- setUint16 view 32 (num blockAlign) ;;
  view <- setUint16 view 34 (num bitsPerSample) ;;
  view <- writeString view 36 "data" ;;
  view <- setUint32 view 40 (num dataSize) ;;
  channelData <- collectChannels buffer (seq 0 channels) ;;
  r <- writeFrames channelData (seq 0 totalSamples) view 44 ;;
  Return (fst r).

End Encoder.

(** A stereo buffer of three frames at 44100 Hz. *)
Definition threeFrames : AudioBuffer :=
  mkBuffer 44100 3 [[0; 1 # 2; -1]; [1; - (1 # 4); 2]].

(** *** Vocabulary of the statements: reading a file back *)

Definition readUint16 (file : list Z) (offset : nat) : Z :=
  (nth offset file 0 + 256 * nth (offset + 1) file 0)%Z.

Definition readUint32 (file : list Z) (offset : nat) : Z :=
  (nth offset file 0 + 256 * nth (offset + 1) file 0
   + 65536 * nth (offset + 2) file 0 + 16777216 * nth (offset + 3) file 0)%Z.

(** The four characters at [offset], as a string. *)
Definition readTag (file : list Z) (offset : nat) : string :=
  string_of_list_ascii
    (map (fun b => ascii_of_nat (Z.to_nat b)) (firstn 4 (skipn offset file))).

(** The 44 bytes of the header for a file of [channels] channels and
    [frames] frames at the integer rate [rate]. *)
Definition wavHeader (channels frames : nat) (rate : Q) : list Z :=
  let blockAlign := (channels * 2)%nat in
  let dataSize := (frames * blockAlign)%nat in
  let num (n : nat) : Q := inject_Z (Z.of_nat n) in
  [82; 73; 70; 70]%Z ++ uint32_le (ToUint32 (num (44 + dataSize - 8)%nat))
  ++ [87; 65; 86; 69]%Z
  ++ [102; 109; 116; 32]%Z ++ uint32_le (ToUint32 16)
  ++ uint16_le (ToUint16 1) ++ uint16_le (ToUint16 (num channels))
  ++ uint32_le (ToUint32 rate) ++ uint32_le (ToUint32 (rate * num blockAlign))
  ++ uint16_le (ToUint16 (num blockAlign)) ++ uint16_le (ToUint16 (num 16%nat))
  ++ [100; 97; 116; 97]%Z ++ uint32_le (ToUint32 (num dataSize)).

End WavFile.

(** ** The chunk loop of [renderOffline] with its progress reports *)
Module RenderProgress.
Import Graph AudioExport.

Section Reporting.

Variable Math_pow : Q -> Q -> Q.
Variable renderChunk :
  AudioBuffer -> EffectGraph -> nat -> Z -> Q -> Q -> Q -> completion AudioBuffer.

(** The loop over [chunkStarts] from index [i], together with the percents
    the calls [onProgress('Rendering...', percent)] have passed so far; [n]
    is [chunkStarts.length].  A chunk that fails ends the loop before its
    report. *)
Fixpoint renderChunksReporting (buffer : AudioBuffer) (st : AudioGraphState) (dur : Q)
    (n i : nat) (starts : list Q) (reported : list Z)
  : completion (list AudioBuffer) * list Z :=
  match starts with
  | [] => (Return [], reported)
  | outputStart :: rest =>
      let sourceOffset := outputStart * effectiveRate Math_pow st in
      let sourceDuration := chunkDuration dur outputStart * effectiveRate Math_pow st in
      match renderChunk buffer (buildEffectGraph Math_pow st) (numberOfChannels buffer)
              (chunkFrames dur (sampleRate buffer) outputStart) (sampleRate buffer)
              sourceOffset sourceDuration with
      | Throw e => (Throw e, reported)
      | Return chunk =>
          let percent :=
            JsMath.round (((inject_Z (Z.of_nat i) + 1) / inject_Z (Z.of_nat n)) * 100) in
          let more := renderChunksReporting buffer st dur n (S i) rest
                        (reported ++ [percent]) in
          (chunks <- fst more ;; Return (chunk :: chunks), snd more)
      end
  end.

(** [renderOffline(buffer, state, onProgress)]: its completion and the
    percents reported. *)
Definition renderOfflineReporting (buffer : AudioBuffer) (st : AudioGraphState)
  : completion AudioBuffer * list Z :=
  let dur := outputDuration Math_pow buffer st in
  let starts := chunkStarts dur in
  let rendered := renderChunksReporting buffer st dur (List.length starts) 0 starts [] in
  (try_catch
     (renderedChunks <- fst rendered ;;
      concatenateAudioBuffers renderedChunks (numberOfChannels buffer) (sampleRate buffer))
     renderOffline_catch,
   snd rendered).

End Reporting.

(** An engine that renders silence for a window inside the source and
    refuses any other. *)
Definition boundedEngine
  (src : AudioBuffer) (g : EffectGraph) (channels : nat) (frames : Z) (rate off dur : Q)
  : completion AudioBuffer :=
  if Qle_bool 0 off && JsMath.Qltb 0 dur && Qle_bool (off + dur) (duration src)
  then silentEngine src g channels frames rate off dur
  else Throw (ErrorObj "RangeError" "window outside the source").

(** *** Vocabulary of the statements *)

(** A list of integers that never decreases. *)
Fixpoint nondecreasing (l : list Z) : Prop :=
  match l with
  | a :: (b :: _) as rest => (a <= b)%Z /\ nondecreasing rest
  | _ => True
  end.

End RenderProgress.

(** ** The WAV download: render, then encode (audio/export) *)
Module Downloads.
Import Graph AudioExport WavFile.

Section Pipeline.

Variable Math_pow : Q -> Q -> Q.
Variable renderChunk :
  AudioBuffer -> EffectGraph -> nat -> Z -> Q -> Q -> Q -> completion AudioBuffer.

(** Whether the platform grants an array of [n] bytes or elements. *)
Variable alloc_ok : nat -> bool.

(** [renderAndDownload(buffer, state, filename, onProgress)]: the bytes of
    the blob it resolves to.  ([filename] is not used.) *)
Definition renderAndDownload (buffer : AudioBuffer) (st : AudioGraphState)
  : completion (list Z) :=
  rendered <- renderOffline Math_pow renderChunk buffer st ;;
  encodeWAV alloc_ok rendered.

End Pipeline.

End Downloads.

(** ** Decoding ALAC to an [AudioBuffer] (audio/decode-alac) *)
Module AlacDecode.
Import AudioExport.

(** [ch[i] = v] on a [Float32Array]: an index past the end is ignored. *)
Definition store (ch : list Q) (i : nat) (v : Q) : list Q :=
  if (i <? List.length ch)%nat then firstn i ch ++ v :: skipn (S i) ch else ch.

(** The loop [for (i = 0; i < numFrames; i++) ch[i] = interleaved[i *
    numChannels + c]] over the indices [frames].  (A read past the end of
    [interleaved] only happens together with a store past the end of [ch],
    which is ignored.) *)
Fixpoint fillChannel (interleaved : list Q) (numChannels c : nat) (frames : list nat)
    (ch : list Q) : list Q :=
  match frames with
  | [] => ch
  | i :: more =>
      fillChannel interleaved numChannels c more
                  (store ch i (nth (i * numChannels + c) interleaved 0))
  end.

(** The callback of [asset.decodeToBuffer] in [decodeAlacToAudioBuffer],
    given the format the decoder announced, if any: the buffer the promise
    resolves to.  ([createBuffer] takes the whole part of [numFrames];
    [getChannelData(c)] of the fresh buffer cannot fail for
    [c < numChannels].) *)
Definition decodeToBuffer (format : option (nat * Q)) (interleaved : list Q)
  : completion AudioBuffer :=
  match format with
  | None => Throw (ErrorObj "Error" "No format from ALAC decoder")
  | Some (numChannels, rate) =>
      let numFrames := inject_Z (Z.of_nat (List.length interleaved))
                       / inject_Z (Z.of_nat numChannels) in
      buffer <- createBuffer numChannels (Z.to_nat (Qfloor numFrames)) rate ;;
      let iterations := seq 0 (Z.to_nat (Qceiling numFrames)) in
      Return (mkBuffer (sampleRate buffer) (bufferLength buffer)
                (map (fun c => fillChannel interleaved numChannels c iterations
                                 (nth c (channelData buffer) []))
                     (seq 0 numChannels)))
  end.

(** Six interleaved stereo samples. *)
Definition sixSamples : list Q := [0; 1; 1 # 2; - (1 # 2); -1; 1 # 4].

End AlacDecode.

(** ** The live chain on JavaScript numbers

    [Graph] keeps to finite numbers and leaves the cutoff parameters of
    the pass filters out.  Here [createAudioGraph] is embedded with its
    arguments ranging over all JavaScript numbers (finite, NaN, the two
    infinities), with the frequency parameters that [setFilterFreqs]
    writes, and with the [TypeError] an [AudioParam] throws when it is
    assigned a number that is not finite.  An [AudioParam] is modelled by
    the number last assigned to it. *)
Module LiveChain.

Inductive number : Type :=
| Finite (q : Q)
| NaN
| PosInfinity
| NegInfinity.

(** [a <= b]: false when either side is NaN. *)
Definition leb (a b : number) : bool :=
  match a, b with
  | NaN, _ => false
  | _, NaN => false
  | NegInfinity, _ => true
  | _, PosInfinity => true
  | Finite x, Finite y => Qle_bool x y
  | PosInfinity, _ => false
  | Finite _, NegInfinity => false
  end.

(** [Math.max(a, b)] and [Math.min(a, b)]: NaN when either argument is. *)
Definition Math_max (a b : number) : number :=
  match a, b with
  | NaN, _ => NaN
  | _, NaN => NaN
  | _, _ => if leb a b then b else a
  end.

Definition Math_min (a b : number) : number :=
  match a, b with
  | NaN, _ => NaN
  | _, NaN => NaN
  | _, _ => if leb a b then a else b
  end.

(** [x / c] for a positive constant [c]. *)
Definition divQ (x : number) (c : Q) : number :=
  match x with
  | Finite q => Finite (q / c)
  | other => other
  end.

(** [c * x] for a constant [c]. *)
Definition mulQ (c : Q) (x : number) : number :=
  match x with
  | Finite q => Finite (c * q)
  | NaN => NaN
  | PosInfinity =>
      if JsMath.Qltb 0 c then PosInfinity else if JsMath.Qltb c 0 then NegInfinity else NaN
  | NegInfinity =>
      if JsMath.Qltb 0 c then NegInfinity else if JsMath.Qltb c 0 then PosInfinity else NaN
  end.

(** [1 - x] *)
Definition oneMinus (x : number) : number :=
  match x with
  | Finite q => Finite (1 - q)
  | NaN => NaN
  | PosInfinity => NegInfinity
  | NegInfinity => PosInfinity
  end.

Record AudioGraphState : Type := mkState {
  speed : number;
  detune : number;
  bass : number;
  treble : number;
  lowpass : number;
  highpass : number;
  reverb : number;
  reverbType : Graph.ReverbType;
  volume : number
}.

(** The nodes of the chain and the parameters the setters write. *)
Record AudioGraph : Type := mkGraph {
  state : AudioGraphState;
  source : option Graph.SourceNode;
  bassFilterGain : Q;
  trebleFilterGain : Q;
  lowpassFrequency : Q;
  highpassFrequency : Q;
  dryGain : Q;
  wetGain : Q;
  gainNode : Q;
  wetInput : Graph.ReverbType
}.

(** What an [AudioParam] throws when given NaN or an infinity. *)
Definition nonFinite : Thrown :=
  ErrorObj "TypeError" "The provided float value is non-finite.".

(** The chain after a call, and what the call threw, if it did. *)
Definition Outcome : Type := AudioGraph * option Thrown.

(** [first; second]: [second] runs when [first] did not throw. *)
Definition andThen (first second : AudioGraph -> Outcome) (g : AudioGraph) : Outcome :=
  match first g with
  | (g', None) => second g'
  | (g', Some err) => (g', Some err)
  end.

(** [param.value = v] *)
Definition assign (write : Q -> AudioGraph -> AudioGraph) (v : number) (g : AudioGraph)
  : Outcome :=
  match v with
  | Finite q => (write q g, None)
  | _ => (g, Some nonFinite)
  end.

Definition with_state (s : AudioGraphState) (g : AudioGraph) : AudioGraph :=
  mkGraph s (source g) (bassFilterGain g) (trebleFilterGain g) (lowpassFrequency g)
          (highpassFrequency g) (dryGain g) (wetGain g) (gainNode g) (wetInput g).

Definition with_source (src : option Graph.SourceNode) (g : AudioGraph) : AudioGraph :=
  mkGraph (state g) src (bassFilterGain g) (trebleFilterGain g) (lowpassFrequency g)
          (highpassFrequency g) (dryGain g) (wetGain g) (gainNode g) (wetInput g).

Definition write_playbackRate (q : Q) (g : AudioGraph) : AudioGraph :=
  match source g with
  | Some src => with_source (Some (Graph.mkSource q (Graph.sourceDetune src))) g
  | None => g
  end.

Definition write_sourceDetune (q : Q) (g : AudioGraph) : AudioGraph :=
  match source g with
  | Some src => with_source (Some (Graph.mkSource (Graph.playbackRate src) q)) g
  | None => g
  end.

Definition write_bassGain (q : Q) (g : AudioGraph) : AudioGraph :=
  mkGraph (state g) (source g) q (trebleFilterGain g) (lowpassFrequency g)
          (highpassFrequency g) (dryGain g) (wetGain g) (gainNode g) (wetInput g).

Definition write_trebleGain (q : Q) (g : AudioGraph) : AudioGraph :=
  mkGraph (state g) (source g) (bassFilterGain g) q (lowpassFrequency g)
          (highpassFrequency g) (dryGain g) (wetGain g) (gainNode g) (wetInput g).

Definition write_lowpassFrequency (q : Q) (g : AudioGraph) : AudioGraph :=
  mkGraph (state g) (source g) (bassFilterGain g) (trebleFilterGain g) q
          (highpassFrequency g) (dryGain g) (wetGain g) (gainNode g) (wetInput g).

Definition write_highpassFrequency (q : Q) (g : AudioGraph) : AudioGraph :=
  mkGraph (state g) (source g) (bassFilterGain g) (trebleFilterGain g) (lowpassFrequency g)
          q (dryGain g) (wetGain g) (gainNode g) (wetInput g).

Definition write_dryGain (q : Q) (g : AudioGraph) : AudioGraph :=
  mkGraph (state g) (source g) (bassFilterGain g) (trebleFilterGain g) (lowpassFrequency g)
          (highpassFrequency g) q (wetGain g) (gainNode g) (wetInput g).

Definition write_wetGain (q : Q) (g : AudioGraph) : AudioGraph :=
  mkGraph (state g) (source g) (bassFilterGain g) (trebleFilterGain g) (lowpassFrequency g)
          (highpassFrequency g) (dryGain g) q (gainNode g) (wetInput g).

Definition write_gain (q : Q) (g : AudioGraph) : AudioGraph :=
  mkGraph (state g) (source g) (bassFilterGain g) (trebleFilterGain g) (lowpassFrequency g)
          (highpassFrequency g) (dryGain g) (wetGain g) q (wetInput g).

(** [connectActiveReverbToWet()] *)
Definition connectActiveReverbToWet (g : AudioGraph) : AudioGraph :=
  mkGraph (state g) (source g) (bassFilterGain g) (trebleFilterGain g) (lowpassFrequency g)
          (highpassFrequency g) (dryGain g) (wetGain g) (gainNode g) (reverbType (state g)).

Definition initialState : AudioGraphState :=
  mkState (Finite 1) (Finite 0) (Finite 0) (Finite 0) (Finite 0) (Finite 0) (Finite 0)
          Graph.delay (Finite 1).

Section Chain.

(** [Math.pow] on finite numbers, with a finite result. *)
Variable Math_pow : Q -> Q -> Q.

(** [Math.pow(2, x)] *)
Definition pow2 (x : number) : number :=
  match x with
  | Finite e => Finite (Math_pow 2 e)
  | NaN => NaN
  | PosInfinity => PosInfinity
  | NegInfinity => Finite 0
  end.

(** [setFilterFreqs()] *)
Definition setFilterFreqs (g : AudioGraph) : Outcome :=
  let lp := divQ (lowpass (state g)) 100 in
  let hp := divQ (highpass (state g)) 100 in
  andThen
    (assign write_lowpassFrequency
       (if leb lp (Finite 0) then Finite 20000
        else mulQ 20000 (pow2 (mulQ (-(664 # 100)) lp))))
    (assign write_highpassFrequency
       (if leb hp (Finite 0) then Finite 20
        else mulQ 20 (pow2 (mulQ (764 # 100) hp))))
    g.

(** [setReverbGains(amount)] *)
Definition setReverbGains (amount : number) (g : AudioGraph) : Outcome :=
  match reverbType (state g) with
  | Graph.delay =>
      andThen (assign write_dryGain (Finite 1))
              (assign write_wetGain (mulQ (45 # 100) (divQ amount 100))) g
  | Graph.original =>
      let w := mulQ (5 # 10) (divQ amount 100) in
      andThen (assign write_dryGain (oneMinus w)) (assign write_wetGain w) g
  end.

(** [createAudioGraph(buffer)]: the nodes as the constructor sets them
    (a new filter has the frequency 350), then
    [connectActiveReverbToWet()] and [setFilterFreqs()]. *)
Definition createAudioGraph : AudioGraph :=
  fst (setFilterFreqs
         (connectActiveReverbToWet
            (mkGraph initialState None 0 0 350 350 1 0 1 Graph.delay))).

Definition setSpeed (value : number) (g : AudioGraph) : Outcome :=
  let s := state g in
  let g' := with_state (mkState value (detune s) (bass s) (treble s) (lowpass s)
                                (highpass s) (reverb s) (reverbType s) (volume s)) g in
  match source g' with
  | Some _ => assign write_playbackRate value g'
  | None => (g', None)
  end.

Definition setDetune (cents : number) (g : AudioGraph) : Outcome :=
  let s := state g in
  let g' := with_state (mkState (speed s) cents (bass s) (treble s) (lowpass s)
                                (highpass s) (reverb s) (reverbType s) (volume s)) g in
  match source g' with
  | Some _ => assign write_sourceDetune cents g'
  | None => (g', None)
  end.

Definition setBass (db : number) (g : AudioGraph) : Outcome :=
  let s := state g in
  assign write_bassGain db
    (with_state (mkState (speed s) (detune s) db (treble s) (lowpass s)
                         (highpass s) (reverb s) (reverbType s) (volume s)) g).

Definition setTreble (db : number) (g : AudioGraph) : Outcome :=
  let s := state g in
  assign write_trebleGain db
    (with_state (mkState (speed s) (detune s) (bass s) db (lowpass s)
                         (highpass s) (reverb s) (reverbType s) (volume s)) g).

Definition setLowpass (amount : number) (g : AudioGraph) : Outcome :=
  let s := state g in
  setFilterFreqs
    (with_state (mkState (speed s) (detune s) (bass s) (treble s)
                         (Math_max (Finite 0) (Math_min (Finite 100) amount))
                         (highpass s) (reverb s) (reverbType s) (volume s)) g).

Definition setHighpass (amount : number) (g : AudioGraph) : Outcome :=
  let s := state g in
  setFilterFreqs
    (with_state (mkState (speed s) (detune s) (bass s) (treble s) (lowpass s)
                         (Math_max (Finite 0) (Math_min (Finite 100) amount))
                         (reverb s) (reverbType s) (volume s)) g).

Definition setReverb (amount : number) (g : AudioGraph) : Outcome :=
  let s := state g in
  let g' := with_state (mkState (speed s) (detune s) (bass s) (treble s) (lowpass s)
                                (highpass s)
                                (Math_max (Finite 0) (Math_min (Finite 100) amount))
                                (reverbType s) (volume s)) g in
  setReverbGains (reverb (state g')) g'.

Definition setReverbType (type : Graph.ReverbType) (g : AudioGraph) : Outcome :=
  let s := state g in
  let g' := connectActiveReverbToWet
              (with_state (mkState (speed s) (detune s) (bass s) (treble s) (lowpass s)
                                   (highpass s) (reverb s) type (volume s)) g) in
  setReverbGains (reverb (state g')) g'.

Definition setVolume (value : number) (g : AudioGraph) : Outcome :=
  let s := state g in
  assign write_gain value
    (with_state (mkState (speed s) (detune s) (bass s) (treble s) (lowpass s)
                         (highpass s) (reverb s) (reverbType s) value) g).

(** [play()], as far as the nodes go: [createSource] makes a new source
    node (rate 1, detune 0) and gives it the stored speed and detune. *)
Definition play (g : AudioGraph) : Outcome :=
  andThen (assign write_playbackRate (speed (state g)))
          (assign write_sourceDetune (detune (state g)))
          (with_source (Some (Graph.mkSource 1 0)) g).

Definition stop (g : AudioGraph) : Outcome := (with_source None g, None).

(** [getState()] returns a copy of the stored record. *)
Definition getState (g : AudioGraph) : AudioGraphState := state g.

(** One call on the chain's interface. *)
Inductive Call : Type :=
| SetSpeed (value : number)
| SetDetune (cents : number)
| SetBass (db : number)
| SetTreble (db : number)
| SetLowpass (amount : number)
| SetHighpass (amount : number)
| SetReverb (amount : number)
| SetReverbType (type : Graph.ReverbType)
| SetVolume (value : number)
| Play
| Stop.

Definition step (g : AudioGraph) (c : Call) : Outcome :=
  match c with
  | SetSpeed v => setSpeed v g
  | SetDetune v => setDetune v g
  | SetBass v => setBass v g
  | SetTreble v => setTreble v g
  | SetLowpass v => setLowpass v g
  | SetHighpass v => setHighpass v g
  | SetReverb v => setReverb v g
  | SetReverbType t => setReverbType t g
  | SetVolume v => setVolume v g
  | Play => play g
  | Stop => stop g
  end.

(** The chain after a sequence of calls, each made whether or not the
    one before it threw, and the errors thrown on the way. *)
Fixpoint run_from (g : AudioGraph) (calls : list Call) : AudioGraph * list Thrown :=
  match calls with
  | [] => (g, [])
  | c :: rest =>
      let (g', thrown) := step g c in
      let (final, errors) := run_from g' rest in
      (final, match thrown with Some err => err :: errors | None => errors end)
  end.

Definition run (calls : list Call) : AudioGraph * list Thrown :=
  run_from createAudioGraph calls.

End Chain.

(** *** Vocabulary of the statements *)

(** A number clamped to [[0, 100]]: itself inside the range, 0 below it,
    100 above it, and NaN when it is NaN. *)
Definition clampPercent (v : number) : number :=
  match v with
  | Finite q =>
      if JsMath.Qltb q 0 then Finite 0
      else if Qle_bool 100 q then Finite 100
      else Finite q
  | NaN => NaN
  | PosInfinity => Finite 100
  | NegInfinity => Finite 0
  end.

(** A finite number of [[0, 100]]. *)
Definition isPercent (v : number) : Prop :=
  match v with
  | Finite q => 0 <= q /\ q <= 100
  | _ => False
  end.

Definition percent_fields_ok (s : AudioGraphState) : Prop :=
  isPercent (lowpass s) /\ isPercent (highpass s) /\ isPercent (reverb s).

(** The percentage a call stores is not NaN. *)
Definition percentage_given (c : Call) : Prop :=
  match c with
  | SetLowpass v | SetHighpass v | SetReverb v => v <> NaN
  | _ => True
  end.




End LiveChain.

(** ** The time display of the controls (ui/controls) *)
Module Controls.
Import Graph Playback.

(** [a % b]: the remainder has the sign of [a]. *)
Definition remainder (a b : Q) : Q :=
  let q := a / b in
  a - b * inject_Z (if JsMath.Qltb q 0 then Qceiling q else Qfloor q).

(** [Number.MAX_SAFE_INTEGER], 2^53 - 1: up to it every integer is a
    binary64 number and prints digit for digit. *)
Definition MAX_SAFE_INTEGER : Z := 9007199254740991.

(** The decimal digits of an integer. *)
Definition decimal (n : Z) : string := NilZero.string_of_int (Z.to_int n).

(** [String(n)] for an integer [n]: its decimal digits when [n] is a safe
    integer.  A larger number prints as the shortest decimal that reads
    back as the same binary64 number, and in exponent notation from 1e21
    on; that printing is not embedded ([None]). *)
Definition numberToString (n : Z) : option string :=
  if (Z.abs n <=? MAX_SAFE_INTEGER)%Z then Some (decimal n) else None.

(** [s.padStart(targetLength, pad)] for a one-character [pad]. *)
Definition padStart (targetLength : nat) (pad : ascii) (s : string) : string :=
  string_of_list_ascii (repeat pad (targetLength - String.length s)) ++ s.

(** [formatTime(seconds)] *)
Definition formatTime (seconds : Q) : option string :=
  let m := JsMath.floor (seconds / 60) in
  let s := JsMath.floor (remainder seconds 60) in
  match numberToString m, numberToString s with
  | Some minutes, Some secs => Some (minutes ++ ":" ++ padStart 2 "0" secs)%string
  | _, _ => None
  end.

Section Display.

Variable Math_pow : Q -> Q -> Q.

(** [getEffectiveRate()] *)
Definition getEffectiveRate (p : Player) : Q :=
  speed (state (chain p)) * Math_pow 2 (detune (state (chain p)) / 1200).

(** [getRuntimeDuration()]; [graph.getDuration()] is the buffer's
    duration. *)
Definition getRuntimeDuration (p : Player) : Q :=
  let duration := bufferDuration p in
  let effectiveRate := getEffectiveRate p in
  if JsMath.Qltb 0 effectiveRate then duration / effectiveRate else duration.

(** [getRuntimeCurrentTime()] when the context clock reads [now]. *)
Definition getRuntimeCurrentTime (now : Q) (p : Player) : Q :=
  let current := getCurrentTime now p in
  let effectiveRate := getEffectiveRate p in
  if JsMath.Qltb 0 effectiveRate then current / effectiveRate else current.

(** The value [syncProgressBar()] gives the progress bar. *)
Definition progressPercent (now : Q) (p : Player) : Q :=
  let current := getCurrentTime now p in
  let duration := bufferDuration p in
  if JsMath.Qltb 0 duration then (current / duration) * 100 else 0.

End Display.

(** *** Vocabulary of the statements *)

(** The character of a decimal digit. *)
Definition digitChar (d : Z) : ascii := ascii_of_nat (48 + Z.to_nat d).

End Controls.

(** ** The frequency bins the visualizers draw (visualizer/bars, mirror,
    circular, line) *)
Module Visualizer.

(** [dc.frequencyEndIndex != null ? Math.min(dc.frequencyEndIndex, len) : len],
    for an integer end index. *)
Definition effectiveLenOf (frequencyEndIndex : option Z) (len : nat) : Z :=
  match frequencyEndIndex with
  | Some e => Z.min e (Z.of_nat len)
  | None => Z.of_nat len
  end.

(** [Math.max(1, Math.floor(effectiveLen / barCount))] *)
Definition stepOf (effectiveLen barCount : Z) : Z :=
  Z.max 1 (JsMath.floor (inject_Z effectiveLen / inject_Z barCount)).

(** [Math.min(i * step, effectiveLen - 1)] *)
Definition binIndexOf (i step effectiveLen : Z) : Z :=
  Z.min (i * step) (effectiveLen - 1).

(** The bin indices the loop [for (i = 0; i < barCount; i++)] reads. *)
Definition binsRead (effectiveLen barCount : Z) : list Z :=
  map (fun i => binIndexOf (Z.of_nat i) (stepOf effectiveLen barCount) effectiveLen)
      (seq 0 (Z.to_nat barCount)).

(** [drawBars]: the bar count is the requested one (128 by default) kept
    within 16..512 and within the bins there are. *)
Definition drawBars_bins (frequencyEndIndex barCount : option Z) (len : nat) : list Z :=
  let effectiveLen := effectiveLenOf frequencyEndIndex len in
  let requestedBars := match barCount with Some b => b | None => 128%Z end in
  binsRead effectiveLen (Z.min effectiveLen (Z.max 16 (Z.min 512 requestedBars))).

(** [drawMirror]: at most 128 bars. *)
Definition drawMirror_bins (frequencyEndIndex : option Z) (len : nat) : list Z :=
  let effectiveLen := effectiveLenOf frequencyEndIndex len in
  binsRead effectiveLen (Z.min effectiveLen 128).

(** [drawCircular]: at most 180 bars. *)
Definition drawCircular_bins (frequencyEndIndex : option Z) (len : nat) : list Z :=
  let effectiveLen := effectiveLenOf frequencyEndIndex len in
  binsRead effectiveLen (Z.min effectiveLen 180).

(** [drawLine]: at most 256 points. *)
Definition drawLine_bins (frequencyEndIndex : option Z) (len : nat) : list Z :=
  let effectiveLen := effectiveLenOf frequencyEndIndex len in
  binsRead effectiveLen (Z.min effectiveLen 256).

(** *** Vocabulary of the statements *)

(** Bins inside an array of [len] entries, each further up than the one
    before. *)
Definition distinct_bins_inside (len : nat) (bins : list Z) : Prop :=
  Forall (fun b => (0 <= b < Z.of_nat len)%Z) bins /\
  forall i j, (i < j < List.length bins)%nat -> (nth i bins 0 < nth j bins 0)%Z.

End Visualizer.

(* ===================================================================== *)
(** * Part II: theorems                                                   *)
(* ===================================================================== *)

Module JsMathFacts.
Import JsMath.

Lemma Qltb_lt (a b : Q) : Qltb a b = true <-> a < b.
Proof.
  unfold Qltb. rewrite negb_true_iff.
  split; intro H.
  - apply Qnot_le_lt. intro Hle. apply Qle_bool_iff in Hle. congruence.
  - destruct (Qle_bool b a) eqn:E; [|reflexivity].
    apply Qle_bool_iff in E. exfalso. apply (Qlt_not_le _ _ H E).
Qed.

Lemma Qltb_ge (a b : Q) : Qltb a b = false <-> b <= a.
Proof.
  unfold Qltb. rewrite negb_false_iff. apply Qle_bool_iff.
Qed.

Lemma Qltb_lt_compat (a a' b b' : Q) : a == a' -> b == b' -> Qltb a b = Qltb a' b'.
Proof. intros Ea Eb. unfold Qltb. now rewrite Ea, Eb. Qed.

Lemma Qle_bool_false (a b : Q) : Qle_bool a b = false -> b < a.
Proof.
  intro H. apply Qnot_le_lt. intro Hle. apply Qle_bool_iff in Hle. congruence.
Qed.

Lemma max_spec (a b : Q) : (a <= b /\ max a b = b) \/ (b < a /\ max a b = a).
Proof.
  unfold max. destruct (Qle_bool a b) eqn:E.
  - left. split; [now apply Qle_bool_iff | reflexivity].
  - right. split; [now apply Qle_bool_false | reflexivity].
Qed.

Lemma min_spec (a b : Q) : (a <= b /\ min a b = a) \/ (b < a /\ min a b = b).
Proof.
  unfold min. destruct (Qle_bool a b) eqn:E.
  - left. split; [now apply Qle_bool_iff | reflexivity].
  - right. split; [now apply Qle_bool_false | reflexivity].
Qed.

(** Clamping with [Math.max(lo, Math.min(hi, x))] lands in [[lo, hi]]. *)
Lemma clamp_range (lo hi x : Q) :
  lo <= hi -> lo <= max lo (min hi x) /\ max lo (min hi x) <= hi.
Proof.
  intro Hlh.
  destruct (min_spec hi x) as [[H1 E1]|[H1 E1]]; rewrite E1;
  destruct (max_spec lo hi) as [[H2 E2]|[H2 E2]];
  destruct (max_spec lo x) as [[H3 E3]|[H3 E3]];
  try rewrite E2; try rewrite E3; split; lra.
Qed.

(** A value already inside the range is stored as it is. *)
Lemma clamp_id (lo hi x : Q) :
  lo <= x -> x <= hi -> max lo (min hi x) == x.
Proof.
  intros Hl Hh.
  destruct (min_spec hi x) as [[H1 E1]|[H1 E1]]; rewrite E1.
  - destruct (max_spec lo hi) as [[H2 E2]|[H2 E2]]; rewrite E2; lra.
  - destruct (max_spec lo x) as [[H2 E2]|[H2 E2]]; rewrite E2; lra.
Qed.

Lemma floor_unique (x : Q) (z : Z) :
  inject_Z z <= x -> x < inject_Z (z + 1) -> Qfloor x = z.
Proof.
  intros Hl Hu.
  pose proof (Qfloor_le x) as H1.
  pose proof (Qlt_floor x) as H2.
  assert (A : inject_Z z < inject_Z (Qfloor x + 1)) by lra.
  assert (B : inject_Z (Qfloor x) < inject_Z (z + 1)) by lra.
  rewrite <- Zlt_Qlt in A, B. lia.
Qed.

Lemma ceil_unique (x : Q) (z : Z) :
  inject_Z (z - 1) < x -> x <= inject_Z z -> Qceiling x = z.
Proof.
  intros Hl Hu.
  pose proof (Qle_ceiling x) as H1.
  pose proof (Qceiling_lt x) as H2.
  assert (A : inject_Z (z - 1) < inject_Z (Qceiling x)) by lra.
  assert (B : inject_Z (Qceiling x - 1) < inject_Z z) by lra.
  rewrite <- Zlt_Qlt in A, B. lia.
Qed.

End JsMathFacts.

(** ** The live chain: what the setters store *)
Module GraphFacts.
Import JsMath JsMathFacts Graph.

Lemma percent_fields_initial : percent_fields_ok (state createAudioGraph).
Proof. unfold percent_fields_ok; simpl; repeat split; lra. Qed.

Lemma percent_fields_step (g : AudioGraph) (c : Call) :
  percent_fields_ok (state g) -> percent_fields_ok (state (step g c)).
Proof.
  unfold percent_fields_ok.
  intros [Hl [Hh Hr]].
  assert (Hc : forall x, 0 <= max 0 (min 100 x) /\ max 0 (min 100 x) <= 100)
    by (intro x; apply clamp_range; lra).
  destruct c; simpl; auto.
Qed.

Lemma gains_follow_initial : gains_follow_state createAudioGraph.
Proof. unfold gains_follow_state; simpl; split; reflexivity. Qed.

Lemma gains_follow_step (g : AudioGraph) (c : Call) :
  gains_follow_state g -> gains_follow_state (step g c).
Proof.
  unfold gains_follow_state.
  intros [Hd Hw].
  destruct c; simpl; auto; split; reflexivity.
Qed.

(** Both invariants hold along every sequence of calls, from any chain
    that has them. *)
Lemma invariants_fold (calls : list Call) :
  forall g, percent_fields_ok (state g) /\ gains_follow_state g ->
       percent_fields_ok (state (fold_left step calls g)) /\
       gains_follow_state (fold_left step calls g).
Proof.
  induction calls as [|c calls IH]; intros g [Hp Hg]; simpl.
  - split; assumption.
  - apply IH. split.
    + now apply percent_fields_step.
    + now apply gains_follow_step.
Qed.

Lemma reachable_invariants (calls : list Call) :
  percent_fields_ok (state (run calls)) /\ gains_follow_state (run calls).
Proof.
  unfold run. apply invariants_fold. split.
  - exact percent_fields_initial.
  - exact gains_follow_initial.
Qed.

(** C1, as the spec words it, fails: [setSpeed] and [setVolume] store a
    negative argument as it is. *)
Lemma setSpeed_setVolume_store_negative :
  speed (getState (run [SetSpeed (-1)])) < 0 /\
  volume (getState (run [SetVolume (-(1 # 2))])) < 0.
Proof. simpl. split; reflexivity. Qed.

End GraphFacts.

(** ** Dry/wet mixing policy, live and offline *)
Module ReverbPolicy.
Import JsMath JsMathFacts Graph GraphFacts AudioExport.

Lemma setReverbGains_policy (t : ReverbType) (amount r : Q) :
  r == amount ->
  follows_policy t amount (fst (setReverbGains t r)) (snd (setReverbGains t r)).
Proof.
  intro E. destruct t; simpl.
  - split; [reflexivity | rewrite E; reflexivity].
  - repeat split; try (rewrite E; reflexivity); ring.
Qed.

Lemma follows_policy_compat (t : ReverbType) (amount dry wet dry' wet' : Q) :
  dry' == dry -> wet' == wet ->
  follows_policy t amount dry wet -> follows_policy t amount dry' wet'.
Proof.
  intros Ed Ew. destruct t; simpl.
  - intros [H1 H2]. split; [rewrite Ed | rewrite Ew]; assumption.
  - intros [H1 [H2 H3]]. rewrite Ed, Ew. tauto.
Qed.

(** Every reachable chain mixes by the policy, at its stored amount. *)
Lemma live_chain_policy (calls : list Call) (amount : Q) :
  reverb (state (run calls)) == amount ->
  follows_policy (reverbType (state (run calls))) amount
                 (dryGain (run calls)) (wetGain (run calls)).
Proof.
  intro E.
  destruct (reachable_invariants calls) as [_ [Hd Hw]].
  eapply follows_policy_compat; [exact Hd | exact Hw |].
  now apply setReverbGains_policy.
Qed.

Lemma offline_graph_policy (Math_pow : Q -> Q -> Q) (st : AudioGraphState) (amount : Q) :
  reverb st == amount ->
  follows_policy (reverbType st) amount
                 (g_dryGain (buildEffectGraph Math_pow st))
                 (g_wetGain (buildEffectGraph Math_pow st)).
Proof.
  intro E. unfold buildEffectGraph. simpl.
  destruct (reverbType st); simpl.
  - split; [reflexivity | rewrite E; reflexivity].
  - repeat split; try (rewrite E; reflexivity); ring.
Qed.

(** C5: for every reverb amount in [[0, 100]], the comb algorithm keeps the
    dry gain at 1 with wet = amount/100 * 0.45, and the convolution
    algorithm has wet = amount/100 * 0.5, dry = 1 - wet, dry + wet = 1:
    in the live chain right after [setReverb(amount)], in every reachable
    live chain whose stored amount it is (so also after
    [setReverbType]), and in the graph [buildEffectGraph] builds for an
    offline chunk. *)
Theorem dry_wet_gain_policy (amount : Q) :
  0 <= amount -> amount <= 100 ->
  (forall calls,
     let g := setReverb amount (run calls) in
     follows_policy (reverbType (state g)) amount (dryGain g) (wetGain g)) /\
  (forall calls t,
     reverb (state (run calls)) == amount ->
     let g := setReverbType t (run calls) in
     reverbType (state g) = t /\ follows_policy t amount (dryGain g) (wetGain g)) /\
  (forall calls,
     reverb (state (run calls)) == amount ->
     follows_policy (reverbType (state (run calls))) amount
                    (dryGain (run calls)) (wetGain (run calls))) /\
  (forall Math_pow st,
     reverb st == amount ->
     follows_policy (reverbType st) amount
                    (g_dryGain (buildEffectGraph Math_pow st))
                    (g_wetGain (buildEffectGraph Math_pow st))).
Proof.
  intros Hlo Hhi. split; [|split; [|split]].
  - intros calls g. subst g. unfold setReverb. simpl.
    apply setReverbGains_policy. apply clamp_id; assumption.
  - intros calls t E g. subst g. unfold setReverbType. simpl.
    split; [reflexivity | now apply setReverbGains_policy].
  - intros calls E. now apply live_chain_policy.
  - intros Math_pow st E. now apply offline_graph_policy.
Qed.

(** The policy at amount 50. *)
Lemma dry_wet_gain_policy_at_50 :
  (forall calls,
     let g := setReverb 50 (run calls) in
     follows_policy (reverbType (state g)) 50 (dryGain g) (wetGain g)) /\
  (forall calls t,
     reverb (state (run calls)) == 50 ->
     let g := setReverbType t (run calls) in
     reverbType (state g) = t /\ follows_policy t 50 (dryGain g) (wetGain g)) /\
  (forall calls,
     reverb (state (run calls)) == 50 ->
     follows_policy (reverbType (state (run calls))) 50
                    (dryGain (run calls)) (wetGain (run calls))) /\
  (forall Math_pow st,
     reverb st == 50 ->
     follows_policy (reverbType st) 50
                    (g_dryGain (buildEffectGraph Math_pow st))
                    (g_wetGain (buildEffectGraph Math_pow st))).
Proof.
  apply (dry_wet_gain_policy 50); vm_compute; discriminate.
Defined.

End ReverbPolicy.

(** ** The offline renderer *)
Module RendererFacts.
Import JsMath JsMathFacts Graph AudioExport.

Lemma ceil_shift (x : Q) (n : Z) : Qceiling (x - inject_Z n) = (Qceiling x - n)%Z.
Proof.
  apply ceil_unique.
  - pose proof (Qceiling_lt x) as H.
    replace (Qceiling x - n - 1)%Z with ((Qceiling x - 1) + - n)%Z by lia.
    rewrite inject_Z_plus, inject_Z_opp. lra.
  - pose proof (Qle_ceiling x) as H.
    replace (Qceiling x - n)%Z with (Qceiling x + - n)%Z by lia.
    rewrite inject_Z_plus, inject_Z_opp. lra.
Qed.

Lemma ceil_pos (x : Q) : 0 < x -> (1 <= Qceiling x)%Z.
Proof.
  intro H. pose proof (Qle_ceiling x) as H1.
  assert (A : inject_Z 0 < inject_Z (Qceiling x)) by (change (inject_Z 0) with 0; lra).
  rewrite <- Zlt_Qlt in A. lia.
Qed.

Lemma inject_nat_0 : inject_Z (Z.of_nat 0) == 0.
Proof. reflexivity. Qed.

Lemma inject_nat_S (n : nat) :
  inject_Z (Z.of_nat (S n)) == inject_Z (Z.of_nat n) + 1.
Proof. rewrite Nat2Z.inj_succ. unfold Z.succ. rewrite inject_Z_plus. reflexivity. Qed.

Section ChunkArithmetic.

Variable dur rate : Q.
Variable sr : Z.
Hypothesis rate_int : rate == inject_Z sr.
Hypothesis sr_pos : (0 < sr)%Z.

Lemma rate_pos : 0 < rate.
Proof.
  rewrite rate_int. replace 0 with (inject_Z 0) by reflexivity.
  now rewrite <- Zlt_Qlt.
Qed.

(** A chunk that starts before the end has at least one frame. *)
Lemma chunkFrames_pos (t : Q) : t < dur -> (1 <= chunkFrames dur rate t)%Z.
Proof.
  intro Ht. unfold chunkFrames, ceil. apply ceil_pos.
  pose proof rate_pos as Hr.
  apply Qmult_lt_0_compat; [|exact Hr].
  unfold chunkDuration, RENDER_CHUNK_SECONDS.
  destruct (min_spec (t + 60) dur) as [[_ E]|[_ E]]; rewrite E; lra.
Qed.

(** Frames of the chunk starting at [60 k]: a whole chunk has [60 sr]
    frames, the last one what is left. *)
Lemma chunkFrames_at (t : Q) (k : Z) :
  t == inject_Z (60 * k) -> t < dur ->
  chunkFrames dur rate t =
    if Qle_bool (t + 60) dur then (60 * sr)%Z
    else (Qceiling (dur * rate) - 60 * k * sr)%Z.
Proof.
  intros Et Ht. unfold chunkFrames, ceil, chunkDuration, RENDER_CHUNK_SECONDS, min.
  destruct (Qle_bool (t + 60) dur) eqn:E.
  - assert (X : (t + 60 - t) * rate == inject_Z (60 * sr)).
    { rewrite rate_int. push_inject. ring. }
    rewrite X. apply Qceiling_Z.
  - assert (X : (dur - t) * rate == dur * rate - inject_Z (60 * k * sr)).
    { rewrite Et, rate_int. push_inject. ring. }
    rewrite X. apply ceil_shift.
Qed.

(** The frames of the chunks the loop starts at [t = 60 k] add up to what
    is left of the whole render, provided the fuel reaches the end. *)
Lemma chunkStarts_loop_total (fuel : nat) :
  forall (t : Q) (k : Z),
    t == inject_Z (60 * k) ->
    dur <= t + 60 * inject_Z (Z.of_nat fuel) ->
    totalFrames (map (chunkFrames dur rate) (chunkStarts_loop fuel t dur)) =
      if Qltb t dur then (Qceiling (dur * rate) - 60 * k * sr)%Z else 0%Z.
Proof.
  induction fuel as [|fuel IH]; intros t k Et Hfuel.
  - simpl chunkStarts_loop. simpl map. rewrite inject_nat_0 in Hfuel.
    destruct (Qltb t dur) eqn:E; [|reflexivity].
    apply Qltb_lt in E. lra.
  - cbn [chunkStarts_loop]. destruct (Qltb t dur) eqn:E; [|reflexivity].
    apply Qltb_lt in E.
    cbn [map totalFrames fold_right]. fold (totalFrames (map (chunkFrames dur rate)
      (chunkStarts_loop fuel (t + RENDER_CHUNK_SECONDS) dur))).
    rewrite (IH (t + RENDER_CHUNK_SECONDS) (k + 1)%Z).
    + rewrite (chunkFrames_at t k Et E). unfold RENDER_CHUNK_SECONDS.
      destruct (Qle_bool (t + 60) dur) eqn:E1.
      * apply Qle_bool_iff in E1.
        destruct (Qltb (t + 60) dur) eqn:E2; [lia|].
        apply Qltb_ge in E2.
        assert (X : dur * rate == inject_Z (60 * (k + 1) * sr)).
        { assert (Y : dur == t + 60) by lra.
          rewrite Y, Et, rate_int. push_inject. ring. }
        rewrite X, Qceiling_Z. lia.
      * apply Qle_bool_false in E1.
        destruct (Qltb (t + 60) dur) eqn:E2; [|lia].
        apply Qltb_lt in E2. lra.
    + unfold RENDER_CHUNK_SECONDS. rewrite Et. push_inject. ring.
    + unfold RENDER_CHUNK_SECONDS. rewrite inject_nat_S in Hfuel. lra.
Qed.

(** Every start the loop produces lies before the end. *)
Lemma chunkStarts_loop_before_end (fuel : nat) :
  forall t, Forall (fun s => s < dur) (chunkStarts_loop fuel t dur).
Proof.
  induction fuel as [|fuel IH]; intro t; simpl; [constructor|].
  destruct (Qltb t dur) eqn:E; [|constructor].
  constructor; [now apply Qltb_lt | apply IH].
Qed.

(** The fuel [chunkStarts] gives the loop reaches the end. *)
Lemma chunkStarts_fuel_enough :
  dur <= 0 + 60 * inject_Z (Z.of_nat (chunkStarts_fuel dur)).
Proof.
  unfold chunkStarts_fuel, RENDER_CHUNK_SECONDS.
  pose proof (Qle_ceiling (dur / 60)) as H.
  set (c := Qceiling (dur / 60)) in *.
  assert (Hc : inject_Z c <= inject_Z (Z.of_nat (S (Z.to_nat c)))).
  { rewrite <- Zle_Qle. lia. }
  assert (D : dur == (dur / 60) * 60) by (field).
  lra.
Qed.

(** With more fuel the loop produces the same starts. *)
Lemma chunkStarts_loop_more_fuel (fuel : nat) :
  forall t extra,
    dur <= t + 60 * inject_Z (Z.of_nat fuel) ->
    chunkStarts_loop (fuel + extra) t dur = chunkStarts_loop fuel t dur.
Proof.
  induction fuel as [|fuel IH]; intros t extra Hfuel.
  - rewrite inject_nat_0 in Hfuel. destruct extra; simpl; [reflexivity|].
    destruct (Qltb t dur) eqn:E; [|reflexivity].
    apply Qltb_lt in E. lra.
  - simpl. destruct (Qltb t dur) eqn:E; [|reflexivity].
    f_equal. apply IH. unfold RENDER_CHUNK_SECONDS.
    rewrite inject_nat_S in Hfuel. lra.
Qed.

Hypothesis dur_pos : 0 < dur.

Lemma chunkStarts_is_loop :
  chunkStarts dur = chunkStarts_loop (chunkStarts_fuel dur) 0 dur.
Proof.
  unfold chunkStarts, chunkStarts_fuel. simpl.
  destruct (Qltb 0 dur) eqn:E; [reflexivity|].
  apply Qltb_ge in E. lra.
Qed.

(** Sum of the chunks' frame counts = frames of one render of the whole
    output duration. *)
Lemma chunk_frames_total :
  totalFrames (map (chunkFrames dur rate) (chunkStarts dur)) = Qceiling (dur * rate).
Proof.
  rewrite chunkStarts_is_loop.
  rewrite (chunkStarts_loop_total _ 0 0%Z).
  - destruct (Qltb 0 dur) eqn:E; [lia|]. apply Qltb_ge in E. lra.
  - reflexivity.
  - apply chunkStarts_fuel_enough.
Qed.

Lemma chunk_frames_all_pos :
  Forall (fun s => (1 <= chunkFrames dur rate s)%Z) (chunkStarts dur).
Proof.
  rewrite chunkStarts_is_loop.
  eapply Forall_impl; [|apply chunkStarts_loop_before_end].
  intros s Hs. now apply chunkFrames_pos.
Qed.

End ChunkArithmetic.

(** *** Concatenation of the rendered chunks *)

Lemma typed_set_append (pre post data : list Q) :
  (List.length data <= List.length post)%nat ->
  typed_set (pre ++ post) data (List.length pre) =
    Return ((pre ++ data) ++ skipn (List.length data) post).
Proof.
  intro Hfit. unfold typed_set.
  assert (Hle : (List.length pre + List.length data <=? List.length (pre ++ post))%nat = true).
  { apply Nat.leb_le. rewrite length_app. lia. }
  rewrite Hle. f_equal.
  rewrite <- app_assoc. f_equal.
  - clear. induction pre as [|x pre IH]; simpl.
    + reflexivity.
    + now rewrite IH.
  - f_equal. clear. induction pre as [|x pre IH]; simpl; [reflexivity | exact IH].
Qed.

Lemma has_channel_channelOf (ch : nat) (b : AudioBuffer) :
  has_channel ch b ->
  getChannelData b ch = Return (channelOf ch b) /\
  List.length (channelOf ch b) = bufferLength b.
Proof.
  intros [data [Hnth Hlen]]. unfold getChannelData, channelOf.
  rewrite Hnth. rewrite (nth_error_nth _ _ _ Hnth). auto.
Qed.

Lemma copyChunks_spec (ch : nat) (buffers : list AudioBuffer) :
  forall pre post,
    Forall (has_channel ch) buffers ->
    List.length post = list_sum (map bufferLength buffers) ->
    copyChunks buffers ch (pre ++ post) (List.length pre) =
      Return (pre ++ List.concat (map (channelOf ch) buffers)).
Proof.
  induction buffers as [|b buffers IH]; intros pre post Hch Hlen.
  - simpl in *. destruct post; [reflexivity | discriminate].
  - inversion Hch as [|? ? Hb Hrest]; subst.
    destruct (has_channel_channelOf ch b Hb) as [Hget Hdata].
    simpl in Hlen. cbn [copyChunks]. rewrite Hget. cbn [bind].
    rewrite typed_set_append by lia. cbn [bind].
    replace (List.length pre + bufferLength b)%nat
      with (List.length (pre ++ channelOf ch b)) by (rewrite length_app; lia).
    rewrite IH.
    + simpl. now rewrite <- app_assoc.
    + exact Hrest.
    + rewrite length_skipn. lia.
Qed.

Lemma fillChannels_spec (buffers : list AudioBuffer) (total : nat) (n : nat) :
  forall ch,
    (forall c, (ch <= c < ch + n)%nat -> Forall (has_channel c) buffers) ->
    total = list_sum (map bufferLength buffers) ->
    fillChannels buffers ch (repeat (repeat 0 total) n) =
      Return (map (fun c => List.concat (map (channelOf c) buffers)) (seq ch n)).
Proof.
  induction n as [|n IH]; intros ch Hch Htotal; [reflexivity|].
  cbn [repeat fillChannels seq map].
  change (copyChunks buffers ch (repeat 0 total) 0)
    with (copyChunks buffers ch ([] ++ repeat 0 total) (List.length (@nil Q))).
  rewrite (copyChunks_spec ch buffers [] (repeat 0 total)).
  - cbn [bind app]. rewrite (IH (S ch)).
    + reflexivity.
    + intros c Hc. apply Hch. lia.
    + exact Htotal.
  - apply Hch. lia.
  - rewrite repeat_length. exact Htotal.
Qed.

Lemma fold_left_total (buffers : list AudioBuffer) (acc : nat) :
  fold_left (fun a b => (a + bufferLength b)%nat) buffers acc =
    (acc + list_sum (map bufferLength buffers))%nat.
Proof.
  revert acc. induction buffers as [|b buffers IH]; intro acc; simpl.
  - lia.
  - rewrite IH. lia.
Qed.

Lemma chunk_shape_has_channel (channels : nat) (rate : Q) (frames : Z)
      (chunk : AudioBuffer) (c : nat) :
  chunk_shape channels rate frames chunk -> (c < channels)%nat -> has_channel c chunk.
Proof.
  intros [_ [Hlen [Hn Hall]]] Hc. unfold numberOfChannels in Hn.
  destruct (nth_error (channelData chunk) c) as [data|] eqn:E.
  - exists data. split; [exact E|].
    rewrite Forall_forall in Hall. rewrite Hlen. apply Hall.
    eapply nth_error_In; eassumption.
  - apply nth_error_None in E. lia.
Qed.

Lemma totalFrames_pos (frames : list Z) :
  frames <> [] -> Forall (fun f => (1 <= f)%Z) frames -> (1 <= totalFrames frames)%Z.
Proof.
  intros Hne Hpos.
  assert (Hnn : forall fs, Forall (fun f => (1 <= f)%Z) fs -> (0 <= totalFrames fs)%Z).
  { induction 1; simpl; lia. }
  destruct frames as [|f fs]; [congruence|].
  inversion Hpos; subst. simpl. specialize (Hnn fs H2). lia.
Qed.

(** Chunks of the requested shapes concatenate, whatever was rendered into
    them: every channel of the result is the chunks' channel data in
    order. *)
Lemma concatenateAudioBuffers_spec (channels : nat) (rate : Q)
      (frames : list Z) (chunks : list AudioBuffer) :
  (1 <= channels)%nat ->
  Forall (fun f => (1 <= f)%Z) frames ->
  frames <> [] ->
  Forall2 (chunk_shape channels rate) frames chunks ->
  exists result,
    concatenateAudioBuffers chunks channels rate = Return result /\
    sampleRate result = rate /\
    bufferLength result = Z.to_nat (totalFrames frames) /\
    channelData result =
      map (fun c => List.concat (map (channelOf c) chunks)) (seq 0 channels).
Proof.
  intros Hch Hpos Hne Hshape.
  assert (Hsum : list_sum (map bufferLength chunks) = Z.to_nat (totalFrames frames) /\
                 (0 <= totalFrames frames)%Z).
  { clear Hne. induction Hshape as [|f c fs cs Hfc Hrest IH]; simpl.
    - split; [reflexivity | lia].
    - inversion Hpos; subst. destruct (IH H2) as [IH1 IH2].
      destruct Hfc as [_ [Hlen _]]. rewrite IH1, Hlen. split; lia. }
  destruct Hsum as [Hsum Hnonneg].
  pose proof (totalFrames_pos frames Hne Hpos) as Htot.
  unfold concatenateAudioBuffers. rewrite fold_left_total. simpl Nat.add.
  unfold createBuffer.
  destruct ((channels =? 0)%nat || (list_sum (map bufferLength chunks) =? 0)%nat) eqn:E.
  { apply orb_true_iff in E. destruct E as [E|E]; apply Nat.eqb_eq in E; lia. }
  cbn [bind channelData sampleRate bufferLength].
  rewrite (fillChannels_spec chunks _ channels 0).
  - cbn [bind]. eexists. split; [reflexivity|].
    cbn [sampleRate bufferLength channelData]. auto.
  - intros c Hc. clear - Hshape Hc.
    induction Hshape; constructor; auto.
    eapply chunk_shape_has_channel; [eassumption | lia].
  - reflexivity.
Qed.

Section RenderProofs.

Variable Math_pow : Q -> Q -> Q.
Variable renderChunk :
  AudioBuffer -> EffectGraph -> nat -> Z -> Q -> Q -> Q -> completion AudioBuffer.
Hypothesis engine_ok : engine_renders renderChunk.

(** Every chunk with at least one frame renders, to its requested shape. *)
Lemma renderChunks_ok (buffer : AudioBuffer) (st : AudioGraphState) (dur : Q)
      (starts : list Q) :
  Forall (fun s => (1 <= chunkFrames dur (sampleRate buffer) s)%Z) starts ->
  exists chunks,
    renderChunks Math_pow renderChunk buffer st dur starts = Return chunks /\
    Forall2 (chunk_shape (numberOfChannels buffer) (sampleRate buffer))
            (map (chunkFrames dur (sampleRate buffer)) starts) chunks.
Proof.
  induction starts as [|s starts IH]; intro Hpos.
  - exists []. split; [reflexivity | constructor].
  - inversion Hpos as [|? ? Hs Hrest]; subst.
    destruct (IH Hrest) as [more [Hmore Hshapes]].
    destruct (engine_ok buffer (buildEffectGraph Math_pow st) (numberOfChannels buffer)
                (chunkFrames dur (sampleRate buffer) s) (sampleRate buffer)
                (s * effectiveRate Math_pow st)
                (chunkDuration dur s * effectiveRate Math_pow st) Hs)
      as [chunk [Hchunk Hshape]].
    exists (chunk :: more). split.
    + cbn [renderChunks]. rewrite Hchunk. cbn [bind]. rewrite Hmore. reflexivity.
    + constructor; [exact Hshape | exact Hshapes].
Qed.

Lemma outputDuration_pos (buffer : AudioBuffer) (st : AudioGraphState) :
  wf_buffer buffer -> 0 < outputDuration Math_pow buffer st.
Proof.
  intros [Hrate [Hlen _]].
  assert (Hd : 0 < duration buffer).
  { unfold duration. apply Qlt_shift_div_l; [exact Hrate|].
    rewrite Qmult_0_l. replace 0 with (inject_Z 0) by reflexivity.
    rewrite <- Zlt_Qlt. lia. }
  unfold outputDuration. destruct (Qltb 0 (effectiveRate Math_pow st)) eqn:E.
  - apply Qltb_lt in E. apply Qlt_shift_div_l; [exact E|]. now rewrite Qmult_0_l.
  - exact Hd.
Qed.

(** The whole render of a well-formed buffer at an integer sample rate. *)
Lemma renderOffline_ok (buffer : AudioBuffer) (st : AudioGraphState) (sr : Z) :
  wf_buffer buffer ->
  sampleRate buffer == inject_Z sr ->
  let dur := outputDuration Math_pow buffer st in
  let rate := sampleRate buffer in
  exists chunks result,
    renderChunks Math_pow renderChunk buffer st dur (chunkStarts dur) = Return chunks /\
    renderOffline Math_pow renderChunk buffer st = Return result /\
    Forall2 (chunk_shape (numberOfChannels buffer) rate)
            (map (chunkFrames dur rate) (chunkStarts dur)) chunks /\
    totalFrames (map (chunkFrames dur rate) (chunkStarts dur)) = Qceiling (dur * rate) /\
    sampleRate result = rate /\
    bufferLength result = Z.to_nat (Qceiling (dur * rate)) /\
    (1 <= Qceiling (dur * rate))%Z /\
    channelData result =
      map (fun c => List.concat (map (channelOf c) chunks)) (seq 0 (numberOfChannels buffer)).
Proof.
  intros Hwf Hrate dur rate.
  pose proof (outputDuration_pos buffer st Hwf) as Hdur. fold dur in Hdur.
  assert (Hsr : (0 < sr)%Z).
  { destruct Hwf as [Hpos _]. rewrite Hrate in Hpos.
    replace 0 with (inject_Z 0) in Hpos by reflexivity.
    now rewrite <- Zlt_Qlt in Hpos. }
  pose proof (chunk_frames_all_pos dur rate sr Hrate Hsr Hdur) as Hpos.
  pose proof (chunk_frames_total dur rate sr Hrate Hdur) as Htotal.
  destruct (renderChunks_ok buffer st dur (chunkStarts dur) Hpos) as [chunks [Hchunks Hshapes]].
  assert (Hne : map (chunkFrames dur rate) (chunkStarts dur) <> []).
  { rewrite (chunkStarts_is_loop dur Hdur). unfold chunkStarts_fuel. simpl.
    destruct (Qltb 0 dur) eqn:E; [discriminate|].
    apply Qltb_ge in E. lra. }
  destruct (concatenateAudioBuffers_spec (numberOfChannels buffer) rate
              (map (chunkFrames dur rate) (chunkStarts dur)) chunks)
    as [result [Hcat [Hr [Hl Hc]]]].
  - destruct Hwf as [_ [_ [H _]]]. exact H.
  - rewrite Forall_map. exact Hpos.
  - exact Hne.
  - exact Hshapes.
  - exists chunks, result.
    split; [exact Hchunks|]. split.
    + unfold renderOffline. fold dur. rewrite Hchunks. cbn [bind].
      fold rate. rewrite Hcat. reflexivity.
    + rewrite Htotal in Hl. repeat split; auto.
      rewrite <- Htotal. apply totalFrames_pos; [exact Hne|].
      rewrite Forall_map. exact Hpos.
Qed.

(** If any chunk fails, the job fails with whatever the [catch] block
    makes of the first failure: no chunk is surfaced. *)
Lemma renderChunks_first_failure (buffer : AudioBuffer) (st : AudioGraphState)
      (dur : Q) (err : Thrown) (starts : list Q) :
  (forall g channels frames rate off d,
      renderChunk buffer g channels frames rate off d = Throw err) ->
  starts <> [] ->
  renderChunks Math_pow renderChunk buffer st dur starts = Throw err.
Proof.
  intros Hfail Hne. destruct starts as [|s rest]; [congruence|].
  cbn [renderChunks]. rewrite Hfail. reflexivity.
Qed.

End RenderProofs.

Lemma chunkStarts_nonempty (dur : Q) : chunkStarts dur <> [].
Proof.
  unfold chunkStarts.
  destruct (chunkStarts_loop (chunkStarts_fuel dur) 0 dur); discriminate.
Qed.

Lemma silentEngine_renders : engine_renders silentEngine.
Proof.
  intros src g channels frames rate off dur Hframes.
  unfold silentEngine.
  destruct (frames <? 1)%Z eqn:E; [apply Z.ltb_lt in E; lia|].
  eexists. split; [reflexivity|].
  unfold numberOfChannels. cbn [sampleRate bufferLength channelData].
  rewrite repeat_length. repeat split.
  apply Forall_forall. intros ch Hin.
  apply repeat_spec in Hin. subst ch. apply repeat_length.
Qed.

Lemma pow_int_pos (e : Q) : 0 < pow_int 2 e.
Proof.
  unfold pow_int. destruct (Qeq_bool (inject_Z (Qfloor e)) e); [|reflexivity].
  apply Qpower_0_lt. reflexivity.
Qed.

Lemma pow_int_zero (e : Q) : e == 0 -> pow_int 2 e == 1.
Proof.
  intro E. unfold pow_int.
  assert (F : Qfloor e = 0%Z) by (rewrite E; reflexivity).
  rewrite F. destruct (Qeq_bool (inject_Z 0) e); reflexivity.
Qed.

Lemma wf_two_channels (rate : Q) (n : Z) :
  0 < rate -> (1 <= n)%Z ->
  wf_buffer (mkBuffer rate (Z.to_nat n) [repeat 0 (Z.to_nat n); repeat 0 (Z.to_nat n)]).
Proof.
  intros Hr Hn. unfold wf_buffer, numberOfChannels.
  cbn [sampleRate bufferLength channelData List.length].
  repeat split; try lia; try assumption.
  repeat constructor; apply repeat_length.
Qed.

(** Length of a channel of the concatenation. *)
Lemma concat_channel_length (channels : nat) (rate : Q) (c : nat)
      (frames : list Z) (chunks : list AudioBuffer) :
  (c < channels)%nat ->
  Forall (fun f => (1 <= f)%Z) frames ->
  Forall2 (chunk_shape channels rate) frames chunks ->
  List.length (List.concat (map (channelOf c) chunks)) = Z.to_nat (totalFrames frames) /\
  (0 <= totalFrames frames)%Z.
Proof.
  intros Hc Hpos Hshape.
  induction Hshape as [|f chunk fs cs Hfc Hrest IH]; simpl.
  - split; [reflexivity | lia].
  - inversion Hpos; subst. destruct (IH H2) as [IH1 IH2].
    destruct (has_channel_channelOf c chunk
                (chunk_shape_has_channel channels rate f chunk c Hfc Hc)) as [_ Hlen].
    destruct Hfc as [_ [Hbl _]].
    rewrite length_app, IH1, Hlen, Hbl. split; lia.
Qed.

(** C2 at a failing input.  The claim has the frame counts of the chunks
    add up to Math.ceil(totalDuration * sampleRate), the count of a single
    render of the whole output.  In the code's binary64 arithmetic they do
    not: a source of 2650410 frames at 44100 Hz (60.1 s) rendered at speed
    1 with no detune has a second chunk of 60.1 - 60 = 0.10000000000000142
    s, whose frame count Math.ceil(0.10000000000000142 * 44100) is 4411;
    the chunks add up to 2650411 frames, one more than the
    Math.ceil(60.1 * 44100) = 2650410 of a single render. *)
Theorem binary64_chunks_one_frame_over :
  let rate := Binary64.of_Z 44100 in
  let dur := Binary64.outputDuration64 (PrimFloat.div (Binary64.of_Z 2650410) rate)
                                     (Binary64.of_Z 1) (Binary64.of_Z 1) in
  map (Binary64.chunkFrames64 dur rate) (Binary64.chunkStarts64 dur) = [2646000; 4411]%Z /\
  Binary64.ceil64 (PrimFloat.mul dur rate) = 2650410%Z /\
  totalFrames (map (Binary64.chunkFrames64 dur rate) (Binary64.chunkStarts64 dur))
    <> Binary64.ceil64 (PrimFloat.mul dur rate).
Proof. vm_compute. repeat split; discriminate. Qed.

(** The same source in exact arithmetic: the second chunk has 4410 frames
    and the total is the 2650410 of a single render. *)
Lemma exact_chunks_of_60_1_seconds :
  map (chunkFrames (601 # 10) 44100) (chunkStarts (601 # 10)) = [2646000; 4410]%Z /\
  Qceiling ((601 # 10) * 44100) = 2650410%Z.
Proof. vm_compute. split; reflexivity. Qed.

(** With exact arithmetic chunking loses no sample and keeps the count.
    For every well-formed source buffer at an integer sample
    rate and every effect state, when the engine renders each chunk to its
    requested size, [renderOffline] returns a buffer whose every channel is
    the chunks' channel data concatenated in order, with the sum of the
    chunks' frame counts as its per-channel sample count; and with the
    products computed exactly, the sum over the 60-second chunks of
    ceil(chunkDuration * sampleRate) equals ceil(totalDuration *
    sampleRate), the frame count of one render of the whole output. *)
Theorem chunked_render_is_lossless
    (Math_pow : Q -> Q -> Q)
    (renderChunk : AudioBuffer -> EffectGraph -> nat -> Z -> Q -> Q -> Q -> completion AudioBuffer)
    (buffer : AudioBuffer) (st : AudioGraphState) (sr : Z) :
  engine_renders renderChunk ->
  wf_buffer buffer ->
  sampleRate buffer == inject_Z sr ->
  0 < speed st ->
  let dur := outputDuration Math_pow buffer st in
  let rate := sampleRate buffer in
  let frames := map (chunkFrames dur rate) (chunkStarts dur) in
  exists chunks result,
    renderChunks Math_pow renderChunk buffer st dur (chunkStarts dur) = Return chunks /\
    Forall2 (fun f chunk => Z.of_nat (bufferLength chunk) = f /\
                            Forall (fun ch => Z.of_nat (List.length ch) = f) (channelData chunk))
            frames chunks /\
    renderOffline Math_pow renderChunk buffer st = Return result /\
    channelData result =
      map (fun c => List.concat (map (channelOf c) chunks)) (seq 0 (numberOfChannels buffer)) /\
    Forall (fun ch => Z.of_nat (List.length ch) = Qceiling (dur * rate)) (channelData result) /\
    Z.of_nat (bufferLength result) = Qceiling (dur * rate) /\
    totalFrames frames = Qceiling (dur * rate).
Proof.
  intros Hengine Hwf Hrate _ dur rate frames.
  destruct (renderOffline_ok Math_pow renderChunk Hengine buffer st sr Hwf Hrate)
    as [chunks [result [Hchunks [Hres [Hshapes [Htotal [Hr [Hlen [Hpos Hdata]]]]]]]]].
  fold dur rate in Hchunks, Hshapes, Htotal, Hlen, Hpos. fold frames in Hshapes, Htotal.
  assert (Hframes : Forall (fun f => (1 <= f)%Z) frames).
  { unfold frames. rewrite Forall_map.
    assert (Hsr : (0 < sr)%Z).
    { destruct Hwf as [Hp _]. rewrite Hrate in Hp.
      replace 0 with (inject_Z 0) in Hp by reflexivity.
      now rewrite <- Zlt_Qlt in Hp. }
    apply (chunk_frames_all_pos dur rate sr Hrate Hsr).
    apply outputDuration_pos; assumption. }
  exists chunks, result.
  split; [exact Hchunks|]. split; [|split; [exact Hres|split; [exact Hdata|split; [|split]]]].
  - clear - Hshapes Hframes.
    induction Hshapes as [|f chunk fs cs Hfc Hrest IH]; constructor.
    + inversion Hframes; subst. destruct Hfc as [_ [Hbl [_ Hall]]].
      split; [lia|]. eapply Forall_impl; [|exact Hall].
      intros ch Hch. simpl in Hch. lia.
    + apply IH. now inversion Hframes.
  - rewrite Hdata. apply Forall_map. apply Forall_forall. intros c Hc.
    apply in_seq in Hc.
    destruct (concat_channel_length (numberOfChannels buffer) rate c frames chunks)
      as [Hl _]; [lia | exact Hframes | exact Hshapes |].
    rewrite Hl, Htotal. lia.
  - rewrite Hlen. lia.
  - exact Htotal.
Qed.

(** The 100-second source renders in chunks without loss. *)
Lemma chunked_render_long_source :
  let dur := outputDuration pow_int longSource initialState in
  let rate := sampleRate longSource in
  let frames := map (chunkFrames dur rate) (chunkStarts dur) in
  exists chunks result,
    renderChunks pow_int silentEngine longSource initialState dur (chunkStarts dur)
      = Return chunks /\
    Forall2 (fun f chunk => Z.of_nat (bufferLength chunk) = f /\
                            Forall (fun ch => Z.of_nat (List.length ch) = f) (channelData chunk))
            frames chunks /\
    renderOffline pow_int silentEngine longSource initialState = Return result /\
    channelData result =
      map (fun c => List.concat (map (channelOf c) chunks)) (seq 0 (numberOfChannels longSource)) /\
    Forall (fun ch => Z.of_nat (List.length ch) = Qceiling (dur * rate)) (channelData result) /\
    Z.of_nat (bufferLength result) = Qceiling (dur * rate) /\
    totalFrames frames = Qceiling (dur * rate).
Proof.
  apply (chunked_render_is_lossless pow_int silentEngine longSource initialState 44100).
  - exact silentEngine_renders.
  - apply wf_two_channels; [reflexivity | lia].
  - reflexivity.
  - reflexivity.
Defined.

(** The [catch] block turns an error whose message names memory or
    allocation into the error with the user-facing hint. *)
Lemma catch_recognises_keywords (A : Type) (err : Thrown) (msg : string) :
  msg = match err with ErrorObj _ m => m | NonError str => str end ->
  includes msg "RangeError" = true \/ includes msg "memory" = true \/
  includes msg "allocate" = true ->
  @renderOffline_catch A err = Throw (ErrorObj "Error" OUT_OF_MEMORY_HINT).
Proof.
  intros Hmsg Hkey. unfold renderOffline_catch. rewrite <- Hmsg.
  destruct Hkey as [H|[H|H]]; rewrite H; rewrite ?orb_true_r; reflexivity.
Qed.

(** An error whose message names none of the three keys is rethrown as it
    is, whatever its class. *)
Lemma catch_rethrows_unrecognised (A : Type) (name message : string) :
  includes message "RangeError" = false ->
  includes message "memory" = false ->
  includes message "allocate" = false ->
  @renderOffline_catch A (ErrorObj name message) = Throw (ErrorObj name message).
Proof.
  intros H1 H2 H3. unfold renderOffline_catch. now rewrite H1, H2, H3.
Qed.

(** C4 at its failing input: when the allocation of a chunk's rendering
    context fails with the runtime's [RangeError] ("Array buffer allocation
    failed"), [renderOffline] surfaces no chunk and rethrows that
    [RangeError] unchanged: the [catch] block looks for "RangeError" in the
    message, which does not carry the error's name, so the error with the
    hint to try a shorter clip or fewer effects is not raised. *)
Theorem allocation_range_error_rethrown_unchanged
    (Math_pow : Q -> Q -> Q) (buffer : AudioBuffer) (st : AudioGraphState) :
  renderOffline Math_pow (failingEngine allocationFailure) buffer st
    = Throw allocationFailure /\
  allocationFailure <> ErrorObj "Error" OUT_OF_MEMORY_HINT.
Proof.
  split.
  - unfold renderOffline.
    rewrite (renderChunks_first_failure Math_pow (failingEngine allocationFailure)
               buffer st _ allocationFailure).
    + reflexivity.
    + reflexivity.
    + apply chunkStarts_nonempty.
  - discriminate.
Qed.

End RendererFacts.

(** ** The offline renderer on rounded arithmetic: frames and duration *)
Module RoundedFacts.
Import JsMath JsMathFacts Graph AudioExport RendererFacts.

Section RoundedChunks.

Variable rnd : Q -> Q.
Hypothesis rounding : Rounded.rounds_to_nearest rnd.

Lemma rnd_of_integer (x : Q) (n : Z) :
  x == inject_Z n -> (Z.abs n <= 2 ^ 53)%Z -> rnd x == inject_Z n.
Proof.
  intros E Hn. rewrite (Rounded.rnd_compat rnd rounding x (inject_Z n) E).
  now apply (Rounded.rnd_integer rnd rounding).
Qed.

Lemma rnd_zero : rnd 0 == 0.
Proof. apply (rnd_of_integer 0 0); [reflexivity | lia]. Qed.

Lemma rnd_nonneg (x : Q) : 0 <= x -> 0 <= rnd x.
Proof.
  intro H. rewrite <- rnd_zero. now apply (Rounded.rnd_monotone rnd rounding).
Qed.

(** Rounding between two integers stays between them, so the ceiling of
    the rounded number is the ceiling of the exact one, or one less. *)
Lemma ceil_of_rounded (x : Q) :
  0 < x -> x <= inject_Z (2 ^ 53) ->
  (Qceiling x - 1 <= Qceiling (rnd x) <= Qceiling x)%Z /\
  inject_Z (Qceiling (rnd x)) < x + 1 /\
  x - 1 < inject_Z (Qceiling (rnd x)).
Proof.
  intros H0 Hmax.
  pose proof (Qle_ceiling x) as Hc1. pose proof (Qceiling_lt x) as Hc2.
  set (c := Qceiling x) in *.
  assert (Hcpos : (1 <= c)%Z) by (apply ceil_pos; exact H0).
  assert (Hcmax : (c <= 2 ^ 53)%Z).
  { assert (A : inject_Z (c - 1) < inject_Z (2 ^ 53)) by lra.
    rewrite <- Zlt_Qlt in A. lia. }
  assert (Hup : rnd x <= inject_Z c).
  { rewrite <- (Rounded.rnd_integer rnd rounding c) by lia.
    now apply (Rounded.rnd_monotone rnd rounding). }
  assert (Hlo : inject_Z (c - 1) <= rnd x).
  { rewrite <- (Rounded.rnd_integer rnd rounding (c - 1)) by lia.
    apply (Rounded.rnd_monotone rnd rounding). lra. }
  assert (Hceil_up : (Qceiling (rnd x) <= c)%Z).
  { rewrite <- (Qceiling_Z c). now apply Qceiling_resp_le. }
  assert (Hceil_lo : (c - 1 <= Qceiling (rnd x))%Z).
  { rewrite <- (Qceiling_Z (c - 1)). now apply Qceiling_resp_le. }
  split; [lia|]. split.
  - assert (A : inject_Z (Qceiling (rnd x)) <= inject_Z c) by (rewrite <- Zle_Qle; lia).
    unfold Z.sub in Hc2. rewrite inject_Z_plus, inject_Z_opp in Hc2.
    change (inject_Z 1) with 1 in Hc2. lra.
  - destruct (Qlt_le_dec x (inject_Z c)) as [Hlt|Hge].
    + assert (A : inject_Z (c - 1) <= inject_Z (Qceiling (rnd x)))
        by (rewrite <- Zle_Qle; lia).
      unfold Z.sub in A. rewrite inject_Z_plus, inject_Z_opp in A.
      change (inject_Z 1) with 1 in A. lra.
    + assert (E : x == inject_Z c) by lra.
      assert (Er : rnd x == inject_Z c) by (apply rnd_of_integer; [exact E | lia]).
      rewrite (Qceiling_comp _ _ Er), Qceiling_Z. lra.
Qed.

Variable dur rate : Q.
Variable sr : Z.
Hypothesis rate_int : rate == inject_Z sr.
Hypothesis sr_pos : (1 <= sr)%Z.
Hypothesis sr_max : (60 * sr <= 2 ^ 53)%Z.
Hypothesis dur_value : rnd dur == dur.
Hypothesis dur_pos : 0 < dur.
Hypothesis dur_max : dur + 60 <= inject_Z (2 ^ 53).

Lemma rate_ge_1 : 1 <= rate.
Proof. rewrite rate_int. change 1 with (inject_Z 1). rewrite <- Zle_Qle. exact sr_pos. Qed.

(** A start of the loop is a multiple of 60, and so is the next. *)
Lemma next_start (t : Q) (k : Z) :
  t == inject_Z (60 * k) -> (0 <= k)%Z -> t < dur ->
  Rounded.add rnd t RENDER_CHUNK_SECONDS == inject_Z (60 * (k + 1)).
Proof.
  intros Et Hk Ht. unfold Rounded.add, RENDER_CHUNK_SECONDS.
  apply rnd_of_integer.
  - rewrite Et. push_inject. ring.
  - assert (A : inject_Z (60 * (k + 1)) <= inject_Z (2 ^ 53)).
    { replace (60 * (k + 1))%Z with (60 * k + 60)%Z by lia.
      rewrite inject_Z_plus, <- Et. change (inject_Z 60) with 60. lra. }
    rewrite <- Zle_Qle in A. lia.
Qed.

(** A chunk of the full 60 seconds has 60 * sampleRate frames. *)
Lemma whole_chunk (t : Q) (k : Z) :
  t == inject_Z (60 * k) -> (0 <= k)%Z -> t + 60 <= dur ->
  Rounded.chunkFrames rnd dur rate t = (60 * sr)%Z.
Proof.
  intros Et Hk Hend.
  assert (Ht : t < dur) by lra.
  pose proof (next_start t k Et Hk Ht) as Enext.
  assert (Eadd : Rounded.add rnd t RENDER_CHUNK_SECONDS == t + 60).
  { rewrite Enext, Et. push_inject. ring. }
  unfold Rounded.chunkFrames, Rounded.chunkDuration, ceil.
  assert (Emin : min (Rounded.add rnd t RENDER_CHUNK_SECONDS) dur
                 == t + 60).
  { destruct (min_spec (Rounded.add rnd t RENDER_CHUNK_SECONDS) dur) as [[H E]|[H E]];
      rewrite E; lra. }
  assert (Esub : Rounded.sub rnd (min (Rounded.add rnd t RENDER_CHUNK_SECONDS) dur) t
                 == inject_Z 60).
  { unfold Rounded.sub. apply rnd_of_integer; [|lia].
    rewrite Emin. change (inject_Z 60) with 60. ring. }
  assert (Emul : Rounded.mul rnd
                   (Rounded.sub rnd (min (Rounded.add rnd t RENDER_CHUNK_SECONDS) dur) t) rate
                 == inject_Z (60 * sr)).
  { unfold Rounded.mul. apply rnd_of_integer; [|lia].
    rewrite Esub, rate_int. now rewrite inject_Z_mult. }
  rewrite (Qceiling_comp _ _ Emul). apply Qceiling_Z.
Qed.

(** The last chunk: its duration is computed exactly, and its frame count
    is within one frame of duration * sampleRate, and at least one. *)
Lemma last_chunk (t : Q) (k : Z) :
  t == inject_Z (60 * k) -> (0 <= k)%Z -> t < dur -> dur < t + 60 ->
  let frames := Rounded.chunkFrames rnd dur rate t in
  (1 <= frames)%Z /\
  inject_Z frames < (dur - t) * rate + 1 /\
  (dur - t) * rate - 1 < inject_Z frames.
Proof.
  intros Et Hk Ht Hend. cbv zeta.
  pose proof (next_start t k Et Hk Ht) as Enext.
  assert (Eadd : Rounded.add rnd t RENDER_CHUNK_SECONDS == t + 60).
  { rewrite Enext, Et. push_inject. ring. }
  assert (Hk53 : (60 * k <= 2 ^ 53)%Z).
  { assert (A : inject_Z (60 * k) <= inject_Z (2 ^ 53)) by (rewrite <- Et; lra).
    now rewrite <- Zle_Qle in A. }
  assert (Et_value : rnd t == t).
  { rewrite Et at 2. apply rnd_of_integer; [exact Et | lia]. }
  assert (Et0 : 0 <= t).
  { rewrite Et. change 0 with (inject_Z 0). rewrite <- Zle_Qle. lia. }
  unfold Rounded.chunkFrames, Rounded.chunkDuration, ceil.
  assert (Emin : min (Rounded.add rnd t RENDER_CHUNK_SECONDS) dur = dur).
  { destruct (min_spec (Rounded.add rnd t RENDER_CHUNK_SECONDS) dur) as [[H E]|[H E]];
      [exfalso; lra | exact E]. }
  rewrite Emin.
  set (cd := Rounded.sub rnd dur t).
  assert (Ecd : cd == dur - t).
  { unfold cd, Rounded.sub.
    destruct (Z.eq_dec k 0) as [->|Hk0].
    - assert (E0 : t == 0) by (rewrite Et; reflexivity).
      assert (E1 : dur - t == dur) by (rewrite E0; ring).
      rewrite (Rounded.rnd_compat rnd rounding _ _ E1), dur_value, E0. ring.
    - apply (Rounded.rnd_sterbenz rnd rounding dur t dur_value Et_value).
      + apply Qle_shift_div_r; lra.
      + assert (A : inject_Z 60 <= inject_Z (60 * k)) by (rewrite <- Zle_Qle; lia).
        rewrite <- Et in A. change (inject_Z 60) with 60 in A. lra. }
  assert (Hcd_value : rnd cd == cd) by (apply (Rounded.rnd_idempotent rnd rounding)).
  assert (Hcd_pos : 0 < cd) by (rewrite Ecd; lra).
  pose proof rate_ge_1 as Hrate.
  set (x := cd * rate).
  assert (Hx_ge : cd <= x).
  { unfold x. rewrite <- (Qmult_1_r cd) at 1.
    apply Qmult_le_l; [exact Hcd_pos | exact Hrate]. }
  assert (Hx_pos : 0 < x) by lra.
  assert (Hx_max : x <= inject_Z (2 ^ 53)).
  { assert (A : x <= 60 * rate).
    { unfold x. apply Qmult_le_compat_r; [rewrite Ecd; lra | lra]. }
    assert (B : 60 * rate <= inject_Z (2 ^ 53)).
    { rewrite rate_int. change 60 with (inject_Z 60). rewrite <- inject_Z_mult.
      now rewrite <- Zle_Qle. }
    lra. }
  destruct (ceil_of_rounded x Hx_pos Hx_max) as [_ [Hup Hlo]].
  assert (Ex : x == (dur - t) * rate) by (unfold x; now rewrite Ecd).
  unfold Rounded.mul. fold x.
  split; [|split].
  - apply ceil_pos.
    apply Qlt_le_trans with cd; [exact Hcd_pos|].
    rewrite <- Hcd_value. now apply (Rounded.rnd_monotone rnd rounding).
  - rewrite <- Ex. exact Hup.
  - rewrite <- Ex. exact Hlo.
Qed.

(** The frames of the chunks the loop starts from [t = 60 k] on: at least
    one each, and within one frame of what is left of duration *
    sampleRate. *)
Lemma rounded_loop_total (fuel : nat) :
  forall (t : Q) (k : Z),
    t == inject_Z (60 * k) -> (0 <= k)%Z -> t < dur ->
    dur <= t + 60 * inject_Z (Z.of_nat fuel) ->
    let frames := map (Rounded.chunkFrames rnd dur rate)
                      (Rounded.chunkStarts_loop rnd fuel t dur) in
    frames <> [] /\
    Forall (fun f => (1 <= f)%Z) frames /\
    inject_Z (totalFrames frames) < dur * rate - inject_Z (60 * k * sr) + 1 /\
    dur * rate - inject_Z (60 * k * sr) - 1 < inject_Z (totalFrames frames).
Proof.
  induction fuel as [|fuel IH]; intros t k Et Hk Ht Hfuel; cbv zeta.
  - rewrite inject_nat_0 in Hfuel. exfalso. lra.
  - cbn [Rounded.chunkStarts_loop].
    rewrite (proj2 (Qltb_lt t dur) Ht).
    pose proof (next_start t k Et Hk Ht) as Enext.
    assert (Eadd : Rounded.add rnd t RENDER_CHUNK_SECONDS == t + 60).
    { rewrite Enext, Et. push_inject. ring. }
    assert (Eshift : (dur - t) * rate == dur * rate - inject_Z (60 * k * sr)).
    { rewrite Et, rate_int. push_inject. ring. }
    cbn [map]. split; [discriminate|].
    destruct (Qlt_le_dec dur (t + 60)) as [Hlast|Hwhole].
    + (* the last chunk *)
      assert (Estop : Rounded.chunkStarts_loop rnd fuel
                        (Rounded.add rnd t RENDER_CHUNK_SECONDS) dur = []).
      { destruct fuel; [reflexivity|]. cbn [Rounded.chunkStarts_loop].
        rewrite (proj2 (Qltb_ge _ dur)) by lra. reflexivity. }
      rewrite Estop. cbn [map totalFrames fold_right].
      destruct (last_chunk t k Et Hk Ht Hlast) as [H1 [Hup Hlo]].
      rewrite Z.add_0_r. split; [repeat constructor; exact H1|].
      rewrite <- Eshift. split; assumption.
    + rewrite (whole_chunk t k Et Hk Hwhole).
      assert (H60 : (1 <= 60 * sr)%Z) by lia.
      destruct (Qlt_le_dec (t + 60) dur) as [Hmore|Hdone].
      * (* more chunks follow *)
        destruct (IH (Rounded.add rnd t RENDER_CHUNK_SECONDS) (k + 1)%Z)
          as [_ [Hpos [Hup Hlo]]].
        -- exact Enext.
        -- lia.
        -- lra.
        -- rewrite inject_nat_S in Hfuel. lra.
        -- cbv zeta in Hpos, Hup, Hlo.
           set (rest := map (Rounded.chunkFrames rnd dur rate)
                            (Rounded.chunkStarts_loop rnd fuel
                               (Rounded.add rnd t RENDER_CHUNK_SECONDS) dur)) in *.
           cbn [totalFrames fold_right]. fold (totalFrames rest).
           split; [constructor; assumption|].
           rewrite inject_Z_plus.
           assert (E : inject_Z (60 * (k + 1) * sr)
                       == inject_Z (60 * k * sr) + inject_Z (60 * sr)).
           { rewrite <- inject_Z_plus. apply inject_Z_injective. lia. }
           rewrite E in Hup, Hlo. split; lra.
      * (* the chunk ends at the duration *)
        assert (Estop : Rounded.chunkStarts_loop rnd fuel
                          (Rounded.add rnd t RENDER_CHUNK_SECONDS) dur = []).
        { destruct fuel; [reflexivity|]. cbn [Rounded.chunkStarts_loop].
          rewrite (proj2 (Qltb_ge _ dur)) by lra. reflexivity. }
        rewrite Estop. cbn [map totalFrames fold_right]. rewrite Z.add_0_r.
        split; [repeat constructor; exact H60|].
        assert (Edur : dur == t + 60) by lra.
        assert (E : dur * rate - inject_Z (60 * k * sr) == inject_Z (60 * sr)).
        { rewrite <- Eshift, Edur, rate_int. push_inject. ring. }
        rewrite E. split; lra.
Qed.

(** All the chunks of the render. *)
Lemma rounded_chunks_total :
  let frames := map (Rounded.chunkFrames rnd dur rate) (Rounded.chunkStarts rnd dur) in
  frames <> [] /\
  Forall (fun f => (1 <= f)%Z) frames /\
  inject_Z (totalFrames frames) < dur * rate + 1 /\
  dur * rate - 1 < inject_Z (totalFrames frames).
Proof.
  cbv zeta.
  destruct (rounded_loop_total (chunkStarts_fuel dur) 0 0%Z) as [Hne [Hpos [Hup Hlo]]].
  - reflexivity.
  - lia.
  - exact dur_pos.
  - apply chunkStarts_fuel_enough.
  - cbv zeta in Hne, Hpos, Hup, Hlo.
    assert (E : Rounded.chunkStarts rnd dur
                = Rounded.chunkStarts_loop rnd (chunkStarts_fuel dur) 0 dur).
    { unfold Rounded.chunkStarts.
      destruct (Rounded.chunkStarts_loop rnd (chunkStarts_fuel dur) 0 dur);
        [exfalso; now apply Hne | reflexivity]. }
    rewrite E. split; [exact Hne|]. split; [exact Hpos|].
    change (inject_Z (60 * 0 * sr)) with 0 in Hup, Hlo. split; lra.
Qed.

End RoundedChunks.

Section RoundedRender.

Variable rnd : Q -> Q.
Hypothesis rounding : Rounded.rounds_to_nearest rnd.
Variable Math_pow : Q -> Q -> Q.
Variable renderChunk :
  AudioBuffer -> EffectGraph -> nat -> Z -> Q -> Q -> Q -> completion AudioBuffer.
Hypothesis engine_ok : engine_renders renderChunk.

Lemma rounded_renderChunks_ok (buffer : AudioBuffer) (st : AudioGraphState) (dur : Q)
      (starts : list Q) :
  Forall (fun s => (1 <= Rounded.chunkFrames rnd dur (sampleRate buffer) s)%Z) starts ->
  exists chunks,
    Rounded.renderChunks rnd Math_pow renderChunk buffer st dur starts = Return chunks /\
    Forall2 (chunk_shape (numberOfChannels buffer) (sampleRate buffer))
            (map (Rounded.chunkFrames rnd dur (sampleRate buffer)) starts) chunks.
Proof.
  induction starts as [|s starts IH]; intro Hpos.
  - exists []. split; [reflexivity | constructor].
  - inversion Hpos as [|? ? Hs Hrest]; subst.
    destruct (IH Hrest) as [more [Hmore Hshapes]].
    destruct (engine_ok buffer (Rounded.buildEffectGraph rnd Math_pow st)
                (numberOfChannels buffer)
                (Rounded.chunkFrames rnd dur (sampleRate buffer) s) (sampleRate buffer)
                (Rounded.mul rnd s (Rounded.effectiveRate rnd Math_pow st))
                (Rounded.mul rnd (Rounded.chunkDuration rnd dur s)
                             (Rounded.effectiveRate rnd Math_pow st)) Hs)
      as [chunk [Hchunk Hshape]].
    exists (chunk :: more). split.
    + cbn [Rounded.renderChunks]. rewrite Hchunk. cbn [bind]. rewrite Hmore. reflexivity.
    + constructor; [exact Hshape | exact Hshapes].
Qed.

Lemma outputDuration_value (buffer : AudioBuffer) (st : AudioGraphState) :
  rnd (Rounded.outputDuration rnd Math_pow buffer st)
  == Rounded.outputDuration rnd Math_pow buffer st.
Proof.
  unfold Rounded.outputDuration, Rounded.bufferDuration, Rounded.div.
  destruct (Qltb 0 (Rounded.effectiveRate rnd Math_pow st));
    apply (Rounded.rnd_idempotent rnd rounding).
Qed.

(** The render of a buffer whose output duration, as the code computes
    it, is positive: it returns, with a frame count within one frame of
    that duration times the sample rate. *)
Lemma rounded_render (buffer : AudioBuffer) (st : AudioGraphState) (sr : Z) :
  wf_buffer buffer ->
  sampleRate buffer == inject_Z sr ->
  (60 * sr <= 2 ^ 53)%Z ->
  let dur := Rounded.outputDuration rnd Math_pow buffer st in
  0 < dur ->
  dur + 60 <= inject_Z (2 ^ 53) ->
  exists result,
    Rounded.renderOffline rnd Math_pow renderChunk buffer st = Return result /\
    sampleRate result = sampleRate buffer /\
    numberOfChannels result = numberOfChannels buffer /\
    (1 <= Z.of_nat (bufferLength result))%Z /\
    inject_Z (Z.of_nat (bufferLength result)) < dur * sampleRate buffer + 1 /\
    dur * sampleRate buffer - 1 < inject_Z (Z.of_nat (bufferLength result)).
Proof.
  intros Hwf Hrate Hsr dur Hpos Hmax.
  assert (Hsr1 : (1 <= sr)%Z).
  { destruct Hwf as [Hp _]. rewrite Hrate in Hp.
    change 0 with (inject_Z 0) in Hp. rewrite <- Zlt_Qlt in Hp. lia. }
  destruct (rounded_chunks_total rnd rounding dur (sampleRate buffer) sr Hrate Hsr1 Hsr
              (outputDuration_value buffer st) Hpos Hmax)
    as [Hne [Hall [Hup Hlo]]].
  cbv zeta in Hne, Hall, Hup, Hlo.
  set (frames := map (Rounded.chunkFrames rnd dur (sampleRate buffer))
                     (Rounded.chunkStarts rnd dur)) in *.
  destruct (rounded_renderChunks_ok buffer st dur (Rounded.chunkStarts rnd dur))
    as [chunks [Hchunks Hshapes]].
  { unfold frames in Hall. now rewrite Forall_map in Hall. }
  fold frames in Hshapes.
  destruct (concatenateAudioBuffers_spec (numberOfChannels buffer) (sampleRate buffer)
              frames chunks) as [result [Hcat [Hr [Hl Hc]]]].
  - destruct Hwf as [_ [_ [H _]]]. exact H.
  - exact Hall.
  - exact Hne.
  - exact Hshapes.
  - assert (Htotal : (1 <= totalFrames frames)%Z) by (now apply totalFrames_pos).
    exists result. split.
    + unfold Rounded.renderOffline. fold dur. rewrite Hchunks. cbn [bind].
      rewrite Hcat. reflexivity.
    + split; [exact Hr|]. split.
      * unfold numberOfChannels at 1. rewrite Hc, length_map, length_seq. reflexivity.
      * rewrite Hl, Z2Nat.id by lia. repeat split; assumption.
Qed.

End RoundedRender.

(** *** The rounding to multiples of 2^-52 *)

Lemma grid_pos : 0 < inject_Z (2 ^ 52).
Proof. reflexivity. Qed.

Lemma toGrid_of_grid_point (a : Z) :
  Rounded.toGrid (inject_Z a / inject_Z (2 ^ 52)) == inject_Z a / inject_Z (2 ^ 52).
Proof.
  unfold Rounded.toGrid.
  assert (E : inject_Z a / inject_Z (2 ^ 52) * inject_Z (2 ^ 52) + (1 # 2)
              == inject_Z a + (1 # 2)) by (field; discriminate).
  rewrite (Qfloor_comp _ _ E).
  assert (F : Qfloor (inject_Z a + (1 # 2)) = a).
  { apply floor_unique; [lra|]. rewrite inject_Z_plus. change (inject_Z 1) with 1. lra. }
  rewrite F. reflexivity.
Qed.

Lemma toGrid_is_grid_point (x : Q) :
  Rounded.toGrid x
  == inject_Z (Qfloor (x * inject_Z (2 ^ 52) + (1 # 2))) / inject_Z (2 ^ 52).
Proof. reflexivity. Qed.

Lemma toGrid_compat (x y : Q) : x == y -> Rounded.toGrid x == Rounded.toGrid y.
Proof. intro E. unfold Rounded.toGrid. now rewrite E. Qed.

Lemma toGrid_rounds : Rounded.rounds_to_nearest Rounded.toGrid.
Proof.
  constructor.
  - exact toGrid_compat.
  - intros x y H. unfold Rounded.toGrid.
    apply Qmult_le_compat_r; [|apply Qinv_le_0_compat; discriminate].
    rewrite <- Zle_Qle. apply Qfloor_resp_le.
    assert (A : x * inject_Z (2 ^ 52) <= y * inject_Z (2 ^ 52))
      by (apply Qmult_le_compat_r; [exact H | discriminate]).
    lra.
  - intros n _.
    assert (E : inject_Z n == inject_Z (n * 2 ^ 52) / inject_Z (2 ^ 52))
      by (rewrite inject_Z_mult; field; discriminate).
    rewrite (toGrid_compat _ _ E), toGrid_of_grid_point. now rewrite <- E.
  - intro x. rewrite (toGrid_compat _ _ (toGrid_is_grid_point x)).
    rewrite toGrid_of_grid_point. reflexivity.
  - intros x y Hx Hy _ _.
    rewrite toGrid_is_grid_point in Hx. rewrite toGrid_is_grid_point in Hy.
    set (a := Qfloor (x * inject_Z (2 ^ 52) + (1 # 2))) in *.
    set (b := Qfloor (y * inject_Z (2 ^ 52) + (1 # 2))) in *.
    assert (E : x - y == inject_Z (a - b) / inject_Z (2 ^ 52)).
    { rewrite <- Hx at 1. rewrite <- Hy at 1.
      unfold Z.sub. rewrite inject_Z_plus, inject_Z_opp. field. discriminate. }
    rewrite (toGrid_compat _ _ E), toGrid_of_grid_point. now rewrite <- E.
Qed.

(** *** From the duration the code computes to the ideal one *)

(** Three roundings, each within the unit roundoff, keep the quotient of
    the rounded duration by the rounded rate within four units of the
    exact quotient. *)
Lemma quotient_within_four_units (D P D' P' q' : Q) :
  let u := Rounded.unitRoundoff in
  0 < D -> 0 < P ->
  (1 - u) * D <= D' -> D' <= (1 + u) * D ->
  (1 - u) * P <= P' -> P' <= (1 + u) * P ->
  (1 - u) * (D' / P') <= q' -> q' <= (1 + u) * (D' / P') ->
  0 < P' /\ 0 < q' /\
  (1 - 4 * u) * (D / P) <= q' /\ q' <= (1 + 4 * u) * (D / P).
Proof.
  cbv zeta. unfold Rounded.unitRoundoff.
  set (u := 1 # 2 ^ 53).
  assert (Hu : u == 1 # 9007199254740992) by reflexivity.
  intros HD HP HD1 HD2 HP1 HP2 Hq1 Hq2.
  assert (HP' : 0 < P').
  { assert (0 < (1 - u) * P) by (apply Qmult_lt_0_compat; [rewrite Hu; reflexivity | exact HP]).
    lra. }
  assert (HD' : 0 < D').
  { assert (0 < (1 - u) * D) by (apply Qmult_lt_0_compat; [rewrite Hu; reflexivity | exact HD]).
    lra. }
  set (q := D' / P') in *.
  set (I := D / P).
  assert (Eq : q * P' == D') by (unfold q; field; lra).
  assert (EI : I * P == D) by (unfold I; field; lra).
  assert (Hqpos : 0 < q) by (unfold q; apply Qlt_shift_div_l; lra).
  assert (HIpos : 0 < I) by (unfold I; apply Qlt_shift_div_l; lra).
  (* q (1 - u) <= (1 + u) I *)
  assert (A : q * (1 - u) <= (1 + u) * I).
  { apply (Qmult_le_r _ _ P HP).
    assert (X : q * ((1 - u) * P) <= q * P') by (apply Qmult_le_l; assumption).
    assert (Y : (1 + u) * I * P == (1 + u) * D) by (rewrite <- EI; ring).
    rewrite Y.
    assert (Z1 : q * (1 - u) * P == q * ((1 - u) * P)) by ring.
    rewrite Z1. lra. }
  (* (1 - u) I <= q (1 + u) *)
  assert (B : (1 - u) * I <= q * (1 + u)).
  { apply (Qmult_le_r _ _ P HP).
    assert (X : q * P' <= q * ((1 + u) * P)) by (apply Qmult_le_l; assumption).
    assert (Y : (1 - u) * I * P == (1 - u) * D) by (rewrite <- EI; ring).
    rewrite Y.
    assert (Z1 : q * (1 + u) * P == q * ((1 + u) * P)) by ring.
    rewrite Z1. lra. }
  split; [exact HP'|].
  assert (Hq'pos : 0 < q').
  { assert (0 < (1 - u) * q) by (apply Qmult_lt_0_compat; [rewrite Hu; reflexivity | exact Hqpos]).
    lra. }
  split; [exact Hq'pos|].
  clearbody q I. rewrite Hu in *. split; lra.
Qed.

Section DurationFormula.

Variable rnd : Q -> Q.
Variable Math_pow : Q -> Q -> Q.
Variable renderChunk :
  AudioBuffer -> EffectGraph -> nat -> Z -> Q -> Q -> Q -> completion AudioBuffer.

(** C3: the offline render lasts sourceDuration / (speed * 2^(detune /
    1200)), up to rounding.  The code evaluates the formula in binary64
    and rounds the frame count of every chunk up; with arithmetic that
    rounds to nearest ([rounds_to_nearest]) and an engine that renders
    each chunk to its size, for a well-formed buffer at an integer sample
    rate and a state with speed > 0, whenever the three roundings of the
    formula are each within the unit roundoff 2^-53 (no overflow, no
    underflow) and the output is shorter than 2^52 seconds: the render
    returns, its duration is less than one sample away from the duration
    [computed] by the code, which is within 4 * 2^-53 of the ideal
    duration in relative terms; so the rendered duration is within one
    sample plus that relative error of the ideal one.  (The render can be
    one whole sample longer than the ideal duration rounded up to a
    sample, not more.)  And speed 1.25 with detune 0 on a 10-second 44100
    Hz stereo buffer gives 352800 frames, 8 seconds exactly. *)
Theorem offline_render_duration :
  Rounded.rounds_to_nearest rnd ->
  engine_renders renderChunk ->
  (forall e, 0 < Math_pow 2 e) ->
  (forall e, e == 0 -> Math_pow 2 e == 1) ->
  (forall buffer st sr,
      wf_buffer buffer -> sampleRate buffer == inject_Z sr -> (60 * sr <= 2 ^ 53)%Z ->
      0 < speed st ->
      let exactRate := speed st * Math_pow 2 (Rounded.div rnd (detune st) 1200) in
      let ideal := duration buffer / exactRate in
      let computed := Rounded.outputDuration rnd Math_pow buffer st in
      let u := Rounded.unitRoundoff in
      Rounded.rounded_within_unit rnd (duration buffer) ->
      Rounded.rounded_within_unit rnd exactRate ->
      Rounded.rounded_within_unit rnd
        (Rounded.bufferDuration rnd buffer / Rounded.effectiveRate rnd Math_pow st) ->
      ideal <= inject_Z (2 ^ 52) ->
      exists result,
        Rounded.renderOffline rnd Math_pow renderChunk buffer st = Return result /\
        sampleRate result = sampleRate buffer /\
        (computed - 1 / sampleRate buffer < duration result /\
         duration result < computed + 1 / sampleRate buffer) /\
        ((1 - 4 * u) * ideal <= computed /\ computed <= (1 + 4 * u) * ideal) /\
        ((1 - 4 * u) * ideal - 1 / sampleRate buffer < duration result /\
         duration result < (1 + 4 * u) * ideal + 1 / sampleRate buffer)) /\
  (forall buffer st,
      wf_buffer buffer ->
      Z.of_nat (bufferLength buffer) = 441000%Z ->
      sampleRate buffer == 44100 ->
      numberOfChannels buffer = 2%nat ->
      speed st == 125 # 100 -> rnd (speed st) == speed st -> detune st == 0 ->
      exists result,
        Rounded.renderOffline rnd Math_pow renderChunk buffer st = Return result /\
        numberOfChannels result = 2%nat /\
        Z.of_nat (bufferLength result) = 352800%Z /\
        duration result == 8).
Proof.
  intros Hrnd Hengine Hpow_pos Hpow_0. split.
  - intros buffer st sr Hwf Hrate Hsr Hspeed exactRate ideal computed u HuD HuP Huq Hideal.
    assert (HD : 0 < duration buffer).
    { destruct Hwf as [Hr [Hlen _]]. unfold duration.
      apply Qlt_shift_div_l; [exact Hr|]. rewrite Qmult_0_l.
      change 0 with (inject_Z 0). rewrite <- Zlt_Qlt. lia. }
    assert (HP : 0 < exactRate).
    { unfold exactRate. apply Qmult_lt_0_compat; [exact Hspeed | apply Hpow_pos]. }
    destruct HuD as [HD1 HD2]. destruct HuP as [HP1 HP2]. destruct Huq as [Hq1 Hq2].
    fold u in HD1, HD2, HP1, HP2, Hq1, Hq2.
    change (rnd (duration buffer)) with (Rounded.bufferDuration rnd buffer) in HD1, HD2.
    change (rnd exactRate) with (Rounded.effectiveRate rnd Math_pow st) in HP1, HP2.
    destruct (quotient_within_four_units (duration buffer) exactRate
                (Rounded.bufferDuration rnd buffer) (Rounded.effectiveRate rnd Math_pow st)
                (rnd (Rounded.bufferDuration rnd buffer
                      / Rounded.effectiveRate rnd Math_pow st))
                HD HP HD1 HD2 HP1 HP2 Hq1 Hq2) as [Hr' [Hq' [Hlow Hhigh]]].
    fold ideal u in Hlow, Hhigh.
    assert (Ecomputed : computed
                        = rnd (Rounded.bufferDuration rnd buffer
                               / Rounded.effectiveRate rnd Math_pow st)).
    { unfold computed, Rounded.outputDuration.
      rewrite (proj2 (Qltb_lt 0 (Rounded.effectiveRate rnd Math_pow st)) Hr'). reflexivity. }
    rewrite <- Ecomputed in Hq', Hlow, Hhigh.
    assert (Hrate_pos : 0 < sampleRate buffer) by (destruct Hwf as [H _]; exact H).
    assert (Hmax : computed + 60 <= inject_Z (2 ^ 53)).
    { assert (Hipos : 0 < ideal) by (unfold ideal; apply Qlt_shift_div_l; lra).
      assert (E53 : inject_Z (2 ^ 53) == 2 * inject_Z (2 ^ 52)) by reflexivity.
      assert (E52 : inject_Z (2 ^ 52) == 4503599627370496) by reflexivity.
      assert (Hu : u == 1 # 9007199254740992) by reflexivity.
      rewrite E53. rewrite E52 in *. rewrite Hu in Hhigh. lra. }
    destruct (rounded_render rnd Hrnd Math_pow renderChunk Hengine buffer st sr
                Hwf Hrate Hsr Hq' Hmax)
      as [result [Hres [Hsr' [_ [Hlen1 [Hup Hlo]]]]]].
    fold computed in Hup, Hlo.
    exists result. split; [exact Hres|]. split; [exact Hsr'|].
    assert (Ed : duration result * sampleRate buffer
                 == inject_Z (Z.of_nat (bufferLength result))).
    { unfold duration. rewrite Hsr'. field. lra. }
    assert (E1 : (1 / sampleRate buffer) * sampleRate buffer == 1) by (field; lra).
    assert (Hbounds : computed - 1 / sampleRate buffer < duration result /\
                      duration result < computed + 1 / sampleRate buffer).
    { split; apply (Qmult_lt_r _ _ (sampleRate buffer) Hrate_pos).
      - rewrite Ed.
        assert (X : (computed - 1 / sampleRate buffer) * sampleRate buffer
                    == computed * sampleRate buffer - 1) by (field; lra).
        rewrite X. exact Hlo.
      - rewrite Ed.
        assert (X : (computed + 1 / sampleRate buffer) * sampleRate buffer
                    == computed * sampleRate buffer + 1) by (field; lra).
        rewrite X. exact Hup. }
    split; [exact Hbounds|]. split; [split; assumption|].
    destruct Hbounds as [B1 B2]. split; lra.
  - intros buffer st Hwf Hlen Hrate Hch Hspeed Hspeed_value Hdetune.
    assert (Hrate' : sampleRate buffer == inject_Z 44100) by (rewrite Hrate; reflexivity).
    assert (Ediv : Rounded.div rnd (detune st) 1200 == 0).
    { unfold Rounded.div. apply (rnd_of_integer rnd Hrnd _ 0); [|lia].
      rewrite Hdetune. reflexivity. }
    assert (Er : Rounded.effectiveRate rnd Math_pow st == 125 # 100).
    { unfold Rounded.effectiveRate, Rounded.mul.
      assert (E : speed st * Math_pow 2 (Rounded.div rnd (detune st) 1200) == speed st).
      { rewrite (Hpow_0 _ Ediv). ring. }
      rewrite (Rounded.rnd_compat rnd Hrnd _ _ E), Hspeed_value. exact Hspeed. }
    assert (ED : Rounded.bufferDuration rnd buffer == 10).
    { unfold Rounded.bufferDuration, Rounded.div.
      apply (rnd_of_integer rnd Hrnd _ 10); [|lia].
      rewrite Hlen, Hrate. reflexivity. }
    assert (Edur : Rounded.outputDuration rnd Math_pow buffer st == 8).
    { unfold Rounded.outputDuration.
      assert (Hpos : Qltb 0 (Rounded.effectiveRate rnd Math_pow st) = true)
        by (apply Qltb_lt; rewrite Er; reflexivity).
      rewrite Hpos. unfold Rounded.div.
      apply (rnd_of_integer rnd Hrnd _ 8); [|lia].
      rewrite ED, Er. reflexivity. }
    destruct (rounded_render rnd Hrnd Math_pow renderChunk Hengine buffer st 44100
                Hwf Hrate' ltac:(vm_compute; discriminate))
      as [result [Hres [Hsr' [Hch' [Hlen1 [Hup Hlo]]]]]].
    + rewrite Edur. reflexivity.
    + rewrite Edur. vm_compute. discriminate.
    + rewrite Edur, Hrate in Hup, Hlo.
      assert (Eframes : Z.of_nat (bufferLength result) = 352800%Z).
      { assert (A : inject_Z (Z.of_nat (bufferLength result)) < inject_Z 352801)
          by (change (inject_Z 352801) with (8 * 44100 + 1); exact Hup).
        assert (B : inject_Z 352799 < inject_Z (Z.of_nat (bufferLength result)))
          by (change (inject_Z 352799) with (8 * 44100 - 1); exact Hlo).
        rewrite <- Zlt_Qlt in A, B. lia. }
      exists result. split; [exact Hres|]. split; [congruence|]. split; [exact Eframes|].
      unfold duration. rewrite Hsr', Eframes, Hrate. reflexivity.
Qed.

End DurationFormula.

Lemma wf_sixtySecondsAndATenth : wf_buffer Rounded.sixtySecondsAndATenth.
Proof. apply wf_two_channels; [reflexivity | lia]. Qed.

(** A 60.1-second source at speed 1 with no detune, on the arithmetic that
    rounds to multiples of 2^-52. *)
Lemma sixty_seconds_and_a_tenth_rendered :
  let buffer := Rounded.sixtySecondsAndATenth in
  let ideal := duration buffer / (1 * pow_int 2 (Rounded.div Rounded.toGrid 0 1200)) in
  let computed := Rounded.outputDuration Rounded.toGrid pow_int buffer initialState in
  let u := Rounded.unitRoundoff in
  exists result,
    Rounded.renderOffline Rounded.toGrid pow_int silentEngine buffer initialState
      = Return result /\
    sampleRate result = sampleRate buffer /\
    (computed - 1 / sampleRate buffer < duration result /\
     duration result < computed + 1 / sampleRate buffer) /\
    ((1 - 4 * u) * ideal <= computed /\ computed <= (1 + 4 * u) * ideal) /\
    ((1 - 4 * u) * ideal - 1 / sampleRate buffer < duration result /\
     duration result < (1 + 4 * u) * ideal + 1 / sampleRate buffer).
Proof.
  apply (proj1 (offline_render_duration Rounded.toGrid pow_int silentEngine
                  toGrid_rounds silentEngine_renders pow_int_pos pow_int_zero)
           Rounded.sixtySecondsAndATenth initialState 44100%Z).
  - exact wf_sixtySecondsAndATenth.
  - reflexivity.
  - vm_compute. discriminate.
  - reflexivity.
  - split; vm_compute; discriminate.
  - split; vm_compute; discriminate.
  - split; vm_compute; discriminate.
  - vm_compute. discriminate.
Defined.

(** The same source on binary64 numbers proper.  The duration the code
    computes is the binary64 number next to 60.1, a little above it; the
    two chunks have 2646000 and 4411 frames, 2650411 in all: within one
    frame of the computed duration times the sample rate, as the theorem
    has it, and one whole frame more than the 2650410 frames of the ideal
    60.1 seconds. *)
Lemma binary64_render_of_60_1_seconds :
  let rate := Binary64.of_Z 44100 in
  let dur := Binary64.outputDuration64 (PrimFloat.div (Binary64.of_Z 2650410) rate)
                                     (Binary64.of_Z 1) (Binary64.of_Z 1) in
  let frames :=
    totalFrames (map (Binary64.chunkFrames64 dur rate) (Binary64.chunkStarts64 dur)) in
  frames = 2650411%Z /\
  601 # 10 < Binary64.value dur /\
  Binary64.value dur * 44100 - 1 < inject_Z frames /\
  inject_Z frames < Binary64.value dur * 44100 + 1 /\
  inject_Z frames == (601 # 10) * 44100 + 1.
Proof. cbv zeta. repeat split; vm_compute; reflexivity. Qed.

End RoundedFacts.

(** ** 16-bit sample conversion of the two encoders *)
Module SampleFacts.
Import JsMath JsMathFacts AudioExport.

Lemma clamp_is_clampUnit (x : Q) : max (-1) (min 1 x) == clampUnit x.
Proof.
  unfold clampUnit.
  destruct (Qltb x (-1)) eqn:E1; [apply Qltb_lt in E1 | apply Qltb_ge in E1].
  - destruct (min_spec 1 x) as [[H E]|[H E]]; rewrite E;
    [destruct (max_spec (-1) 1) as [[H' E']|[H' E']]
    |destruct (max_spec (-1) x) as [[H' E']|[H' E']]]; rewrite E'; lra.
  - destruct (Qltb 1 x) eqn:E2; [apply Qltb_lt in E2 | apply Qltb_ge in E2].
    + destruct (min_spec 1 x) as [[H E]|[H E]]; rewrite E;
      [destruct (max_spec (-1) 1) as [[H' E']|[H' E']]
      |destruct (max_spec (-1) x) as [[H' E']|[H' E']]]; rewrite E'; lra.
    + apply clamp_id; lra.
Qed.

Lemma clampUnit_range (x : Q) : -1 <= clampUnit x /\ clampUnit x <= 1.
Proof.
  rewrite <- clamp_is_clampUnit. apply clamp_range. lra.
Qed.

(** The value handed to the writer is the spec's. *)
Lemma encodeWAV_int16_is_pcm16 (x : Q) : encodeWAV_int16 x = pcm16 x.
Proof.
  unfold encodeWAV_int16, pcm16, floor.
  pose proof (clamp_is_clampUnit x) as E.
  rewrite (Qltb_lt_compat _ (clampUnit x) 0 0 E (Qeq_refl 0)).
  destruct (Qltb (clampUnit x) 0); now rewrite E.
Qed.

Lemma pcm16_range (x : Q) : (-32768 <= pcm16 x <= 32767)%Z.
Proof.
  unfold pcm16. destruct (clampUnit_range x) as [Hlo Hhi].
  destruct (Qltb (clampUnit x) 0) eqn:E.
  - apply Qltb_lt in E.
    assert (H : (Qfloor (clampUnit x * 32768) <= Qfloor (inject_Z 0))%Z).
    { apply Qfloor_resp_le. change (inject_Z 0) with 0. lra. }
    rewrite Qfloor_Z in H. lia.
  - apply Qltb_ge in E.
    assert (H1 : (Qfloor (inject_Z 0) <= Qfloor (clampUnit x * 32767))%Z).
    { apply Qfloor_resp_le. change (inject_Z 0) with 0. lra. }
    rewrite Qfloor_Z in H1. lia.
Qed.

(** Within range the scaling alone decides the result: the outer
    [Math.max] and [Math.min] never bite. *)
Lemma pcm16_scaling (x : Q) :
  pcm16 x = if Qltb (clampUnit x) 0
            then Qfloor (clampUnit x * 32768)
            else Qfloor (clampUnit x * 32767).
Proof.
  unfold pcm16. destruct (clampUnit_range x) as [Hlo Hhi].
  destruct (Qltb (clampUnit x) 0) eqn:E.
  - assert (H : (Qfloor (inject_Z (-32768)) <= Qfloor (clampUnit x * 32768))%Z).
    { apply Qfloor_resp_le. change (inject_Z (-32768)) with (-32768). lra. }
    rewrite Qfloor_Z in H. lia.
  - assert (H : (Qfloor (clampUnit x * 32767) <= Qfloor (inject_Z 32767))%Z).
    { apply Qfloor_resp_le. change (inject_Z 32767) with 32767. lra. }
    rewrite Qfloor_Z in H. lia.
Qed.

(** A value of the signed 16-bit range is stored as it is. *)
Lemma ToInt16_in_range (v : Z) : (-32768 <= v <= 32767)%Z -> ToInt16 v = v.
Proof.
  intro H. unfold ToInt16.
  destruct (Z_lt_le_dec v 0) as [Hneg|Hpos].
  - assert (E : (v mod 65536 = v + 65536)%Z).
    { rewrite <- (Z.mod_add v 1 65536) by lia. apply Z.mod_small. lia. }
    rewrite E. destruct (32768 <=? v + 65536)%Z eqn:L.
    + lia.
    + apply Z.leb_gt in L. lia.
  - rewrite Z.mod_small by lia.
    destruct (32768 <=? v)%Z eqn:L; [apply Z.leb_le in L; lia | reflexivity].
Qed.

Lemma ToInt16_mod (w : Z) : ToInt16 (w mod 65536) = ToInt16 w.
Proof. unfold ToInt16. now rewrite Z.mod_mod by lia. Qed.

(** The two bytes [setInt16] writes read back as the value written. *)
Lemma setInt16_le_roundtrip (v : Z) :
  (-32768 <= v <= 32767)%Z ->
  exists lo hi,
    setInt16_le v = [lo; hi] /\
    (0 <= lo < 256)%Z /\ (0 <= hi < 256)%Z /\
    getInt16_le lo hi = v.
Proof.
  intro H. unfold setInt16_le, getInt16_le.
  set (u := (ToInt16 v mod 65536)%Z).
  assert (Hu : (0 <= u < 65536)%Z) by (apply Z.mod_pos_bound; lia).
  exists (u mod 256)%Z, (u / 256)%Z.
  split; [reflexivity|]. split; [apply Z.mod_pos_bound; lia|]. split.
  - split; [apply Z.div_pos; lia | apply Z.div_lt_upper_bound; lia].
  - replace (u mod 256 + 256 * (u / 256))%Z with u
      by (rewrite (Z.div_mod u 256) at 1; lia).
    unfold u. rewrite ToInt16_mod. rewrite (ToInt16_in_range v H).
    apply ToInt16_in_range. exact H.
Qed.

(** One frame of the data section, read back. *)
Lemma readInt16s_frame {A : Type} (sample : A -> Q) (channels : list A) (rest : list Z) :
  readInt16s (flat_map (fun ch => setInt16_le (encodeWAV_int16 (sample ch))) channels ++ rest) =
    map (fun ch => pcm16 (sample ch)) channels ++ readInt16s rest.
Proof.
  induction channels as [|ch channels IH]; [reflexivity|].
  cbn [flat_map map].
  destruct (setInt16_le_roundtrip (encodeWAV_int16 (sample ch))) as [lo [hi [Hw [_ [_ Hr]]]]].
  { rewrite encodeWAV_int16_is_pcm16. apply pcm16_range. }
  rewrite Hw. cbn [app readInt16s]. rewrite Hr, IH, encodeWAV_int16_is_pcm16.
  reflexivity.
Qed.

(** C7: the 16-bit integers in the WAV data section, read back from the
    bytes written, and the entries of the MP3 encoder's [Int16Array], are
    the spec's conversion of the samples: with c the sample clamped to
    [[-1, 1]], max(-32768, floor(c * 32768)) when c < 0 and
    min(32767, floor(c * 32767)) otherwise; every one of them lies in
    [[-32768, 32767]]. *)
Theorem sample_conversion_to_int16 :
  (forall buffer : AudioBuffer,
      readInt16s (encodeWAV_data buffer) =
        flat_map (fun j => map (fun ch => pcm16 (nth j ch 0)) (channelData buffer))
                 (seq 0 (bufferLength buffer))) /\
  (forall float32 : list Q, floatToInt16 float32 = map pcm16 float32) /\
  (forall x : Q, encodeWAV_int16 x = pcm16 x /\ (-32768 <= pcm16 x <= 32767)%Z).
Proof.
  split; [|split].
  - intro buffer. unfold encodeWAV_data.
    induction (seq 0 (bufferLength buffer)) as [|j js IH]; [reflexivity|].
    cbn [flat_map].
    rewrite (readInt16s_frame (fun ch => nth j ch 0) (channelData buffer)).
    now rewrite IH.
  - intro float32. unfold floatToInt16. apply map_ext. intro x.
    fold (encodeWAV_int16 x).
    rewrite encodeWAV_int16_is_pcm16. apply ToInt16_in_range, pcm16_range.
  - intro x. split; [apply encodeWAV_int16_is_pcm16 | apply pcm16_range].
Qed.

End SampleFacts.

(** ** ID3v1 text truncation *)
Module Id3Facts.
Import AudioExport.

Lemma removelast_shorter (s : JsString) :
  s <> [] -> S (List.length (removelast s)) = List.length s.
Proof.
  intro Hne. rewrite removelast_firstn_len, length_firstn.
  destruct s; [congruence | simpl; lia].
Qed.

(** When the fuel covers the length, the loop stops on its own condition:
    the string is empty or it fits. *)
Lemma truncate_loop_exit (maxBytes : Z) (fuel : nat) :
  forall s, (List.length s <= fuel)%nat ->
       truncate_loop fuel s maxBytes = [] \/
       (encodedLength (truncate_loop fuel s maxBytes) <= maxBytes)%Z.
Proof.
  induction fuel as [|fuel IH]; intros s Hlen.
  - left. simpl. destruct s; [reflexivity | simpl in Hlen; lia].
  - cbn [truncate_loop].
    destruct (0 <? List.length s)%nat eqn:E1; cbn [andb].
    + destruct (maxBytes <? Z.of_nat (List.length (TextEncoder_encode s)))%Z eqn:E2.
      * apply IH. apply Nat.ltb_lt in E1.
        assert (s <> []) by (destruct s; [simpl in E1; lia | discriminate]).
        pose proof (removelast_shorter s H). lia.
      * right. apply Z.ltb_ge in E2. exact E2.
    + left. apply Nat.ltb_ge in E1. destruct s; [reflexivity | simpl in E1; lia].
Qed.

(** With more fuel than the length, the loop gives the same string. *)
Lemma truncate_loop_more_fuel (maxBytes : Z) (fuel : nat) :
  forall s extra, (List.length s <= fuel)%nat ->
    truncate_loop (fuel + extra) s maxBytes = truncate_loop fuel s maxBytes.
Proof.
  induction fuel as [|fuel IH]; intros s extra Hlen.
  - destruct s; [|simpl in Hlen; lia]. destruct extra; reflexivity.
  - cbn [Nat.add truncate_loop].
    destruct ((0 <? List.length s)%nat
              && (maxBytes <? Z.of_nat (List.length (TextEncoder_encode s)))%Z) eqn:E;
      [|reflexivity].
    apply IH. apply andb_true_iff in E. destruct E as [E1 _].
    apply Nat.ltb_lt in E1.
    assert (s <> []) by (destruct s; [simpl in E1; lia | discriminate]).
    pose proof (removelast_shorter s H). lia.
Qed.

(** The result is what is left after dropping code units from the end. *)
Lemma truncate_loop_prefix (maxBytes : Z) (fuel : nat) :
  forall s, exists k, truncate_loop fuel s maxBytes = firstn k s.
Proof.
  induction fuel as [|fuel IH]; intro s.
  - exists (List.length s). simpl. now rewrite firstn_all.
  - cbn [truncate_loop].
    destruct ((0 <? List.length s)%nat
              && (maxBytes <? Z.of_nat (List.length (TextEncoder_encode s)))%Z).
    + destruct (IH (removelast s)) as [k Hk]. rewrite Hk.
      rewrite removelast_firstn_len, firstn_firstn. eexists. reflexivity.
    + exists (List.length s). now rewrite firstn_all.
Qed.

Lemma bmp_scalar_values (s : JsString) :
  Forall isBmpCharacter s -> toScalarValues s = s /\ isWellFormed s = true.
Proof.
  induction 1 as [|c s [Hh Hl] Hs [IH1 IH2]]; [split; reflexivity|].
  cbn [toScalarValues isWellFormed]. rewrite Hh, Hl, IH1, IH2. split; reflexivity.
Qed.

Lemma ascii_is_bmp (c : Z) : isAscii c -> isBmpCharacter c.
Proof.
  unfold isAscii, isBmpCharacter, isHighSurrogate, isLowSurrogate. intro H.
  split; apply andb_false_iff; left; apply Z.leb_gt; lia.
Qed.

Lemma ascii_encodedLength (s : JsString) :
  Forall isAscii s -> encodedLength s = Z.of_nat (List.length s).
Proof.
  intro H. unfold encodedLength, TextEncoder_encode.
  destruct (bmp_scalar_values s) as [E _].
  { eapply Forall_impl; [|exact H]. apply ascii_is_bmp. }
  rewrite E. f_equal.
  induction H as [|c s Hc Hs IH]; [reflexivity|].
  cbn [flat_map]. unfold utf8_bytes at 1.
  destruct (c <? 128)%Z eqn:L; [|apply Z.ltb_ge in L; unfold isAscii in Hc; lia].
  simpl. f_equal. apply IH.
  destruct (bmp_scalar_values s) as [E' _]; [|exact E'].
  eapply Forall_impl; [|exact Hs]. apply ascii_is_bmp.
Qed.

Lemma Forall_firstn {A : Type} (P : A -> Prop) (k : nat) (l : list A) :
  Forall P l -> Forall P (firstn k l).
Proof.
  intro H. revert k. induction H as [|x l Hx Hl IH]; intro k.
  - rewrite firstn_nil. constructor.
  - destruct k; simpl; constructor; auto.
Qed.

Lemma Forall_removelast {A : Type} (P : A -> Prop) (l : list A) :
  Forall P l -> Forall P (removelast l).
Proof.
  intro H. rewrite removelast_firstn_len. now apply Forall_firstn.
Qed.

(** An ASCII string is cut to its first [maxBytes] characters. *)
Lemma truncate_loop_ascii (maxBytes : Z) (fuel : nat) :
  (0 <= maxBytes)%Z ->
  forall s, Forall isAscii s -> (List.length s <= fuel)%nat ->
       truncate_loop fuel s maxBytes = firstn (Z.to_nat maxBytes) s.
Proof.
  intro Hmax. induction fuel as [|fuel IH]; intros s Hs Hlen.
  - destruct s; [|simpl in Hlen; lia]. simpl. now rewrite firstn_nil.
  - cbn [truncate_loop]. fold (encodedLength s).
    rewrite (ascii_encodedLength s Hs).
    destruct (0 <? List.length s)%nat eqn:E1; cbn [andb].
    + destruct (maxBytes <? Z.of_nat (List.length s))%Z eqn:E2.
      * apply Z.ltb_lt in E2. apply Nat.ltb_lt in E1.
        assert (Hne : s <> []) by (destruct s; [simpl in E1; lia | discriminate]).
        pose proof (removelast_shorter s Hne) as Hshort.
        rewrite IH.
        -- apply firstn_removelast. lia.
        -- now apply Forall_removelast.
        -- lia.
      * apply Z.ltb_ge in E2. symmetry. apply firstn_all2. lia.
    + apply Nat.ltb_ge in E1. destruct s; [|simpl in E1; lia]. now rewrite firstn_nil.
Qed.

(** A title whose 30-byte limit falls after the third byte of a surrogate
    pair is cut between the two halves; the result ends in a lone high
    surrogate, which encodes as U+FFFD (EF BF BD). *)
Lemma truncation_splits_surrogate_pair :
  isWellFormed titleWithEmoji = true /\
  truncateForId3v1 titleWithEmoji ID3V1_MAX_BYTES = (repeat 97 27 ++ [55357])%Z /\
  isWellFormed (truncateForId3v1 titleWithEmoji ID3V1_MAX_BYTES) = false /\
  skipn 27 (TextEncoder_encode (truncateForId3v1 titleWithEmoji ID3V1_MAX_BYTES))
    = [239; 191; 189]%Z /\
  skipn 27 (TextEncoder_encode titleWithEmoji) = [240; 159; 152; 128]%Z.
Proof. vm_compute. repeat split; reflexivity. Qed.

(** What the truncation does keep of its promise.  For every string and
    every non-negative limit, so for the 30-byte fields and the 4-byte
    year, [truncateForId3v1] returns a prefix of the string's UTF-16 code
    units whose UTF-8 encoding has at most that many bytes; a 40-character
    ASCII title is cut to its first 30 characters, exactly 30 bytes; and a
    string with no surrogate code units is never cut inside a character. *)
Theorem id3v1_truncation :
  (forall s maxBytes, (0 <= maxBytes)%Z ->
      (encodedLength (truncateForId3v1 s maxBytes) <= maxBytes)%Z) /\
  (forall s, (encodedLength (truncateForId3v1 s ID3V1_MAX_BYTES) <= 30)%Z /\
             (encodedLength (truncateForId3v1 s ID3V1_YEAR_MAX_BYTES) <= 4)%Z) /\
  (forall s, List.length s = 40%nat -> Forall isAscii s ->
      truncateForId3v1 s ID3V1_MAX_BYTES = firstn 30 s /\
      encodedLength (truncateForId3v1 s ID3V1_MAX_BYTES) = 30%Z) /\
  (forall s maxBytes, exists k, truncateForId3v1 s maxBytes = firstn k s) /\
  (forall s maxBytes, Forall isBmpCharacter s ->
      isWellFormed (truncateForId3v1 s maxBytes) = true /\
      exists k, toScalarValues (truncateForId3v1 s maxBytes) = firstn k (toScalarValues s)).
Proof.
  assert (Hfit : forall s maxBytes, (0 <= maxBytes)%Z ->
             (encodedLength (truncateForId3v1 s maxBytes) <= maxBytes)%Z).
  { intros s maxBytes Hmax. unfold truncateForId3v1.
    destruct (truncate_loop_exit maxBytes (List.length s) s (Nat.le_refl _)) as [E|E].
    - rewrite E. exact Hmax.
    - exact E. }
  split; [exact Hfit|]. split; [|split; [|split]].
  - intro s. split; apply Hfit; unfold ID3V1_MAX_BYTES, ID3V1_YEAR_MAX_BYTES; lia.
  - intros s Hlen Hascii. unfold truncateForId3v1, ID3V1_MAX_BYTES.
    rewrite (truncate_loop_ascii 30 (List.length s)) by (auto; lia).
    change (Z.to_nat 30) with 30%nat. split; [reflexivity|].
    rewrite ascii_encodedLength by (now apply Forall_firstn).
    rewrite length_firstn, Hlen. reflexivity.
  - intros s maxBytes. apply truncate_loop_prefix.
  - intros s maxBytes Hbmp. unfold truncateForId3v1.
    destruct (truncate_loop_prefix maxBytes (List.length s) s) as [k Hk].
    rewrite Hk.
    destruct (bmp_scalar_values (firstn k s)) as [E W]; [now apply Forall_firstn|].
    destruct (bmp_scalar_values s Hbmp) as [E' _].
    split; [exact W|]. exists k. now rewrite E, E'.
Qed.

(** The title with an accented letter: 31 bytes cut to 30, at a character
    boundary. *)
Lemma accented_title_fits :
  (encodedLength (truncateForId3v1 titleWithAccent 30) <= 30)%Z.
Proof.
  apply (proj1 id3v1_truncation titleWithAccent 30%Z). lia.
Defined.

End Id3Facts.

(** ** The tempo estimator *)
Module BpmFacts.
Import JsMath JsMathFacts Bpm.

(** *** The estimator's stages, after the mono window *)

(** *** From the modal bin to the tempo, in the spec's words *)

Lemma numBins_value : numBins = 35%Z.
Proof. vm_compute. reflexivity. Qed.

Lemma minPeriodMs_value : minPeriodMs == 300.
Proof. vm_compute. reflexivity. Qed.




(** The bin search, over the bins [start, start + count). *)
Lemma bestBin_fold (hist : list nat) (bound count : nat) :
  forall (start : nat) (best : nat * nat),
    (start + count <= bound)%nat ->
    (fst best < bound)%nat ->
    (forall b, (b < start)%nat -> (nth b hist 0 <= snd best)%nat) ->
    (snd best <= nth (fst best) hist 0)%nat ->
    let result :=
      fold_left
        (fun (best : nat * nat) b =>
           if (snd best <? nth b hist 0)%nat then (b, nth b hist 0%nat) else best)
        (seq start count) best in
    (fst result < bound)%nat /\
    (forall b, (b < start + count)%nat -> (nth b hist 0 <= snd result)%nat) /\
    (snd result <= nth (fst result) hist 0)%nat.
Proof.
  induction count as [|count IH]; intros start best Hbound Hlt Hmax Hown;
    cbn [seq fold_left]; cbv zeta.
  - split; [exact Hlt|]. split; [|exact Hown].
    intros b Hb. apply Hmax. lia.
  - destruct (snd best <? nth start hist 0)%nat eqn:E.
    + apply Nat.ltb_lt in E.
      destruct (IH (S start) (start, nth start hist 0%nat)) as [H1 [H2 H3]].
      * lia.
      * simpl. lia.
      * intros b Hb. simpl.
        destruct (Nat.eq_dec b start) as [->|Hne]; [lia|].
        specialize (Hmax b ltac:(lia)). lia.
      * simpl. lia.
      * split; [exact H1|]. split; [|exact H3].
        intros b Hb. apply H2. lia.
    + apply Nat.ltb_ge in E.
      destruct (IH (S start) best) as [H1 [H2 H3]].
      * lia.
      * exact Hlt.
      * intros b Hb.
        destruct (Nat.eq_dec b start) as [->|Hne]; [lia|].
        apply Hmax. lia.
      * exact Hown.
      * split; [exact H1|]. split; [|exact H3].
        intros b Hb. apply H2. lia.
Qed.

(** The bin the search returns is a modal bin. *)
Lemma bestBinOf_modal (hist : list nat) : isModalBin hist (bestBinOf hist).
Proof.
  unfold isModalBin, bestBinOf. rewrite numBins_value.
  change (Z.to_nat 35) with 35%nat.
  destruct (bestBin_fold hist 35 35 0 (0%nat, 0%nat)) as [H1 [H2 H3]].
  - lia.
  - simpl. lia.
  - intros b Hb. lia.
  - simpl. lia.
  - split; [exact H1|].
    intros b' Hb'. specialize (H2 b' ltac:(lia)). lia.
Qed.

Section EstimatorFacts.

Variable Math_sqrt : Q -> Q.
Variable alloc_ok : Z -> bool.

(** [detectBPMInner] stage by stage: a failed allocation throws, a short
    window gives [null], and otherwise the peaks decide. *)
Lemma detectBPMInner_stages (buffer : AudioBuffer) :
  detectBPMInner Math_sqrt alloc_ok buffer =
    match getMonoSamples alloc_ok buffer MAX_SAMPLES with
    | Throw e => Throw e
    | Return mono =>
        if (List.length mono <? FRAME_LEN * 2)%nat then Return None
        else if alloc_ok (Z.of_nat (numFramesOf (List.length mono)))
             then Return (analysePeaks (sampleRate buffer) (peaksOfMono Math_sqrt mono))
             else Throw allocationFailure
    end.
Proof.
  unfold detectBPMInner.
  destruct (getMonoSamples alloc_ok buffer MAX_SAMPLES) as [mono|e]; [|reflexivity].
  cbn [bind].
  destruct (List.length mono <? FRAME_LEN * 2)%nat; [reflexivity|].
  unfold newFloat32Array.
  destruct (alloc_ok (Z.of_nat (numFramesOf (List.length mono)))); [|reflexivity].
  cbn [bind]. unfold analysePeaks, peaksOfMono, peakFramesOf.
  destruct (List.length _ <? 4)%nat; [reflexivity|].
  destruct (List.length _ <? 2)%nat; reflexivity.
Qed.


(** If it returns a tempo, then the window was long enough, the
    allocations succeeded, and the tempo is the one of the peaks. *)
Lemma detectBPM_some (buffer : AudioBuffer) (n : Z) :
  detectBPM Math_sqrt alloc_ok buffer = Return (Some n) ->
  exists mono,
    getMonoSamples alloc_ok buffer MAX_SAMPLES = Return mono /\
    (FRAME_LEN * 2 <= List.length mono)%nat /\
    analysePeaks (sampleRate buffer) (peaksOfMono Math_sqrt mono) = Some n.
Proof.
  unfold detectBPM. rewrite detectBPMInner_stages.
  destruct (getMonoSamples alloc_ok buffer MAX_SAMPLES) as [mono|e];
    [|cbn; intro H; discriminate].
  destruct (List.length mono <? FRAME_LEN * 2)%nat eqn:E;
    [cbn; intro H; discriminate|].
  destruct (alloc_ok (Z.of_nat (numFramesOf (List.length mono))));
    [|cbn; intro H; discriminate].
  cbn [try_catch]. intro H. exists mono.
  apply Nat.ltb_ge in E. repeat split; [exact E | congruence].
Qed.


End EstimatorFacts.

(** *** The stages after the energies depend on them up to [==] only *)

Lemma nth_Qeq (i : nat) (l l' : list Q) :
  Forall2 Qeq l l' -> nth i l 0 == nth i l' 0.
Proof.
  intro H. revert i. induction H as [|x y l l' Hxy Hl IH]; intro i.
  - destruct i; reflexivity.
  - destruct i; simpl; [exact Hxy | apply IH].
Qed.

Lemma onset_from_Qeq (e e' : list Q) :
  Forall2 Qeq e e' ->
  forall p p', p == p' -> Forall2 Qeq (onset_from p e) (onset_from p' e').
Proof.
  induction 1 as [|x y l l' Hxy Hl IH]; intros p p' Hp; cbn [onset_from].
  - constructor.
  - constructor; [|apply IH; exact Hxy].
    cbv zeta. rewrite (Qltb_lt_compat 0 0 (x - p) (y - p')).
    + destruct (Qltb 0 (y - p')); [now rewrite Hxy, Hp | reflexivity].
    + reflexivity.
    + now rewrite Hxy, Hp.
Qed.

Lemma onsetStrength_Qeq (e e' : list Q) :
  Forall2 Qeq e e' -> Forall2 Qeq (onsetStrength e) (onsetStrength e').
Proof.
  intro H. destruct H as [|x y l l' Hxy Hl]; cbn [onsetStrength].
  - constructor.
  - constructor; [reflexivity | now apply onset_from_Qeq].
Qed.

Lemma insertSorted_Qeq (l l' : list Q) :
  Forall2 Qeq l l' ->
  forall x x', x == x' -> Forall2 Qeq (insertSorted x l) (insertSorted x' l').
Proof.
  induction 1 as [|y y' l l' Hy Hl IH]; intros x x' Hx; cbn [insertSorted].
  - constructor; [exact Hx | constructor].
  - assert (E : Qle_bool x y = Qle_bool x' y') by now rewrite Hx, Hy.
    rewrite E. destruct (Qle_bool x' y').
    + constructor; [exact Hx|]. constructor; assumption.
    + constructor; [exact Hy | now apply IH].
Qed.

Lemma sortAscending_Qeq (l l' : list Q) :
  Forall2 Qeq l l' -> Forall2 Qeq (sortAscending l) (sortAscending l').
Proof.
  induction 1 as [|x y l l' Hxy Hl IH]; cbn [sortAscending fold_right].
  - constructor.
  - apply insertSorted_Qeq; assumption.
Qed.

Lemma Forall2_Qeq_length (l l' : list Q) :
  Forall2 Qeq l l' -> List.length l = List.length l'.
Proof. induction 1; simpl; congruence. Qed.

Lemma peakThreshold_Qeq (o o' : list Q) :
  Forall2 Qeq o o' -> peakThreshold o == peakThreshold o'.
Proof.
  intro H. unfold peakThreshold.
  rewrite (Forall2_Qeq_length o o' H).
  apply nth_Qeq. now apply sortAscending_Qeq.
Qed.

Lemma isPeak_Qeq (o o' : list Q) (t t' : Q) (f : nat) :
  Forall2 Qeq o o' -> t == t' -> isPeak o t f = isPeak o' t' f.
Proof.
  intros Ho Ht. unfold isPeak. cbv zeta.
  rewrite (Qltb_lt_compat _ _ _ _ (nth_Qeq f o o' Ho) Ht).
  rewrite (nth_Qeq f o o' Ho), (nth_Qeq (f - 1) o o' Ho), (nth_Qeq (f - 2) o o' Ho),
          (nth_Qeq (f + 1) o o' Ho), (nth_Qeq (f + 2) o o' Ho).
  reflexivity.
Qed.

Lemma peakFramesOf_Qeq (e e' : list Q) :
  Forall2 Qeq e e' -> peakFramesOf e = peakFramesOf e'.
Proof.
  intro H. unfold peakFramesOf, pickPeaks.
  pose proof (onsetStrength_Qeq e e' H) as Ho.
  rewrite (Forall2_Qeq_length _ _ Ho).
  apply filter_ext. intro f.
  apply isPeak_Qeq; [exact Ho | now apply peakThreshold_Qeq].
Qed.

(** A square root that is exact on squares gives the listed roots. *)
Lemma roots_of_squares (Math_sqrt : Q -> Q) (squares roots : list Q) :
  (forall a b, 0 <= b -> a == b * b -> Math_sqrt a == b) ->
  Forall2 (fun a b => 0 <= b /\ a == b * b) squares roots ->
  Forall2 Qeq (map Math_sqrt squares) roots.
Proof.
  intros Hsqrt H. induction H as [|a b l l' [Hb Hab] Hl IH]; cbn [map].
  - constructor.
  - constructor; [now apply Hsqrt | exact IH].
Qed.

(** *** [exact_sqrt] is exact on squares *)

Lemma reduced_unique (x y : Q) :
  Z.gcd (Qnum x) (Zpos (Qden x)) = 1%Z ->
  Z.gcd (Qnum y) (Zpos (Qden y)) = 1%Z ->
  x == y -> x = y.
Proof.
  destruct x as [p q], y as [p' q']. cbv [Qeq Qnum Qden]. intros H H' Hcross.
  assert (D1 : (Zpos q' | Zpos q)%Z).
  { apply (Z.gauss (Zpos q') p' (Zpos q)).
    - exists p. lia.
    - now rewrite Z.gcd_comm. }
  assert (D2 : (Zpos q | Zpos q')%Z).
  { apply (Z.gauss (Zpos q) p (Zpos q')).
    - exists p'. lia.
    - now rewrite Z.gcd_comm. }
  assert (Eq : Zpos q = Zpos q') by (apply Z.divide_antisym_nonneg; auto; lia).
  injection Eq as <-. f_equal.
  apply (Z.mul_cancel_r _ _ (Zpos q)); [lia | exact Hcross].
Qed.

Lemma gcd_square (p q : Z) : Z.gcd p q = 1%Z -> Z.gcd (p * p) (q * q) = 1%Z.
Proof.
  intro H. change (Z.coprime (p * p) (q * q)).
  apply Z.coprime_mul_l; apply Z.coprime_mul_r; exact H.
Qed.

Lemma exact_sqrt_on_squares (a b : Q) : 0 <= b -> a == b * b -> exact_sqrt a == b.
Proof.
  intros Hb Hab. unfold exact_sqrt.
  pose proof (Qred_correct b) as Hrb.
  pose proof (gcd_Qred b) as Hgcd.
  assert (Hnum : (0 <= Qnum (Qred b))%Z).
  { rewrite <- Hrb in Hb. unfold Qle in Hb. simpl in Hb. lia. }
  assert (Ea : Qred a = Qred b * Qred b).
  { rewrite (Qred_complete a (Qred b * Qred b)) by (rewrite Hab, Hrb; reflexivity).
    apply reduced_unique.
    - apply gcd_Qred.
    - destruct (Qred b) as [p q]. cbn [Qmult Qnum Qden] in *.
      rewrite Pos2Z.inj_mul. now apply gcd_square.
    - apply Qred_correct. }
  rewrite Ea. destruct (Qred b) as [p q]. cbn [Qmult Qnum Qden] in *.
  rewrite Pos2Z.inj_mul.
  rewrite !Z.sqrt_square by lia.
  rewrite Pos2Z.id. exact Hrb.
Qed.

(** *** The track of fast clicks *)

Lemma clickSamples_length : Z.of_nat (List.length clickSamples) = 41984%Z.
Proof. vm_compute. reflexivity. Qed.

Lemma MAX_SAMPLES_value : MAX_SAMPLES = 2646000%Z.
Proof. vm_compute. reflexivity. Qed.

(** A mono buffer that fits the cap is analysed as it is, with no copy. *)
Lemma getMonoSamples_mono (alloc_ok : Z -> bool) (buffer : AudioBuffer) (ch : list Q) :
  channelData buffer = [ch] ->
  bufferLength buffer = List.length ch ->
  (1 <= Z.of_nat (List.length ch) <= MAX_SAMPLES)%Z ->
  getMonoSamples alloc_ok buffer MAX_SAMPLES = Return ch.
Proof.
  intros Hdata Hlen Hfit. unfold getMonoSamples, numberOfChannels, getChannelData.
  rewrite Hdata, Hlen. cbn [List.length nth_error bind Nat.eqb].
  rewrite Z.min_l by lia.
  destruct (Z.leb_spec (Z.of_nat (List.length ch)) 0); [lia|].
  destruct (Z.leb_spec (Z.of_nat (List.length ch)) (Z.of_nat (List.length ch)));
    [reflexivity | lia].
Qed.

Lemma fastClicks_wf : wf_buffer fastClicks.
Proof.
  unfold wf_buffer, numberOfChannels, fastClicks.
  cbn [sampleRate bufferLength channelData List.length].
  split; [reflexivity|]. split; [lia|]. split; [lia|].
  constructor; [|constructor].
  apply Nat2Z.inj. rewrite clickSamples_length. lia.
Qed.

Lemma fastClicks_mono (alloc_ok : Z -> bool) :
  getMonoSamples alloc_ok fastClicks MAX_SAMPLES = Return clickSamples.
Proof.
  apply getMonoSamples_mono.
  - reflexivity.
  - apply Nat2Z.inj. rewrite clickSamples_length.
    unfold fastClicks. cbn [bufferLength]. lia.
  - rewrite clickSamples_length, MAX_SAMPLES_value. lia.
Qed.

Lemma clickSamples_frames : numFramesOf (List.length clickSamples) = 40%nat.
Proof. vm_compute. reflexivity. Qed.

Lemma clickSamples_mean_squares : frameMeanSquares clickSamples 40 = clickMeanSquares.
Proof. vm_compute. reflexivity. Qed.

Lemma clickEnergies_are_roots :
  Forall2 (fun a b => 0 <= b /\ a == b * b) clickMeanSquares clickEnergies.
Proof.
  unfold clickMeanSquares, clickEnergies. cbn [app].
  repeat (constructor; [split; [unfold Qle; simpl; lia | reflexivity] |]).
  constructor.
Qed.

(** Under any square root that is exact on squares, the peaks of the track
    are at frames 4, 14, 24 and 34. *)
Lemma fastClicks_peaks (Math_sqrt : Q -> Q) :
  (forall a b, 0 <= b -> a == b * b -> Math_sqrt a == b) ->
  peaksOfMono Math_sqrt clickSamples = [4; 14; 24; 34]%nat.
Proof.
  intro Hsqrt. unfold peaksOfMono, frameEnergies.
  rewrite clickSamples_frames, clickSamples_mean_squares.
  rewrite (peakFramesOf_Qeq _ clickEnergies).
  - vm_compute. reflexivity.
  - apply roots_of_squares; [exact Hsqrt | exact clickEnergies_are_roots].
Qed.

(** C10: with a square root that is exact on squares and memory at hand,
    there is a track with 4 peaks and 3 inter-peak intervals, all in
    [[0.2 s, 0.3 s)] and so below the 300 ms minimum period of the
    histogram, for which the histogram stays empty, the modal bin defaults
    to bin 0 (centre 310 ms), and [detectBPM] returns
    round(60000 / 310) = 194 rather than [null]. *)
Theorem empty_histogram_defaults_to_194 (Math_sqrt : Q -> Q) (alloc_ok : Z -> bool) :
  (forall a b, 0 <= b -> a == b * b -> Math_sqrt a == b) ->
  (forall n, alloc_ok n = true) ->
  exists buffer mono,
    wf_buffer buffer /\
    getMonoSamples alloc_ok buffer MAX_SAMPLES = Return mono /\
    let peaks := peaksOfMono Math_sqrt mono in
    let intervals := intervalsOf (peakTimesOf (sampleRate buffer) peaks) in
    (4 <= List.length peaks)%nat /\
    (2 <= List.length intervals)%nat /\
    Forall (fun dt => (2 # 10) <= dt /\ dt < (3 # 10)) intervals /\
    histogramOf intervals = repeat 0%nat (Z.to_nat numBins) /\
    bestBinOf (histogramOf intervals) = 0%nat /\
    binCenterMs 0 == 310 /\
    round (60000 / 310) = 194%Z /\
    detectBPM Math_sqrt alloc_ok buffer = Return (Some 194%Z).
Proof.
  intros Hsqrt Halloc.
  exists fastClicks, clickSamples.
  split; [exact fastClicks_wf|]. split; [apply fastClicks_mono|].
  cbv zeta. rewrite (fastClicks_peaks Math_sqrt Hsqrt).
  split; [simpl; lia|].
  split; [apply Nat.leb_le; vm_compute; reflexivity|].
  split.
  { set (intervals := intervalsOf (peakTimesOf (sampleRate fastClicks) [4; 14; 24; 34]%nat)).
    vm_compute in intervals. subst intervals.
    repeat (constructor; [split; [unfold Qle | unfold Qlt]; simpl; lia |]).
    constructor. }
  split; [vm_compute; reflexivity|].
  split; [vm_compute; reflexivity|].
  split; [reflexivity|].
  split; [vm_compute; reflexivity|].
  unfold detectBPM. rewrite detectBPMInner_stages, fastClicks_mono.
  assert (L : (List.length clickSamples <? FRAME_LEN * 2)%nat = false)
    by (vm_compute; reflexivity).
  rewrite L, Halloc, (fastClicks_peaks Math_sqrt Hsqrt).
  vm_compute. reflexivity.
Qed.

(** The same track under [exact_sqrt], with memory at hand. *)
Lemma empty_histogram_defaults_to_194_exact_sqrt :
  exists buffer mono,
    wf_buffer buffer /\
    getMonoSamples always_alloc buffer MAX_SAMPLES = Return mono /\
    let peaks := peaksOfMono exact_sqrt mono in
    let intervals := intervalsOf (peakTimesOf (sampleRate buffer) peaks) in
    (4 <= List.length peaks)%nat /\
    (2 <= List.length intervals)%nat /\
    Forall (fun dt => (2 # 10) <= dt /\ dt < (3 # 10)) intervals /\
    histogramOf intervals = repeat 0%nat (Z.to_nat numBins) /\
    bestBinOf (histogramOf intervals) = 0%nat /\
    binCenterMs 0 == 310 /\
    round (60000 / 310) = 194%Z /\
    detectBPM exact_sqrt always_alloc buffer = Return (Some 194%Z).
Proof.
  apply (empty_histogram_defaults_to_194 exact_sqrt always_alloc).
  - exact exact_sqrt_on_squares.
  - intro n. reflexivity.
Defined.


End BpmFacts.

(** ** The live chain: mirrored nodes, cutoffs and transport *)
Module PlaybackFacts.
Import JsMath JsMathFacts Graph GraphFacts AudioExport Playback.




Section Cutoffs.

Variable Math_pow : Q -> Q -> Q.
Hypothesis pow_monotone : forall e e', e <= e' -> Math_pow 2 e <= Math_pow 2 e'.
Hypothesis pow_zero : forall e, e == 0 -> Math_pow 2 e == 1.
Hypothesis pow_positive : forall e, 0 < Math_pow 2 e.

Lemma pow_nonpositive (e : Q) : e <= 0 -> Math_pow 2 e <= 1.
Proof.
  intro H. rewrite <- (pow_zero 0) by reflexivity. now apply pow_monotone.
Qed.

Lemma pow_nonnegative (e : Q) : 0 <= e -> 1 <= Math_pow 2 e.
Proof.
  intro H. rewrite <- (pow_zero 0) by reflexivity. now apply pow_monotone.
Qed.

(** X2: the cutoffs [setFilterFreqs] computes sweep in one direction.  A
    larger low-pass amount never raises the low-pass cutoff, which stays in
    (0, 20000] and is 20000 for an amount of 0 or less; a larger high-pass
    amount never lowers the high-pass cutoff, which is at least 20 and is
    20 for an amount of 0 or less. *)
Theorem cutoffs_sweep_monotonically (st st' : AudioGraphState) :
  (lowpass st <= lowpass st' ->
     0 < fst (setFilterFreqs Math_pow st') /\
     fst (setFilterFreqs Math_pow st') <= fst (setFilterFreqs Math_pow st) /\
     fst (setFilterFreqs Math_pow st) <= 20000) /\
  (highpass st <= highpass st' ->
     20 <= snd (setFilterFreqs Math_pow st) /\
     snd (setFilterFreqs Math_pow st) <= snd (setFilterFreqs Math_pow st')) /\
  (lowpass st <= 0 -> fst (setFilterFreqs Math_pow st) = 20000) /\
  (highpass st <= 0 -> snd (setFilterFreqs Math_pow st) = 20).
Proof.
  unfold setFilterFreqs. cbn [fst snd].
  set (lp := lowpass st / 100). set (lp' := lowpass st' / 100).
  set (hp := highpass st / 100). set (hp' := highpass st' / 100).
  assert (Hlp : lowpass st <= lowpass st' -> lp <= lp')
    by (unfold lp, lp', Qdiv; change (/ 100) with (1 # 100); lra).
  assert (Hhp : highpass st <= highpass st' -> hp <= hp')
    by (unfold hp, hp', Qdiv; change (/ 100) with (1 # 100); lra).
  assert (Hl0 : lowpass st <= 0 -> lp <= 0)
    by (unfold lp, Qdiv; change (/ 100) with (1 # 100); lra).
  assert (Hh0 : highpass st <= 0 -> hp <= 0)
    by (unfold hp, Qdiv; change (/ 100) with (1 # 100); lra).
  clearbody lp lp' hp hp'.
  split; [|split; [|split]].
  - intro Hle. apply Hlp in Hle.
    destruct (Qle_bool lp 0) eqn:E; destruct (Qle_bool lp' 0) eqn:E'.
    + repeat split; lra.
    + apply Qle_bool_false in E'.
      pose proof (pow_positive (- (664 # 100) * lp')) as Hp.
      pose proof (pow_nonpositive (- (664 # 100) * lp') ltac:(lra)) as Hq.
      repeat split; lra.
    + apply Qle_bool_iff in E'. apply Qle_bool_false in E. exfalso. lra.
    + apply Qle_bool_false in E. apply Qle_bool_false in E'.
      pose proof (pow_positive (- (664 # 100) * lp')) as Hp.
      pose proof (pow_nonpositive (- (664 # 100) * lp) ltac:(lra)) as Hq.
      pose proof (pow_monotone (- (664 # 100) * lp') (- (664 # 100) * lp) ltac:(lra)) as Hm.
      repeat split; lra.
  - intro Hle. apply Hhp in Hle.
    destruct (Qle_bool hp 0) eqn:E; destruct (Qle_bool hp' 0) eqn:E'.
    + split; lra.
    + apply Qle_bool_false in E'.
      pose proof (pow_nonnegative ((764 # 100) * hp') ltac:(lra)) as Hq.
      split; lra.
    + apply Qle_bool_iff in E'. apply Qle_bool_false in E. exfalso. lra.
    + apply Qle_bool_false in E. apply Qle_bool_false in E'.
      pose proof (pow_nonnegative ((764 # 100) * hp) ltac:(lra)) as Hq.
      pose proof (pow_monotone ((764 # 100) * hp) ((764 # 100) * hp') ltac:(lra)) as Hm.
      split; lra.
  - intro H. apply Hl0 in H. destruct (Qle_bool lp 0) eqn:E; [reflexivity|].
    apply Qle_bool_false in E. lra.
  - intro H. apply Hh0 in H. destruct (Qle_bool hp 0) eqn:E; [reflexivity|].
    apply Qle_bool_false in E. lra.
Qed.

End Cutoffs.

Lemma pow_floor_monotone (e e' : Q) : e <= e' -> pow_floor 2 e <= pow_floor 2 e'.
Proof.
  intro H. unfold pow_floor. apply Qpower_le_compat_l.
  - now apply Qfloor_resp_le.
  - discriminate.
Qed.

Lemma pow_floor_zero (e : Q) : e == 0 -> pow_floor 2 e == 1.
Proof. intro H. unfold pow_floor. rewrite H. reflexivity. Qed.

Lemma pow_floor_positive (e : Q) : 0 < pow_floor 2 e.
Proof. unfold pow_floor. apply Qpower_0_lt. reflexivity. Qed.

(** The sweep between the default state and the state after
    [setLowpass(50)] and [setHighpass(50)], under [pow_floor]. *)
Lemma cutoffs_sweep_half_way :
  let st := getState (run []) in
  let st' := getState (run [SetLowpass 50; SetHighpass 50]) in
  (lowpass st <= lowpass st' ->
     0 < fst (setFilterFreqs pow_floor st') /\
     fst (setFilterFreqs pow_floor st') <= fst (setFilterFreqs pow_floor st) /\
     fst (setFilterFreqs pow_floor st) <= 20000) /\
  (highpass st <= highpass st' ->
     20 <= snd (setFilterFreqs pow_floor st) /\
     snd (setFilterFreqs pow_floor st) <= snd (setFilterFreqs pow_floor st')) /\
  (lowpass st <= 0 -> fst (setFilterFreqs pow_floor st) = 20000) /\
  (highpass st <= 0 -> snd (setFilterFreqs pow_floor st) = 20).
Proof.
  apply (cutoffs_sweep_monotonically pow_floor pow_floor_monotone pow_floor_zero
                                     pow_floor_positive).
Defined.

End PlaybackFacts.

(** ** The transport of the live chain *)
Module TransportFacts.
Import JsMath JsMathFacts Graph Playback.

Lemma resume_elapsed (now off s : Q) : 0 < s -> (now - (now - off / s)) * s == off.
Proof. intro H. field. intro E. rewrite E in H. discriminate. Qed.

Lemma min_le_r (a b : Q) : min a b <= b.
Proof. destruct (min_spec a b) as [[H E]|[H E]]; rewrite E; lra. Qed.

Lemma min_of_le (a b c : Q) : a == c -> c <= b -> min a b == c.
Proof.
  intros Hac Hcb. destruct (min_spec a b) as [[H E]|[H E]]; rewrite E; lra.
Qed.

Lemma step_speed (g : AudioGraph) (c : Call) :
  match c with
  | SetSpeed v => speed (state (step g c)) = v
  | _ => speed (state (step g c)) = speed (state g)
  end.
Proof. destruct c; reflexivity. Qed.

Lemma step_source (g : AudioGraph) (c : Call) :
  match c with
  | Play | Stop => True
  | _ => source g <> None -> source (step g c) <> None
  end.
Proof.
  destruct c; try exact I; simpl; destruct (source g); intro H; congruence.
Qed.

Lemma handle_duration (p : Player) (e : Q * Op) :
  bufferDuration (handle p e) = bufferDuration p.
Proof.
  destruct e as [now op]. unfold handle. cbn [fst snd].
  destruct op as [c| | | |].
  - destruct c; try reflexivity.
    unfold setSpeed. cbn. destruct (source (chain p)); reflexivity.
  - reflexivity.
  - unfold pause. destruct (playing p), (source (chain p)); reflexivity.
  - unfold seek. cbn. destruct (playing p); reflexivity.
  - unfold onended. destruct (playing p); reflexivity.
Qed.

Lemma runEvents_duration (dur : Q) (events : list (Q * Op)) :
  bufferDuration (runEvents dur events) = dur.
Proof.
  unfold runEvents.
  assert (H : forall p, bufferDuration (fold_left handle events p) = bufferDuration p).
  { induction events as [|e events IH]; intro p; simpl; [reflexivity|].
    rewrite IH. apply handle_duration. }
  rewrite H. reflexivity.
Qed.

Lemma getCurrentTime_le (now : Q) (p : Player) :
  pauseOffset p <= bufferDuration p -> getCurrentTime now p <= bufferDuration p.
Proof.
  intro H. unfold getCurrentTime. destruct (playing p); cbn [negb].
  - apply min_le_r.
  - exact H.
Qed.

Lemma handle_ok (p : Player) (e : Q * Op) :
  match snd e with OCall (SetSpeed value) => 0 < value | _ => True end ->
  player_ok p -> player_ok (handle p e).
Proof.
  destruct e as [now op]. unfold handle, player_ok. cbn [fst snd].
  intros Hv [Hs [Hp [Ho Hd]]].
  destruct op as [c| | | |].
  - destruct c; cbn; try (repeat split; try assumption;
      intro H; specialize (Hp H); destruct (source (chain p)); congruence).
    + unfold setSpeed. destruct (source (chain p)) eqn:Es; cbn; rewrite ?Es;
        repeat split; try assumption; intro H; specialize (Hp H); congruence.
    + repeat split; try assumption. discriminate.
    + repeat split; try assumption. discriminate.
  - cbn. repeat split; try assumption. discriminate.
  - unfold pause. destruct (playing p) eqn:Epl; [|cbn; rewrite ?Epl; repeat split; assumption].
    destruct (source (chain p)) eqn:Es;
      [|cbn; rewrite ?Epl, ?Es; repeat split; try assumption; intro H; now apply Hp].
    cbn. repeat split; try assumption; [discriminate|].
    apply (getCurrentTime_le now p Ho).
  - unfold seek. cbn [playing pauseOffset bufferDuration chain startTime].
    destruct (clamp_range 0 (bufferDuration p) time Hd) as [_ Hc].
    assert (Hc' : max 0 (min time (bufferDuration p)) <= bufferDuration p).
    { destruct (max_spec 0 (min time (bufferDuration p))) as [[H E]|[H E]]; rewrite E.
      - apply min_le_r.
      - exact Hd. }
    destruct (playing p) eqn:Epl; cbn; rewrite ?Epl; repeat split; try assumption.
    discriminate.
  - unfold onended. destruct (playing p) eqn:Epl; cbn; rewrite ?Epl;
      repeat split; try assumption; discriminate.
Qed.

Lemma newPlayer_ok (dur : Q) : 0 <= dur -> player_ok (newPlayer dur).
Proof.
  intro H. unfold player_ok, newPlayer. cbn. repeat split; try assumption.
  - discriminate.
Qed.

Lemma runEvents_ok (dur : Q) (events : list (Q * Op)) :
  0 <= dur -> speeds_positive events -> player_ok (runEvents dur events).
Proof.
  intros Hd Hs. unfold runEvents.
  assert (H : forall p, player_ok p -> player_ok (fold_left handle events p)).
  { induction Hs as [|e events He Hs IH]; intros p Hp; simpl; [exact Hp|].
    apply IH. now apply handle_ok. }
  apply H. now apply newPlayer_ok.
Qed.

(** X3: whatever is called on the chain and whenever, [getCurrentTime()]
    never reports a position past the end of the buffer. *)
Theorem position_never_past_the_end (dur : Q) (events : list (Q * Op)) (now : Q) :
  0 <= dur -> speeds_positive events ->
  getCurrentTime now (runEvents dur events) <= dur.
Proof.
  intros Hd Hs.
  destruct (runEvents_ok dur events Hd Hs) as [_ [_ [Ho _]]].
  rewrite <- (runEvents_duration dur events) at 2.
  now apply getCurrentTime_le.
Qed.

(** A three-minute buffer: played, sped up, sought past the end. *)
Lemma position_after_seeking_past_the_end :
  getCurrentTime 30 (runEvents 180 [(0, OCall Play); (10, OCall (SetSpeed 2));
                                    (20, OSeek 500)]) <= 180.
Proof.
  apply (position_never_past_the_end 180 _ 30).
  - discriminate.
  - repeat constructor.
Defined.

(** X4, for numbers as exact rationals: [pause()] followed, at any later
    time, by [play()] resumes where the chain was: the position reported
    right after resuming is the position reported just before pausing.
    (The chain keeps no position while it plays, only [startTime = now -
    offset / speed], from which [(now - startTime) * speed] recovers the
    offset; on binary64 numbers each of the three operations rounds, and
    the position read back agrees with the offset up to that rounding
    only.) *)
Theorem pause_then_play_resumes (dur : Q) (events : list (Q * Op)) (now now' : Q) :
  0 <= dur -> speeds_positive events ->
  let p := runEvents dur events in
  getCurrentTime now' (play now' None (pause now p)) == getCurrentTime now p.
Proof.
  intros Hd Hs p.
  destruct (runEvents_ok dur events Hd Hs) as [Hsp [Hp [Ho _]]].
  fold p in Hsp, Hp, Ho.
  unfold pause. destruct (playing p) eqn:Epl.
  - destruct (source (chain p)) eqn:Es; [|exfalso; now apply Hp].
    unfold play, createSource, getCurrentTime at 1.
    cbn [playing negb startTime chain bufferDuration pauseOffset Graph.play Graph.stop state].
    apply min_of_le.
    + now apply resume_elapsed.
    + now apply getCurrentTime_le.
  - assert (E : getCurrentTime now p = pauseOffset p)
      by (unfold getCurrentTime; rewrite Epl; reflexivity).
    rewrite E.
    assert (E' : forall q, (if playing p then q else p) = p) by (rewrite Epl; reflexivity).
    replace (match source (chain p) with Some _ => p | None => p end) with p
      by (destruct (source (chain p)); reflexivity).
    unfold play, createSource, getCurrentTime.
    cbn [playing negb startTime chain bufferDuration pauseOffset Graph.play state].
    apply min_of_le.
    + now apply resume_elapsed.
    + exact Ho.
Qed.

(** Paused at 12 s of a three-minute buffer played at speed 1.5 and
    resumed at 60 s. *)
Lemma pause_at_12_resume_at_60 :
  let p := runEvents 180 [(0, OCall (SetSpeed (3 # 2))); (4, OCall Play)] in
  getCurrentTime 60 (play 60 None (pause 12 p)) == getCurrentTime 12 p.
Proof.
  apply (pause_then_play_resumes 180 _ 12 60).
  - discriminate.
  - repeat constructor.
Defined.

(** X5, for numbers as exact rationals: [seek(time)] lands on [time]
    clamped to the buffer: right after the call the reported position is
    max(0, min(time, duration)), playing or not, and it lies between 0 and
    the duration.  (On a chain that is not playing the position is the
    stored clamp itself, in any arithmetic; on a playing chain it is read
    back through [startTime], exactly so on rationals and up to rounding
    on binary64 numbers.) *)
Theorem seek_lands_on_clamped_time (dur : Q) (events : list (Q * Op)) (now time : Q) :
  0 <= dur -> speeds_positive events ->
  let pos := getCurrentTime now (seek now time (runEvents dur events)) in
  pos == max 0 (min time dur) /\ 0 <= pos /\ pos <= dur.
Proof.
  intros Hd Hs.
  destruct (runEvents_ok dur events Hd Hs) as [Hsp [Hp [Ho _]]].
  pose proof (runEvents_duration dur events) as Ed.
  set (p := runEvents dur events) in *.
  assert (Hc : 0 <= max 0 (min time dur) /\ max 0 (min time dur) <= dur).
  { destruct (max_spec 0 (min time dur)) as [[H E]|[H E]]; rewrite E.
    - split; [exact H | apply min_le_r].
    - split; [apply Qle_refl | exact Hd]. }
  cbv zeta.
  assert (E : getCurrentTime now (seek now time p) == max 0 (min time dur)).
  { unfold seek. cbn [playing pauseOffset bufferDuration chain startTime].
    rewrite Ed. destruct (playing p) eqn:Epl.
    - unfold createSource, getCurrentTime.
      cbn [playing negb startTime chain bufferDuration pauseOffset Graph.play state].
      rewrite ?Epl, ?Ed. cbn [negb].
      apply min_of_le; [now apply resume_elapsed | apply Hc].
    - unfold getCurrentTime. cbn [playing pauseOffset]. rewrite ?Epl. reflexivity. }
  split; [exact E|]. rewrite E. exact Hc.
Qed.

(** Seeking to 500 s in a playing three-minute buffer. *)
Lemma seek_500_in_three_minutes :
  let pos := getCurrentTime 20 (seek 20 500 (runEvents 180 [(0, OCall Play)])) in
  pos == max 0 (min 500 180) /\ 0 <= pos /\ pos <= 180.
Proof.
  apply (seek_lands_on_clamped_time 180 _ 20 500).
  - discriminate.
  - repeat constructor.
Defined.

(** X6, for numbers as exact rationals: [setSpeed(value)] on a playing
    chain rescales the reported position: the state is written before the
    position is read back, so right after the call [getCurrentTime()] is
    the time elapsed since the old [startTime] multiplied by the NEW speed
    (capped at the duration), where just before it was that time
    multiplied by the old speed.  On a chain that is not playing the
    position is unchanged.  (The new [startTime = now - currentPos /
    value] gives that position back exactly on rationals, and up to
    rounding on binary64 numbers.) *)
Theorem setSpeed_rescales_position (dur : Q) (events : list (Q * Op)) (now value : Q) :
  0 <= dur -> speeds_positive events -> 0 < value ->
  let p := runEvents dur events in
  (playing p = true ->
     getCurrentTime now p == min ((now - startTime p) * speed (state (chain p))) dur /\
     getCurrentTime now (setSpeed now value p) == min ((now - startTime p) * value) dur) /\
  (playing p = false ->
     getCurrentTime now (setSpeed now value p) = getCurrentTime now p).
Proof.
  intros Hd Hs Hv p.
  destruct (runEvents_ok dur events Hd Hs) as [Hsp [Hp [Ho _]]].
  pose proof (runEvents_duration dur events) as Ed.
  fold p in Hsp, Hp, Ho, Ed.
  split; intro Epl.
  - split.
    + unfold getCurrentTime. rewrite Epl, Ed. reflexivity.
    + destruct (source (chain p)) eqn:Es; [|exfalso; now apply Hp].
      unfold setSpeed. rewrite Es.
      unfold getCurrentTime.
      cbn [playing negb startTime chain bufferDuration pauseOffset Graph.setSpeed state speed].
      rewrite Epl, Ed. cbn [negb].
      set (pos := min ((now - startTime p) * value) dur).
      apply min_of_le; [now apply resume_elapsed | apply min_le_r].
  - unfold setSpeed, getCurrentTime.
    destruct (source (chain p)); cbn [playing pauseOffset]; rewrite Epl; reflexivity.
Qed.

(** Ten seconds into a three-minute buffer at speed 1, [setSpeed(2)]: the
    reported position goes from 10 s to 20 s. *)
Lemma setSpeed_2_after_ten_seconds :
  let p := runEvents 180 [(0, OCall Play)] in
  (playing p = true ->
     getCurrentTime 10 p == min ((10 - startTime p) * speed (state (chain p))) 180 /\
     getCurrentTime 10 (setSpeed 10 2 p) == min ((10 - startTime p) * 2) 180) /\
  (playing p = false ->
     getCurrentTime 10 (setSpeed 10 2 p) = getCurrentTime 10 p).
Proof.
  apply (setSpeed_rescales_position 180 _ 10 2).
  - discriminate.
  - repeat constructor.
  - reflexivity.
Defined.

End TransportFacts.

(** ** More on the ID3v1 truncation *)
Module TruncationFacts.
Import AudioExport.

Lemma truncate_loop_fits (maxBytes : Z) (fuel : nat) (s : JsString) :
  s = [] \/ (encodedLength s <= maxBytes)%Z -> truncate_loop fuel s maxBytes = s.
Proof.
  intros [E|E]; destruct fuel as [|fuel]; try reflexivity; cbn [truncate_loop].
  - subst s. reflexivity.
  - unfold encodedLength in E. apply Z.ltb_ge in E. rewrite E.
    now rewrite andb_false_r.
Qed.

Lemma firstn_removelast {A : Type} (k : nat) (s : list A) :
  (k < List.length s)%nat -> firstn k (removelast s) = firstn k s.
Proof.
  intro H. rewrite removelast_firstn_len, firstn_firstn. f_equal. lia.
Qed.

Lemma truncate_loop_dropped (maxBytes : Z) (fuel : nat) :
  forall s k,
    (List.length (truncate_loop fuel s maxBytes) < k <= List.length s)%nat ->
    (maxBytes < encodedLength (firstn k s))%Z.
Proof.
  induction fuel as [|fuel IH]; intros s k Hk.
  - simpl in Hk. lia.
  - cbn [truncate_loop] in Hk.
    destruct ((0 <? List.length s)%nat
              && (maxBytes <? Z.of_nat (List.length (TextEncoder_encode s)))%Z) eqn:E;
      [|lia].
    apply andb_true_iff in E. destruct E as [E1 E2].
    apply Nat.ltb_lt in E1. apply Z.ltb_lt in E2.
    destruct (Nat.eq_dec k (List.length s)) as [Ek|Ek].
    + subst k. rewrite firstn_all. exact E2.
    + rewrite <- (firstn_removelast k s) by lia.
      apply IH. split; [apply Hk|].
      assert (Hne : s <> []) by (destruct s; [simpl in E1; lia | discriminate]).
      pose proof (Id3Facts.removelast_shorter s Hne). lia.
Qed.

(** X7: [truncateForId3v1] cuts no more than it has to.  Every prefix of
    the input longer than the result exceeds the byte limit; a string that
    fits is returned as it is; and truncating a second time changes
    nothing. *)
Theorem truncation_keeps_all_that_fits (s : JsString) (maxBytes : Z) :
  let r := truncateForId3v1 s maxBytes in
  (forall k, (List.length r < k <= List.length s)%nat ->
             (maxBytes < encodedLength (firstn k s))%Z) /\
  ((encodedLength s <= maxBytes)%Z -> r = s) /\
  truncateForId3v1 r maxBytes = r.
Proof.
  cbv zeta. unfold truncateForId3v1. split; [|split].
  - intros k Hk. now apply (truncate_loop_dropped maxBytes (List.length s)).
  - intro H. apply truncate_loop_fits. now right.
  - apply truncate_loop_fits.
    destruct (Id3Facts.truncate_loop_exit maxBytes (List.length s) s (le_n _)) as [E|E].
    + left. exact E.
    + right. exact E.
Qed.

End TruncationFacts.

(** ** The ID3v1 truncation and surrogate pairs *)
Module SurrogateFacts.
Import AudioExport Id3Facts TruncationFacts.

(** A well-formed string converts to scalar values on its own, whatever
    follows it. *)
Lemma wellFormed_app (n : nat) :
  forall p q, (List.length p <= n)%nat -> isWellFormed p = true ->
    toScalarValues (p ++ q) = toScalarValues p ++ toScalarValues q /\
    isWellFormed (p ++ q) = isWellFormed q.
Proof.
  induction n as [|n IH]; intros p q Hlen Hwf.
  - destruct p; [split; reflexivity | simpl in Hlen; lia].
  - destruct p as [|c p]; [split; reflexivity|].
    cbn [isWellFormed] in Hwf. cbn [app toScalarValues isWellFormed].
    destruct (isHighSurrogate c) eqn:Hc.
    + destruct p as [|d p]; [discriminate|].
      apply andb_true_iff in Hwf. destruct Hwf as [Hd Hwf].
      cbn [app]. rewrite Hd. cbn [andb].
      destruct (IH p q) as [E1 E2]; [simpl in Hlen; lia | exact Hwf |].
      rewrite E1, E2. split; reflexivity.
    + apply andb_true_iff in Hwf. destruct Hwf as [Hl Hwf].
      apply negb_true_iff in Hl. rewrite Hl. cbn [negb andb].
      destruct (IH p q) as [E1 E2]; [simpl in Hlen; lia | exact Hwf |].
      rewrite E1, E2. split; reflexivity.
Qed.

Lemma scalarValues_app (p q : JsString) :
  isWellFormed p = true ->
  toScalarValues (p ++ q) = toScalarValues p ++ toScalarValues q.
Proof. intro H. now apply (wellFormed_app (List.length p) p q (le_n _)). Qed.

Lemma isWellFormed_app (p q : JsString) :
  isWellFormed p = true -> isWellFormed (p ++ q) = isWellFormed q.
Proof. intro H. now apply (wellFormed_app (List.length p) p q (le_n _)). Qed.

Lemma encodedLength_app (p q : JsString) :
  isWellFormed p = true -> encodedLength (p ++ q) = (encodedLength p + encodedLength q)%Z.
Proof.
  intro H. unfold encodedLength, TextEncoder_encode.
  rewrite (scalarValues_app p q H), flat_map_app, length_app. lia.
Qed.

Lemma encodedLength_nonneg (s : JsString) : (0 <= encodedLength s)%Z.
Proof. unfold encodedLength. lia. Qed.

(** A high surrogate on its own encodes as U+FFFD, three bytes. *)
Lemma lone_high_surrogate (h : Z) :
  isHighSurrogate h = true ->
  TextEncoder_encode [h] = [239; 191; 189]%Z /\ isWellFormed [h] = false.
Proof.
  intro H. unfold TextEncoder_encode. cbn [toScalarValues isWellFormed]. rewrite H.
  split; reflexivity.
Qed.

(** A surrogate pair encodes as one supplementary character, four bytes. *)
Lemma surrogate_pair (h l : Z) :
  isHighSurrogate h = true -> isLowSurrogate l = true ->
  encodedLength [h; l] = 4%Z /\ isWellFormed [h; l] = true.
Proof.
  intros Hh Hl. unfold encodedLength, TextEncoder_encode.
  cbn [toScalarValues isWellFormed]. rewrite Hh, Hl. cbn [flat_map andb].
  split; [|reflexivity].
  unfold isHighSurrogate in Hh. unfold isLowSurrogate in Hl.
  apply andb_true_iff in Hh. apply andb_true_iff in Hl.
  destruct Hh as [H1 H2]. destruct Hl as [L1 L2].
  apply Z.leb_le in H1, H2, L1, L2.
  unfold utf8_bytes.
  destruct (_ <? 128)%Z eqn:E1; [apply Z.ltb_lt in E1; lia|].
  destruct (_ <? 2048)%Z eqn:E2; [apply Z.ltb_lt in E2; lia|].
  destruct (_ <? 65536)%Z eqn:E3; [apply Z.ltb_lt in E3; lia|].
  reflexivity.
Qed.

(** A prefix of a well-formed string is well formed, unless it ends
    between the halves of a surrogate pair. *)
Lemma prefix_of_wellFormed (n : nat) :
  forall s k, (List.length s <= n)%nat -> isWellFormed s = true ->
    isWellFormed (firstn k s) = true \/
    exists p h l rest,
      s = p ++ h :: l :: rest /\ isWellFormed p = true /\
      isHighSurrogate h = true /\ isLowSurrogate l = true /\
      firstn k s = p ++ [h].
Proof.
  induction n as [|n IH]; intros s k Hlen Hwf.
  - destruct s; [|simpl in Hlen; lia]. left. now rewrite firstn_nil.
  - destruct s as [|c s]; [left; now rewrite firstn_nil|].
    destruct k as [|k]; [left; reflexivity|].
    cbn [isWellFormed] in Hwf.
    destruct (isHighSurrogate c) eqn:Hc.
    + destruct s as [|d s]; [discriminate|].
      apply andb_true_iff in Hwf. destruct Hwf as [Hd Hwf].
      destruct k as [|k].
      * right. exists [], c, d, s. repeat split; auto.
      * destruct (IH s k) as [W|[p [h [l [rest [Es [Wp [Hh [Hl Ek]]]]]]]]];
          [simpl in Hlen; lia | exact Hwf | |].
        -- left. cbn [firstn isWellFormed]. rewrite Hc, Hd, W. reflexivity.
        -- right. exists (c :: d :: p), h, l, rest. repeat split; auto.
           ++ rewrite Es. reflexivity.
           ++ cbn [isWellFormed]. rewrite Hc, Hd, Wp. reflexivity.
           ++ cbn [firstn]. rewrite Ek. reflexivity.
    + apply andb_true_iff in Hwf. destruct Hwf as [Hl Hwf].
      destruct (IH s k) as [W|[p [h [l [rest [Es [Wp [Hh [Hl' Ek]]]]]]]]];
        [simpl in Hlen; lia | exact Hwf | |].
      * left. cbn [firstn isWellFormed]. rewrite Hc, Hl, W. reflexivity.
      * right. exists (c :: p), h, l, rest. repeat split; auto.
        -- rewrite Es. reflexivity.
        -- cbn [isWellFormed]. rewrite Hc, Hl, Wp. reflexivity.
        -- cbn [firstn]. rewrite Ek. reflexivity.
Qed.

(** The result of the loop is the prefix of its own length. *)
Lemma truncation_is_prefix (s : JsString) (maxBytes : Z) :
  let r := truncateForId3v1 s maxBytes in
  r = firstn (List.length r) s /\ (List.length r <= List.length s)%nat.
Proof.
  cbv zeta. unfold truncateForId3v1.
  destruct (truncate_loop_prefix maxBytes (List.length s) s) as [k Hk].
  rewrite Hk, length_firstn. split; [|lia].
  destruct (Nat.le_gt_cases k (List.length s)) as [H|H].
  - now rewrite Nat.min_l.
  - rewrite Nat.min_r by lia. now rewrite firstn_all, firstn_all2 by lia.
Qed.

(** C6 at its failing inputs.  The claim has [truncateForId3v1] never
    split a character.  It does, and exactly when a surrogate pair starts
    three bytes before the limit: for a well-formed string [p] of
    [maxBytes - 3] bytes followed by a pair [h l] (and anything after),
    the four bytes of the pair do not fit, the loop drops the low
    surrogate, and the lone high surrogate that is left encodes as the
    three bytes of U+FFFD, which fit; the result [p ++ [h]] is not well
    formed and fills the field with [maxBytes] bytes ending in EF BF BD.
    No other well-formed input is split: a result that is not well formed
    comes from an input of that shape.  (A pair that starts one or two
    bytes before the limit, or at it, is dropped whole.) *)
Theorem truncation_splits_pair_three_bytes_before_limit :
  (forall (p : JsString) (h l : Z) (rest : JsString) (maxBytes : Z),
      isWellFormed p = true ->
      isHighSurrogate h = true -> isLowSurrogate l = true ->
      encodedLength p = (maxBytes - 3)%Z ->
      let r := truncateForId3v1 (p ++ h :: l :: rest) maxBytes in
      r = p ++ [h] /\
      isWellFormed r = false /\
      TextEncoder_encode r = TextEncoder_encode p ++ [239; 191; 189]%Z /\
      encodedLength r = maxBytes) /\
  (forall (s : JsString) (maxBytes : Z),
      isWellFormed s = true ->
      isWellFormed (truncateForId3v1 s maxBytes) = false ->
      exists p h l rest,
        s = p ++ h :: l :: rest /\
        isWellFormed p = true /\
        isHighSurrogate h = true /\ isLowSurrogate l = true /\
        encodedLength p = (maxBytes - 3)%Z /\
        truncateForId3v1 s maxBytes = p ++ [h]).
Proof.
  split.
  - intros p h l rest maxBytes Wp Hh Hl Ep. cbv zeta.
    set (s := p ++ h :: l :: rest).
    destruct (lone_high_surrogate h Hh) as [Eh Wh].
    destruct (surrogate_pair h l Hh Hl) as [Ehl Whl].
    assert (Eph : encodedLength (p ++ [h]) = maxBytes).
    { rewrite (encodedLength_app p [h] Wp). unfold encodedLength at 2. rewrite Eh.
      simpl List.length. lia. }
    assert (Wphl : isWellFormed (p ++ [h; l]) = true)
      by (rewrite (isWellFormed_app p [h; l] Wp); exact Whl).
    assert (Ephl : encodedLength (p ++ [h; l]) = (maxBytes + 1)%Z)
      by (rewrite (encodedLength_app p [h; l] Wp), Ehl; lia).
    destruct (truncation_is_prefix s maxBytes) as [Er Hr].
    set (r := truncateForId3v1 s maxBytes) in *.
    assert (Hlen : List.length s = (List.length p + 2 + List.length rest)%nat)
      by (unfold s; rewrite length_app; simpl; lia).
    assert (Hge : (List.length p + 1 <= List.length r)%nat).
    { destruct (Nat.le_gt_cases (List.length p + 1) (List.length r)) as [H|H]; [exact H|].
      exfalso.
      pose proof (truncate_loop_dropped maxBytes (List.length s) s (List.length p + 1)) as D.
      fold (truncateForId3v1 s maxBytes) in D. fold r in D.
      specialize (D ltac:(lia)).
      replace (firstn (List.length p + 1) s) with (p ++ [h]) in D; [lia|].
      unfold s. rewrite firstn_app, firstn_all2 by lia.
      replace (List.length p + 1 - List.length p)%nat with 1%nat by lia. reflexivity. }
    assert (Hle : (List.length r <= List.length p + 1)%nat).
    { destruct (Nat.le_gt_cases (List.length r) (List.length p + 1)) as [H|H]; [exact H|].
      exfalso.
      assert (Hfit : r = [] \/ (encodedLength r <= maxBytes)%Z)
        by (apply (truncate_loop_exit maxBytes (List.length s) s (le_n _))).
      destruct Hfit as [E|E]; [rewrite E in H; simpl in H; lia|].
      assert (Es : r = (p ++ [h; l]) ++ firstn (List.length r - (List.length p + 2)) rest).
      { rewrite Er at 1. unfold s.
        replace (p ++ h :: l :: rest) with ((p ++ [h; l]) ++ rest)
          by (rewrite <- app_assoc; reflexivity).
        rewrite firstn_app, firstn_all2 by (rewrite length_app; simpl; lia).
        rewrite length_app. reflexivity. }
      rewrite Es, (encodedLength_app _ _ Wphl), Ephl in E.
      pose proof (encodedLength_nonneg
                    (firstn (List.length r - (List.length p + 2)) rest)). lia. }
    assert (Erp : r = p ++ [h]).
    { rewrite Er. replace (List.length r) with (List.length p + 1)%nat by lia.
      unfold s. rewrite firstn_app, firstn_all2 by lia.
      replace (List.length p + 1 - List.length p)%nat with 1%nat by lia. reflexivity. }
    split; [exact Erp|]. rewrite Erp. split; [|split].
    + rewrite (isWellFormed_app p [h] Wp). exact Wh.
    + unfold TextEncoder_encode at 1. rewrite (scalarValues_app p [h] Wp), flat_map_app.
      fold (TextEncoder_encode p). fold (TextEncoder_encode [h]). now rewrite Eh.
    + exact Eph.
  - intros s maxBytes Ws Wr.
    destruct (truncation_is_prefix s maxBytes) as [Er Hr].
    set (r := truncateForId3v1 s maxBytes) in *.
    destruct (prefix_of_wellFormed (List.length s) s (List.length r) (le_n _) Ws)
      as [W|[p [h [l [rest [Es [Wp [Hh [Hl Ek]]]]]]]]].
    + rewrite <- Er in W. congruence.
    + rewrite <- Er in Ek.
      exists p, h, l, rest. repeat split; auto.
      destruct (lone_high_surrogate h Hh) as [Eh _].
      destruct (surrogate_pair h l Hh Hl) as [Ehl _].
      assert (Hfit : r = [] \/ (encodedLength r <= maxBytes)%Z)
        by (apply (truncate_loop_exit maxBytes (List.length s) s (le_n _))).
      destruct Hfit as [E|E]; [rewrite Ek in E; destruct p; discriminate|].
      rewrite Ek, (encodedLength_app p [h] Wp) in E.
      unfold encodedLength at 2 in E. rewrite Eh in E. simpl List.length in E.
      assert (Hlr : List.length r = (List.length p + 1)%nat)
        by (rewrite Ek, length_app; simpl; lia).
      assert (Hls : List.length s = (List.length p + 2 + List.length rest)%nat)
        by (rewrite Es, length_app; simpl; lia).
      pose proof (truncate_loop_dropped maxBytes (List.length s) s (List.length p + 2)) as D.
      fold (truncateForId3v1 s maxBytes) in D. fold r in D.
      specialize (D ltac:(lia)).
      replace (firstn (List.length p + 2) s) with (p ++ [h; l]) in D.
      * rewrite (encodedLength_app p [h; l] Wp), Ehl in D. lia.
      * rewrite Es, firstn_app, firstn_all2 by lia.
        replace (List.length p + 2 - List.length p)%nat with 2%nat by lia. reflexivity.
Qed.

(** The title of 27 letters and an emoji is such an input. *)
Lemma emoji_title_is_split :
  let r := truncateForId3v1 titleWithEmoji ID3V1_MAX_BYTES in
  r = repeat 97%Z 27 ++ [55357%Z] /\
  isWellFormed r = false /\
  TextEncoder_encode r = TextEncoder_encode (repeat 97%Z 27) ++ [239; 191; 189]%Z /\
  encodedLength r = 30%Z.
Proof.
  apply (proj1 truncation_splits_pair_three_bytes_before_limit
           (repeat 97%Z 27) 55357%Z 56832%Z [] 30%Z); reflexivity.
Defined.

End SurrogateFacts.

(** ** The tags of an exported MP3 *)
Module TagFacts.
Import AudioExport Mp3Export.

Lemma trimStart_split (s : JsString) :
  exists before,
    s = before ++ trimStart s /\
    Forall (fun c => isWhiteSpace c = true) before /\
    (forall c, hd_error (trimStart s) = Some c -> isWhiteSpace c = false).
Proof.
  induction s as [|c s [before [Hs [Hb Hh]]]].
  - exists []. repeat split; [constructor | discriminate].
  - cbn [trimStart]. destruct (isWhiteSpace c) eqn:E.
    + exists (c :: before). repeat split.
      * simpl. now f_equal.
      * now constructor.
      * exact Hh.
    + exists []. repeat split; [constructor|].
      intros c' Hc. inversion Hc. now subst.
Qed.

Lemma trimStart_blank (s : JsString) :
  Forall (fun c => isWhiteSpace c = true) s -> trimStart s = [].
Proof.
  induction 1 as [|c s Hc Hs IH]; [reflexivity|].
  cbn [trimStart]. now rewrite Hc.
Qed.

Lemma trim_stripped (s : JsString) : stripped s (trim s).
Proof.
  unfold stripped, trim, trimEnd.
  destruct (trimStart_split s) as [before [Hs [Hb Hh]]].
  destruct (trimStart_split (rev (trimStart s))) as [after [Hr [Ha Hl]]].
  set (t := trimStart (rev (trimStart s))) in *.
  assert (E : trimStart s = rev t ++ rev after).
  { rewrite <- rev_app_distr, <- Hr. now rewrite rev_involutive. }
  exists before, (rev after). repeat split.
  - now rewrite <- E.
  - exact Hb.
  - now apply Forall_rev.
  - intros c Hc. apply Hh. rewrite E.
    destruct (rev t); [discriminate | exact Hc].
  - intros c Hc. rewrite rev_involutive in Hc. now apply Hl.
Qed.

Lemma trim_empty_iff (s : JsString) :
  trim s = [] <-> Forall (fun c => isWhiteSpace c = true) s.
Proof.
  split.
  - intro E. destruct (trim_stripped s) as [before [after [Hs [Hb [Ha _]]]]].
    rewrite E in Hs. rewrite Hs. apply Forall_app. split; assumption.
  - intro H. unfold trim, trimEnd. now rewrite (trimStart_blank s H).
Qed.

Lemma truthy_trimmed (field : option JsString) :
  truthy (trimmed field) = false <-> blank field.
Proof.
  destruct field as [s|]; cbn [trimmed truthy blank]; [|tauto].
  rewrite <- trim_empty_iff. destruct (trim s); split; congruence.
Qed.

Lemma field_fits (s : JsString) (maxBytes : Z) :
  (0 <= maxBytes)%Z ->
  (exists k, truncateForId3v1 s maxBytes = firstn k s) /\
  (encodedLength (truncateForId3v1 s maxBytes) <= maxBytes)%Z.
Proof.
  intro H. unfold truncateForId3v1. split.
  - apply Id3Facts.truncate_loop_prefix.
  - destruct (Id3Facts.truncate_loop_exit maxBytes (List.length s) s (le_n _)) as [E|E].
    + rewrite E. exact H.
    + exact E.
Qed.

(** X8: what [writeMp3Tags] hands to the tag writer.  The buffer comes back
    as it is, without the writer being asked, exactly when every metadata
    field is missing or white space only and there is no album art object;
    otherwise the result is the writer's, on tags whose ID3v2 text frames
    are the fields without surrounding white space (empty when missing),
    whose ID3v1 fields are prefixes of those of at most 30 bytes, 4 for the
    year, and whose picture frame is present exactly for album art of at
    least one byte, as a front cover (type 3) of format image/png or
    image/jpeg. *)
Theorem tags_handed_to_the_writer
    (writeBuffer : list Z -> Tags -> completion (list Z))
    (mp3Buffer : list Z) (metadata : option Metadata)
    (albumArt : option AlbumArtForExport) :
  let tags := buildTags metadata albumArt in
  let get (f : Metadata -> option JsString) :=
    match metadata with Some m => f m | None => None end in
  let all_blank := blank (get title) /\ blank (get artist) /\
                   blank (get album) /\ blank (get year) in
  (all_blank /\ albumArt = None ->
     writeMp3Tags writeBuffer mp3Buffer metadata albumArt = Return mp3Buffer) /\
  (~ (all_blank /\ albumArt = None) ->
     writeMp3Tags writeBuffer mp3Buffer metadata albumArt = writeBuffer mp3Buffer tags) /\
  (forall f frame field limit,
     (f, frame, field, limit) = (title, TIT2, v1_title, 30%Z) \/
     (f, frame, field, limit) = (artist, TPE1, v1_artist, 30%Z) \/
     (f, frame, field, limit) = (album, TALB, v1_album, 30%Z) \/
     (f, frame, field, limit) = (year, TDRC, v1_year, 4%Z) ->
     match get f with
     | Some s => stripped s (frame (v2 tags))
     | None => frame (v2 tags) = []
     end /\
     (exists k, field (v1 tags) = firstn k (frame (v2 tags))) /\
     (encodedLength (field (v1 tags)) <= limit)%Z) /\
  match albumArt with
  | Some art =>
      match art_data art with
      | [] => APIC (v2 tags) = None
      | _ :: _ => exists fmt, APIC (v2 tags) = Some [mkPicture fmt 3 [] (art_data art)] /\
                              (fmt = "image/png"%string \/ fmt = "image/jpeg"%string)
      end
  | None => APIC (v2 tags) = None
  end.
Proof.
  cbv zeta.
  assert (Hblank : hasText metadata = false <->
                   blank (match metadata with Some m => title m | None => None end) /\
                   blank (match metadata with Some m => artist m | None => None end) /\
                   blank (match metadata with Some m => album m | None => None end) /\
                   blank (match metadata with Some m => year m | None => None end)).
  { destruct metadata as [m|]; cbn [hasText blank]; [|tauto].
    rewrite !orb_false_iff, !truthy_trimmed. tauto. }
  split; [|split; [|split]].
  - intros [Hb Ha]. apply Hblank in Hb. unfold writeMp3Tags. rewrite Hb, Ha. reflexivity.
  - intro Hn. unfold writeMp3Tags.
    destruct (hasText metadata) eqn:Et; [reflexivity|].
    destruct albumArt as [art|]; [reflexivity|].
    exfalso. apply Hn. split; [now apply Hblank | reflexivity].
  - intros f frame field limit Hf.
    assert (Hfit : forall s limit', (limit' = 30 \/ limit' = 4)%Z ->
              (exists k, truncateForId3v1 s limit' = firstn k s) /\
              (encodedLength (truncateForId3v1 s limit') <= limit')%Z).
    { intros s l Hl. apply field_fits. lia. }
    assert (Hstrip : forall g : Metadata -> option JsString,
              match match metadata with Some m => g m | None => None end with
              | Some s => stripped s (orEmpty (match metadata with
                                               | Some m => trimmed (g m)
                                               | None => None end))
              | None => orEmpty (match metadata with
                                 | Some m => trimmed (g m)
                                 | None => None end) = []
              end).
    { intro g. destruct metadata as [m|]; [|reflexivity].
      destruct (g m) as [s|]; cbn [trimmed orEmpty]; [apply trim_stripped | reflexivity]. }
    destruct Hf as [E|[E|[E|E]]]; inversion E; subst; clear E;
      cbn [buildTags v1 v2 TIT2 TPE1 TALB TDRC v1_title v1_artist v1_album v1_year];
      (split; [apply Hstrip | apply Hfit; lia]).
  - destruct albumArt as [art|]; [|reflexivity].
    cbn [buildTags v2 APIC].
    destruct (art_data art) as [|b bs]; [reflexivity|].
    cbn [List.length Nat.ltb Nat.leb].
    eexists. split; [reflexivity|].
    destruct (includes (toLowerCase (mime art)) "png"); [left | right]; reflexivity.
Qed.

End TagFacts.

(** ** MP3 encoding: frames and failures *)
Module Mp3Facts.
Import AudioExport Mp3Export.

Lemma firstn_add_skipn {A : Type} (a b : nat) (xs : list A) :
  firstn (a + b) xs = firstn a xs ++ firstn b (skipn a xs).
Proof.
  revert xs. induction a as [|a IH]; intro xs; [reflexivity|].
  destruct xs as [|x xs]; simpl.
  - now rewrite firstn_nil.
  - now rewrite IH.
Qed.

Lemma subarray_window {A : Type} (xs : list A) (i : nat) :
  subarray xs i (i + MP3_CHUNK) = firstn MP3_CHUNK (skipn i xs).
Proof. unfold subarray. f_equal. lia. Qed.

Lemma frame_count_spec (len k : nat) :
  (k < (len + (MP3_CHUNK - 1)) / MP3_CHUNK)%nat <-> (k * MP3_CHUNK < len)%nat.
Proof.
  unfold MP3_CHUNK.
  pose proof (Nat.div_mod_eq (len + (1152 - 1)) 1152) as E.
  pose proof (Nat.mod_upper_bound (len + (1152 - 1)) 1152 ltac:(lia)) as Hr.
  lia.
Qed.

(** The windows of the first [n] frames make up the first [1152 n]
    samples. *)
Lemma windows_concat {A : Type} (xs : list A) (n : nat) :
  List.concat (map (fun k => subarray xs (k * MP3_CHUNK) (k * MP3_CHUNK + MP3_CHUNK))
                   (seq 0 n))
  = firstn (n * MP3_CHUNK) xs.
Proof.
  induction n as [|n IH]; [reflexivity|].
  rewrite seq_S, map_app, concat_app, IH. cbn [map List.concat Nat.add].
  rewrite app_nil_r, subarray_window.
  replace (S n * MP3_CHUNK)%nat with (n * MP3_CHUNK + MP3_CHUNK)%nat by lia.
  now rewrite firstn_add_skipn.
Qed.

Lemma frames_left (left right : list Z) :
  List.concat (map fst (mp3Frames left right)) = left.
Proof.
  unfold mp3Frames. rewrite map_map. cbn [fst].
  rewrite windows_concat. apply firstn_all2.
  set (n := ((List.length left + (MP3_CHUNK - 1)) / MP3_CHUNK)%nat).
  destruct (Nat.le_gt_cases (List.length left) (n * MP3_CHUNK)) as [H|H]; [exact H|].
  apply frame_count_spec in H. unfold n in H. lia.
Qed.

Lemma frames_right (left right : list Z) :
  List.length right = List.length left ->
  List.concat (map snd (mp3Frames left right)) = right.
Proof.
  intro Hlen. unfold mp3Frames. rewrite map_map. cbn [snd].
  rewrite windows_concat. apply firstn_all2. rewrite Hlen.
  set (n := ((List.length left + (MP3_CHUNK - 1)) / MP3_CHUNK)%nat).
  destruct (Nat.le_gt_cases (List.length left) (n * MP3_CHUNK)) as [H|H]; [exact H|].
  apply frame_count_spec in H. unfold n in H. lia.
Qed.

Lemma frames_length (left right : list Z) :
  List.length (mp3Frames left right)
  = ((List.length left + (MP3_CHUNK - 1)) / MP3_CHUNK)%nat.
Proof. unfold mp3Frames. now rewrite length_map, length_seq. Qed.

Lemma frames_nth (left right : list Z) (k : nat) :
  (k < List.length (mp3Frames left right))%nat ->
  nth k (mp3Frames left right) ([], [])
  = (firstn MP3_CHUNK (skipn (k * MP3_CHUNK) left),
     firstn MP3_CHUNK (skipn (k * MP3_CHUNK) right)).
Proof.
  intro Hk. rewrite frames_length in Hk. unfold mp3Frames.
  set (f := fun k0 : nat => _).
  rewrite (nth_indep _ ([], []) (f 0%nat)) by (rewrite length_map, length_seq; exact Hk).
  rewrite map_nth, seq_nth by exact Hk. unfold f. cbn [Nat.add].
  now rewrite !subarray_window.
Qed.

Section EncoderFacts.

Variable alloc_ok : nat -> bool.
Variable Enc : Type.
Variable encodeBuffer : Enc -> list Z -> list Z -> completion (Enc * list Z).
Variable flush : Enc -> completion (list Z).

(** The loop from frame [k] on is the encoder fed with the frames from
    [k]; what it collects are the outputs that are not empty. *)
Lemma encodeLoop_feeds (left right : list Z) (fuel : nat) :
  forall k n encoder chunks,
    (n <= fuel)%nat ->
    (k + n)%nat = ((List.length left + (MP3_CHUNK - 1)) / MP3_CHUNK)%nat ->
    encodeLoop Enc encodeBuffer fuel (k * MP3_CHUNK) left right encoder chunks
    = (r <- feed Enc encodeBuffer encoder
               (map (fun k => (subarray left (k * MP3_CHUNK) (k * MP3_CHUNK + MP3_CHUNK),
                               subarray right (k * MP3_CHUNK) (k * MP3_CHUNK + MP3_CHUNK)))
                    (seq k n)) ;;
       Return (fst r, chunks ++ filter (fun c => (0 <? List.length c)%nat) (snd r))).
Proof.
  induction fuel as [|fuel IH]; intros k n encoder chunks Hn Hk.
  - assert (n = 0%nat) by lia. subst n. cbn. now rewrite app_nil_r.
  - cbn [encodeLoop].
    destruct (k * MP3_CHUNK <? List.length left)%nat eqn:E.
    + apply Nat.ltb_lt in E. apply frame_count_spec in E.
      destruct n as [|n]; [lia|].
      cbn [seq map feed fst snd].
      destruct (encodeBuffer encoder _ _) as [[encoder' out]|e]; cbn [bind]; [|reflexivity].
      cbn [fst snd].
      replace (k * MP3_CHUNK + MP3_CHUNK)%nat with (S k * MP3_CHUNK)%nat by lia.
      rewrite (IH (S k) n) by lia.
      destruct (feed Enc encodeBuffer encoder' _) as [[encoder'' outs]|e]; cbn [bind];
        [|reflexivity].
      cbn [fst snd filter]. f_equal. f_equal.
      destruct (0 <? List.length out)%nat; [now rewrite <- app_assoc | reflexivity].
    + apply Nat.ltb_ge in E.
      assert (n = 0%nat).
      { destruct n as [|n]; [reflexivity|]. exfalso.
        assert (Hlt : (k < (List.length left + (MP3_CHUNK - 1)) / MP3_CHUNK)%nat) by lia.
        apply frame_count_spec in Hlt. lia. }
      subst n. cbn. now rewrite app_nil_r.
Qed.

Lemma concat_nonempty (outs : list (list Z)) :
  List.concat (filter (fun c => (0 <? List.length c)%nat) outs) = List.concat outs.
Proof.
  induction outs as [|c outs IH]; [reflexivity|].
  destruct c as [|b c]; simpl; [exact IH|]. do 2 f_equal. exact IH.
Qed.

Lemma total_is_length (chunks : list (list Z)) :
  forall acc, fold_left (fun acc c => (acc + List.length c)%nat) chunks acc
              = (acc + List.length (List.concat chunks))%nat.
Proof.
  induction chunks as [|c chunks IH]; intro acc; cbn [fold_left List.concat].
  - simpl. lia.
  - rewrite IH, length_app. lia.
Qed.

Lemma copyParts_spec (chunks : list (list Z)) :
  forall pre post,
    List.length post = List.length (List.concat chunks) ->
    copyParts chunks (pre ++ post) (List.length pre)
    = Return (pre ++ map ToUint8 (List.concat chunks)).
Proof.
  induction chunks as [|c chunks IH]; intros pre post Hlen.
  - cbn in *. destruct post; [reflexivity | discriminate].
  - cbn [copyParts List.concat] in *. rewrite length_app in Hlen.
    unfold uint8_set.
    assert (Hfit : (List.length pre + List.length c <=? List.length (pre ++ post))%nat = true)
      by (apply Nat.leb_le; rewrite length_app; lia).
    rewrite Hfit. cbn [bind].
    rewrite firstn_app, firstn_all, Nat.sub_diag. cbn [firstn]. rewrite app_nil_r.
    rewrite skipn_app, skipn_all2 by lia. cbn [app].
    replace (List.length pre + List.length c - List.length pre)%nat
      with (List.length c) by lia.
    replace (List.length pre + List.length c)%nat
      with (List.length (pre ++ map ToUint8 c)) by (rewrite length_app, length_map; lia).
    rewrite app_assoc. rewrite IH.
    + now rewrite map_app, <- !app_assoc.
    + rewrite length_skipn. lia.
Qed.

(** X9: [encodeMp3] feeds the encoder the channels in frames of 1152
    samples.  With the script loaded, the result is what the encoder
    returns for the frames in order, followed by what [flush()] returns,
    stored as unsigned bytes; the frames make up the left and the right
    channel, without gap or overlap; there are ceil(length / 1152) of them,
    each of 1 to 1152 samples and all but the last of exactly 1152; and for
    a mono buffer the right samples of a frame are its left samples. *)
Theorem mp3_frames_cover_the_channels
    (construct : nat -> Q -> Z -> completion Enc) (buffer : AudioBuffer) :
  wf_buffer buffer ->
  alloc_ok (bufferLength buffer) = true ->
  let left := floatToInt16 (channelOf 0 buffer) in
  let right := if (1 <? numberOfChannels buffer)%nat
               then floatToInt16 (channelOf 1 buffer) else left in
  let frames := mp3Frames left right in
  encodeMp3 alloc_ok Enc (Some construct) encodeBuffer flush buffer
  = try_catch
      (encoder <- construct (numberOfChannels buffer) (sampleRate buffer) 192%Z ;;
       r <- feed Enc encodeBuffer encoder frames ;;
       fl <- flush (fst r) ;;
       _ <- newTypedArray alloc_ok (List.length (List.concat (snd r) ++ fl)) ;;
       Return (map ToUint8 (List.concat (snd r) ++ fl)))
      (fun _ => Throw (ErrorObj "Error" MP3_FAILED)) /\
  List.concat (map fst frames) = left /\
  List.concat (map snd frames) = right /\
  List.length frames = ((bufferLength buffer + 1151) / 1152)%nat /\
  (forall k, (k < List.length frames)%nat ->
     let f := nth k frames ([], []) in
     (1 <= List.length (fst f) <= 1152)%nat /\
     List.length (snd f) = List.length (fst f) /\
     ((S k < List.length frames)%nat -> List.length (fst f) = 1152%nat) /\
     (numberOfChannels buffer = 1%nat -> snd f = fst f)).
Proof.
  intros [Hrate [Hlen [Hch Hall]]] Halloc. cbv zeta.
  unfold numberOfChannels in *.
  destruct (channelData buffer) as [|c0 rest] eqn:Ecd; [simpl in Hch; lia|].
  inversion Hall as [|? ? H0 Hrest]; subst.
  set (left := floatToInt16 (channelOf 0 buffer)).
  set (right := if (1 <? List.length (c0 :: rest))%nat
                then floatToInt16 (channelOf 1 buffer) else left).
  assert (Hl : List.length left = bufferLength buffer).
  { unfold left, channelOf, floatToInt16. rewrite Ecd. cbn [nth]. now rewrite length_map. }
  assert (Hr : List.length right = List.length left).
  { unfold right. destruct (1 <? List.length (c0 :: rest))%nat eqn:E; [|reflexivity].
    rewrite Hl. unfold channelOf, floatToInt16. rewrite Ecd.
    destruct rest as [|c1 rest']; [discriminate E|].
    cbn [nth]. rewrite length_map. now inversion Hrest. }
  split; [|split; [|split; [|split]]].
  - unfold encodeMp3, getChannelData, numberOfChannels. rewrite Ecd. cbn [nth_error bind].
    unfold floatToInt16_alloc, newTypedArray. rewrite H0, Halloc. cbn [bind].
    match goal with
    | |- bind ?c _ = _ => assert (Eright : c = Return right)
    end.
    { unfold right, left, channelOf. rewrite Ecd. cbn [nth].
      destruct rest as [|c1 rest']; [reflexivity|].
      cbn [List.length Nat.ltb Nat.leb nth_error bind nth].
      inversion Hrest as [|? ? H1 ?]; subst. rewrite H1, Halloc. reflexivity. }
    rewrite Eright. cbn [bind].
    replace (floatToInt16 c0) with left
      by (unfold left, channelOf; rewrite Ecd; reflexivity).
    f_equal.
    destruct (construct _ _ _) as [encoder|e]; cbn [bind]; [|reflexivity].
    change 0%nat with (0 * MP3_CHUNK)%nat at 1.
    rewrite (encodeLoop_feeds left right (List.length left) 0
               ((List.length left + (MP3_CHUNK - 1)) / MP3_CHUNK));
      [| | reflexivity].
    + fold (mp3Frames left right).
      destruct (feed Enc encodeBuffer encoder (mp3Frames left right)) as [[encoder' outs]|e];
        cbn [bind]; [|reflexivity].
      cbn [fst snd app].
      destruct (flush encoder') as [fl|e]; cbn [bind]; [|reflexivity].
      set (chunks := if (0 <? List.length fl)%nat then _ else _).
      assert (Ec : List.concat chunks = List.concat outs ++ fl).
      { unfold chunks. destruct fl as [|b fl]; cbn [List.length Nat.ltb Nat.leb].
        - now rewrite concat_nonempty, app_nil_r.
        - rewrite concat_app, concat_nonempty. cbn [List.concat]. now rewrite app_nil_r. }
      rewrite total_is_length, Ec. cbn [Nat.add].
      destruct (alloc_ok (List.length (List.concat outs ++ fl))); cbn [bind]; [|reflexivity].
      rewrite <- Ec.
      apply (copyParts_spec chunks [] (repeat 0%Z (List.length (List.concat chunks)))).
      apply repeat_length.
    + unfold MP3_CHUNK.
      pose proof (Nat.div_mod_eq (List.length left + (1152 - 1)) 1152).
      lia.
  - apply frames_left.
  - now apply frames_right.
  - rewrite frames_length, Hl. reflexivity.
  - intros k Hk. cbv zeta. rewrite (frames_nth left right k Hk). cbn [fst snd].
    rewrite frames_length in Hk.
    pose proof (proj1 (frame_count_spec (List.length left) k) Hk) as Hin.
    rewrite !length_firstn, !length_skipn, Hr. unfold MP3_CHUNK in *.
    repeat split; try lia.
    + intro Hnext. rewrite frames_length in Hnext.
      apply frame_count_spec in Hnext. unfold MP3_CHUNK in Hnext. lia.
    + intro Hmono. unfold right. rewrite Hmono. reflexivity.
Qed.

End EncoderFacts.

Lemma monoSource_wf : wf_buffer monoSource.
Proof.
  unfold wf_buffer, monoSource, numberOfChannels.
  cbn [sampleRate bufferLength channelData List.length].
  repeat split; try lia; try reflexivity.
  repeat constructor; apply repeat_length.
Qed.

(** 2500 mono samples go to the encoder as three frames. *)
Lemma mono_2500_samples_in_three_frames :
  List.length (mp3Frames (floatToInt16 (channelOf 0 monoSource))
                         (floatToInt16 (channelOf 0 monoSource))) = 3%nat.
Proof.
  pose proof (mp3_frames_cover_the_channels (fun _ => true) unit echoEncoder echoFlush
                echoConstruct monoSource monoSource_wf eq_refl) as H.
  cbv zeta in H. destruct H as [_ [_ [_ [H _]]]].
  exact H.
Defined.

(** X10: what [encodeMp3] throws.  Once the channels are converted, a
    missing lamejs script gives the error that asks to reload the page; with
    the script loaded, the call either returns bytes or throws the one
    error that suggests WAV, whatever failed in the encoder, in the
    allocation of the output or in the copy, and whatever was thrown
    there. *)
Theorem mp3_failures_have_fixed_messages
    (alloc_ok : nat -> bool) (Enc : Type)
    (Mp3Encoder : option (nat -> Q -> Z -> completion Enc))
    (encodeBuffer : Enc -> list Z -> list Z -> completion (Enc * list Z))
    (flush : Enc -> completion (list Z)) (buffer : AudioBuffer) :
  wf_buffer buffer ->
  alloc_ok (bufferLength buffer) = true ->
  match Mp3Encoder with
  | None =>
      encodeMp3 alloc_ok Enc Mp3Encoder encodeBuffer flush buffer
      = Throw (ErrorObj "Error" LAMEJS_MISSING)
  | Some _ =>
      (exists bytes, encodeMp3 alloc_ok Enc Mp3Encoder encodeBuffer flush buffer
                     = Return bytes) \/
      encodeMp3 alloc_ok Enc Mp3Encoder encodeBuffer flush buffer
      = Throw (ErrorObj "Error" MP3_FAILED)
  end.
Proof.
  intros [Hrate [Hlen [Hch Hall]]] Halloc.
  unfold numberOfChannels in *.
  destruct (channelData buffer) as [|c0 rest] eqn:Ecd; [simpl in Hch; lia|].
  inversion Hall as [|? ? H0 Hrest]; subst.
  unfold encodeMp3, getChannelData, numberOfChannels. rewrite Ecd. cbn [nth_error bind].
  unfold floatToInt16_alloc, newTypedArray. rewrite H0, Halloc. cbn [bind].
  set (rightc := if (1 <? List.length (c0 :: rest))%nat then _ else _).
  assert (Er : exists right, rightc = Return right).
  { unfold rightc. destruct rest as [|c1 rest']; [eexists; reflexivity|].
    cbn [List.length Nat.ltb Nat.leb nth_error bind].
    inversion Hrest as [|? ? H1 ?]; subst. rewrite H1, Halloc. eexists. reflexivity. }
  destruct Er as [right Er]. rewrite Er. cbn [bind].
  destruct Mp3Encoder as [construct|]; [|reflexivity].
  match goal with |- context [try_catch ?c ?h] => destruct c as [bytes|e] end;
    cbn [try_catch].
  - left. now exists bytes.
  - right. reflexivity.
Qed.

(** The mono source without the lamejs script. *)
Lemma mono_source_without_lamejs :
  encodeMp3 (fun _ => true) unit None echoEncoder echoFlush monoSource
  = Throw (ErrorObj "Error" LAMEJS_MISSING).
Proof.
  exact (mp3_failures_have_fixed_messages (fun _ => true) unit None echoEncoder echoFlush
           monoSource monoSource_wf eq_refl).
Defined.

End Mp3Facts.

(** ** The layout of the WAV file *)
Module WavFacts.
Import AudioExport WavFile.

Lemma collectChannels_from (buffer : AudioBuffer) (post : list (list Q)) :
  forall pre, channelData buffer = pre ++ post ->
    collectChannels buffer (seq (List.length pre) (List.length post)) = Return post.
Proof.
  induction post as [|ch post IH]; intros pre E; [reflexivity|].
  cbn [List.length seq collectChannels]. unfold getChannelData.
  rewrite E, nth_error_app2, Nat.sub_diag by lia. cbn [nth_error bind].
  replace (S (List.length pre)) with (List.length (pre ++ [ch]))
    by (rewrite length_app; simpl; lia).
  rewrite (IH (pre ++ [ch])) by (rewrite <- app_assoc; exact E).
  reflexivity.
Qed.

Lemma view_set_append (pre post bytes : list Z) :
  (List.length bytes <= List.length post)%nat ->
  view_set (pre ++ post) (List.length pre) bytes
  = Return ((pre ++ bytes) ++ skipn (List.length bytes) post).
Proof.
  intro Hfit. unfold view_set.
  assert (Hle : (List.length pre + List.length bytes <=? List.length (pre ++ post))%nat = true)
    by (apply Nat.leb_le; rewrite length_app; lia).
  rewrite Hle. f_equal.
  rewrite firstn_app, firstn_all, Nat.sub_diag. cbn [firstn]. rewrite app_nil_r.
  rewrite skipn_app, skipn_all2 by lia. cbn [app].
  rewrite <- app_assoc. do 3 f_equal. lia.
Qed.

Lemma setInt16_le_length (v : Z) : List.length (setInt16_le v) = 2%nat.
Proof. reflexivity. Qed.

Lemma writeFrame_spec (j : nat) (channelData : list (list Q)) :
  forall pre post,
    (2 * List.length channelData <= List.length post)%nat ->
    writeFrame channelData j (pre ++ post) (List.length pre)
    = Return (pre ++ flat_map (fun ch => setInt16_le (encodeWAV_int16 (nth j ch 0)))
                              channelData
                  ++ skipn (2 * List.length channelData) post,
              (List.length pre + 2 * List.length channelData)%nat).
Proof.
  induction channelData as [|ch rest IH]; intros pre post Hfit.
  - cbn. now rewrite Nat.add_0_r.
  - cbn [writeFrame List.length flat_map] in *. unfold setInt16.
    rewrite view_set_append by (rewrite setInt16_le_length; lia). cbn [bind].
    set (bytes := setInt16_le (encodeWAV_int16 (nth j ch 0))).
    replace (List.length pre + 2)%nat with (List.length (pre ++ bytes))
      by (rewrite length_app; reflexivity).
    rewrite IH
      by (rewrite length_skipn; change (List.length bytes) with 2%nat; lia).
    rewrite skipn_skipn, length_app, <- !app_assoc.
    change (List.length bytes) with 2%nat.
    replace (2 * List.length rest + 2)%nat with (2 * S (List.length rest))%nat by lia.
    replace (List.length pre + 2 + 2 * List.length rest)%nat
      with (List.length pre + 2 * S (List.length rest))%nat by lia.
    reflexivity.
Qed.

Lemma frame_bytes_length (channelData : list (list Q)) (j : nat) :
  List.length (flat_map (fun ch => setInt16_le (encodeWAV_int16 (nth j ch 0))) channelData)
  = (2 * List.length channelData)%nat.
Proof.
  induction channelData as [|ch rest IH]; [reflexivity|].
  cbn [flat_map List.length]. rewrite length_app, IH, setInt16_le_length. lia.
Qed.

Lemma writeFrames_spec (channelData : list (list Q)) (js : list nat) :
  forall pre post,
    (2 * List.length channelData * List.length js <= List.length post)%nat ->
    writeFrames channelData js (pre ++ post) (List.length pre)
    = Return (pre ++ flat_map (fun j => flat_map (fun ch =>
                                 setInt16_le (encodeWAV_int16 (nth j ch 0))) channelData) js
                  ++ skipn (2 * List.length channelData * List.length js) post,
              (List.length pre + 2 * List.length channelData * List.length js)%nat).
Proof.
  induction js as [|j js IH]; intros pre post Hfit.
  - cbn [writeFrames flat_map List.length app]. rewrite Nat.mul_0_r, Nat.add_0_r.
    reflexivity.
  - cbn [writeFrames flat_map List.length] in *.
    rewrite writeFrame_spec by lia. cbn [bind fst snd].
    set (bytes := flat_map _ channelData).
    assert (Hb : List.length bytes = (2 * List.length channelData)%nat)
      by apply frame_bytes_length.
    replace (List.length pre + 2 * List.length channelData)%nat
      with (List.length (pre ++ bytes)) by (rewrite length_app; lia).
    rewrite app_assoc, IH by (rewrite length_skipn; lia).
    rewrite skipn_skipn, length_app, <- !app_assoc, Hb.
    replace (2 * List.length channelData * List.length js + 2 * List.length channelData)%nat
      with (2 * List.length channelData * S (List.length js))%nat by lia.
    replace (List.length pre + 2 * List.length channelData
             + 2 * List.length channelData * List.length js)%nat
      with (List.length pre + 2 * List.length channelData * S (List.length js))%nat by lia.
    reflexivity.
Qed.

Lemma data_length (buffer : AudioBuffer) :
  List.length (encodeWAV_data buffer)
  = (2 * numberOfChannels buffer * bufferLength buffer)%nat.
Proof.
  unfold encodeWAV_data, numberOfChannels.
  assert (H : forall js,
            List.length (flat_map (fun j => flat_map (fun ch =>
                           setInt16_le (encodeWAV_int16 (nth j ch 0))) (channelData buffer)) js)
            = (2 * List.length (channelData buffer) * List.length js)%nat).
  { induction js as [|j js IH]; cbn [flat_map List.length]; [lia|].
    rewrite length_app, IH, frame_bytes_length. lia. }
  rewrite H, length_seq. reflexivity.
Qed.

(** The writes of the header, and then of the samples, on a fresh buffer. *)
Lemma encodeWAV_bytes (alloc_ok : nat -> bool) (buffer : AudioBuffer) :
  alloc_ok (44 + bufferLength buffer * (numberOfChannels buffer * 2))%nat = true ->
  encodeWAV alloc_ok buffer
  = Return (wavHeader (numberOfChannels buffer) (bufferLength buffer) (sampleRate buffer)
            ++ encodeWAV_data buffer).
Proof.
  intro Halloc. unfold encodeWAV, newArrayBuffer.
  change (16 / 8)%nat with 2%nat.
  rewrite Halloc.
  set (d := (bufferLength buffer * (numberOfChannels buffer * 2))%nat).
  set (c := numberOfChannels buffer).
  cbn [bind writeString].
  unfold setUint32, setUint16, setUint8.
  change (repeat 0%Z (44 + d)) with ([] ++ repeat 0%Z (44 + d)).
  repeat
    match goal with
    | |- context [view_set (?pre ++ ?post) ?off ?bytes] =>
        change (view_set (pre ++ post) off bytes)
          with (view_set (pre ++ post) (List.length pre) bytes);
        rewrite (view_set_append pre post bytes)
          by (rewrite ?length_skipn, repeat_length; unfold uint32_le, uint16_le;
              cbn [List.length]; lia);
        cbn [bind]
    end.
  change (seq 0 c) with (seq (List.length (@nil (list Q))) (List.length (channelData buffer))).
  rewrite (collectChannels_from buffer (channelData buffer) [] eq_refl). cbn [bind].
  assert (Hd : d = (2 * List.length (channelData buffer)
                    * List.length (seq 0 (bufferLength buffer)))%nat)
    by (unfold d, numberOfChannels; rewrite length_seq; nia).
  match goal with
  | |- context [writeFrames ?cd ?js (?pre ++ ?post) 44] =>
      change (writeFrames cd js (pre ++ post) 44)
        with (writeFrames cd js (pre ++ post) (List.length pre));
      rewrite (writeFrames_spec cd js pre post)
        by (rewrite !length_skipn, repeat_length; unfold uint32_le, uint16_le;
            cbn [List.length]; lia)
  end.
  cbn [bind fst]. f_equal.
  rewrite skipn_all2
    by (rewrite !length_skipn, repeat_length; unfold uint32_le, uint16_le;
        cbn [List.length]; lia).
  rewrite app_nil_r. reflexivity.
Qed.

Lemma uint32_roundtrip (u : Z) :
  (0 <= u < 4294967296)%Z ->
  (u mod 256 + 256 * ((u / 256) mod 256) + 65536 * ((u / 65536) mod 256)
   + 16777216 * ((u / 16777216) mod 256))%Z = u.
Proof.
  intro H.
  change 65536%Z with (256 * 256)%Z. change 16777216%Z with (256 * 256 * 256)%Z.
  rewrite <- !Z.div_div by lia.
  pose proof (Z.div_mod u 256 ltac:(lia)).
  pose proof (Z.div_mod (u / 256) 256 ltac:(lia)).
  pose proof (Z.div_mod (u / 256 / 256) 256 ltac:(lia)).
  assert (u / 256 / 256 / 256 < 256)%Z.
  { apply Z.div_lt_upper_bound; [lia|]. apply Z.div_lt_upper_bound; [lia|].
    apply Z.div_lt_upper_bound; lia. }
  assert (0 <= u / 256 / 256 / 256)%Z by (repeat apply Z.div_pos; lia).
  rewrite (Z.mod_small (u / 256 / 256 / 256) 256) by lia.
  lia.
Qed.

Lemma uint16_roundtrip (u : Z) :
  (0 <= u < 65536)%Z -> (u mod 256 + 256 * ((u / 256) mod 256))%Z = u.
Proof.
  intro H.
  pose proof (Z.div_mod u 256 ltac:(lia)).
  assert (u / 256 < 256)%Z by (apply Z.div_lt_upper_bound; lia).
  assert (0 <= u / 256)%Z by (apply Z.div_pos; lia).
  rewrite (Z.mod_small (u / 256) 256) by lia. lia.
Qed.

Lemma truncate_integer (x : Q) (n : Z) : x == inject_Z n -> truncate x = n.
Proof.
  intro E. unfold truncate.
  destruct (JsMath.Qltb x 0).
  - rewrite (Qceiling_comp _ _ E). apply Qceiling_Z.
  - rewrite (Qfloor_comp _ _ E). apply Qfloor_Z.
Qed.

Lemma ToUint32_integer (x : Q) (n : Z) :
  x == inject_Z n -> (0 <= n < 4294967296)%Z -> ToUint32 x = n.
Proof.
  intros E H. unfold ToUint32. rewrite (truncate_integer x n E). now apply Z.mod_small.
Qed.

Lemma ToUint16_integer (x : Q) (n : Z) :
  x == inject_Z n -> (0 <= n < 65536)%Z -> ToUint16 x = n.
Proof.
  intros E H. unfold ToUint16. rewrite (truncate_integer x n E). now apply Z.mod_small.
Qed.

(** X11: the file [encodeWAV] writes.  For a buffer at an integer sample
    rate whose sizes fit their header fields, the file has 44 bytes of
    header and two bytes per sample; the header reads back as a canonical
    16-bit PCM RIFF/WAVE header (chunk size 36 + data size, format chunk of
    16 bytes, format tag 1, the buffer's channel count and sample rate,
    byte rate = rate x block align, block align = 2 x channels, 16 bits per
    sample, data size = frames x block align); and what follows the header
    is the data section, frame by frame. *)
Theorem wav_file_layout (alloc_ok : nat -> bool) (buffer : AudioBuffer) (rate : Z) :
  let channels := Z.of_nat (numberOfChannels buffer) in
  let frames := Z.of_nat (bufferLength buffer) in
  let dataSize := (frames * (channels * 2))%Z in
  wf_buffer buffer ->
  sampleRate buffer == inject_Z rate ->
  (44 + dataSize < 4294967296)%Z ->
  (rate * (channels * 2) < 4294967296)%Z ->
  (channels * 2 < 65536)%Z ->
  alloc_ok (44 + bufferLength buffer * (numberOfChannels buffer * 2))%nat = true ->
  exists file,
    encodeWAV alloc_ok buffer = Return file /\
    Z.of_nat (List.length file) = (44 + dataSize)%Z /\
    readTag file 0 = "RIFF"%string /\
    readUint32 file 4 = (36 + dataSize)%Z /\
    readTag file 8 = "WAVE"%string /\
    readTag file 12 = "fmt "%string /\
    readUint32 file 16 = 16%Z /\
    readUint16 file 20 = 1%Z /\
    readUint16 file 22 = channels /\
    readUint32 file 24 = rate /\
    readUint32 file 28 = (rate * (channels * 2))%Z /\
    readUint16 file 32 = (channels * 2)%Z /\
    readUint16 file 34 = 16%Z /\
    readTag file 36 = "data"%string /\
    readUint32 file 40 = dataSize /\
    skipn 44 file = encodeWAV_data buffer.
Proof.
  intros channels frames dataSize [Hr [Hlen [Hch Hall]]] Erate Hfile Hbyte Hblock Halloc.
  assert (Hrate : (0 < rate)%Z).
  { rewrite Erate in Hr. change 0 with (inject_Z 0) in Hr. now rewrite <- Zlt_Qlt in Hr. }
  exists (wavHeader (numberOfChannels buffer) (bufferLength buffer) (sampleRate buffer)
          ++ encodeWAV_data buffer).
  split; [now apply encodeWAV_bytes|].
  assert (E1 : ToUint32 (inject_Z (Z.of_nat
                  (44 + bufferLength buffer * (numberOfChannels buffer * 2) - 8)))
               = (36 + dataSize)%Z).
  { apply ToUint32_integer; [|lia]. unfold dataSize, frames, channels.
    apply inject_Z_injective. lia. }
  assert (E2 : ToUint32 16 = 16%Z) by (apply (ToUint32_integer 16 16); [reflexivity | lia]).
  assert (E3 : ToUint16 1 = 1%Z) by (apply (ToUint16_integer 1 1); [reflexivity | lia]).
  assert (E4 : ToUint16 (inject_Z (Z.of_nat (numberOfChannels buffer))) = channels)
    by (apply ToUint16_integer; [reflexivity | lia]).
  assert (E5 : ToUint32 (sampleRate buffer) = rate)
    by (apply ToUint32_integer; [exact Erate | nia]).
  assert (E6 : ToUint32 (sampleRate buffer
                         * inject_Z (Z.of_nat (numberOfChannels buffer * 2)))
               = (rate * (channels * 2))%Z).
  { apply ToUint32_integer; [|nia]. rewrite Erate, <- inject_Z_mult.
    apply inject_Z_injective. unfold channels. lia. }
  assert (E7 : ToUint16 (inject_Z (Z.of_nat (numberOfChannels buffer * 2)))
               = (channels * 2)%Z).
  { apply ToUint16_integer; [|lia]. apply inject_Z_injective. unfold channels. lia. }
  assert (E8 : ToUint16 (inject_Z (Z.of_nat 16)) = 16%Z)
    by (apply ToUint16_integer; [reflexivity | lia]).
  assert (E9 : ToUint32 (inject_Z (Z.of_nat
                  (bufferLength buffer * (numberOfChannels buffer * 2)))) = dataSize).
  { apply ToUint32_integer; [|lia]. apply inject_Z_injective.
    unfold dataSize, frames, channels. lia. }
  unfold wavHeader. rewrite E1, E2, E3, E4, E5, E6, E7, E8, E9.
  unfold uint32_le, uint16_le, readTag, readUint32, readUint16.
  cbn [app nth skipn firstn Nat.add map].
  rewrite !uint32_roundtrip, !uint16_roundtrip by lia.
  repeat split; try reflexivity.
  cbn [List.length]. rewrite data_length.
  unfold dataSize, frames, channels. lia.
Qed.

(** The file of the three stereo frames: 56 bytes. *)
Lemma three_frames_wav_file :
  exists file,
    encodeWAV (fun _ => true) threeFrames = Return file /\
    Z.of_nat (List.length file) = 56%Z /\
    readTag file 0 = "RIFF"%string /\
    readUint32 file 4 = 48%Z /\
    readTag file 8 = "WAVE"%string /\
    readTag file 12 = "fmt "%string /\
    readUint32 file 16 = 16%Z /\
    readUint16 file 20 = 1%Z /\
    readUint16 file 22 = 2%Z /\
    readUint32 file 24 = 44100%Z /\
    readUint32 file 28 = 176400%Z /\
    readUint16 file 32 = 4%Z /\
    readUint16 file 34 = 16%Z /\
    readTag file 36 = "data"%string /\
    readUint32 file 40 = 12%Z /\
    skipn 44 file = encodeWAV_data threeFrames.
Proof.
  apply (wav_file_layout (fun _ => true) threeFrames 44100).
  - unfold wf_buffer, threeFrames, numberOfChannels.
    cbn [sampleRate bufferLength channelData List.length].
    repeat split; try lia; try reflexivity. repeat constructor.
  - reflexivity.
  - reflexivity.
  - reflexivity.
  - reflexivity.
  - reflexivity.
Defined.

End WavFacts.

(** ** The quantiser *)
Module QuantiserFacts.
Import JsMath JsMathFacts AudioExport SampleFacts.

Lemma clampUnit_cases (x : Q) :
  (x < -1 /\ clampUnit x = -1) \/ (1 < x /\ clampUnit x = 1) \/
  (-1 <= x /\ x <= 1 /\ clampUnit x = x).
Proof.
  unfold clampUnit.
  destruct (Qltb x (-1)) eqn:E1; [apply Qltb_lt in E1; now left | apply Qltb_ge in E1].
  destruct (Qltb 1 x) eqn:E2; [apply Qltb_lt in E2 | apply Qltb_ge in E2].
  - right. now left.
  - right. right. repeat split; assumption.
Qed.

Lemma clampUnit_monotone (x y : Q) : x <= y -> clampUnit x <= clampUnit y.
Proof.
  intro H.
  destruct (clampUnit_cases x) as [[Hx Ex]|[[Hx Ex]|[Hx [Hx' Ex]]]];
  destruct (clampUnit_cases y) as [[Hy Ey]|[[Hy Ey]|[Hy [Hy' Ey]]]];
  rewrite Ex, Ey; lra.
Qed.

Lemma pcm16_negative (x : Q) : clampUnit x < 0 -> (pcm16 x <= -1)%Z.
Proof.
  intro H. rewrite pcm16_scaling.
  rewrite (proj2 (Qltb_lt (clampUnit x) 0) H).
  assert (L : (Qfloor (clampUnit x * 32768) < 0)%Z).
  { rewrite Zlt_Qlt. pose proof (Qfloor_le (clampUnit x * 32768)).
    change (inject_Z 0) with 0. lra. }
  lia.
Qed.

Lemma pcm16_nonnegative (x : Q) : 0 <= clampUnit x -> (0 <= pcm16 x)%Z.
Proof.
  intro H. rewrite pcm16_scaling.
  destruct (Qltb (clampUnit x) 0) eqn:E; [apply Qltb_lt in E; lra|].
  rewrite <- (Qfloor_Z 0). apply Qfloor_resp_le. change (inject_Z 0) with 0. lra.
Qed.

(** X12: the conversion of a sample to 16 bits never reverses the order of
    two samples; it maps everything at or below -1 to -32768, everything at
    or above 1 to 32767, and 0 to 0; and it keeps the sign: a negative
    sample gives a negative integer, any other a non-negative one. *)
Theorem sample_conversion_is_monotone :
  (forall x y, x <= y -> (encodeWAV_int16 x <= encodeWAV_int16 y)%Z) /\
  (forall x, x <= -1 -> encodeWAV_int16 x = (-32768)%Z) /\
  (forall x, 1 <= x -> encodeWAV_int16 x = 32767%Z) /\
  (forall x, x == 0 -> encodeWAV_int16 x = 0%Z) /\
  (forall x, x < 0 -> (encodeWAV_int16 x < 0)%Z) /\
  (forall x, 0 <= x -> (0 <= encodeWAV_int16 x)%Z).
Proof.
  repeat split; intros x; [intros y H | intro H ..];
    rewrite ?encodeWAV_int16_is_pcm16.
  - pose proof (clampUnit_monotone x y H) as Hc.
    destruct (Qlt_le_dec (clampUnit x) 0) as [Hx|Hx];
    destruct (Qlt_le_dec (clampUnit y) 0) as [Hy|Hy].
    + rewrite !pcm16_scaling.
      rewrite (proj2 (Qltb_lt (clampUnit x) 0) Hx), (proj2 (Qltb_lt (clampUnit y) 0) Hy).
      apply Qfloor_resp_le. lra.
    + pose proof (pcm16_negative x Hx). pose proof (pcm16_nonnegative y Hy). lia.
    + lra.
    + rewrite !pcm16_scaling.
      destruct (Qltb (clampUnit x) 0) eqn:Ex; [apply Qltb_lt in Ex; lra|].
      destruct (Qltb (clampUnit y) 0) eqn:Ey; [apply Qltb_lt in Ey; lra|].
      apply Qfloor_resp_le. lra.
  - rewrite pcm16_scaling.
    assert (E : clampUnit x == -1)
      by (destruct (clampUnit_cases x) as [[Hx Ex]|[[Hx Ex]|[Hx [Hx' Ex]]]]; rewrite Ex; lra).
    rewrite (proj2 (Qltb_lt (clampUnit x) 0)) by lra.
    rewrite (Qfloor_comp _ (inject_Z (-32768))) by (rewrite E; reflexivity).
    apply Qfloor_Z.
  - rewrite pcm16_scaling.
    assert (E : clampUnit x == 1)
      by (destruct (clampUnit_cases x) as [[Hx Ex]|[[Hx Ex]|[Hx [Hx' Ex]]]]; rewrite Ex; lra).
    destruct (Qltb (clampUnit x) 0) eqn:Ex; [apply Qltb_lt in Ex; lra|].
    rewrite (Qfloor_comp _ (inject_Z 32767)) by (rewrite E; reflexivity).
    apply Qfloor_Z.
  - rewrite pcm16_scaling.
    assert (E : clampUnit x == 0)
      by (destruct (clampUnit_cases x) as [[Hx Ex]|[[Hx Ex]|[Hx [Hx' Ex]]]]; rewrite Ex; lra).
    destruct (Qltb (clampUnit x) 0) eqn:Ex; [apply Qltb_lt in Ex; lra|].
    rewrite (Qfloor_comp _ (inject_Z 0)) by (rewrite E; reflexivity).
    apply Qfloor_Z.
  - assert (Hc : clampUnit x < 0)
      by (destruct (clampUnit_cases x) as [[Hx Ex]|[[Hx Ex]|[Hx [Hx' Ex]]]]; rewrite Ex; lra).
    pose proof (pcm16_negative x Hc). lia.
  - apply pcm16_nonnegative.
    destruct (clampUnit_cases x) as [[Hx Ex]|[[Hx Ex]|[Hx [Hx' Ex]]]]; rewrite Ex; lra.
Qed.

End QuantiserFacts.

(** ** The progress of a render *)
Module ProgressFacts.
Import JsMath JsMathFacts Graph AudioExport RenderProgress.

(** The percent reported after chunk [i] of [n]. *)
Lemma percent_monotone (n i j : nat) :
  (i <= j)%nat ->
  (round (((inject_Z (Z.of_nat i) + 1) / inject_Z (Z.of_nat n)) * 100)
   <= round (((inject_Z (Z.of_nat j) + 1) / inject_Z (Z.of_nat n)) * 100))%Z.
Proof.
  intro H. unfold round. apply Qfloor_resp_le.
  assert (Hn : 0 <= / inject_Z (Z.of_nat n)).
  { apply Qinv_le_0_compat. change 0 with (inject_Z 0). rewrite <- Zle_Qle. lia. }
  assert (Hij : inject_Z (Z.of_nat i) + 1 <= inject_Z (Z.of_nat j) + 1).
  { assert (inject_Z (Z.of_nat i) <= inject_Z (Z.of_nat j)) by (rewrite <- Zle_Qle; lia).
    lra. }
  unfold Qdiv.
  pose proof (Qmult_le_compat_r _ _ _ Hij Hn) as H1.
  lra.
Qed.

Lemma percent_range (n i : nat) :
  (i < n)%nat ->
  (0 <= round (((inject_Z (Z.of_nat i) + 1) / inject_Z (Z.of_nat n)) * 100) <= 100)%Z.
Proof.
  intro H. unfold round.
  assert (Hn : 0 < inject_Z (Z.of_nat n)).
  { change 0 with (inject_Z 0). rewrite <- Zlt_Qlt. lia. }
  assert (Hi : 0 <= inject_Z (Z.of_nat i)).
  { change 0 with (inject_Z 0). rewrite <- Zle_Qle. lia. }
  assert (Hin : inject_Z (Z.of_nat i) + 1 <= inject_Z (Z.of_nat n)).
  { change 1 with (inject_Z 1). rewrite <- inject_Z_plus, <- Zle_Qle. lia. }
  assert (H0 : 0 <= (inject_Z (Z.of_nat i) + 1) / inject_Z (Z.of_nat n)).
  { apply Qle_shift_div_l; [exact Hn | lra]. }
  assert (H1 : (inject_Z (Z.of_nat i) + 1) / inject_Z (Z.of_nat n) <= 1).
  { apply Qle_shift_div_r; [exact Hn | lra]. }
  split.
  - rewrite <- (Qfloor_Z 0). apply Qfloor_resp_le. change (inject_Z 0) with 0. lra.
  - transitivity (Qfloor (100 + (1 # 2))).
    + apply Qfloor_resp_le. lra.
    + apply Z.leb_le. reflexivity.
Qed.

Lemma percent_last (n : nat) :
  (1 <= n)%nat ->
  round (((inject_Z (Z.of_nat (n - 1)) + 1) / inject_Z (Z.of_nat n)) * 100) = 100%Z.
Proof.
  intro H. unfold round.
  assert (Hn : 0 < inject_Z (Z.of_nat n)).
  { change 0 with (inject_Z 0). rewrite <- Zlt_Qlt. lia. }
  assert (E : inject_Z (Z.of_nat (n - 1)) + 1 == inject_Z (Z.of_nat n)).
  { change 1 with (inject_Z 1). rewrite <- inject_Z_plus. apply inject_Z_injective. lia. }
  apply floor_unique.
  - rewrite E. change (inject_Z 100) with 100.
    assert (X : inject_Z (Z.of_nat n) / inject_Z (Z.of_nat n) == 1) by (field; lra).
    rewrite X. lra.
  - rewrite E. change (inject_Z (100 + 1)) with 101.
    assert (X : inject_Z (Z.of_nat n) / inject_Z (Z.of_nat n) == 1) by (field; lra).
    rewrite X. lra.
Qed.

Lemma percents_nondecreasing (n m : nat) :
  forall i,
    nondecreasing
      (map (fun i => round (((inject_Z (Z.of_nat i) + 1) / inject_Z (Z.of_nat n)) * 100))
           (seq i m)).
Proof.
  induction m as [|m IH]; intro i; [exact I|].
  cbn [seq map]. specialize (IH (S i)).
  destruct m as [|m]; [exact I|].
  cbn [seq map nondecreasing] in *. split; [|exact IH].
  apply percent_monotone. lia.
Qed.

Section ReportingFacts.

Variable Math_pow : Q -> Q -> Q.
Variable renderChunk :
  AudioBuffer -> EffectGraph -> nat -> Z -> Q -> Q -> Q -> completion AudioBuffer.

Lemma renderChunksReporting_spec (buffer : AudioBuffer) (st : AudioGraphState) (dur : Q)
      (n : nat) (starts : list Q) :
  forall i reported,
    let r := renderChunksReporting Math_pow renderChunk buffer st dur n i starts reported in
    fst r = renderChunks Math_pow renderChunk buffer st dur starts /\
    exists m,
      (m <= List.length starts)%nat /\
      snd r = reported
              ++ map (fun i => round (((inject_Z (Z.of_nat i) + 1)
                                       / inject_Z (Z.of_nat n)) * 100)) (seq i m) /\
      (forall chunks, fst r = Return chunks -> m = List.length starts).
Proof.
  induction starts as [|s starts IH]; intros i reported; cbv zeta.
  - cbn. split; [reflexivity|]. exists 0%nat. cbn. rewrite app_nil_r. auto.
  - cbn [renderChunksReporting renderChunks].
    destruct (renderChunk _ _ _ _ _ _ _) as [chunk|e]; cbn [bind fst snd].
    + destruct (IH (S i) (reported ++
                 [round (((inject_Z (Z.of_nat i) + 1) / inject_Z (Z.of_nat n)) * 100)]))
        as [Hf [m [Hm [Hs Hall]]]].
      cbv zeta in Hf, Hs, Hall. rewrite Hf. split; [reflexivity|].
      exists (S m). split; [simpl; lia|]. split.
      * rewrite Hs, <- app_assoc. reflexivity.
      * intros chunks Hc. simpl. f_equal.
        rewrite <- Hf in Hc.
        destruct (fst (renderChunksReporting Math_pow renderChunk buffer st dur n (S i)
                         starts _)) as [more|e]; [|discriminate].
        now apply (Hall more).
    + split; [reflexivity|]. exists 0%nat. cbn. rewrite app_nil_r.
      repeat split; [lia | discriminate].
Qed.

(** X15: the progress of a render.  Reporting changes nothing of the
    result; the percents reported never go down and stay within 0..100;
    there is at most one per chunk; and when every chunk has rendered there
    is exactly one per chunk and the last is 100. *)
Theorem render_progress_reports (buffer : AudioBuffer) (st : AudioGraphState) :
  let r := renderOfflineReporting Math_pow renderChunk buffer st in
  let dur := outputDuration Math_pow buffer st in
  fst r = renderOffline Math_pow renderChunk buffer st /\
  nondecreasing (snd r) /\
  Forall (fun p => (0 <= p <= 100)%Z) (snd r) /\
  (List.length (snd r) <= List.length (chunkStarts dur))%nat /\
  (forall chunks,
      renderChunks Math_pow renderChunk buffer st dur (chunkStarts dur) = Return chunks ->
      List.length (snd r) = List.length (chunkStarts dur) /\ last (snd r) 0%Z = 100%Z).
Proof.
  cbv zeta. unfold renderOfflineReporting. cbn [fst snd].
  set (dur := outputDuration Math_pow buffer st).
  set (n := List.length (chunkStarts dur)).
  destruct (renderChunksReporting_spec buffer st dur n (chunkStarts dur) 0 [])
    as [Hf [m [Hm [Hs Hall]]]].
  cbv zeta in Hf, Hs, Hall. cbn [app] in Hs. fold n in Hm.
  rewrite Hs, Hf. split; [reflexivity|]. split; [apply percents_nondecreasing|].
  split; [|split].
  - apply Forall_forall. intros p Hp. apply in_map_iff in Hp.
    destruct Hp as [i [Ep Hi]]. apply in_seq in Hi. subst p. apply percent_range. lia.
  - rewrite length_map, length_seq. exact Hm.
  - intros chunks Hc. rewrite <- Hf in Hc. specialize (Hall chunks Hc). fold n in Hall.
    subst m. rewrite length_map, length_seq. split; [reflexivity|].
    assert (Hn : (1 <= n)%nat).
    { unfold n. pose proof (RendererFacts.chunkStarts_nonempty dur).
      destruct (chunkStarts dur); [congruence | simpl; lia]. }
    replace n with (S (n - 1)) at 1 by lia.
    rewrite seq_S, map_app. cbn [map Nat.add]. rewrite last_last.
    now apply percent_last.
Qed.

End ReportingFacts.

End ProgressFacts.

(** ** The chunks of a render *)
Module ChunkFacts.
Import JsMath JsMathFacts Graph AudioExport RendererFacts RenderProgress.

Lemma chunkStarts_loop_nonneg (dur : Q) (fuel : nat) :
  forall t, 0 <= t -> Forall (fun s => 0 <= s) (chunkStarts_loop fuel t dur).
Proof.
  induction fuel as [|fuel IH]; intros t Ht; simpl; [constructor|].
  destruct (Qltb t dur); [|constructor].
  constructor; [exact Ht|]. apply IH. unfold RENDER_CHUNK_SECONDS. lra.
Qed.

Lemma chunkStarts_inside (dur : Q) :
  0 < dur -> Forall (fun s => 0 <= s /\ s < dur) (chunkStarts dur).
Proof.
  intro Hd. rewrite (chunkStarts_is_loop dur Hd).
  pose proof (chunkStarts_loop_nonneg dur (chunkStarts_fuel dur) 0 (Qle_refl 0)) as H1.
  pose proof (chunkStarts_loop_before_end dur (chunkStarts_fuel dur) 0) as H2.
  rewrite Forall_forall in *. intros s Hs. split; [now apply H1 | now apply H2].
Qed.

Lemma chunkDuration_bounds (dur s : Q) :
  s < dur -> 0 < chunkDuration dur s /\ chunkDuration dur s <= 60 /\
             s + chunkDuration dur s <= dur.
Proof.
  intro H. unfold chunkDuration, RENDER_CHUNK_SECONDS.
  destruct (min_spec (s + 60) dur) as [[H1 E]|[H1 E]]; rewrite E; repeat split; lra.
Qed.

(** The loop from [t]: one start every 60 seconds until [dur]. *)
Lemma chunkStarts_loop_closed_form (dur : Q) (fuel : nat) :
  forall t,
    dur <= t + 60 * inject_Z (Z.of_nat fuel) ->
    List.length (chunkStarts_loop fuel t dur) = Z.to_nat (Qceiling ((dur - t) / 60)) /\
    forall k, (k < List.length (chunkStarts_loop fuel t dur))%nat ->
              nth k (chunkStarts_loop fuel t dur) 0 == t + 60 * inject_Z (Z.of_nat k).
Proof.
  induction fuel as [|fuel IH]; intros t Hfuel.
  - rewrite inject_nat_0 in Hfuel. cbn [chunkStarts_loop List.length].
    split; [|intros k Hk; lia].
    assert (H : (Qceiling ((dur - t) / 60) <= 0)%Z).
    { rewrite <- (Qceiling_Z 0). apply Qceiling_resp_le.
      change (inject_Z 0) with 0. apply Qle_shift_div_r; lra. }
    lia.
  - cbn [chunkStarts_loop]. destruct (Qltb t dur) eqn:E.
    + apply Qltb_lt in E.
      destruct (IH (t + RENDER_CHUNK_SECONDS)) as [Hl Hn].
      { unfold RENDER_CHUNK_SECONDS. rewrite inject_nat_S in Hfuel. lra. }
      cbn [List.length]. split.
      * rewrite Hl. unfold RENDER_CHUNK_SECONDS.
        assert (X : (dur - (t + 60)) / 60 == (dur - t) / 60 - inject_Z 1)
          by (change (inject_Z 1) with 1; field).
        rewrite (Qceiling_comp _ _ X), ceil_shift.
        assert (P : (1 <= Qceiling ((dur - t) / 60))%Z).
        { apply ceil_pos. apply Qlt_shift_div_l; lra. }
        lia.
      * intros [|k] Hk; cbn [nth].
        -- rewrite inject_nat_0. lra.
        -- rewrite Hn by lia. unfold RENDER_CHUNK_SECONDS. rewrite inject_nat_S. lra.
    + apply Qltb_ge in E. cbn [List.length]. split; [|intros k Hk; lia].
      assert (H : (Qceiling ((dur - t) / 60) <= 0)%Z).
      { rewrite <- (Qceiling_Z 0). apply Qceiling_resp_le.
        change (inject_Z 0) with 0. apply Qle_shift_div_r; lra. }
      lia.
Qed.

(** X14: the chunks [renderOffline] splits an output of [duration] seconds
    into: ceil(duration / 60) of them, chunk [k] starting at 60 k seconds;
    every chunk but the last lasts 60 seconds and the last what is left,
    more than 0 and at most 60 seconds.  An output of no duration gets the
    single start 0. *)
Theorem chunks_every_60_seconds (dur : Q) :
  (0 < dur ->
     List.length (chunkStarts dur) = Z.to_nat (Qceiling (dur / 60)) /\
     forall k, (k < List.length (chunkStarts dur))%nat ->
       let start := nth k (chunkStarts dur) 0 in
       start == 60 * inject_Z (Z.of_nat k) /\
       0 < chunkDuration dur start /\ chunkDuration dur start <= 60 /\
       ((S k < List.length (chunkStarts dur))%nat -> chunkDuration dur start == 60) /\
       ((S k = List.length (chunkStarts dur))%nat ->
          chunkDuration dur start == dur - 60 * inject_Z (Z.of_nat k))) /\
  (dur <= 0 -> chunkStarts dur = [0]).
Proof.
  split.
  - intro Hd. rewrite (chunkStarts_is_loop dur Hd).
    destruct (chunkStarts_loop_closed_form dur (chunkStarts_fuel dur) 0
                (chunkStarts_fuel_enough dur)) as [Hl Hn].
    assert (X : (dur - 0) / 60 == dur / 60) by (field).
    rewrite (Qceiling_comp _ _ X) in Hl.
    split; [exact Hl|].
    intros k Hk. cbv zeta.
    pose proof (Hn k Hk) as Ek.
    set (start := nth k (chunkStarts_loop (chunkStarts_fuel dur) 0 dur) 0) in *.
    assert (Hin : start < dur).
    { pose proof (chunkStarts_loop_before_end dur (chunkStarts_fuel dur) 0) as Hb.
      rewrite Forall_forall in Hb. apply Hb. apply nth_In. exact Hk. }
    destruct (chunkDuration_bounds dur start Hin) as [B1 [B2 B3]].
    split; [rewrite Ek; lra|]. split; [exact B1|]. split; [exact B2|].
    split.
    + intro Hnext. pose proof (Hn (S k) Hnext) as En.
      assert (Hin' : nth (S k) (chunkStarts_loop (chunkStarts_fuel dur) 0 dur) 0 < dur).
      { pose proof (chunkStarts_loop_before_end dur (chunkStarts_fuel dur) 0) as Hb.
        rewrite Forall_forall in Hb. apply Hb. apply nth_In. exact Hnext. }
      rewrite En, inject_nat_S in Hin'.
      unfold chunkDuration, RENDER_CHUNK_SECONDS.
      destruct (min_spec (start + 60) dur) as [[H1 E]|[H1 E]]; rewrite E; lra.
    + intro Hlast. rewrite Hl in Hlast.
      assert (Hc : inject_Z (Z.of_nat (S k)) == inject_Z (Qceiling (dur / 60))).
      { rewrite Hlast, Z2Nat.id; [reflexivity|].
        pose proof (ceil_pos (dur / 60)) as P.
        assert (0 < dur / 60) by (apply Qlt_shift_div_l; lra). specialize (P H). lia. }
      pose proof (Qle_ceiling (dur / 60)) as Hce.
      assert (Hd60 : dur == dur / 60 * 60) by field.
      rewrite inject_nat_S in Hc.
      unfold chunkDuration, RENDER_CHUNK_SECONDS.
      destruct (min_spec (start + 60) dur) as [[H1 E]|[H1 E]]; rewrite E; lra.
  - intro Hd. unfold chunkStarts, chunkStarts_fuel. cbn [chunkStarts_loop].
    destruct (Qltb 0 dur) eqn:E; [apply Qltb_lt in E; lra | reflexivity].
Qed.

Section WindowFacts.

Variable Math_pow : Q -> Q -> Q.

Lemma renderChunks_agree
      (e1 e2 : AudioBuffer -> EffectGraph -> nat -> Z -> Q -> Q -> Q -> completion AudioBuffer)
      (buffer : AudioBuffer) (st : AudioGraphState) (dur : Q) (starts : list Q) :
  Forall (fun s =>
            e1 buffer (buildEffectGraph Math_pow st) (numberOfChannels buffer)
               (chunkFrames dur (sampleRate buffer) s) (sampleRate buffer)
               (s * effectiveRate Math_pow st)
               (chunkDuration dur s * effectiveRate Math_pow st)
            = e2 buffer (buildEffectGraph Math_pow st) (numberOfChannels buffer)
                 (chunkFrames dur (sampleRate buffer) s) (sampleRate buffer)
                 (s * effectiveRate Math_pow st)
                 (chunkDuration dur s * effectiveRate Math_pow st)) starts ->
  renderChunks Math_pow e1 buffer st dur starts
  = renderChunks Math_pow e2 buffer st dur starts.
Proof.
  induction 1 as [|s starts Hs _ IH]; [reflexivity|].
  cbn [renderChunks]. now rewrite Hs, IH.
Qed.

(** X13: [renderOffline] asks the audio engine only for windows inside the
    source.  Every chunk is requested with the buffer's channel count and
    sample rate and the graph of [buildEffectGraph], at least one frame and
    no more than 60 seconds' worth, and a source window that starts at or
    after 0, has a positive duration and ends at or before the end of the
    buffer: two engines that agree on all such requests give the same
    render. *)
Theorem render_requests_stay_inside_the_source
    (e1 e2 : AudioBuffer -> EffectGraph -> nat -> Z -> Q -> Q -> Q -> completion AudioBuffer)
    (buffer : AudioBuffer) (st : AudioGraphState) :
  wf_buffer buffer ->
  0 < effectiveRate Math_pow st ->
  (forall frames off dur,
      (1 <= frames)%Z -> inject_Z frames < 60 * sampleRate buffer + 1 ->
      0 <= off -> 0 < dur -> off + dur <= duration buffer ->
      e1 buffer (buildEffectGraph Math_pow st) (numberOfChannels buffer) frames
         (sampleRate buffer) off dur
      = e2 buffer (buildEffectGraph Math_pow st) (numberOfChannels buffer) frames
           (sampleRate buffer) off dur) ->
  renderOffline Math_pow e1 buffer st = renderOffline Math_pow e2 buffer st.
Proof.
  intros Hwf Hrate Hagree.
  pose proof (outputDuration_pos Math_pow buffer st Hwf) as Hdur.
  destruct Hwf as [Hsr _].
  unfold renderOffline.
  set (dur := outputDuration Math_pow buffer st) in *.
  assert (Edur : dur * effectiveRate Math_pow st == duration buffer).
  { unfold dur, outputDuration.
    rewrite (proj2 (Qltb_lt 0 (effectiveRate Math_pow st)) Hrate). field. lra. }
  rewrite (renderChunks_agree e1 e2 buffer st dur (chunkStarts dur)); [reflexivity|].
  eapply Forall_impl; [|apply (chunkStarts_inside dur Hdur)].
  intros s [Hs0 Hs]. cbv beta.
  destruct (chunkDuration_bounds dur s Hs) as [B1 [B2 B3]].
  set (r := effectiveRate Math_pow st) in *.
  set (cd := chunkDuration dur s) in *.
  apply Hagree.
  - unfold chunkFrames, ceil. fold cd. apply ceil_pos. apply Qmult_lt_0_compat; assumption.
  - unfold chunkFrames, ceil. fold cd.
    pose proof (Qceiling_lt (cd * sampleRate buffer)) as Hc.
    unfold Z.sub in Hc. rewrite inject_Z_plus, inject_Z_opp in Hc.
    change (inject_Z 1) with 1 in Hc.
    assert (cd * sampleRate buffer <= 60 * sampleRate buffer)
      by (apply Qmult_le_compat_r; lra).
    lra.
  - apply Qmult_le_0_compat; lra.
  - apply Qmult_lt_0_compat; assumption.
  - rewrite <- Edur, <- Qmult_plus_distr_l. apply Qmult_le_compat_r; lra.
Qed.

End WindowFacts.

Lemma boundedEngine_inside (src : AudioBuffer) (g : EffectGraph) (channels : nat)
      (frames : Z) (rate off dur : Q) :
  0 <= off -> 0 < dur -> off + dur <= duration src ->
  boundedEngine src g channels frames rate off dur
  = silentEngine src g channels frames rate off dur.
Proof.
  intros H0 H1 H2. unfold boundedEngine.
  rewrite (proj2 (Qle_bool_iff 0 off) H0), (proj2 (Qltb_lt 0 dur) H1),
          (proj2 (Qle_bool_iff (off + dur) (duration src)) H2).
  reflexivity.
Qed.

(** The ten-second source at speed 1.25: an engine that refuses windows
    outside the source renders what the silent engine renders. *)
Lemma bounded_engine_renders_ten_seconds :
  renderOffline pow_int silentEngine tenSecondSource speed125State
  = renderOffline pow_int boundedEngine tenSecondSource speed125State.
Proof.
  apply (render_requests_stay_inside_the_source pow_int silentEngine boundedEngine
           tenSecondSource speed125State).
  - apply wf_two_channels; [reflexivity | lia].
  - reflexivity.
  - intros frames off dur _ _ H0 H1 H2. symmetry. now apply boundedEngine_inside.
Defined.

End ChunkFacts.

(** ** More on the tempo estimator *)
Module TempoFacts.
Import JsMath JsMathFacts Bpm BpmFacts.

Lemma fold_left_sum {A : Type} (f : A -> Q) (l : list A) :
  forall a, fold_left (fun sum c => sum + f c) l a
            == a + fold_right (fun c acc => f c + acc) 0 l.
Proof.
  induction l as [|c l IH]; intro a; cbn [fold_left fold_right].
  - lra.
  - rewrite IH. lra.
Qed.

Lemma nth_firstn_inside {A : Type} (i k : nat) (l : list A) (d : A) :
  (i < k)%nat -> nth i (firstn k l) d = nth i l d.
Proof.
  revert k l. induction i as [|i IH]; intros k l H; destruct k as [|k]; try lia;
    destruct l as [|x l]; cbn [firstn nth]; try reflexivity.
  apply IH. lia.
Qed.

Section MonoFacts.

Variable alloc_ok : Z -> bool.

(** X21: the mono window [getMonoSamples] hands to the estimator.  For a
    well-formed buffer and a positive cap it has min(buffer.length,
    maxSamples) samples, never more than the cap, and sample [i] is the
    mean over the channels of their samples [i]; it is had whenever an
    array of that length can be allocated. *)
Theorem mono_window_is_the_capped_mean (buffer : AudioBuffer) (maxSamples : Z) :
  wf_buffer buffer ->
  (0 < maxSamples)%Z ->
  (forall mono,
     getMonoSamples alloc_ok buffer maxSamples = Return mono ->
     Z.of_nat (List.length mono) = Z.min (Z.of_nat (bufferLength buffer)) maxSamples /\
     forall i, (i < List.length mono)%nat ->
       nth i mono 0
       == fold_right (fun c acc => nth i c 0 + acc) 0 (channelData buffer)
          / inject_Z (Z.of_nat (numberOfChannels buffer))) /\
  (alloc_ok (Z.min (Z.of_nat (bufferLength buffer)) maxSamples) = true ->
   exists mono, getMonoSamples alloc_ok buffer maxSamples = Return mono).
Proof.
  intros [Hrate [Hlen [Hch Hall]]] Hmax.
  unfold getMonoSamples, numberOfChannels, getChannelData, newFloat32Array in *.
  set (length := Z.min (Z.of_nat (bufferLength buffer)) maxSamples).
  assert (Hpos : (0 < length)%Z) by (unfold length; lia).
  destruct (Z.leb_spec length 0) as [H|_]; [lia|].
  destruct (channelData buffer) as [|ch0 rest] eqn:Ecd; [simpl in Hch; lia|].
  inversion Hall as [|? ? H0 Hrest]; subst.
  cbn [nth_error bind tl].
  destruct (List.length (ch0 :: rest) =? 1)%nat eqn:Eone.
  - (* one channel *)
    assert (rest = []) by (destruct rest as [|c [|c' r]]; [reflexivity | discriminate Eone..]).
    subst rest.
    assert (Hmean : forall i, nth i ch0 0
              == fold_right (fun c acc => nth i c 0 + acc) 0 [ch0] / inject_Z (Z.of_nat 1)).
    { intro i. cbn [fold_right]. change (inject_Z (Z.of_nat 1)) with 1. field. }
    destruct (Z.leb_spec (Z.of_nat (List.length ch0)) length) as [Hfit|Hcut].
    + split.
      * intros mono E. injection E as <-. split; [unfold length in *; lia|].
        intros i _. apply Hmean.
      * intros _. eexists. reflexivity.
    + split.
      * destruct (alloc_ok length); cbn [bind]; [|discriminate].
        intros mono E. injection E as <-.
        rewrite length_firstn. split; [lia|].
        intros i Hi. rewrite nth_firstn_inside by lia. apply Hmean.
      * intro Ha. rewrite Ha. cbn [bind]. eexists. reflexivity.
  - (* several channels *)
    split.
    + destruct (alloc_ok length); cbn [bind]; [|discriminate].
      intros mono E. injection E as <-.
      rewrite length_map, length_seq. split; [lia|].
      intros i Hi.
      set (f := fun i0 : nat => _).
      rewrite (nth_indep _ 0 (f 0%nat)) by (rewrite length_map, length_seq; exact Hi).
      rewrite map_nth, seq_nth by exact Hi. unfold f. cbn [Nat.add].
      rewrite (fold_left_sum (fun c => nth i c 0)). cbn [fold_right].
      reflexivity.
    + intro Ha. rewrite Ha. cbn [bind]. eexists. reflexivity.
Qed.

End MonoFacts.

(** The click track: one channel, shorter than the cap. *)
Lemma click_track_mono_window :
  (forall mono,
     getMonoSamples always_alloc fastClicks MAX_SAMPLES = Return mono ->
     Z.of_nat (List.length mono)
     = Z.min (Z.of_nat (bufferLength fastClicks)) MAX_SAMPLES /\
     forall i, (i < List.length mono)%nat ->
       nth i mono 0
       == fold_right (fun c acc => nth i c 0 + acc) 0 (channelData fastClicks)
          / inject_Z (Z.of_nat (numberOfChannels fastClicks))) /\
  (always_alloc (Z.min (Z.of_nat (bufferLength fastClicks)) MAX_SAMPLES) = true ->
   exists mono, getMonoSamples always_alloc fastClicks MAX_SAMPLES = Return mono).
Proof.
  apply (mono_window_is_the_capped_mean always_alloc fastClicks MAX_SAMPLES).
  - exact fastClicks_wf.
  - rewrite MAX_SAMPLES_value. lia.
Defined.

Lemma onset_from_length (energy : list Q) :
  forall previous, List.length (onset_from previous energy) = List.length energy.
Proof.
  induction energy as [|e rest IH]; intro previous; [reflexivity|].
  cbn [onset_from List.length]. now rewrite IH.
Qed.

Lemma onsetStrength_length (energy : list Q) :
  List.length (onsetStrength energy) = List.length energy.
Proof.
  destruct energy as [|e rest]; [reflexivity|].
  cbn [onsetStrength List.length]. now rewrite onset_from_length.
Qed.

Lemma peaks_at_most (Math_sqrt : Q -> Q) (mono : list Q) :
  (List.length (peaksOfMono Math_sqrt mono) <= numFramesOf (List.length mono) - 4)%nat.
Proof.
  unfold peaksOfMono, peakFramesOf, pickPeaks.
  rewrite onsetStrength_length. unfold frameEnergies, frameMeanSquares.
  rewrite !length_map, length_seq.
  etransitivity; [apply filter_length_le|]. now rewrite length_seq.
Qed.

(** Every bin gives a tempo between 80 and 194: the rounded tempo of its
    centre, doubled when below 80. *)
Lemma bpmOfBin_values (b : nat) :
  (b < 35)%nat ->
  let r := round (60000 / binCenterMs b) in
  (61 <= r <= 194)%Z /\
  bpmOfBin b = (if (r <? 80)%Z then (2 * r)%Z else r) /\
  (80 <= bpmOfBin b <= 194)%Z.
Proof.
  intro Hb.
  assert (Hall : forallb (fun b =>
                    let r := round (60000 / binCenterMs b) in
                    ((61 <=? r) && (r <=? 194)
                     && (bpmOfBin b =? (if r <? 80 then 2 * r else r))
                     && (80 <=? bpmOfBin b) && (bpmOfBin b <=? 194))%Z)
                  (seq 0 35) = true) by (vm_compute; reflexivity).
  rewrite forallb_forall in Hall.
  specialize (Hall b ltac:(apply in_seq; lia)). cbv zeta in *.
  rewrite !andb_true_iff in Hall.
  destruct Hall as [[[[H1 H2] H3] H4] H5].
  rewrite Z.leb_le in *. rewrite Z.eqb_eq in H3. repeat split; assumption.
Qed.

Lemma getMonoSamples_length (alloc_ok : Z -> bool) (buffer : AudioBuffer) (mono : list Q) :
  wf_buffer buffer ->
  getMonoSamples alloc_ok buffer MAX_SAMPLES = Return mono ->
  (List.length mono <= bufferLength buffer)%nat.
Proof.
  intros [Hrate [Hlen [Hch Hall]]].
  unfold getMonoSamples, numberOfChannels, getChannelData, newFloat32Array in *.
  rewrite MAX_SAMPLES_value.
  set (length := Z.min (Z.of_nat (bufferLength buffer)) 2646000).
  destruct (Z.leb_spec length 0) as [H|_]; [unfold length in H; lia|].
  destruct (channelData buffer) as [|ch0 rest] eqn:Ecd; [simpl in Hch; lia|].
  inversion Hall as [|? ? H0 Hrest]; subst.
  cbn [nth_error bind].
  destruct (List.length (ch0 :: rest) =? 1)%nat.
  - destruct (Z.leb_spec (Z.of_nat (List.length ch0)) length).
    + intro E. injection E as <-. lia.
    + destruct (alloc_ok length); cbn [bind]; [|discriminate].
      intro E. injection E as <-. rewrite length_firstn. lia.
  - destruct (alloc_ok length); cbn [bind]; [|discriminate].
    intro E. injection E as <-. rewrite length_map, length_seq. unfold length. lia.
Qed.

Section RangeFacts.

Variable Math_sqrt : Q -> Q.
Variable alloc_ok : Z -> bool.

(** X16: a tempo [detectBPM] returns lies between 80 and 194.  It is the
    rounded tempo r of the centre of one of the 35 histogram bins, which is
    between 61 and 194, doubled when r is below 80 and r itself otherwise:
    the halving of tempos above 200 and the clamp to [[60, 200]] never
    change a result. *)
Theorem detected_tempo_between_80_and_194 (buffer : AudioBuffer) (n : Z) :
  detectBPM Math_sqrt alloc_ok buffer = Return (Some n) ->
  (80 <= n <= 194)%Z /\
  exists b,
    (b < 35)%nat /\
    let r := round (60000 / binCenterMs b) in
    (61 <= r <= 194)%Z /\ n = (if (r <? 80)%Z then (2 * r)%Z else r).
Proof.
  intro H. destruct (detectBPM_some Math_sqrt alloc_ok buffer n H) as [mono [_ [_ Han]]].
  unfold analysePeaks in Han.
  destruct (List.length (peaksOfMono Math_sqrt mono) <? 4)%nat; [discriminate|].
  destruct (List.length _ <? 2)%nat; [discriminate|].
  injection Han as Han.
  set (hist := histogramOf _) in Han.
  destruct (bestBinOf_modal hist) as [Hb _]. rewrite numBins_value in Hb.
  change (Z.to_nat 35) with 35%nat in Hb.
  destruct (bpmOfBin_values (bestBinOf hist) Hb) as [Hr [Hv Hn]]. cbv zeta in *.
  subst n. split; [exact Hn|].
  exists (bestBinOf hist). repeat split; try assumption; apply Hr.
Qed.

(** X17: a buffer of fewer than 9216 frames is reported as unknown.  The
    estimator's own test lets windows of 4096 samples and more through, but
    peaks are looked for in frames 2 to numFrames - 3 only, and four of
    them need eight frames: 2048 + 7 * 1024 samples. *)
Theorem fewer_than_9216_frames_is_unknown (buffer : AudioBuffer) :
  wf_buffer buffer ->
  (Z.of_nat (bufferLength buffer) < 9216)%Z ->
  detectBPM Math_sqrt alloc_ok buffer = Return None.
Proof.
  intros Hwf Hshort. unfold detectBPM. rewrite detectBPMInner_stages.
  destruct (getMonoSamples alloc_ok buffer MAX_SAMPLES) as [mono|e] eqn:Emono;
    [|reflexivity].
  destruct (List.length mono <? FRAME_LEN * 2)%nat; [reflexivity|].
  destruct (alloc_ok _); [|reflexivity].
  cbn [try_catch]. f_equal. unfold analysePeaks.
  assert (Hlen : (Z.of_nat (List.length mono) < 9216)%Z).
  { pose proof (getMonoSamples_length alloc_ok buffer mono Hwf Emono). lia. }
  assert (Hfew : (List.length (peaksOfMono Math_sqrt mono) < 4)%nat).
  { pose proof (peaks_at_most Math_sqrt mono) as Hp.
    assert (Hn : (numFramesOf (List.length mono) <= 7)%nat).
    { unfold numFramesOf, FRAME_LEN, HOP_LEN.
      assert (((List.length mono - 2048) / 1024 < 7)%nat)
        by (apply Nat.Div0.div_lt_upper_bound; lia).
      lia. }
    lia. }
  apply Nat.ltb_lt in Hfew. now rewrite Hfew.
Qed.

End RangeFacts.

(** The click track has the tempo 194. *)
Lemma click_track_tempo_in_range :
  (80 <= 194 <= 194)%Z /\
  exists b,
    (b < 35)%nat /\
    let r := round (60000 / binCenterMs b) in
    (61 <= r <= 194)%Z /\ 194%Z = (if (r <? 80)%Z then (2 * r)%Z else r).
Proof.
  apply (detected_tempo_between_80_and_194 exact_sqrt always_alloc fastClicks 194).
  vm_compute. reflexivity.
Defined.

(** Two thousand frames more than the estimator's own minimum. *)
Lemma six_thousand_frames_are_unknown :
  detectBPM exact_sqrt always_alloc
            (mkBuffer 44100 (Z.to_nat 6000) [repeat (1 # 2) (Z.to_nat 6000)])
  = Return None.
Proof.
  apply (fewer_than_9216_frames_is_unknown exact_sqrt always_alloc).
  - unfold wf_buffer, numberOfChannels.
    cbn [sampleRate bufferLength channelData List.length].
    repeat split; try lia; try reflexivity.
    repeat constructor; apply repeat_length.
  - cbn [bufferLength]. rewrite Z2Nat.id; lia.
Defined.

Lemma increment_nth (hist : list nat) :
  forall k b, (k < List.length hist)%nat ->
    nth b (increment k hist) 0%nat
    = (nth b hist 0 + if (b =? k)%nat then 1 else 0)%nat /\
    List.length (increment k hist) = List.length hist.
Proof.
  induction hist as [|h hist IH]; intros k b Hk; [simpl in Hk; lia|].
  destruct k as [|k]; cbn [increment].
  - destruct b as [|b]; cbn [nth List.length Nat.eqb]; split; lia.
  - destruct (IH k (pred b) ltac:(simpl in Hk; lia)) as [Hn Hl].
    destruct b as [|b]; cbn [nth List.length Nat.eqb pred] in *; split; lia.
Qed.

Lemma maxPeriodMs_value : maxPeriodMs == 1000.
Proof. vm_compute. reflexivity. Qed.

(** One interval goes to the bin of 20 ms its period falls in, if any. *)
Lemma addInterval_nth (hist : list nat) (dt : Q) (b : nat) :
  List.length hist = 35%nat -> (b < 35)%nat ->
  nth b (addInterval hist dt) 0%nat
  = (nth b hist 0
     + if Qle_bool (300 + 20 * inject_Z (Z.of_nat b)) (dt * 1000)
          && Qltb (dt * 1000) (320 + 20 * inject_Z (Z.of_nat b))
       then 1 else 0)%nat /\
  List.length (addInterval hist dt) = 35%nat.
Proof.
  intros Hlen Hb. unfold addInterval.
  set (ms := dt * 1000).
  assert (Hb0 : 0 <= inject_Z (Z.of_nat b))
    by (change 0 with (inject_Z 0); rewrite <- Zle_Qle; lia).
  assert (Hb34 : inject_Z (Z.of_nat b) <= 34)
    by (change 34 with (inject_Z 34); rewrite <- Zle_Qle; lia).
  assert (Hout : ms < 300 \/ 1000 <= ms ->
            (if Qle_bool (300 + 20 * inject_Z (Z.of_nat b)) ms
                && Qltb ms (320 + 20 * inject_Z (Z.of_nat b))
             then 1 else 0)%nat = 0%nat).
  { intro H.
    destruct (Qle_bool (300 + 20 * inject_Z (Z.of_nat b)) ms) eqn:E1; [|reflexivity].
    destruct (Qltb ms (320 + 20 * inject_Z (Z.of_nat b))) eqn:E2; [|reflexivity].
    apply Qle_bool_iff in E1. apply Qltb_lt in E2. exfalso. lra. }
  destruct (Qltb ms minPeriodMs) eqn:Elo.
  { apply Qltb_lt in Elo. rewrite minPeriodMs_value in Elo.
    cbn [orb]. rewrite Hout by (left; exact Elo). split; [lia | exact Hlen]. }
  destruct (Qltb maxPeriodMs ms) eqn:Ehi.
  { apply Qltb_lt in Ehi. rewrite maxPeriodMs_value in Ehi.
    cbn [orb]. rewrite Hout by (right; lra). split; [lia | exact Hlen]. }
  apply Qltb_ge in Elo. apply Qltb_ge in Ehi.
  rewrite minPeriodMs_value in Elo. rewrite maxPeriodMs_value in Ehi.
  cbn [orb]. rewrite numBins_value. unfold floor, binMs.
  assert (Ebin : (ms - minPeriodMs) / 20 == (ms - 300) / 20)
    by (rewrite minPeriodMs_value; reflexivity).
  rewrite (Qfloor_comp _ _ Ebin).
  set (bin := Qfloor ((ms - 300) / 20)).
  pose proof (Qfloor_le ((ms - 300) / 20)) as Hfl.
  pose proof (Qlt_floor ((ms - 300) / 20)) as Hfu.
  fold bin in Hfl, Hfu. rewrite inject_Z_plus in Hfu. change (inject_Z 1) with 1 in Hfu.
  assert (Hx : (ms - 300) / 20 * 20 == ms - 300) by field.
  assert (Hbin0 : (0 <= bin)%Z).
  { unfold bin. rewrite <- (Qfloor_Z 0). apply Qfloor_resp_le.
    change (inject_Z 0) with 0. apply Qle_shift_div_l; lra. }
  destruct (Z.leb_spec 0 bin) as [_|]; [|lia].
  destruct (Z.ltb_spec bin 35) as [Hin|Hover]; cbn [andb].
  - destruct (increment_nth hist (Z.to_nat bin) b ltac:(lia)) as [Hn Hl].
    rewrite Hn, Hl. split; [|exact Hlen]. f_equal.
    destruct (Nat.eqb_spec b (Z.to_nat bin)) as [E|E].
    + assert (Eb : inject_Z (Z.of_nat b) == inject_Z bin)
        by (rewrite E, Z2Nat.id by lia; reflexivity).
      rewrite (proj2 (Qle_bool_iff _ _)) by lra.
      rewrite (proj2 (Qltb_lt _ _)) by lra. reflexivity.
    + destruct (Qle_bool (300 + 20 * inject_Z (Z.of_nat b)) ms) eqn:E1; [|reflexivity].
      destruct (Qltb ms (320 + 20 * inject_Z (Z.of_nat b))) eqn:E2; [|reflexivity].
      apply Qle_bool_iff in E1. apply Qltb_lt in E2. exfalso. apply E.
      assert (A : inject_Z (Z.of_nat b) < inject_Z (bin + 1))
        by (rewrite inject_Z_plus; change (inject_Z 1) with 1; lra).
      assert (B : inject_Z bin < inject_Z (Z.of_nat b + 1))
        by (rewrite inject_Z_plus; change (inject_Z 1) with 1; lra).
      rewrite <- Zlt_Qlt in A, B. lia.
  - assert (H35 : 35 <= inject_Z bin)
      by (change 35 with (inject_Z 35); rewrite <- Zle_Qle; lia).
    rewrite Hout by (right; lra). split; [lia | exact Hlen].
Qed.

(** X20: what the histogram counts.  It has 35 bins, and bin [b] holds the
    number of intervals whose period in milliseconds is at least
    300 + 20 b and less than 320 + 20 b; an interval shorter than 300 ms, or
    of 1000 ms or more, is in no bin: a period of exactly 1000 ms, 60 BPM,
    passes the range test of the loop and is then dropped by the bin
    test. *)
Theorem histogram_counts_periods_by_20_ms (intervals : list Q) :
  List.length (histogramOf intervals) = 35%nat /\
  (forall b, (b < 35)%nat ->
     nth b (histogramOf intervals) 0%nat
     = List.length
         (filter (fun dt => Qle_bool (300 + 20 * inject_Z (Z.of_nat b)) (dt * 1000)
                            && Qltb (dt * 1000) (320 + 20 * inject_Z (Z.of_nat b)))
                 intervals)) /\
  (forall dt, dt * 1000 < 300 \/ 1000 <= dt * 1000 ->
     histogramOf (intervals ++ [dt]) = histogramOf intervals).
Proof.
  unfold histogramOf. rewrite numBins_value. change (Z.to_nat 35) with 35%nat.
  assert (Hfold : forall l hist, List.length hist = 35%nat ->
            List.length (fold_left addInterval l hist) = 35%nat /\
            forall b, (b < 35)%nat ->
              nth b (fold_left addInterval l hist) 0%nat
              = (nth b hist 0
                 + List.length
                     (filter (fun dt =>
                                Qle_bool (300 + 20 * inject_Z (Z.of_nat b)) (dt * 1000)
                                && Qltb (dt * 1000) (320 + 20 * inject_Z (Z.of_nat b)))
                             l))%nat).
  { induction l as [|dt l IH]; intros hist Hlen; cbn [fold_left filter List.length].
    - split; [exact Hlen | intros; lia].
    - destruct (IH (addInterval hist dt)) as [Hl Hn].
      { now destruct (addInterval_nth hist dt 0 Hlen ltac:(lia)). }
      split; [exact Hl|]. intros b Hb. rewrite (Hn b Hb).
      destruct (addInterval_nth hist dt b Hlen Hb) as [Hone _]. rewrite Hone.
      destruct (Qle_bool _ _ && Qltb _ _); cbn [List.length]; lia. }
  destruct (Hfold intervals (repeat 0%nat 35) (repeat_length _ _)) as [Hl Hn].
  split; [exact Hl|]. split.
  - intros b Hb. rewrite (Hn b Hb).
    rewrite nth_repeat. reflexivity.
  - intros dt Hout. rewrite fold_left_app. cbn [fold_left].
    set (hist := fold_left addInterval intervals (repeat 0%nat 35)) in *.
    unfold addInterval.
    destruct Hout as [Hlo|Hhi].
    + rewrite (proj2 (Qltb_lt (dt * 1000) minPeriodMs))
        by (rewrite minPeriodMs_value; exact Hlo).
      reflexivity.
    + destruct (Qltb (dt * 1000) minPeriodMs || Qltb maxPeriodMs (dt * 1000));
        [reflexivity|].
      rewrite numBins_value. unfold floor, binMs.
      assert (H35 : (35 <= Qfloor ((dt * 1000 - minPeriodMs) / 20))%Z).
      { rewrite <- (Qfloor_Z 35). apply Qfloor_resp_le.
        rewrite minPeriodMs_value. change (inject_Z 35) with 35.
        apply Qle_shift_div_l; lra. }
      destruct (Z.ltb_spec (Qfloor ((dt * 1000 - minPeriodMs) / 20)) 35); [lia|].
      now rewrite andb_false_r.
Qed.

Lemma window_of_constant {A : Type} (a : A) (n : nat) :
  forall k m, (k + m <= n)%nat -> firstn m (skipn k (repeat a n)) = repeat a m.
Proof.
  induction n as [|n IH]; intros k m H.
  - assert (k = 0%nat) by lia. assert (m = 0%nat) by lia. subst. reflexivity.
  - destruct k as [|k]; cbn [repeat skipn].
    + destruct m as [|m]; [reflexivity|]. cbn [firstn repeat]. f_equal.
      apply (IH 0%nat m). lia.
    + apply IH. lia.
Qed.

Lemma onset_of_constant (e : Q) (n : nat) : onset_from e (repeat e n) = repeat 0 n.
Proof.
  induction n as [|n IH]; [reflexivity|].
  cbn [repeat onset_from]. rewrite IH. f_equal.
  destruct (Qltb 0 (e - e)) eqn:E; [|reflexivity].
  apply Qltb_lt in E. lra.
Qed.

Lemma sort_of_zeros (n : nat) : sortAscending (repeat 0 n) = repeat 0 n.
Proof.
  induction n as [|n IH]; [reflexivity|].
  unfold sortAscending in *. cbn [repeat fold_right]. rewrite IH.
  destruct n; reflexivity.
Qed.

Lemma peaks_of_zeros (n : nat) : pickPeaks (repeat 0 n) = seq 2 (n - 4).
Proof.
  unfold pickPeaks, peakThreshold. rewrite repeat_length, sort_of_zeros, nth_repeat.
  apply forallb_filter_id. apply forallb_forall. intros f _.
  unfold isPeak. rewrite !nth_repeat. reflexivity.
Qed.

(** Peaks in consecutive frames are one hop apart: at a sample rate above
    5120 Hz that is less than 0.2 s, and no interval is kept. *)
Lemma no_interval_between_neighbours (rate : Q) (m : nat) :
  5120 < rate ->
  forall k,
    intervals_from (inject_Z (Z.of_nat k) * (inject_Z (Z.of_nat HOP_LEN) / rate))
      (map (fun f => inject_Z (Z.of_nat f) * (inject_Z (Z.of_nat HOP_LEN) / rate))
           (seq (S k) m))
    = [].
Proof.
  intro Hrate. induction m as [|m IH]; intro k; [reflexivity|].
  cbn [seq map intervals_from].
  set (ft := inject_Z (Z.of_nat HOP_LEN) / rate) in *.
  assert (Hft : 0 < ft /\ ft < 2 # 10).
  { unfold ft. change (inject_Z (Z.of_nat HOP_LEN)) with 1024. split.
    - apply Qlt_shift_div_l; lra.
    - apply Qlt_shift_div_r; lra. }
  assert (Ed : inject_Z (Z.of_nat (S k)) * ft - inject_Z (Z.of_nat k) * ft == ft)
    by (rewrite RendererFacts.inject_nat_S; ring).
  destruct (Qle_bool (2 # 10) _) eqn:E.
  - apply Qle_bool_iff in E. rewrite Ed in E. lra.
  - cbn [andb]. apply IH.
Qed.

Lemma fold_constant_channels (c : Q) (i : nat) (rest : list (list Q)) :
  Forall (fun ch => nth i ch 0 = c) rest ->
  forall a, fold_left (fun sum ch => sum + nth i ch 0) rest a
            = fold_left (fun sum _ => sum + c) rest a.
Proof.
  induction 1 as [|ch rest Hc _ IH]; intro a; [reflexivity|].
  cbn [fold_left]. now rewrite Hc, IH.
Qed.

Section ConstantSignal.

Variable Math_sqrt : Q -> Q.
Variable alloc_ok : Z -> bool.

(** The mono window of a constant signal is constant. *)
Lemma mono_of_constant (buffer : AudioBuffer) (c : Q) (mono : list Q) :
  wf_buffer buffer ->
  Forall (Forall (eq c)) (channelData buffer) ->
  getMonoSamples alloc_ok buffer MAX_SAMPLES = Return mono ->
  exists k, mono = repeat k (List.length mono).
Proof.
  intros [Hrate [Hlen [Hch Hall]]] Hconst.
  unfold getMonoSamples, numberOfChannels, getChannelData, newFloat32Array in *.
  rewrite MAX_SAMPLES_value.
  set (length := Z.min (Z.of_nat (bufferLength buffer)) 2646000).
  destruct (Z.leb_spec length 0) as [H|_]; [unfold length in H; lia|].
  destruct (channelData buffer) as [|ch0 rest] eqn:Ecd; [simpl in Hch; lia|].
  inversion Hall as [|? ? H0 Hrest]; subst.
  inversion Hconst as [|? ? C0 Crest]; subst.
  cbn [nth_error bind tl].
  destruct (List.length (ch0 :: rest) =? 1)%nat.
  - destruct (Z.leb_spec (Z.of_nat (List.length ch0)) length).
    + intro E. injection E as <-. exists c. now apply Forall_eq_repeat.
    + destruct (alloc_ok length); cbn [bind]; [|discriminate].
      intro E. injection E as <-. exists c. apply Forall_eq_repeat.
      now apply Id3Facts.Forall_firstn.
  - destruct (alloc_ok length); cbn [bind]; [|discriminate].
    intro E. injection E as <-.
    exists (fold_left (fun sum _ => sum + c) rest c
            / inject_Z (Z.of_nat (List.length (ch0 :: rest)))).
    rewrite length_map, <- map_const. apply map_ext_in. intros i Hi. apply in_seq in Hi.
    assert (Hin : forall ch, List.length ch = bufferLength buffer -> Forall (eq c) ch ->
                             nth i ch 0 = c).
    { intros ch Hl Hc. rewrite (Forall_eq_repeat Hc). apply nth_repeat_lt.
      unfold length in Hi. lia. }
    rewrite (Hin ch0 H0 C0). f_equal.
    apply fold_constant_channels.
    rewrite Forall_forall in *. intros ch Hc. apply Hin; [now apply Hrest | now apply Crest].
Qed.

Lemma peaks_of_constant (k : Q) (n : nat) :
  (FRAME_LEN * 2 <= n)%nat ->
  peaksOfMono Math_sqrt (repeat k n) = seq 2 (numFramesOf n - 4).
Proof.
  intro Hn. unfold peaksOfMono, peakFramesOf, frameEnergies, frameMeanSquares.
  rewrite repeat_length.
  set (nf := numFramesOf n).
  assert (Hframes : forall f, In f (seq 0 nf) ->
            frameSumSquares (repeat k n) (f * HOP_LEN) / inject_Z (Z.of_nat FRAME_LEN)
            = frameSumSquares (repeat k FRAME_LEN) 0 / inject_Z (Z.of_nat FRAME_LEN)).
  { intros f Hf. apply in_seq in Hf. unfold frameSumSquares. f_equal. f_equal.
    rewrite window_of_constant.
    - cbn [skipn]. symmetry. apply firstn_all2. now rewrite repeat_length.
    - unfold nf, numFramesOf, FRAME_LEN, HOP_LEN in *.
      assert (f <= (n - 2048) / 1024)%nat by lia.
      pose proof (Nat.Div0.mul_div_le (n - 2048) 1024).
      assert (f * 1024 <= 1024 * ((n - 2048) / 1024))%nat by nia.
      lia. }
  rewrite (map_ext_in _ _ _ Hframes), map_const, map_repeat, length_seq.
  set (e := Math_sqrt _).
  assert (Hnf : (1 <= nf)%nat) by (unfold nf, numFramesOf; lia).
  destruct nf as [|nf']; [lia|].
  cbn [repeat onsetStrength]. rewrite onset_of_constant.
  change (0 :: repeat 0 nf') with (repeat 0 (S nf')).
  apply peaks_of_zeros.
Qed.

(** X19: a constant signal, silence first of all, is never given a tempo at
    a sample rate above 5120 Hz: its frames all have the same energy, every
    frame counts as a peak, and neighbouring peaks are less than 0.2 s
    apart, so that no interval is kept and [detectBPM] returns [null]. *)
Theorem constant_signal_has_no_tempo (buffer : AudioBuffer) (c : Q) :
  wf_buffer buffer ->
  Forall (Forall (eq c)) (channelData buffer) ->
  5120 < sampleRate buffer ->
  detectBPM Math_sqrt alloc_ok buffer = Return None.
Proof.
  intros Hwf Hconst Hrate. unfold detectBPM. rewrite detectBPMInner_stages.
  destruct (getMonoSamples alloc_ok buffer MAX_SAMPLES) as [mono|e] eqn:Emono;
    [|reflexivity].
  destruct (List.length mono <? FRAME_LEN * 2)%nat eqn:Elen; [reflexivity|].
  destruct (alloc_ok _); [|reflexivity].
  cbn [try_catch]. f_equal. apply Nat.ltb_ge in Elen.
  destruct (mono_of_constant buffer c mono Hwf Hconst Emono) as [k Ek].
  rewrite Ek, (peaks_of_constant k (List.length mono) Elen).
  unfold analysePeaks.
  destruct (List.length (seq 2 (numFramesOf (List.length mono) - 4)) <? 4)%nat;
    [reflexivity|].
  assert (Ei : intervalsOf (peakTimesOf (sampleRate buffer)
                              (seq 2 (numFramesOf (List.length mono) - 4))) = []).
  { unfold peakTimesOf. destruct (numFramesOf (List.length mono) - 4)%nat as [|m];
      [reflexivity|].
    cbn [seq map intervalsOf].
    apply (no_interval_between_neighbours (sampleRate buffer) m Hrate 2). }
  rewrite Ei. reflexivity.
Qed.

End ConstantSignal.

(** A second of stereo silence at 44100 Hz. *)
Lemma a_second_of_silence_has_no_tempo :
  detectBPM exact_sqrt always_alloc
            (mkBuffer 44100 (Z.to_nat 44100)
                      [repeat 0 (Z.to_nat 44100); repeat 0 (Z.to_nat 44100)])
  = Return None.
Proof.
  apply (constant_signal_has_no_tempo exact_sqrt always_alloc _ 0).
  - apply RendererFacts.wf_two_channels; [reflexivity | lia].
  - cbn [channelData].
    assert (Hz : Forall (eq 0) (repeat 0 (Z.to_nat 44100)))
      by (apply Forall_forall; intros x Hx; apply repeat_spec in Hx; now subst).
    constructor; [exact Hz|]. constructor; [exact Hz|]. constructor.
  - reflexivity.
Defined.

Lemma fold_left_channels_firstn (k i : nat) (rest : list (list Q)) :
  (i < k)%nat ->
  forall a, fold_left (fun sum c => sum + nth i c 0) (map (firstn k) rest) a
            = fold_left (fun sum c => sum + nth i c 0) rest a.
Proof.
  intro Hi. induction rest as [|ch rest IH]; intro a; [reflexivity|].
  cbn [map fold_left]. now rewrite nth_firstn_inside, IH.
Qed.

Section CapFacts.

Variable Math_sqrt : Q -> Q.
Variable alloc_ok : Z -> bool.

(** X18: only the first [MAX_SAMPLES] = 2646000 frames of a buffer count.
    When an array of that length can be had, a longer buffer gets the
    result of the buffer cut down to its first 2646000 frames, whatever
    follows them. *)
Theorem only_the_first_frames_count (buffer : AudioBuffer) :
  wf_buffer buffer ->
  alloc_ok MAX_SAMPLES = true ->
  (MAX_SAMPLES < Z.of_nat (bufferLength buffer))%Z ->
  detectBPM Math_sqrt alloc_ok buffer
  = detectBPM Math_sqrt alloc_ok
      (mkBuffer (sampleRate buffer) (Z.to_nat MAX_SAMPLES)
                (map (firstn (Z.to_nat MAX_SAMPLES)) (channelData buffer))).
Proof.
  intros [Hrate [Hlen [Hch Hall]]] Halloc Hlong.
  assert (Hmax : (0 < MAX_SAMPLES)%Z) by (rewrite MAX_SAMPLES_value; lia).
  set (cut := mkBuffer _ _ _).
  assert (Emono : getMonoSamples alloc_ok cut MAX_SAMPLES
                  = getMonoSamples alloc_ok buffer MAX_SAMPLES).
  { unfold getMonoSamples, numberOfChannels, getChannelData, newFloat32Array, cut in *.
    cbn [bufferLength channelData]. rewrite length_map.
    rewrite Z2Nat.id, Z.min_id, (Z.min_r _ MAX_SAMPLES) by lia.
    destruct (Z.leb_spec MAX_SAMPLES 0) as [H|_]; [lia|].
    destruct (channelData buffer) as [|ch0 rest] eqn:Ecd; [simpl in Hch; lia|].
    inversion Hall as [|? ? H0 Hrest]; subst.
    cbn [map nth_error bind tl]. rewrite Halloc. cbn [bind].
    destruct (List.length (ch0 :: rest) =? 1)%nat.
    - rewrite length_firstn, H0.
      destruct (Z.leb_spec (Z.of_nat (Nat.min (Z.to_nat MAX_SAMPLES) (bufferLength buffer)))
                           MAX_SAMPLES); [|lia].
      destruct (Z.leb_spec (Z.of_nat (bufferLength buffer)) MAX_SAMPLES); [lia|].
      reflexivity.
    - apply f_equal. apply map_ext_in. intros i Hi. apply in_seq in Hi.
      rewrite nth_firstn_inside by lia.
      now rewrite fold_left_channels_firstn by lia. }
  unfold detectBPM. rewrite !detectBPMInner_stages, Emono. reflexivity.
Qed.

End CapFacts.

(** A mono buffer one frame longer than the cap. *)
Lemma one_frame_over_the_cap :
  detectBPM exact_sqrt always_alloc
            (mkBuffer 44100 (S (Z.to_nat MAX_SAMPLES)) [repeat 0 (S (Z.to_nat MAX_SAMPLES))])
  = detectBPM exact_sqrt always_alloc
      (mkBuffer 44100 (Z.to_nat MAX_SAMPLES)
                (map (firstn (Z.to_nat MAX_SAMPLES)) [repeat 0 (S (Z.to_nat MAX_SAMPLES))])).
Proof.
  apply (only_the_first_frames_count exact_sqrt always_alloc
           (mkBuffer 44100 (S (Z.to_nat MAX_SAMPLES)) [repeat 0 (S (Z.to_nat MAX_SAMPLES))])).
  - unfold wf_buffer, numberOfChannels.
    cbn [sampleRate bufferLength channelData List.length].
    split; [reflexivity|]. split; [lia|]. split; [lia|].
    constructor; [apply repeat_length | constructor].
  - reflexivity.
  - cbn [bufferLength]. rewrite MAX_SAMPLES_value. lia.
Defined.

End TempoFacts.

(** ** The tempo comes from the modal bin *)
Module ModalBinFacts.
Import JsMath JsMathFacts Bpm BpmFacts TempoFacts.




Section FinalStage.

Variable Math_sqrt : Q -> Q.
Variable alloc_ok : Z -> bool.


End FinalStage.


End ModalBinFacts.

(** ** The WAV download *)
Module DownloadFacts.
Import JsMath JsMathFacts Graph AudioExport RendererFacts WavFile WavFacts Downloads.

Section PipelineFacts.

Variable Math_pow : Q -> Q -> Q.
Variable renderChunk :
  AudioBuffer -> EffectGraph -> nat -> Z -> Q -> Q -> Q -> completion AudioBuffer.
Variable alloc_ok : nat -> bool.
Hypothesis engine_ok : engine_renders renderChunk.

(** What [renderOffline] returns is a buffer as the Web Audio API hands
    them out, with the channel count and the sample rate of the source. *)
Lemma rendered_buffer_wf (buffer : AudioBuffer) (st : AudioGraphState) (sr : Z) :
  wf_buffer buffer ->
  sampleRate buffer == inject_Z sr ->
  exists rendered,
    renderOffline Math_pow renderChunk buffer st = Return rendered /\
    wf_buffer rendered /\
    numberOfChannels rendered = numberOfChannels buffer /\
    sampleRate rendered = sampleRate buffer /\
    Z.of_nat (bufferLength rendered)
    = totalFrames (map (chunkFrames (outputDuration Math_pow buffer st) (sampleRate buffer))
                       (chunkStarts (outputDuration Math_pow buffer st))).
Proof.
  intros Hwf Hrate.
  destruct (renderOffline_ok Math_pow renderChunk engine_ok buffer st sr Hwf Hrate)
    as [chunks [rendered [_ [Hres [Hshapes [Htotal [Hr [Hlen [Hpos Hdata]]]]]]]]].
  set (dur := outputDuration Math_pow buffer st) in *.
  set (frames := map (chunkFrames dur (sampleRate buffer)) (chunkStarts dur)) in *.
  assert (Hsr : (0 < sr)%Z).
  { destruct Hwf as [Hp _]. rewrite Hrate in Hp. change 0 with (inject_Z 0) in Hp.
    now rewrite <- Zlt_Qlt in Hp. }
  assert (Hframes : Forall (fun f => (1 <= f)%Z) frames).
  { unfold frames. rewrite Forall_map.
    apply (chunk_frames_all_pos dur (sampleRate buffer) sr Hrate Hsr).
    now apply outputDuration_pos. }
  assert (Hn : numberOfChannels rendered = numberOfChannels buffer)
    by (unfold numberOfChannels at 1; now rewrite Hdata, length_map, length_seq).
  exists rendered. split; [exact Hres|]. split; [|split; [exact Hn|split; [exact Hr|]]].
  - destruct Hwf as [Hp [_ [Hch _]]]. unfold wf_buffer. rewrite Hr, Hn, Hlen.
    split; [exact Hp|]. split; [lia|]. split; [exact Hch|].
    rewrite Hdata. apply Forall_map. apply Forall_forall. intros c Hc. apply in_seq in Hc.
    destruct (concat_channel_length (numberOfChannels buffer) (sampleRate buffer) c
                frames chunks) as [Hl _]; [lia | exact Hframes | exact Hshapes |].
    now rewrite Hl, Htotal.
  - rewrite Hlen, Htotal. apply Z2Nat.id. lia.
Qed.

(** X22: the WAV download of a render.  For a well-formed source at an
    integer sample rate and an engine that renders what it is asked for,
    [renderAndDownload] returns a file of 44 + 2 x channels x frames bytes,
    where the channels are the source's and the frames the sum of the
    chunks' frame counts: the header for that many channels and frames at
    the source's sample rate, followed by the 16-bit samples of the
    render. *)
Theorem wav_download_of_a_render (buffer : AudioBuffer) (st : AudioGraphState) (sr : Z) :
  let dur := outputDuration Math_pow buffer st in
  let frames := totalFrames (map (chunkFrames dur (sampleRate buffer)) (chunkStarts dur)) in
  let channels := numberOfChannels buffer in
  wf_buffer buffer ->
  sampleRate buffer == inject_Z sr ->
  alloc_ok (44 + Z.to_nat frames * (channels * 2))%nat = true ->
  exists rendered file,
    renderOffline Math_pow renderChunk buffer st = Return rendered /\
    renderAndDownload Math_pow renderChunk alloc_ok buffer st = Return file /\
    Z.of_nat (List.length file) = (44 + 2 * Z.of_nat channels * frames)%Z /\
    firstn 44 file = wavHeader channels (Z.to_nat frames) (sampleRate buffer) /\
    skipn 44 file = encodeWAV_data rendered.
Proof.
  intros dur frames channels Hwf Hrate Halloc.
  destruct (rendered_buffer_wf buffer st sr Hwf Hrate)
    as [rendered [Hres [Hrwf [Hn [Hr Hlen]]]]].
  fold dur in Hlen. fold frames in Hlen.
  assert (El : bufferLength rendered = Z.to_nat frames) by lia.
  exists rendered,
    (wavHeader (numberOfChannels rendered) (bufferLength rendered) (sampleRate rendered)
     ++ encodeWAV_data rendered).
  split; [exact Hres|]. split.
  - unfold renderAndDownload. rewrite Hres. cbn [bind].
    apply encodeWAV_bytes. rewrite El, Hn. exact Halloc.
  - assert (Hh : List.length (wavHeader (numberOfChannels rendered) (bufferLength rendered)
                                        (sampleRate rendered)) = 44%nat) by reflexivity.
    split; [|split].
    + rewrite length_app, Hh, data_length, Hn. fold channels. lia.
    + rewrite firstn_app, Hh, Nat.sub_diag, firstn_all2 by (rewrite Hh; lia).
      cbn [firstn]. rewrite app_nil_r, Hn, Hr, El. reflexivity.
    + rewrite skipn_app, Hh, Nat.sub_diag, skipn_all2 by (rewrite Hh; lia).
      reflexivity.
Qed.

End PipelineFacts.

(** The ten-second source at speed 1.25: a file of 44 + 4 x 352800 bytes. *)
Lemma ten_seconds_wav_download :
  let dur := outputDuration pow_int tenSecondSource speed125State in
  let frames :=
    totalFrames (map (chunkFrames dur (sampleRate tenSecondSource)) (chunkStarts dur)) in
  exists rendered file,
    renderOffline pow_int silentEngine tenSecondSource speed125State = Return rendered /\
    renderAndDownload pow_int silentEngine (fun _ => true) tenSecondSource speed125State
    = Return file /\
    Z.of_nat (List.length file) = (44 + 2 * Z.of_nat 2 * frames)%Z /\
    firstn 44 file = wavHeader 2 (Z.to_nat frames) (sampleRate tenSecondSource) /\
    skipn 44 file = encodeWAV_data rendered.
Proof.
  apply (wav_download_of_a_render pow_int silentEngine (fun _ => true) silentEngine_renders
           tenSecondSource speed125State 44100).
  - apply wf_two_channels; [reflexivity | lia].
  - reflexivity.
  - reflexivity.
Defined.

End DownloadFacts.

(** ** Decoded ALAC audio *)
Module AlacFacts.
Import JsMath JsMathFacts AudioExport SampleFacts AlacDecode.

(** The data section read back, frame by frame. *)
Lemma data_reads_back (buffer : AudioBuffer) :
  readInt16s (encodeWAV_data buffer)
  = flat_map (fun j => map (fun ch => pcm16 (nth j ch 0)) (channelData buffer))
             (seq 0 (bufferLength buffer)).
Proof.
  unfold encodeWAV_data.
  induction (seq 0 (bufferLength buffer)) as [|j js IH]; [reflexivity|].
  cbn [flat_map].
  rewrite (readInt16s_frame (fun ch => nth j ch 0) (channelData buffer)).
  now rewrite IH.
Qed.

Lemma store_next (f : nat -> Q) (k m : nat) (v : Q) :
  store (map f (seq 0 k) ++ repeat 0 (S m)) k v
  = (map f (seq 0 k) ++ [v]) ++ repeat 0 m.
Proof.
  unfold store.
  assert (Hk : List.length (map f (seq 0 k)) = k) by now rewrite length_map, length_seq.
  rewrite length_app, Hk. cbn [repeat List.length].
  destruct (Nat.ltb_spec k (k + S (List.length (repeat 0 m)))) as [_|H]; [|lia].
  rewrite firstn_app, Hk, Nat.sub_diag, firstn_all2 by lia. cbn [firstn].
  rewrite app_nil_r, <- app_assoc. f_equal. cbn [app]. f_equal.
  rewrite skipn_app, Hk, skipn_all2 by lia.
  replace (S k - k)%nat with 1%nat by lia. reflexivity.
Qed.

(** Exactly as many iterations as the channel has room fill it. *)
Lemma fillChannel_fills (interleaved : list Q) (n c : nat) (m : nat) :
  forall k,
    fillChannel interleaved n c (seq k m)
                (map (fun i => nth (i * n + c) interleaved 0) (seq 0 k) ++ repeat 0 m)
    = map (fun i => nth (i * n + c) interleaved 0) (seq 0 (k + m)).
Proof.
  induction m as [|m IH]; intro k; cbn [seq fillChannel].
  - cbn [repeat]. now rewrite app_nil_r, Nat.add_0_r.
  - rewrite store_next.
    replace (map (fun i => nth (i * n + c) interleaved 0) (seq 0 k)
             ++ [nth (k * n + c) interleaved 0])
      with (map (fun i => nth (i * n + c) interleaved 0) (seq 0 (S k)))
      by (rewrite seq_S, map_app; reflexivity).
    rewrite IH. f_equal. f_equal. lia.
Qed.

(** Iterations past the end of the channel change nothing. *)
Lemma fillChannel_past_the_end (interleaved : list Q) (n c : nat) (count : nat) :
  forall j ch, (List.length ch <= j)%nat ->
    fillChannel interleaved n c (seq j count) ch = ch.
Proof.
  induction count as [|count IH]; intros j ch H; cbn [seq fillChannel]; [reflexivity|].
  unfold store. destruct (Nat.ltb_spec j (List.length ch)); [lia|].
  apply IH. lia.
Qed.

Lemma fillChannel_app (interleaved : list Q) (n c : nat) (l1 l2 : list nat) :
  forall ch, fillChannel interleaved n c (l1 ++ l2) ch
             = fillChannel interleaved n c l2 (fillChannel interleaved n c l1 ch).
Proof.
  induction l1 as [|i l1 IH]; intro ch; [reflexivity|].
  cbn [app fillChannel]. apply IH.
Qed.

Lemma floor_of_quotient (a b : Z) :
  (0 < b)%Z -> Qfloor (inject_Z a / inject_Z b) = (a / b)%Z.
Proof.
  intro Hb.
  assert (Hq : 0 < inject_Z b) by (change 0 with (inject_Z 0); now rewrite <- Zlt_Qlt).
  pose proof (Z.div_mod a b ltac:(lia)) as Hdm.
  pose proof (Z.mod_pos_bound a b Hb) as Hm.
  apply floor_unique.
  - apply Qle_shift_div_l; [exact Hq|]. rewrite <- inject_Z_mult, <- Zle_Qle. nia.
  - apply Qlt_shift_div_r; [exact Hq|]. rewrite <- inject_Z_mult, <- Zlt_Qlt. nia.
Qed.

Lemma ceiling_after_floor (x : Q) : (Qfloor x <= Qceiling x <= Qfloor x + 1)%Z.
Proof.
  pose proof (Qfloor_le x) as H1. pose proof (Qlt_floor x) as H2.
  pose proof (Qle_ceiling x) as H3. pose proof (Qceiling_lt x) as H4.
  assert (A : inject_Z (Qfloor x) <= inject_Z (Qceiling x)) by lra.
  assert (B : inject_Z (Qceiling x - 1) < inject_Z (Qfloor x + 1)) by lra.
  rewrite <- Zle_Qle in A. rewrite <- Zlt_Qlt in B. lia.
Qed.

Lemma seq_from (start n : nat) : seq start n = map (fun c => (start + c)%nat) (seq 0 n).
Proof.
  revert start. induction n as [|n IH]; intro start; [reflexivity|].
  cbn [seq map]. rewrite Nat.add_0_r. f_equal.
  rewrite (IH (S start)), (IH 1%nat), map_map. apply map_ext. intro c. lia.
Qed.

(** Frames of [n] samples one after the other are the samples in order. *)
Lemma frames_in_order {B : Type} (g : nat -> B) (n frames : nat) :
  flat_map (fun j => map (fun c => g (j * n + c)%nat) (seq 0 n)) (seq 0 frames)
  = map g (seq 0 (frames * n)).
Proof.
  induction frames as [|frames IH]; [reflexivity|].
  rewrite seq_S, flat_map_app, IH. cbn [flat_map Nat.add]. rewrite app_nil_r.
  replace (S frames * n)%nat with (frames * n + n)%nat by lia.
  rewrite seq_app, map_app. f_equal.
  cbn [Nat.add]. rewrite (seq_from (frames * n) n), map_map. reflexivity.
Qed.

Lemma flat_map_agree {A B : Type} (f g : A -> list B) (l : list A) :
  (forall a, In a l -> f a = g a) -> flat_map f l = flat_map g l.
Proof.
  induction l as [|a l IH]; intro H; [reflexivity|].
  cbn [flat_map]. rewrite (H a (or_introl eq_refl)), IH; [reflexivity|].
  intros a' Ha'. apply H. now right.
Qed.

Lemma map_nth_all {B : Type} (h : Q -> B) (x : list Q) :
  map (fun k => h (nth k x 0)) (seq 0 (List.length x)) = map h x.
Proof.
  induction x as [|a x IH]; [reflexivity|].
  cbn [List.length seq map nth]. f_equal.
  rewrite <- seq_shift, map_map. exact IH.
Qed.

(** X23: decoded ALAC audio keeps every sample in its place.  For at least
    one channel and at least one whole frame of interleaved samples, the
    callback of [decodeToBuffer] returns a well-formed buffer with the
    announced channel count and sample rate and floor(length / channels)
    frames, where sample [i] of channel [c] is the interleaved sample
    [i * channels + c]; and when the samples are whole frames, the WAV data
    section of that buffer is the interleaved samples again, in order, each
    converted to 16 bits. *)
Theorem decoded_alac_keeps_the_samples (numChannels : nat) (rate : Q) (interleaved : list Q) :
  (1 <= numChannels)%nat ->
  0 < rate ->
  (numChannels <= List.length interleaved)%nat ->
  exists buffer,
    decodeToBuffer (Some (numChannels, rate)) interleaved = Return buffer /\
    wf_buffer buffer /\
    numberOfChannels buffer = numChannels /\
    sampleRate buffer = rate /\
    bufferLength buffer = (List.length interleaved / numChannels)%nat /\
    (forall c i, (c < numChannels)%nat -> (i < bufferLength buffer)%nat ->
       nth i (channelOf c buffer) 0 = nth (i * numChannels + c) interleaved 0) /\
    ((List.length interleaved mod numChannels = 0)%nat ->
       readInt16s (encodeWAV_data buffer) = map pcm16 interleaved).
Proof.
  intros Hn Hrate Hlen.
  set (F := (List.length interleaved / numChannels)%nat).
  assert (HF : (1 <= F)%nat) by (unfold F; apply Nat.div_str_pos; lia).
  assert (Efloor : Z.to_nat (Qfloor (inject_Z (Z.of_nat (List.length interleaved))
                                     / inject_Z (Z.of_nat numChannels))) = F).
  { rewrite floor_of_quotient by lia. unfold F.
    rewrite <- Nat2Z.inj_div. apply Nat2Z.id. }
  assert (Eceil : exists e, Z.to_nat (Qceiling (inject_Z (Z.of_nat (List.length interleaved))
                                                / inject_Z (Z.of_nat numChannels)))
                            = (F + e)%nat).
  { pose proof (ceiling_after_floor (inject_Z (Z.of_nat (List.length interleaved))
                                     / inject_Z (Z.of_nat numChannels))) as Hc.
    set (q := inject_Z (Z.of_nat (List.length interleaved))
              / inject_Z (Z.of_nat numChannels)) in *.
    assert (H0 : (0 <= Qfloor q)%Z)
      by (unfold q; rewrite floor_of_quotient by lia; apply Z.div_pos; lia).
    exists (Z.to_nat (Qceiling q) - F)%nat. lia. }
  destruct Eceil as [e Eceil].
  set (f := fun c i => nth (i * numChannels + c) interleaved 0).
  assert (Hfill : forall c, (c < numChannels)%nat ->
            fillChannel interleaved numChannels c (seq 0 (F + e))
                        (nth c (repeat (repeat 0 F) numChannels) [])
            = map (f c) (seq 0 F)).
  { intros c Hc. rewrite nth_repeat_lt by exact Hc.
    rewrite seq_app, fillChannel_app. cbn [Nat.add].
    pose proof (fillChannel_fills interleaved numChannels c F 0) as Hf.
    cbn [seq map app Nat.add] in Hf. rewrite Hf.
    apply fillChannel_past_the_end. now rewrite length_map, length_seq. }
  exists (mkBuffer rate F (map (fun c => map (f c) (seq 0 F)) (seq 0 numChannels))).
  split.
  { unfold decodeToBuffer, createBuffer. rewrite Efloor, Eceil.
    destruct (Nat.eqb_spec numChannels 0); [lia|].
    destruct (Nat.eqb_spec F 0); [lia|].
    cbn [orb bind sampleRate bufferLength channelData]. f_equal. f_equal.
    apply map_ext_in. intros c Hc. apply in_seq in Hc. apply Hfill. lia. }
  unfold numberOfChannels, channelOf. cbn [sampleRate bufferLength channelData].
  rewrite length_map, length_seq.
  split.
  { unfold wf_buffer, numberOfChannels. cbn [sampleRate bufferLength channelData].
    rewrite length_map, length_seq. repeat split; try assumption.
    apply Forall_map, Forall_forall. intros c _. now rewrite length_map, length_seq. }
  split; [reflexivity|]. split; [reflexivity|]. split; [reflexivity|]. split.
  - intros c i Hc Hi.
    rewrite (nth_indep _ [] (map (f 0%nat) (seq 0 F)))
      by (rewrite length_map, length_seq; exact Hc).
    rewrite (map_nth (fun c => map (f c) (seq 0 F))), seq_nth by exact Hc.
    rewrite (nth_indep _ 0 (f (0 + c)%nat 0%nat))
      by (rewrite length_map, length_seq; exact Hi).
    rewrite (map_nth (f (0 + c)%nat)), seq_nth by exact Hi. reflexivity.
  - intro Hwhole. rewrite data_reads_back. cbn [bufferLength channelData].
    assert (Erow : forall j, In j (seq 0 F) ->
              map (fun ch => pcm16 (nth j ch 0))
                  (map (fun c => map (f c) (seq 0 F)) (seq 0 numChannels))
              = map (fun c => pcm16 (nth (j * numChannels + c) interleaved 0))
                    (seq 0 numChannels)).
    { intros j Hj. apply in_seq in Hj. rewrite map_map. apply map_ext. intro c.
      rewrite (nth_indep _ 0 (f c 0%nat)) by (rewrite length_map, length_seq; lia).
      rewrite (map_nth (f c)), seq_nth by lia. reflexivity. }
    rewrite (flat_map_agree _ _ _ Erow).
    rewrite (frames_in_order (fun k => pcm16 (nth k interleaved 0)) numChannels F).
    replace (F * numChannels)%nat with (List.length interleaved).
    + apply map_nth_all.
    + unfold F. pose proof (Nat.div_mod_eq (List.length interleaved) numChannels). nia.
Qed.

(** Six interleaved samples as three stereo frames. *)
Lemma six_samples_decoded :
  exists buffer,
    decodeToBuffer (Some (2%nat, 44100)) sixSamples = Return buffer /\
    wf_buffer buffer /\
    numberOfChannels buffer = 2%nat /\
    sampleRate buffer = 44100 /\
    bufferLength buffer = (List.length sixSamples / 2)%nat /\
    (forall c i, (c < 2)%nat -> (i < bufferLength buffer)%nat ->
       nth i (channelOf c buffer) 0 = nth (i * 2 + c) sixSamples 0) /\
    ((List.length sixSamples mod 2 = 0)%nat ->
       readInt16s (encodeWAV_data buffer) = map pcm16 sixSamples).
Proof.
  apply (decoded_alac_keeps_the_samples 2 44100 sixSamples).
  - lia.
  - reflexivity.
  - simpl. lia.
Defined.

End AlacFacts.

(** ** The time display *)
Module ControlsFacts.
Import JsMath JsMathFacts Graph Playback TransportFacts Controls.

Lemma floor_of_sixtieth (x : Q) : Qfloor (x / 60) = (Qfloor x / 60)%Z.
Proof.
  pose proof (Qfloor_le x) as H1. pose proof (Qlt_floor x) as H2.
  pose proof (Z.div_mod (Qfloor x) 60 ltac:(lia)) as Hdm.
  pose proof (Z.mod_pos_bound (Qfloor x) 60 ltac:(lia)) as Hm.
  set (F := Qfloor x) in *. set (q := (F / 60)%Z) in *. set (r := (F mod 60)%Z) in *.
  assert (EF : inject_Z F == 60 * inject_Z q + inject_Z r).
  { rewrite Hdm, inject_Z_plus, inject_Z_mult. reflexivity. }
  assert (Hr0 : 0 <= inject_Z r) by (change 0 with (inject_Z 0); rewrite <- Zle_Qle; lia).
  assert (Hr1 : inject_Z r <= 59) by (change 59 with (inject_Z 59); rewrite <- Zle_Qle; lia).
  rewrite inject_Z_plus in H2. change (inject_Z 1) with 1 in H2.
  apply floor_unique.
  - apply Qle_shift_div_l; lra.
  - rewrite inject_Z_plus. change (inject_Z 1) with 1. apply Qlt_shift_div_r; lra.
Qed.

Lemma floor_minus_integer (x : Q) (n : Z) : Qfloor (x - inject_Z n) = (Qfloor x - n)%Z.
Proof.
  pose proof (Qfloor_le x) as H1. pose proof (Qlt_floor x) as H2.
  rewrite inject_Z_plus in H2. change (inject_Z 1) with 1 in H2.
  apply floor_unique.
  - unfold Z.sub. rewrite inject_Z_plus, inject_Z_opp. lra.
  - replace (Qfloor x - n + 1)%Z with (Qfloor x + 1 + - n)%Z by lia.
    rewrite !inject_Z_plus, inject_Z_opp. change (inject_Z 1) with 1. lra.
Qed.

Lemma two_digits (k : Z) :
  (0 <= k < 60)%Z ->
  padStart 2 "0" (decimal k)
  = String (digitChar (k / 10)) (String (digitChar (k mod 10)) EmptyString).
Proof.
  intro H.
  assert (Hall : forallb (fun n =>
                    String.eqb (padStart 2 "0" (decimal (Z.of_nat n)))
                               (String (digitChar (Z.of_nat n / 10))
                                  (String (digitChar (Z.of_nat n mod 10)) EmptyString)))
                  (seq 0 60) = true) by (vm_compute; reflexivity).
  rewrite forallb_forall in Hall.
  specialize (Hall (Z.to_nat k) ltac:(apply in_seq; lia)).
  rewrite Z2Nat.id in Hall by lia. now apply String.eqb_eq.
Qed.

Lemma numberToString_safe (n : Z) :
  (0 <= n <= MAX_SAFE_INTEGER)%Z -> numberToString n = Some (decimal n).
Proof.
  intro H. unfold numberToString.
  destruct (Z.abs n <=? MAX_SAFE_INTEGER)%Z eqn:E; [reflexivity|].
  apply Z.leb_gt in E. lia.
Qed.

(** X24: [formatTime] shows whole minutes and two-digit seconds.  For a
    time of zero or more and below 2^53 seconds, with t = floor(seconds),
    the text is t div 60 in decimal, a colon, and t mod 60 written with
    exactly two digits.  (Below 2^53 the quotient and the remainder the
    code computes in binary64 have these integer parts, and both are safe
    integers, which print digit for digit.) *)
Theorem formatTime_minutes_and_seconds (seconds : Q) :
  0 <= seconds -> seconds < inject_Z (2 ^ 53) ->
  let t := Qfloor seconds in
  formatTime seconds
  = Some (decimal (t / 60) ++ ":"
          ++ String (digitChar ((t mod 60) / 10))
                    (String (digitChar ((t mod 60) mod 10)) EmptyString))%string.
Proof.
  intros Hs Hb t. unfold formatTime, floor.
  rewrite floor_of_sixtieth. fold t.
  assert (Ht : (0 <= t)%Z).
  { unfold t. rewrite <- (Qfloor_Z 0). apply Qfloor_resp_le. exact Hs. }
  assert (Ht' : (t < 2 ^ 53)%Z).
  { unfold t. pose proof (Qfloor_le seconds) as Hf.
    rewrite Zlt_Qlt. lra. }
  assert (Hq : (0 <= t / 60)%Z) by (apply Z.div_pos; lia).
  assert (Hq' : (t / 60 <= t)%Z) by (apply Z.div_le_upper_bound; lia).
  assert (Er : Qfloor (remainder seconds 60) = (t mod 60)%Z).
  { unfold remainder.
    assert (Hn : Qltb (seconds / 60) 0 = false).
    { destruct (Qltb (seconds / 60) 0) eqn:E; [|reflexivity].
      apply Qltb_lt in E.
      assert (0 <= seconds / 60) by (apply Qle_shift_div_l; lra). lra. }
    rewrite Hn, floor_of_sixtieth. fold t.
    assert (E : seconds - 60 * inject_Z (t / 60) == seconds - inject_Z (60 * (t / 60)))
      by (rewrite inject_Z_mult; reflexivity).
    rewrite (Qfloor_comp _ _ E), floor_minus_integer. fold t.
    pose proof (Z.div_mod t 60 ltac:(lia)). lia. }
  pose proof (Z.mod_pos_bound t 60 ltac:(lia)) as Hm.
  rewrite Er.
  rewrite (numberToString_safe (t / 60)) by (unfold MAX_SAFE_INTEGER; lia).
  rewrite (numberToString_safe (t mod 60)) by (unfold MAX_SAFE_INTEGER; lia).
  rewrite two_digits by exact Hm.
  reflexivity.
Qed.

(** Two minutes and five and a half seconds. *)
Lemma format_125_seconds_and_a_half : formatTime (251 # 2) = Some "2:05"%string.
Proof.
  apply (formatTime_minutes_and_seconds (251 # 2)); [discriminate | reflexivity].
Defined.

Section DisplayFacts.

Variable Math_pow : Q -> Q -> Q.

(** X25: the display never runs past the end.  Along every sequence of
    calls and events, at every clock time, the current time shown is at
    most the total time shown, and the value given to the progress bar is
    at most 100. *)
Theorem displayed_time_within_total (dur : Q) (events : list (Q * Op)) (now : Q) :
  0 <= dur -> speeds_positive events ->
  let p := runEvents dur events in
  getRuntimeCurrentTime Math_pow now p <= getRuntimeDuration Math_pow p /\
  progressPercent now p <= 100.
Proof.
  intros Hd Hs p.
  destruct (runEvents_ok dur events Hd Hs) as [_ [_ [Ho Hd']]]. fold p in Ho, Hd'.
  pose proof (getCurrentTime_le now p Ho) as Hc.
  unfold getRuntimeCurrentTime, getRuntimeDuration, progressPercent. split.
  - destruct (Qltb 0 (getEffectiveRate Math_pow p)) eqn:E; [|exact Hc].
    apply Qltb_lt in E. unfold Qdiv. apply Qmult_le_compat_r; [exact Hc|].
    apply Qinv_le_0_compat. lra.
  - destruct (Qltb 0 (bufferDuration p)) eqn:E; [|lra].
    apply Qltb_lt in E.
    assert (H1 : getCurrentTime now p / bufferDuration p <= 1)
      by (apply Qle_shift_div_r; lra).
    lra.
Qed.

End DisplayFacts.

(** A three-minute buffer at double speed, sought past its end. *)
Lemma display_after_seeking_past_the_end :
  let p := runEvents 180 [(0, OCall (SetSpeed 2)); (1, OCall Play); (5, OSeek 999)] in
  getRuntimeCurrentTime AudioExport.pow_int 7 p <= getRuntimeDuration AudioExport.pow_int p /\
  progressPercent 7 p <= 100.
Proof.
  apply (displayed_time_within_total AudioExport.pow_int 180 _ 7).
  - discriminate.
  - repeat constructor.
Defined.

End ControlsFacts.

(** ** The bins the visualizers draw *)
Module VisualizerFacts.
Import Visualizer.

(** With no more bars than bins, bar [i] reads bin [i * step]: the cap at
    the last bin never acts. *)
Lemma binsRead_spec (effectiveLen cap : Z) (len : nat) :
  (1 <= cap)%Z -> (effectiveLen <= Z.of_nat len)%Z ->
  let barCount := Z.min effectiveLen cap in
  List.length (binsRead effectiveLen barCount) = Z.to_nat barCount /\
  (forall i, (i < List.length (binsRead effectiveLen barCount))%nat ->
     nth i (binsRead effectiveLen barCount) 0%Z
     = (Z.of_nat i * stepOf effectiveLen barCount)%Z) /\
  (1 <= stepOf effectiveLen barCount)%Z /\
  distinct_bins_inside len (binsRead effectiveLen barCount).
Proof.
  intros Hcap Hlen barCount.
  assert (Hcount : List.length (binsRead effectiveLen barCount) = Z.to_nat barCount)
    by (unfold binsRead; now rewrite length_map, length_seq).
  assert (Hstep1 : (1 <= stepOf effectiveLen barCount)%Z) by (unfold stepOf; lia).
  assert (Hnth : forall i, (i < Z.to_nat barCount)%nat ->
            nth i (binsRead effectiveLen barCount) 0%Z
            = (Z.of_nat i * stepOf effectiveLen barCount)%Z /\
            (Z.of_nat i * stepOf effectiveLen barCount <= effectiveLen - 1)%Z).
  { intros i Hi. unfold binsRead.
    set (f := fun i0 : nat => _).
    rewrite (nth_indep _ 0%Z (f 0%nat)) by (rewrite length_map, length_seq; exact Hi).
    rewrite map_nth, seq_nth by exact Hi. unfold f, binIndexOf. cbn [Nat.add].
    assert (Hb : (1 <= barCount <= effectiveLen)%Z) by (unfold barCount in *; lia).
    assert (Es : stepOf effectiveLen barCount = (effectiveLen / barCount)%Z).
    { unfold stepOf, JsMath.floor. rewrite AlacFacts.floor_of_quotient by lia.
      assert ((1 <= effectiveLen / barCount)%Z)
        by (apply Z.div_le_lower_bound; lia).
      lia. }
    rewrite Es in *.
    pose proof (Z.mul_div_le effectiveLen barCount ltac:(lia)) as Hm.
    assert (Hle : (Z.of_nat i * (effectiveLen / barCount) <= effectiveLen - 1)%Z) by nia.
    split; [lia | exact Hle]. }
  split; [exact Hcount|]. split; [|split; [exact Hstep1|]].
  - intros i Hi. apply Hnth. lia.
  - split.
    + apply Forall_forall. intros b Hb. apply (In_nth _ _ 0%Z) in Hb.
      destruct Hb as [i [Hi Eb]]. rewrite Hcount in Hi.
      destruct (Hnth i Hi) as [E Hle]. rewrite <- Eb, E. nia.
    + intros i j Hij. rewrite Hcount in Hij.
      destruct (Hnth i ltac:(lia)) as [Ei _]. destruct (Hnth j ltac:(lia)) as [Ej _].
      rewrite Ei, Ej. nia.
Qed.

Lemma effectiveLenOf_le (frequencyEndIndex : option Z) (len : nat) :
  (effectiveLenOf frequencyEndIndex len <= Z.of_nat len)%Z.
Proof. unfold effectiveLenOf. destruct frequencyEndIndex; lia. Qed.

(** X26: the visualizers read inside the frequency data.  In [drawBars],
    [drawMirror], [drawCircular] and [drawLine], for any end index and any
    requested bar count, every bin index the loop computes lies inside
    [frequencyData], and each bar reads a bin further up than the bar
    before it: no bar falls back on the value 0 for a missing entry, and no
    two bars show the same bin. *)
Theorem visualizers_read_inside_the_data
    (frequencyEndIndex barCount : option Z) (len : nat) :
  distinct_bins_inside len (drawBars_bins frequencyEndIndex barCount len) /\
  distinct_bins_inside len (drawMirror_bins frequencyEndIndex len) /\
  distinct_bins_inside len (drawCircular_bins frequencyEndIndex len) /\
  distinct_bins_inside len (drawLine_bins frequencyEndIndex len) /\
  (List.length (drawBars_bins frequencyEndIndex barCount len) <= 512)%nat.
Proof.
  pose proof (effectiveLenOf_le frequencyEndIndex len) as Hlen.
  unfold drawBars_bins, drawMirror_bins, drawCircular_bins, drawLine_bins.
  set (e := effectiveLenOf frequencyEndIndex len) in *.
  set (c := Z.max 16 (Z.min 512 match barCount with Some b => b | None => 128%Z end)).
  assert (Hc : (16 <= c <= 512)%Z) by (unfold c; lia).
  split; [apply (binsRead_spec e c len); lia|].
  split; [apply (binsRead_spec e 128 len); lia|].
  split; [apply (binsRead_spec e 180 len); lia|].
  split; [apply (binsRead_spec e 256 len); lia|].
  destruct (binsRead_spec e c len ltac:(lia) Hlen) as [Hl _].
  rewrite Hl. lia.
Qed.

End VisualizerFacts.

(** ** The live chain on JavaScript numbers: what is stored, and what the
    nodes carry *)
Module LiveChainFacts.
Import JsMath JsMathFacts AudioExport LiveChain.

(** The clamp of the three percentage setters, case by case. *)
Lemma clamp_is_clampPercent (v : number) :
  Math_max (Finite 0) (Math_min (Finite 100) v) = clampPercent v.
Proof.
  destruct v as [q| | |]; try reflexivity.
  cbn [Math_min leb clampPercent].
  destruct (Qle_bool 100 q) eqn:E100.
  - apply Qle_bool_iff in E100.
    assert (E0 : Qltb q 0 = false) by (apply Qltb_ge; lra).
    rewrite E0. reflexivity.
  - cbn [Math_max leb]. unfold Qltb.
    destruct (Qle_bool 0 q); reflexivity.
Qed.

Lemma clampPercent_range (v : number) : v <> NaN -> isPercent (clampPercent v).
Proof.
  intro Hv. destruct v as [q| | |]; cbn [clampPercent isPercent];
    try (split; lra); [|congruence].
  destruct (Qltb q 0) eqn:E0; [cbn; split; lra|].
  apply Qltb_ge in E0.
  destruct (Qle_bool 100 q) eqn:E100; [cbn; split; lra|].
  apply Qle_bool_false in E100. cbn. split; lra.
Qed.

Lemma assign_state (write : Q -> AudioGraph -> AudioGraph) (v : number) (g : AudioGraph) :
  (forall q h, state (write q h) = state h) ->
  state (fst (assign write v g)) = state g.
Proof. intro H. destruct v; cbn; auto. Qed.

Lemma andThen_state (first second : AudioGraph -> Outcome) (g : AudioGraph) :
  (forall h, state (fst (first h)) = state h) ->
  (forall h, state (fst (second h)) = state h) ->
  state (fst (andThen first second g)) = state g.
Proof.
  intros H1 H2. unfold andThen. specialize (H1 g).
  destruct (first g) as [g' [err|]]; cbn [fst] in *; [exact H1|].
  now rewrite H2.
Qed.

Lemma write_playbackRate_state (q : Q) (h : AudioGraph) :
  state (write_playbackRate q h) = state h.
Proof. unfold write_playbackRate. destruct (source h); reflexivity. Qed.

Lemma write_sourceDetune_state (q : Q) (h : AudioGraph) :
  state (write_sourceDetune q h) = state h.
Proof. unfold write_sourceDetune. destruct (source h); reflexivity. Qed.

Section ChainFacts.

Variable Math_pow : Q -> Q -> Q.

(** The helpers that write node parameters leave the stored state alone. *)
Lemma setFilterFreqs_state (g : AudioGraph) :
  state (fst (setFilterFreqs Math_pow g)) = state g.
Proof.
  unfold setFilterFreqs. apply andThen_state; intro h; apply assign_state; reflexivity.
Qed.

Lemma setReverbGains_state (amount : number) (g : AudioGraph) :
  state (fst (setReverbGains amount g)) = state g.
Proof.
  unfold setReverbGains.
  destruct (reverbType (state g));
    apply andThen_state; intro h; apply assign_state; reflexivity.
Qed.

(** What a call stores in the three percentage fields. *)
Lemma step_percentages (g : AudioGraph) (c : Call) :
  let s := state g in
  let s' := state (fst (step Math_pow g c)) in
  lowpass s' = match c with SetLowpass v => clampPercent v | _ => lowpass s end /\
  highpass s' = match c with SetHighpass v => clampPercent v | _ => highpass s end /\
  reverb s' = match c with SetReverb v => clampPercent v | _ => reverb s end.
Proof.
  cbv zeta. destruct c; cbn [step].
  - unfold setSpeed. cbn [source with_state].
    destruct (source g); [rewrite assign_state by apply write_playbackRate_state|];
      cbn; auto.
  - unfold setDetune. cbn [source with_state].
    destruct (source g); [rewrite assign_state by apply write_sourceDetune_state|];
      cbn; auto.
  - unfold setBass. rewrite assign_state by reflexivity. cbn. auto.
  - unfold setTreble. rewrite assign_state by reflexivity. cbn. auto.
  - unfold setLowpass. rewrite setFilterFreqs_state.
    cbn [with_state state lowpass highpass reverb].
    rewrite clamp_is_clampPercent. auto.
  - unfold setHighpass. rewrite setFilterFreqs_state.
    cbn [with_state state lowpass highpass reverb].
    rewrite clamp_is_clampPercent. auto.
  - unfold setReverb. rewrite setReverbGains_state.
    cbn [with_state state lowpass highpass reverb].
    rewrite clamp_is_clampPercent. auto.
  - unfold setReverbType. rewrite setReverbGains_state. cbn. auto.
  - unfold setVolume. rewrite assign_state by reflexivity. cbn. auto.
  - unfold play. rewrite andThen_state; [cbn; auto | |];
      intro h; apply assign_state;
      [apply write_playbackRate_state | apply write_sourceDetune_state].
  - cbn. auto.
Qed.

Lemma live_fields_step (g : AudioGraph) (c : Call) :
  percentage_given c ->
  percent_fields_ok (state g) -> percent_fields_ok (state (fst (step Math_pow g c))).
Proof.
  intros Hc [Hl [Hh Hr]].
  destruct (step_percentages g c) as [El [Eh Er]]. cbv zeta in *.
  unfold percent_fields_ok. rewrite El, Eh, Er.
  destruct c; cbn [percentage_given] in Hc; repeat split;
    try assumption; now apply clampPercent_range.
Qed.

Lemma run_from_cons (g : AudioGraph) (c : Call) (rest : list Call) :
  fst (run_from Math_pow g (c :: rest))
  = fst (run_from Math_pow (fst (step Math_pow g c)) rest).
Proof.
  cbn [run_from]. destruct (step Math_pow g c) as [g' thrown]. cbn [fst].
  destruct (run_from Math_pow g' rest). reflexivity.
Qed.

Lemma live_fields_run (calls : list Call) :
  forall g, Forall percentage_given calls ->
    percent_fields_ok (state g) ->
    percent_fields_ok (state (fst (run_from Math_pow g calls))).
Proof.
  induction calls as [|c rest IH]; intros g Hcalls Hg; [exact Hg|].
  inversion Hcalls as [|? ? Hc Hrest]; subst.
  rewrite run_from_cons. apply IH; [exact Hrest|].
  now apply live_fields_step.
Qed.

Lemma live_fields_initial : percent_fields_ok (state (createAudioGraph Math_pow)).
Proof.
  unfold createAudioGraph. rewrite setFilterFreqs_state.
  cbn. repeat split; lra.
Qed.

(** C1 (amended): what the setters of the live chain store.  Whatever
    number it is given, each of [setLowpass], [setHighpass] and [setReverb]
    stores its argument clamped to [[0, 100]]: the argument itself when it
    lies in the range, 0 when it is below (or minus infinity), 100 when it
    is above (or plus infinity).  So along every sequence of calls in which
    no percentage is NaN, the stored [lowpass], [highpass] and [reverb] are
    finite numbers of [[0, 100]].  A NaN percentage is stored as NaN, and
    the call throws the [TypeError] of a node parameter that is given a
    number that is not finite.  [setSpeed] and [setVolume] do not clamp:
    they store their argument as it is, negative values included. *)
Theorem stored_percentages_clamped_speed_volume_verbatim :
  (forall (g : AudioGraph) (amount : number),
      lowpass (getState (fst (setLowpass Math_pow amount g))) = clampPercent amount /\
      highpass (getState (fst (setHighpass Math_pow amount g))) = clampPercent amount /\
      reverb (getState (fst (setReverb amount g))) = clampPercent amount) /\
  (forall q : Q,
      (q < 0 -> clampPercent (Finite q) = Finite 0) /\
      (100 < q -> clampPercent (Finite q) = Finite 100) /\
      (0 <= q -> q <= 100 -> exists r, clampPercent (Finite q) = Finite r /\ r == q)) /\
  (clampPercent NegInfinity = Finite 0 /\ clampPercent PosInfinity = Finite 100 /\
   clampPercent NaN = NaN) /\
  (forall calls : list Call,
      Forall percentage_given calls ->
      percent_fields_ok (getState (fst (run Math_pow calls)))) /\
  (forall g : AudioGraph,
      snd (setLowpass Math_pow NaN g) = Some nonFinite /\
      snd (setHighpass Math_pow NaN g) = Some nonFinite /\
      snd (setReverb NaN g) = Some nonFinite) /\
  (forall (g : AudioGraph) (value : number),
      speed (getState (fst (setSpeed value g))) = value /\
      volume (getState (fst (setVolume value g))) = value).
Proof.
  unfold getState. split; [|split; [|split; [|split; [|split]]]].
  - intros g amount.
    pose proof (step_percentages g (SetLowpass amount)) as [H1 _].
    pose proof (step_percentages g (SetHighpass amount)) as [_ [H2 _]].
    pose proof (step_percentages g (SetReverb amount)) as [_ [_ H3]].
    cbv zeta in *. cbn [step] in *. auto.
  - intro q. cbn [clampPercent]. split; [|split].
    + intro H. now rewrite (proj2 (Qltb_lt q 0) H).
    + intro H.
      rewrite (proj2 (Qltb_ge q 0)) by lra.
      now rewrite (proj2 (Qle_bool_iff 100 q)) by lra.
    + intros H0 H100. rewrite (proj2 (Qltb_ge q 0) H0).
      destruct (Qle_bool 100 q) eqn:E.
      * apply Qle_bool_iff in E. exists 100. split; [reflexivity | lra].
      * exists q. split; reflexivity.
  - repeat split.
  - intros calls Hcalls. unfold run.
    apply live_fields_run; [exact Hcalls | exact live_fields_initial].
  - intro g. split; [reflexivity|]. split.
    + unfold setHighpass, setFilterFreqs, andThen.
      cbn [state with_state lowpass highpass Math_min Math_max divQ leb].
      destruct (lowpass (state g)) as [q| | |]; cbn [divQ leb];
        [destruct (Qle_bool (q / 100) 0)| | |]; reflexivity.
    + unfold setReverb, setReverbGains.
      cbn [state with_state reverb reverbType Math_min Math_max].
      destruct (reverbType (state g)); reflexivity.
  - intros g value. split.
    + unfold setSpeed. cbn [source with_state].
      destruct (source g); [rewrite assign_state by apply write_playbackRate_state|];
        reflexivity.
    + unfold setVolume. rewrite assign_state by reflexivity. reflexivity.
Qed.







End ChainFacts.

(** Calls with arguments below 0, above 100 and infinite, and a NaN that
    is no percentage. *)
Lemma percentages_stay_in_range_under_wild_arguments :
  percent_fields_ok
    (getState (fst (run AudioExport.pow_int
                        [SetLowpass (Finite 250); SetHighpass (Finite (-3));
                         SetReverb PosInfinity; SetBass NaN; SetLowpass (Finite 40)]))).
Proof.
  apply (proj1 (proj2 (proj2 (proj2
           (stored_percentages_clamped_speed_volume_verbatim AudioExport.pow_int))))).
  repeat constructor; discriminate.
Defined.

End LiveChainFacts.
